(** * CrowdDetox: a shallow embedding of [Detox] (src/CrowdDetox.cpp)

    The plugin removes junk statements and junk variables from the ctree
    that the Hex-Rays decompiler hands over for one function.  [Detox]
    first marks the legitimate ctree items and local variables
    ([FIND_LEGIT_ITEMS_VISITOR]), then prunes what was not marked
    ([PRUNE_ITEMS_VISITOR]), then clears the [CVAR_USED] flag of the
    variables that were not marked.

    The ctree, its visitor engine and the text renderers belong to the
    Hex-Rays SDK.  They are modelled here from their SDK contracts; the
    two visitors and [Detox] itself are translated from the source.

    An item is known by its address ([self]), which is what the vectors
    of the visitors hold, and is changed in place at its position in the
    tree.  Loops that the source leaves to run until a flag clears take
    an amount of fuel; [Detox_loops_terminate] shows that enough fuel
    always exists. *)

From Stdlib Require Import List ZArith Bool String Ascii Lia Arith PeanoNat.
Import ListNotations.
Open Scope Z_scope.
Open Scope list_scope.

(* ================================================================== *)
(** * The ctree (Hex-Rays SDK data, consumed by the plugin) *)
(* ================================================================== *)

(** [ctype_t]: the item kinds the plugin distinguishes.  Every other
    expression opcode is [cot_other], every other statement opcode is
    [cit_other] ([cit_switch] is listed because it owns blocks). *)
Inductive ctype_t : Type :=
  | cot_empty | cot_call | cot_helper | cot_var | cot_obj | cot_other
  | cit_empty | cit_block | cit_expr | cit_if | cit_for | cit_while
  | cit_do | cit_switch | cit_break | cit_continue | cit_return
  | cit_goto | cit_asm | cit_other.

Definition ctype_eqb (a b : ctype_t) : bool :=
  match a, b with
  | cot_empty, cot_empty | cot_call, cot_call | cot_helper, cot_helper
  | cot_var, cot_var | cot_obj, cot_obj | cot_other, cot_other
  | cit_empty, cit_empty | cit_block, cit_block | cit_expr, cit_expr
  | cit_if, cit_if | cit_for, cit_for | cit_while, cit_while
  | cit_do, cit_do | cit_switch, cit_switch | cit_break, cit_break
  | cit_continue, cit_continue | cit_return, cit_return
  | cit_goto, cit_goto | cit_asm, cit_asm | cit_other, cit_other => true
  | _, _ => false
  end.

(** [citem_t::is_expr()]: [op <= cot_last]. *)
Definition op_is_expr (o : ctype_t) : bool :=
  match o with
  | cot_empty | cot_call | cot_helper | cot_var | cot_obj | cot_other => true
  | _ => false
  end.

(** The fields of one [citem_t] / [cexpr_t] / [cinsn_t] that the plugin
    reads or writes.  [self] is the address of the item: the plugin keeps
    [citem_t*] pointers in its vectors and compares them. *)
Record citem_hdr : Type := mk_hdr {
  self : nat;           (* the item's address, its identity            *)
  op : ctype_t;         (* citem_t::op                                 *)
  ea : Z;               (* citem_t::ea, an unsigned address            *)
  label_num : Z;        (* citem_t::label_num, -1 when unlabelled      *)
  v_idx : nat;          (* cexpr_t::v.idx, for cot_var                 *)
  type : string;        (* cexpr_t::type.u_str(), for expressions      *)
  helper : string;      (* cexpr_t::helper, for cot_helper             *)
  goto_label : Z        (* cgoto_t::label_num, for cit_goto            *)
}.

(** An item with the items it owns, in the order the visitor engine
    reaches them:
    - [cot_call]: the callee [x], then the arguments;
    - [cit_expr], [cit_return]: the expression;
    - [cit_if]: [cif->expr], [ithen], then [ielse] when present;
    - [cit_for]: [cfor->init], [cfor->expr], [cfor->step], the body;
    - [cit_while]: [cwhile->expr], the body;
    - [cit_do]: the body, [cdo->expr];
    - [cit_block]: the statements of the [cblock_t] list. *)
Unset Elimination Schemes.
Inductive citem_t : Type :=
  | Citem (h : citem_hdr) (ks : list citem_t).
Set Elimination Schemes.

Definition hdr (t : citem_t) : citem_hdr := let 'Citem h _ := t in h.
Definition kids (t : citem_t) : list citem_t := let 'Citem _ ks := t in ks.
Definition item_op (t : citem_t) : ctype_t := op (hdr t).
Definition item_ptr (t : citem_t) : nat := self (hdr t).

(** Number of items in a tree. *)
Fixpoint size (t : citem_t) : nat :=
  match t with
  | Citem _ ks => S ((fix go (l : list citem_t) : nat :=
                        match l with
                        | [] => O
                        | k :: l' => (size k + go l')%nat
                        end) ks)
  end.

Definition size_list (l : list citem_t) : nat :=
  fold_right (fun k n => (size k + n)%nat) O l.

(** The addresses of all items of a tree, in visiting order. *)
Fixpoint ptrs (t : citem_t) : list nat :=
  match t with
  | Citem h ks => self h :: (fix go (l : list citem_t) : list nat :=
                               match l with
                               | [] => []
                               | k :: l' => ptrs k ++ go l'
                               end) ks
  end.

(** A position in the tree: the child indices from the root down. *)
Definition path : Type := list nat.

Fixpoint get (t : citem_t) (p : path) : option citem_t :=
  match p with
  | [] => Some t
  | i :: p' => match nth_error (kids t) i with
               | Some k => get k p'
               | None => None
               end
  end.

(** [qvector<citem_t*>::has]. *)
Definition has (v : list nat) (t : citem_t) : bool :=
  existsb (Nat.eqb (item_ptr t)) v.

(** A local variable of the function ([lvar_t]). *)
Record lvar_t : Type := mk_lvar {
  is_arg_var : bool;
  used : bool           (* the CVAR_USED flag *)
}.

Definition clear_used (v : lvar_t) : lvar_t :=
  {| is_arg_var := is_arg_var v; used := false |}.

(** [cfunc_t]: the body and the local variables. *)
Record cfunc_t : Type := mk_cfunc {
  body : citem_t;
  lvars : list lvar_t
}.

(** The services of the SDK the plugin calls through [hexdsp] and the
    kernel:
    - [print1 e] is the text [cexpr_t::print1] leaves in the caller's
      buffer, colour tags included; the call returns its length;
    - [tag_remove] strips the colour tags of such a text;
    - [print_type_to_one_line ty] is [Some s] when the call returns
      [T_NORMAL] and leaves [s] in the 16-byte buffer, [None] otherwise. *)
Record hexdsp_t : Type := mk_hexdsp {
  print1 : citem_t -> string;
  tag_remove : string -> string;
  print_type_to_one_line : string -> option string
}.

(* ================================================================== *)
(** * FIND_LEGIT_ITEMS_VISITOR::IsLegitimateCall *)
(* ================================================================== *)

(** The macros of IDA's defs.h ([aszNonLegitHelpers]). *)
Definition aszNonLegitHelpers : list string :=
  [ "__ROL__"; "__ROL1__"; "__ROL2__"; "__ROL4__"; "__ROL8__";
    "__ROR1__"; "__ROR2__"; "__ROR4__"; "__ROR8__";
    "LOBYTE"; "LOWORD"; "LODWORD"; "HIBYTE"; "HIWORD"; "HIDWORD";
    "BYTEn"; "WORDn";
    "BYTE1"; "BYTE2"; "BYTE3"; "BYTE4"; "BYTE5"; "BYTE6"; "BYTE7";
    "BYTE8"; "BYTE9"; "BYTE10"; "BYTE11"; "BYTE12"; "BYTE13"; "BYTE14";
    "BYTE15";
    "WORD1"; "WORD2"; "WORD3"; "WORD4"; "WORD5"; "WORD6"; "WORD7";
    "SLOBYTE"; "SLOWORD"; "SLODWORD"; "SHIBYTE"; "SHIWORD"; "SHIDWORD";
    "SBYTEn"; "SWORDn";
    "SBYTE1"; "SBYTE2"; "SBYTE3"; "SBYTE4"; "SBYTE5"; "SBYTE6"; "SBYTE7";
    "SBYTE8"; "SBYTE9"; "SBYTE10"; "SBYTE11"; "SBYTE12"; "SBYTE13";
    "SBYTE14"; "SBYTE15";
    "SWORD1"; "SWORD2"; "SWORD3"; "SWORD4"; "SWORD5"; "SWORD6"; "SWORD7";
    "__CFSHL__"; "__CFSHR__"; "__CFADD__"; "__CFSUB__"; "__OFADD__";
    "__OFSUB__"; "__RCL__"; "__RCR__"; "__MKCRCL__"; "__MKCRCR__";
    "__SETP__"; "__MKCSHL__"; "__MKCSHR__"; "__SETS__"; "__ROR__" ]%string.

(** The [for] loop over [aszNonLegitHelpers] with [strcmp]. *)
Definition is_non_legit_helper (name : string) : bool :=
  existsb (String.eqb name) aszNonLegitHelpers.

(** [IsLegitimateCall].  [pExpression->x] is the first owned item of a
    call; the decompiler never builds a call without it, and the
    embedding answers [false] for such an item. *)
Definition IsLegitimateCall (hexdsp : hexdsp_t) (pExpression : citem_t) : bool :=
  if negb (ctype_eqb (item_op pExpression) cot_call) then false
  else
    match kids pExpression with
    | [] => false
    | pCalledFunction :: _ =>
        if negb (ctype_eqb (item_op pCalledFunction) cot_helper) then true
        else
          let szFunctionName := print1 hexdsp pCalledFunction in
          if (String.length szFunctionName =? 0)%nat then false
          else
            let szFunctionName := tag_remove hexdsp szFunctionName in
            if is_non_legit_helper szFunctionName then false else true
    end.

(* ================================================================== *)
(** * ctree_visitor_t::apply_to (Hex-Rays SDK) *)
(* ================================================================== *)

(** What one [visit_item] call tells the engine: [return 0], [return 0]
    after [prune_now()], or [return 1]. *)
Inductive visit_result : Type :=
  | Continue
  | PruneNow
  | Stop.

(** Where an item stands: the child indices from the item up to the root
    of the function body (nearest first).  The visitors below find the
    owner of an item by stepping up its position; in a tree whose items
    have distinct addresses that is the answer of [find_parent_of]
    (lemma [find_parent_of_position]). *)
Definition where_t : Type := list nat.

Definition item_at (root : citem_t) (w : where_t) : option citem_t :=
  get root (rev w).

Section ApplyTo.
Context {V : Type}.
Variable visit : where_t -> citem_t -> V -> V * visit_result.

(** Pre-order traversal: the item, then the items it owns.  The walk
    ends as soon as a visit returns non-zero (the [bool] tells so) and
    skips the children of an item whose visit called [prune_now()].
    The visitors of the plugin call [apply_to] on themselves from inside
    [visit_item]; each such call is a walk of its own here.  A walk runs
    over the items as they are when it starts: the visitors change the
    tree only in a visit that ends the walk. *)
Fixpoint apply_to (w : where_t) (t : citem_t) (v : V) {struct t} : V * bool :=
  match visit w t v with
  | (v1, Stop) => (v1, true)
  | (v1, PruneNow) => (v1, false)
  | (v1, Continue) =>
      match t with
      | Citem _ ks =>
          (fix go (i : nat) (l : list citem_t) (v : V) {struct l} : V * bool :=
             match l with
             | [] => (v, false)
             | k :: l' =>
                 match apply_to (i :: w) k v with
                 | (v2, true) => (v2, true)
                 | (v2, false) => go (S i) l' v2
                 end
             end) O ks v1
      end
  end.

Fixpoint apply_to_kids (w : where_t) (i : nat) (l : list citem_t) (v : V)
  : V * bool :=
  match l with
  | [] => (v, false)
  | k :: l' =>
      match apply_to (i :: w) k v with
      | (v2, true) => (v2, true)
      | (v2, false) => apply_to_kids w (S i) l' v2
      end
  end.
End ApplyTo.

(** [citem_t::find_parent_of]: search from the root for the item that
    owns the item at address [p]. *)
Fixpoint find_parent_of (root : citem_t) (p : nat) : option citem_t :=
  match root with
  | Citem _ ks =>
      if existsb (fun k => Nat.eqb (item_ptr k) p) ks then Some root
      else (fix go (l : list citem_t) : option citem_t :=
              match l with
              | [] => None
              | k :: l' => match find_parent_of k p with
                           | Some r => Some r
                           | None => go l'
                           end
              end) ks
  end.

(** The same answer by position: the owner of the item standing at [w]. *)
Definition parent_at (root : citem_t) (w : where_t) : option citem_t :=
  match w with
  | [] => None
  | _ :: w' => item_at root w'
  end.

(* ================================================================== *)
(** * FIND_LEGIT_ITEMS_VISITOR *)
(* ================================================================== *)

(** The members of the visitor.  [afVariableIsLegit] is [None] while the
    pointer is [NULL].  The mode flag [fMarkingDescendantsLegit] is not a
    field: it is [true] exactly inside the nested [apply_to] calls, which
    run [visit_item_marking]. *)
Record FIND_LEGIT_ITEMS_VISITOR : Type := mk_fliv {
  fInitialized : bool;
  vectorDescendantsMarkedLegit : list nat;
  fNewLegitItemFound : bool;
  vectorLegitItems : list nat;
  afVariableIsLegit : option (list bool)
}.

Definition fliv_init : FIND_LEGIT_ITEMS_VISITOR :=
  {| fInitialized := false;
     vectorDescendantsMarkedLegit := [];
     fNewLegitItemFound := false;
     vectorLegitItems := [];
     afVariableIsLegit := None |}.

Definition set_fNewLegitItemFound (b : bool) (v : FIND_LEGIT_ITEMS_VISITOR) :=
  {| fInitialized := fInitialized v;
     vectorDescendantsMarkedLegit := vectorDescendantsMarkedLegit v;
     fNewLegitItemFound := b;
     vectorLegitItems := vectorLegitItems v;
     afVariableIsLegit := afVariableIsLegit v |}.

(** [afVariableIsLegit[i]] read and written.  An index outside the
    [lvars_t] vector is undefined behaviour in the source and never
    built by the decompiler; the embedding reads [false] there and
    leaves the array as it is. *)
Definition var_is_legit (v : FIND_LEGIT_ITEMS_VISITOR) (i : nat) : bool :=
  match afVariableIsLegit v with
  | Some a => nth i a false
  | None => false
  end.

Fixpoint set_nth (i : nat) (l : list bool) : list bool :=
  match l, i with
  | [], _ => []
  | _ :: l', O => true :: l'
  | b :: l', S i' => b :: set_nth i' l'
  end.

Definition mark_variable (i : nat) (v : FIND_LEGIT_ITEMS_VISITOR) :=
  {| fInitialized := fInitialized v;
     vectorDescendantsMarkedLegit := vectorDescendantsMarkedLegit v;
     fNewLegitItemFound := fNewLegitItemFound v;
     vectorLegitItems := vectorLegitItems v;
     afVariableIsLegit := option_map (set_nth i) (afVariableIsLegit v) |}.

(** [if (!vectorLegitItems.has(p)) { push_back(p); fNewLegitItemFound = true; }] *)
Definition mark_item (t : citem_t) (v : FIND_LEGIT_ITEMS_VISITOR) :=
  if has (vectorLegitItems v) t then v
  else
    {| fInitialized := fInitialized v;
       vectorDescendantsMarkedLegit := vectorDescendantsMarkedLegit v;
       fNewLegitItemFound := true;
       vectorLegitItems := vectorLegitItems v ++ [item_ptr t];
       afVariableIsLegit := afVariableIsLegit v |}.

Definition remember_descended (t : citem_t) (v : FIND_LEGIT_ITEMS_VISITOR) :=
  {| fInitialized := fInitialized v;
     vectorDescendantsMarkedLegit := vectorDescendantsMarkedLegit v ++ [item_ptr t];
     fNewLegitItemFound := fNewLegitItemFound v;
     vectorLegitItems := vectorLegitItems v;
     afVariableIsLegit := afVariableIsLegit v |}.

Section FindLegitItems.
Variable hexdsp : hexdsp_t.
(** Whether [malloc] hands out memory in this invocation. *)
Variable malloc_ok : bool.
Variable pFunction : cfunc_t.

(** [Initialize]: allocate the array and fill it from [is_arg_var]. *)
Definition Initialize (v : FIND_LEGIT_ITEMS_VISITOR)
  : FIND_LEGIT_ITEMS_VISITOR * bool :=
  if malloc_ok then
    ({| fInitialized := true;
        vectorDescendantsMarkedLegit := vectorDescendantsMarkedLegit v;
        fNewLegitItemFound := fNewLegitItemFound v;
        vectorLegitItems := vectorLegitItems v;
        afVariableIsLegit := Some (map is_arg_var (lvars pFunction)) |}, true)
  else (v, false).

(** The head of [visit_item]: [if (!fInitialized) if (!Initialize()) return 1;]
    [None] stands for that [return 1]. *)
Definition ensure_initialized (v : FIND_LEGIT_ITEMS_VISITOR)
  : option FIND_LEGIT_ITEMS_VISITOR :=
  if fInitialized v then Some v
  else match Initialize v with
       | (v', true) => Some v'
       | (_, false) => None
       end.

(** [visit_item] while [fMarkingDescendantsLegit] is set. *)
Definition visit_item_marking (w : where_t) (pItem : citem_t)
    (v : FIND_LEGIT_ITEMS_VISITOR) : FIND_LEGIT_ITEMS_VISITOR * visit_result :=
  match ensure_initialized v with
  | None => (v, Stop)
  | Some v =>
      if has (vectorDescendantsMarkedLegit v) pItem then (v, Continue)
      else
        let v := if ctype_eqb (item_op pItem) cot_var
                 then mark_variable (v_idx (hdr pItem)) v else v in
        let v := mark_item pItem v in
        let v := remember_descended pItem v in
        (v, Continue)
  end.

(** [fMarkingDescendantsLegit = true; apply_to(p, NULL);
     fMarkingDescendantsLegit = false;] *)
Definition mark_descendants (p : citem_t) (v : FIND_LEGIT_ITEMS_VISITOR) :=
  fst (apply_to visit_item_marking [] p v).

(** [if (!vectorDescendantsMarkedLegit.has(p)) { mark the subtree }] *)
Definition mark_descendants_once (p : citem_t) (v : FIND_LEGIT_ITEMS_VISITOR) :=
  if has (vectorDescendantsMarkedLegit v) p then v else mark_descendants p v.

(** The [switch] of [visit_item]: the expression part of an
    if/for/while/do/return statement, [None] for [pExpression == NULL]. *)
Definition governing_expression (pItem : citem_t) : option citem_t :=
  match item_op pItem with
  | cit_if => nth_error (kids pItem) 0
  | cit_for => nth_error (kids pItem) 1
  | cit_while => nth_error (kids pItem) 0
  | cit_do => nth_error (kids pItem) 1
  | cit_return => nth_error (kids pItem) 0
  | _ => None
  end.

Definition for_init (pItem : citem_t) : option citem_t := nth_error (kids pItem) 0.
Definition for_step (pItem : citem_t) : option citem_t := nth_error (kids pItem) 2.

Definition mark_opt (p : option citem_t) (v : FIND_LEGIT_ITEMS_VISITOR) :=
  match p with
  | Some e => mark_descendants_once e v
  | None => v
  end.

(** The branch of [visit_item] for an item that is already in
    [vectorLegitItems]. *)
Definition visit_legit_item (pItem : citem_t) (v : FIND_LEGIT_ITEMS_VISITOR) :=
  match governing_expression pItem with
  | None => v
  | Some pExpression =>
      if has (vectorDescendantsMarkedLegit v) pExpression then v
      else
        let v := mark_descendants pExpression v in
        if ctype_eqb (item_op pItem) cit_for
        then mark_opt (for_step pItem) (mark_opt (for_init pItem) v)
        else v
  end.

(** The test in front of the ancestor loop: [true] when [visit_item]
    goes on to mark the ancestors, [false] when it returns 0.  The
    parentheses are those of the source:
    [!(obj || call && legit || goto || break || continue || return) || asm]. *)
Definition marks_ancestors (pItem : citem_t) (v : FIND_LEGIT_ITEMS_VISITOR) : bool :=
  let o := item_op pItem in
  if ctype_eqb o cot_var then
    if negb (var_is_legit v (v_idx (hdr pItem))) then
      match print_type_to_one_line hexdsp (type (hdr pItem)) with
      | None => false
      | Some szType => String.eqb szType "CPPEH_RECORD"
      end
    else true
  else if negb (ctype_eqb o cot_obj
                || (ctype_eqb o cot_call && IsLegitimateCall hexdsp pItem)
                || ctype_eqb o cit_goto
                || ctype_eqb o cit_break
                || ctype_eqb o cit_continue
                || ctype_eqb o cit_return)
          || ctype_eqb o cit_asm
  then false
  else true.

(** One round of the ancestor loop on [pCurrentItem]. *)
Definition mark_ancestor (pCurrentItem : citem_t) (v : FIND_LEGIT_ITEMS_VISITOR) :=
  let v := mark_item pCurrentItem v in
  let o := item_op pCurrentItem in
  if ctype_eqb o cit_expr
     || (ctype_eqb o cot_call && IsLegitimateCall hexdsp pCurrentItem)
     || ctype_eqb o cit_return
  then mark_descendants_once pCurrentItem v
  else v.

(** [for (p = pItem; p != NULL; p = pFunction->body.find_parent_of(p))]:
    the item standing at [w], then its owners up to the body. *)
Fixpoint mark_ancestors (pCurrentItem : citem_t) (w : where_t)
    (v : FIND_LEGIT_ITEMS_VISITOR) : FIND_LEGIT_ITEMS_VISITOR :=
  let v := mark_ancestor pCurrentItem v in
  match w with
  | [] => v
  | _ :: w' =>
      match item_at (body pFunction) w' with
      | Some pParent => mark_ancestors pParent w' v
      | None => v
      end
  end.

(** [visit_item] while [fMarkingDescendantsLegit] is clear. *)
Definition visit_item_scanning (w : where_t) (pItem : citem_t)
    (v : FIND_LEGIT_ITEMS_VISITOR) : FIND_LEGIT_ITEMS_VISITOR * visit_result :=
  match ensure_initialized v with
  | None => (v, Stop)
  | Some v =>
      if has (vectorLegitItems v) pItem then (visit_legit_item pItem v, Continue)
      else if marks_ancestors pItem v then (mark_ancestors pItem w v, Continue)
      else (v, Continue)
  end.

(** One round of the first [do ... while] of [Detox]. *)
Definition find_legit_pass (v : FIND_LEGIT_ITEMS_VISITOR) :=
  fst (apply_to visit_item_scanning [] (body pFunction)
         (set_fNewLegitItemFound false v)).

(** [do { ... } while (fliv.fNewLegitItemFound);] with the number of
    rounds it ran; [None] when [fuel] rounds were not enough. *)
Fixpoint find_legit_loop (fuel : nat) (v : FIND_LEGIT_ITEMS_VISITOR)
  : option (FIND_LEGIT_ITEMS_VISITOR * nat) :=
  match fuel with
  | O => None
  | S fuel' =>
      let v1 := find_legit_pass v in
      if fNewLegitItemFound v1 then
        match find_legit_loop fuel' v1 with
        | Some (v2, n) => Some (v2, S n)
        | None => None
        end
      else Some (v1, 1%nat)
  end.
End FindLegitItems.

(* ================================================================== *)
(** * The tree-mutation primitives of the SDK *)
(* ================================================================== *)

Fixpoint update_nth {A : Type} (i : nat) (f : A -> A) (l : list A) : list A :=
  match l, i with
  | [], _ => []
  | x :: l', O => f x :: l'
  | x :: l', S i' => x :: update_nth i' f l'
  end.

Fixpoint erase_nth {A : Type} (i : nat) (l : list A) : list A :=
  match l, i with
  | [], _ => []
  | _ :: l', O => l'
  | x :: l', S i' => x :: erase_nth i' l'
  end.

(** In-place change of the item standing at a position. *)
Fixpoint update (t : citem_t) (p : path) (f : citem_t -> citem_t) : citem_t :=
  match p with
  | [] => f t
  | i :: p' => Citem (hdr t) (update_nth i (fun k => update k p' f) (kids t))
  end.

Definition update_at (root : citem_t) (w : where_t) (f : citem_t -> citem_t) :=
  update root (rev w) f.

Definition set_op (o : ctype_t) (h : citem_hdr) : citem_hdr :=
  {| self := self h; op := o; ea := ea h; label_num := label_num h;
     v_idx := v_idx h; type := type h; helper := helper h;
     goto_label := goto_label h |}.

Definition set_label_num (n : Z) (h : citem_hdr) : citem_hdr :=
  {| self := self h; op := op h; ea := ea h; label_num := n;
     v_idx := v_idx h; type := type h; helper := helper h;
     goto_label := goto_label h |}.

Definition set_goto_label (n : Z) (h : citem_hdr) : citem_hdr :=
  {| self := self h; op := op h; ea := ea h; label_num := label_num h;
     v_idx := v_idx h; type := type h; helper := helper h;
     goto_label := n |}.

(** [pItem->label_num = n]. *)
Definition relabel (n : Z) (t : citem_t) : citem_t :=
  Citem (set_label_num n (hdr t)) (kids t).

(** [cinsn_t::cleanup()]: deletes everything the statement owns and sets
    its type to [cit_empty]; the item itself stays where it is. *)
Definition cleanup (t : citem_t) : citem_t :=
  Citem (set_op cit_empty (hdr t)) [].

(** [cinsn_t::replace_by(r)]: the statement [r] is moved into [this]; the
    item keeps its address and its place in the tree. *)
Definition replace_by (r this : citem_t) : citem_t :=
  Citem {| self := self (hdr this); op := op (hdr r); ea := ea (hdr r);
           label_num := label_num (hdr r); v_idx := v_idx (hdr r);
           type := type (hdr r); helper := helper (hdr r);
           goto_label := goto_label (hdr r) |} (kids r).

(** [cblock_t::erase] of the statement at index [i] of a block. *)
Definition erase_child (i : nat) (t : citem_t) : citem_t :=
  Citem (hdr t) (erase_nth i (kids t)).

(* ================================================================== *)
(** * PRUNE_ITEMS_VISITOR *)
(* ================================================================== *)

Inductive VisitingMode : Type :=
  | Pruning
  | CleaningUpGotoLabels
  | ChangingGotos
  | FindingChildrenOfParent.

(** The members of the visitor, and the function body it works on
    ([ctree], reached through [pFunction] in the source and changed in
    place).  [pCurrentParent] and [vectorChildrenOfParentBlock] live only
    between two lines of the label code and are local values below.
    [fuel_spent] is not in the source: it records that the bounded model
    of the [while (fGotoCleaned)] loop stopped before the loop did. *)
Record PRUNE_ITEMS_VISITOR : Type := mk_piv {
  ctree : citem_t;
  visitingMode : VisitingMode;
  nOldLabelNumber : Z;
  nNewLabelNumber : Z;
  fGotoCleaned : bool;
  fPruned : bool;
  fuel_spent : bool
}.

Definition piv_init (pBody : citem_t) : PRUNE_ITEMS_VISITOR :=
  {| ctree := pBody; visitingMode := Pruning;
     nOldLabelNumber := -1; nNewLabelNumber := -1;
     fGotoCleaned := false; fPruned := false; fuel_spent := false |}.

Definition set_ctree (t : citem_t) (v : PRUNE_ITEMS_VISITOR) :=
  mk_piv t (visitingMode v) (nOldLabelNumber v) (nNewLabelNumber v)
         (fGotoCleaned v) (fPruned v) (fuel_spent v).

Definition set_visitingMode (m : VisitingMode) (v : PRUNE_ITEMS_VISITOR) :=
  mk_piv (ctree v) m (nOldLabelNumber v) (nNewLabelNumber v)
         (fGotoCleaned v) (fPruned v) (fuel_spent v).

Definition set_fGotoCleaned (b : bool) (v : PRUNE_ITEMS_VISITOR) :=
  mk_piv (ctree v) (visitingMode v) (nOldLabelNumber v) (nNewLabelNumber v)
         b (fPruned v) (fuel_spent v).

Definition set_fPruned (b : bool) (v : PRUNE_ITEMS_VISITOR) :=
  mk_piv (ctree v) (visitingMode v) (nOldLabelNumber v) (nNewLabelNumber v)
         (fGotoCleaned v) b (fuel_spent v).

Definition set_fuel_spent (v : PRUNE_ITEMS_VISITOR) :=
  mk_piv (ctree v) (visitingMode v) (nOldLabelNumber v) (nNewLabelNumber v)
         (fGotoCleaned v) (fPruned v) true.

(** The item a matching goto is turned into in ChangingGotos mode when
    [nNewLabelNumber] is -1: a new return statement [pRet] with the
    goto's [ea] and [label_num] is moved into the goto by [replace_by],
    and [cleanup()] is then called on that same item. *)
Definition goto_to_return (pItem : citem_t) : citem_t :=
  let pRet := Citem {| self := O; op := cit_return; ea := ea (hdr pItem);
                       label_num := label_num (hdr pItem); v_idx := O;
                       type := EmptyString; helper := EmptyString;
                       goto_label := -1 |} [] in
  cleanup (replace_by pRet pItem).

(** [apply_to] in ChangingGotos mode.  Every visit returns 0, so the walk
    reaches every item below its starting point; it changes the gotos
    whose target is [nOld] where they stand and nothing else. *)
Fixpoint change_gotos (nOld nNew : Z) (t : citem_t) : citem_t :=
  match t with
  | Citem h ks =>
      if negb (ctype_eqb (op h) cit_goto && (goto_label h =? nOld)) then
        Citem h (map (change_gotos nOld nNew) ks)
      else if negb (nNew =? -1) then
        Citem (set_goto_label nNew h) (map (change_gotos nOld nNew) ks)
      else goto_to_return t
  end.

(** The statement loop of a block in Pruning mode: the index of the first
    [cit_empty] or [cot_empty] statement. *)
Fixpoint first_empty (l : list citem_t) : option nat :=
  match l with
  | [] => None
  | k :: l' =>
      if ctype_eqb (item_op k) cit_empty || ctype_eqb (item_op k) cot_empty
      then Some O
      else option_map S (first_empty l')
  end.

(** The kinds Pruning mode neither cleans up nor descends into. *)
Definition never_cleaned (o : ctype_t) : bool :=
  ctype_eqb o cit_break || ctype_eqb o cit_continue || ctype_eqb o cit_goto
  || ctype_eqb o cit_empty || ctype_eqb o cot_empty || ctype_eqb o cit_asm
  || ctype_eqb o cit_return.

(** The [for] loop over [vectorChildrenOfParentBlock]: among the children
    whose [ea] is greater than [item_ea], the first one of least [ea],
    with its index. *)
Fixpoint pick_destination (item_ea : Z) (i : nat) (l : list citem_t)
    (pNewDestination : option (nat * citem_t)) : option (nat * citem_t) :=
  match l with
  | [] => pNewDestination
  | c :: l' =>
      if negb (ea (hdr c) >? item_ea) then
        pick_destination item_ea (S i) l' pNewDestination
      else
        match pNewDestination with
        | None => pick_destination item_ea (S i) l' (Some (i, c))
        | Some (_, d) =>
            if ea (hdr c) <? ea (hdr d)
            then pick_destination item_ea (S i) l' (Some (i, c))
            else pick_destination item_ea (S i) l' pNewDestination
        end
  end.

(** FindingChildrenOfParent mode on the block [pParent]: the items whose
    immediate parent is the block, in visiting order. *)
Definition children_of_parent (pParent : citem_t) : list citem_t :=
  kids pParent.

(** The [while (pNewDestination == NULL)] loop of CleaningUpGotoLabels
    mode for the item standing at [w]: climb to the next block above
    ([find_parent_of] until a [cit_block]), look among its children, and
    climb on when none qualifies.  [None] is [pParent == NULL]. *)
Fixpoint find_new_destination (root : citem_t) (w : where_t) (item_ea : Z)
    : option (where_t * citem_t) :=
  match w with
  | [] => None
  | _ :: w' =>
      match item_at root w' with
      | None => None
      | Some pParent =>
          if ctype_eqb (item_op pParent) cit_block then
            match pick_destination item_ea O (children_of_parent pParent) None with
            | Some (j, d) => Some (j :: w', d)
            | None => find_new_destination root w' item_ea
            end
          else find_new_destination root w' item_ea
      end
  end.

(** [visit_item] in CleaningUpGotoLabels mode. *)
Definition visit_item_cleaning (w : where_t) (pItem : citem_t)
    (v : PRUNE_ITEMS_VISITOR) : PRUNE_ITEMS_VISITOR * visit_result :=
  if label_num (hdr pItem) =? -1 then (v, Continue)
  else
    let nOld := label_num (hdr pItem) in
    match find_new_destination (ctree v) w (ea (hdr pItem)) with
    | None =>
        (mk_piv (change_gotos nOld (-1) (ctree v)) ChangingGotos nOld (-1)
                true (fPruned v) (fuel_spent v), Stop)
    | Some (wd, pNewDestination) =>
        if negb (label_num (hdr pNewDestination) =? -1) then
          let nNew := label_num (hdr pNewDestination) in
          (mk_piv (change_gotos nOld nNew (ctree v)) ChangingGotos nOld nNew
                  true (fPruned v) (fuel_spent v), Stop)
        else
          let t1 := update_at (ctree v) wd (relabel (label_num (hdr pItem))) in
          let t2 := update_at t1 w (relabel (-1)) in
          (mk_piv t2 CleaningUpGotoLabels nOld (nNewLabelNumber v)
                  true (fPruned v) (fuel_spent v), Stop)
    end.

(** One [apply_to(pItem, NULL)] of the [while (fGotoCleaned)] loop, on the
    item standing at [w], in the mode the visitor is in. *)
Definition relabel_pass (w : where_t) (v : PRUNE_ITEMS_VISITOR)
    : PRUNE_ITEMS_VISITOR :=
  match item_at (ctree v) w with
  | None => v
  | Some pItem =>
      match visitingMode v with
      | CleaningUpGotoLabels => fst (apply_to visit_item_cleaning w pItem v)
      | ChangingGotos =>
          set_ctree (update_at (ctree v) w
                       (change_gotos (nOldLabelNumber v) (nNewLabelNumber v))) v
      | _ => v
      end
  end.

(** [while (fGotoCleaned) { fGotoCleaned = false; apply_to(pItem, NULL); }] *)
Fixpoint cleanup_goto_labels (fuel : nat) (w : where_t) (v : PRUNE_ITEMS_VISITOR)
    : PRUNE_ITEMS_VISITOR :=
  match fuel with
  | O => if fGotoCleaned v then set_fuel_spent v else v
  | S fuel' =>
      if fGotoCleaned v
      then cleanup_goto_labels fuel' w (relabel_pass w (set_fGotoCleaned false v))
      else v
  end.

Section PruneItems.
Variable pVectorLegitItems : list nat.
Variable fuel : nat.

(** [visit_item] in Pruning mode. *)
Definition visit_item_pruning (w : where_t) (pItem : citem_t)
    (v : PRUNE_ITEMS_VISITOR) : PRUNE_ITEMS_VISITOR * visit_result :=
  if ctype_eqb (item_op pItem) cit_block then
    match first_empty (kids pItem) with
    | Some i =>
        (set_fPruned true (set_ctree (update_at (ctree v) w (erase_child i)) v),
         Stop)
    | None => (v, Continue)
    end
  else if never_cleaned (item_op pItem) then (v, PruneNow)
  else if has pVectorLegitItems pItem then (v, Continue)
  else if op_is_expr (item_op pItem) then (v, Continue)
  else
    let v := set_fGotoCleaned true (set_visitingMode CleaningUpGotoLabels v) in
    let v := cleanup_goto_labels fuel w v in
    let v := set_visitingMode Pruning v in
    let v := set_ctree (update_at (ctree v) w cleanup) v in
    (set_fPruned true v, Stop).

(** One round of the second [do ... while] of [Detox]. *)
Definition prune_pass (v : PRUNE_ITEMS_VISITOR) : PRUNE_ITEMS_VISITOR :=
  fst (apply_to visit_item_pruning [] (ctree v) (set_fPruned false v)).

(** [do { ... } while (piv.fPruned);] with the number of rounds it ran;
    [None] when the fuel was not enough. *)
Fixpoint prune_loop (n : nat) (v : PRUNE_ITEMS_VISITOR)
  : option (PRUNE_ITEMS_VISITOR * nat) :=
  match n with
  | O => None
  | S n' =>
      let v1 := prune_pass v in
      if fuel_spent v1 then None
      else if fPruned v1 then
        match prune_loop n' v1 with
        | Some (v2, k) => Some (v2, S k)
        | None => None
        end
      else Some (v1, 1%nat)
  end.
End PruneItems.

(* ================================================================== *)
(** * Detox *)
(* ================================================================== *)

(** The last loop of [Detox]: [clear_used()] on every variable whose
    [afVariableIsLegit] entry is false. *)
Fixpoint clear_unused (afLegit : list bool) (i : nat) (vars : list lvar_t)
    : list lvar_t :=
  match vars with
  | [] => []
  | x :: vars' =>
      (if negb (nth i afLegit false) then clear_used x else x)
        :: clear_unused afLegit (S i) vars'
  end.

(** How an invocation ends: it returns, or it reads through the [NULL]
    array pointer, or the fuel of the embedding was not enough to follow
    it to its end. *)
Inductive outcome : Type :=
  | Returns (f : cfunc_t)
  | Undefined
  | OutOfFuel.

Definition Detox (hexdsp : hexdsp_t) (malloc_ok : bool) (fuel : nat)
    (pFunction : cfunc_t) : outcome :=
  match find_legit_loop hexdsp malloc_ok pFunction fuel fliv_init with
  | None => OutOfFuel
  | Some (fliv, _) =>
      match prune_loop (vectorLegitItems fliv) fuel fuel
                       (piv_init (body pFunction)) with
      | None => OutOfFuel
      | Some (piv, _) =>
          match lvars pFunction, afVariableIsLegit fliv with
          | [], _ => Returns (mk_cfunc (ctree piv) [])
          | _ :: _, None => Undefined
          | vars, Some afLegit =>
              Returns (mk_cfunc (ctree piv) (clear_unused afLegit O vars))
          end
      end
  end.

(* ================================================================== *)
(** * Predicates used in the statements *)
(* ================================================================== *)

(** The marks of [v'] extend those of [v]: the legitimate items of [v]
    are still there, in the same order, and no entry of the variable
    array went from true to false. *)
Definition grows (v v' : FIND_LEGIT_ITEMS_VISITOR) : Prop :=
  (exists l, vectorLegitItems v' = vectorLegitItems v ++ l) /\
  (forall i, var_is_legit v i = true -> var_is_legit v' i = true).

(** What [Initialize] establishes and every later step keeps: the array
    pointer is non-[NULL] exactly when [fInitialized] is set, the array
    is as long as the variable vector, and the entry of every argument
    variable is true. *)
Definition fliv_inv (pFunction : cfunc_t) (v : FIND_LEGIT_ITEMS_VISITOR) : Prop :=
  match afVariableIsLegit v with
  | None => fInitialized v = false
  | Some a =>
      fInitialized v = true /\
      List.length a = List.length (lvars pFunction) /\
      (forall i x, nth_error (lvars pFunction) i = Some x ->
                   is_arg_var x = true -> nth i a false = true)
  end.

(** The blocks above the item standing at [w], nearest first, each with
    its position. *)
Fixpoint blocks_above (root : citem_t) (w : where_t)
    : list (where_t * citem_t) :=
  match w with
  | [] => []
  | _ :: w' =>
      match item_at root w' with
      | None => []
      | Some p =>
          if ctype_eqb (item_op p) cit_block
          then (w', p) :: blocks_above root w'
          else blocks_above root w'
      end
  end.

(** [d], the child of index [j] in [l], is the first child of least
    address among the children whose address is greater than [a]. *)
Definition least_later_child (a : Z) (l : list citem_t) (j : nat) (d : citem_t)
    : Prop :=
  nth_error l j = Some d /\
  ea (hdr d) > a /\
  forall j' c, nth_error l j' = Some c -> ea (hdr c) > a ->
               ea (hdr d) <= ea (hdr c) /\ ((j' < j)%nat -> ea (hdr d) < ea (hdr c)).

(** The label carrier as the specification words it: the least later
    child of the nearest block above the item, and no other. *)
Definition carrier_in_nearest_block (root : citem_t) (w : where_t) (a : Z)
    : option (where_t * citem_t) :=
  match blocks_above root w with
  | [] => None
  | (w', p) :: _ =>
      match pick_destination a O (kids p) None with
      | Some (j, d) => Some (j :: w', d)
      | None => None
      end
  end.

(** The label carrier over a list of blocks tried in order: the least
    later child of the first block that has one. *)
Fixpoint carrier_in_blocks (a : Z) (bs : list (where_t * citem_t))
    : option (where_t * citem_t) :=
  match bs with
  | [] => None
  | (w', p) :: bs' =>
      match pick_destination a O (kids p) None with
      | Some (j, d) => Some (j :: w', d)
      | None => carrier_in_blocks a bs'
      end
  end.

(** The number of gotos in a tree whose target is the label [n]. *)
Fixpoint gotos_to (n : Z) (t : citem_t) : nat :=
  match t with
  | Citem h ks =>
      ((if ctype_eqb (op h) cit_goto && (goto_label h =? n)%Z then 1 else 0)
       + list_sum (map (gotos_to n) ks))%nat
  end.

(** The kinds and label numbers of the items of a tree, in visiting
    order. *)
Fixpoint labels (t : citem_t) : list (ctype_t * Z) :=
  match t with
  | Citem h ks => (op h, label_num h) :: flat_map labels ks
  end.

(** What the accumulator of [pick_destination] is after the children
    [pre] have been looked at. *)
Definition picked (a : Z) (pre : list citem_t) (acc : option (nat * citem_t))
    : Prop :=
  match acc with
  | Some (j, d) => least_later_child a pre j d
  | None => forall c, In c pre -> ea (hdr c) <= a
  end.

(** A weight summed over the items of a tree. *)
Fixpoint weigh (wt : citem_hdr -> Z) (t : citem_t) : Z :=
  match t with
  | Citem h ks => wt h + fold_right Z.add 0 (map (weigh wt) ks)
  end.

(** A test that holds of every item of a tree. *)
Fixpoint all_items (p : citem_t -> bool) (t : citem_t) : bool :=
  match t with
  | Citem h ks => p (Citem h ks) && forallb (all_items p) ks
  end.

(** The kinds [cleanup()] can be called on in Pruning mode: statements
    other than blocks and the seven kinds that are never cleaned. *)
Definition cleanable (o : ctype_t) : bool :=
  negb (ctype_eqb o cit_block) && negb (never_cleaned o) && negb (op_is_expr o).

(** How the decompiler builds statements: a goto and an empty statement
    own nothing; an expression statement, an if, a loop, a switch and
    every other statement that can be cleaned up own at least their
    expression. *)
Definition owns_ok (t : citem_t) : bool :=
  if ctype_eqb (item_op t) cit_goto || ctype_eqb (item_op t) cit_empty then
    match kids t with [] => true | _ :: _ => false end
  else if cleanable (item_op t) then
    match kids t with [] => false | _ :: _ => true end
  else true.

(** What the SDK guarantees about the function handed to [Detox]: the
    body ([cfunc_t::body]) is a block, no two items share an address, and
    statements are built as above. *)
Definition well_formed (f : cfunc_t) : Prop :=
  item_op (body f) = cit_block /\
  NoDup (ptrs (body f)) /\
  all_items owns_ok (body f) = true.

(** The shape of a tree: the kinds and the ownership, a goto counted as
    the empty statement the goto conversion leaves in its place. *)
Definition shape_op (o : ctype_t) : ctype_t :=
  match o with
  | cit_goto => cit_empty
  | _ => o
  end.

Fixpoint skel (t : citem_t) : citem_t :=
  match t with
  | Citem h ks =>
      Citem (mk_hdr O (shape_op (op h)) 0 0 O EmptyString EmptyString 0)
            (map skel ks)
  end.

(** The weight that the label loop of Pruning mode drives down: moving a
    label to an item of greater address lowers it. *)
Definition label_weight (h : citem_hdr) : Z :=
  Z.abs (ea h) - (if label_num h =? -1 then 0 else ea h).

Definition label_potential (t : citem_t) : Z := weigh label_weight t.

(** [vectorLegitItems] holds addresses of items of the body, each once. *)
Definition legit_in_body (pFunction : cfunc_t) (v : FIND_LEGIT_ITEMS_VISITOR)
    : Prop :=
  NoDup (vectorLegitItems v) /\
  incl (vectorLegitItems v) (ptrs (body pFunction)).

(** Since the state [v0], the visitor has kept its invariants and, when
    [fNewLegitItemFound] is set, has found a new legitimate item. *)
Definition counted (pFunction : cfunc_t) (v0 v : FIND_LEGIT_ITEMS_VISITOR)
    : Prop :=
  fliv_inv pFunction v /\
  legit_in_body pFunction v /\
  (List.length (vectorLegitItems v0) <= List.length (vectorLegitItems v))%nat /\
  (fNewLegitItemFound v = true ->
   (List.length (vectorLegitItems v0) < List.length (vectorLegitItems v))%nat).

(** No legitimate item yet, or at least two. *)
Definition none_or_two (v : FIND_LEGIT_ITEMS_VISITOR) : Prop :=
  vectorLegitItems v = [] \/ (2 <= List.length (vectorLegitItems v))%nat.

(** What the label loop of Pruning mode may do to the visitor: the tree
    keeps its shape, its label potential does not go up, and the flags of
    the outer loop are untouched. *)
Definition relabelled (v v' : PRUNE_ITEMS_VISITOR) : Prop :=
  skel (ctree v') = skel (ctree v) /\
  label_potential (ctree v') <= label_potential (ctree v) /\
  fuel_spent v' = fuel_spent v /\
  fPruned v' = fPruned v.

(** What one visit that ends a walk in CleaningUpGotoLabels mode leaves
    behind: either the gotos were changed and the mode is now
    ChangingGotos, or a label moved and the potential went down. *)
Definition label_step (v v' : PRUNE_ITEMS_VISITOR) : Prop :=
  relabelled v v' /\
  (visitingMode v' = ChangingGotos \/
   (visitingMode v' = CleaningUpGotoLabels /\
    label_potential (ctree v') < label_potential (ctree v))).

(** The visitor between two rounds of the pruning loop. *)
Definition piv_inv (v : PRUNE_ITEMS_VISITOR) : Prop :=
  visitingMode v = Pruning /\
  fuel_spent v = false /\
  all_items owns_ok (ctree v) = true.

(** What a round of the pruning loop that pruned leaves behind. *)
Definition pruned_step (v v' : PRUNE_ITEMS_VISITOR) : Prop :=
  piv_inv v' /\
  label_potential (ctree v') <= label_potential (ctree v) /\
  fPruned v' = true /\
  (size (ctree v') < size (ctree v))%nat.

(** [find_parent_of] over the children of an item, in order. *)
Fixpoint find_parent_in (l : list citem_t) (p : nat) : option citem_t :=
  match l with
  | [] => None
  | k :: l' => match find_parent_of k p with
               | Some r => Some r
               | None => find_parent_in l' p
               end
  end.

(** What a walk in Pruning mode finds nothing to do on: below [t], as
    far as the walk descends, no block has an empty statement among its
    statements, and every other item it reaches is one of the seven
    kinds it skips, is in [legit], or is an expression. *)
Fixpoint settled (legit : list nat) (t : citem_t) : bool :=
  match t with
  | Citem h ks =>
      if ctype_eqb (op h) cit_block then
        match first_empty ks with
        | None => forallb (settled legit) ks
        | Some _ => false
        end
      else if never_cleaned (op h) then true
      else (has legit (Citem h ks) || op_is_expr (op h))
           && forallb (settled legit) ks
  end.

(** Some item of the tree [t], [t] itself included, is in [legit]. *)
Definition owns_legit (legit : list nat) (t : citem_t) : bool :=
  existsb (fun p => existsb (Nat.eqb p) legit) (ptrs t).

(** [legit] is closed upwards in a tree: an item that owns, at any
    depth, an item of [legit] is itself in [legit]. *)
Definition up_closed (legit : list nat) (t : citem_t) : bool :=
  all_items (fun x => implb (owns_legit legit x) (has legit x)) t.

(** Every address in [vectorDescendantsMarkedLegit] is in
    [vectorLegitItems] as well. *)
Definition descended_in_legit (v : FIND_LEGIT_ITEMS_VISITOR) : Prop :=
  incl (vectorDescendantsMarkedLegit v) (vectorLegitItems v).

(** What a walk in MarkingDescendants mode over [p] has done between
    [v] and [v']: [vectorLegitItems] has gained the addresses of [p] and
    nothing else. *)
Definition flooded (p : citem_t) (v v' : FIND_LEGIT_ITEMS_VISITOR) : Prop :=
  fInitialized v' = true /\
  descended_in_legit v' /\
  incl (vectorLegitItems v) (vectorLegitItems v') /\
  incl (ptrs p) (vectorLegitItems v') /\
  (forall q, In q (vectorLegitItems v') ->
             In q (vectorLegitItems v) \/ In q (ptrs p)).

(** What the ancestor loop started at position [w] has done between [v]
    and [v']: the item at [w] and each of its owners is in
    [vectorLegitItems], and whatever else was added lies in a subtree of
    one of them that was added whole. *)
Definition chain_marked (root : citem_t) (w : where_t)
    (v v' : FIND_LEGIT_ITEMS_VISITOR) : Prop :=
  fInitialized v' = true /\
  descended_in_legit v' /\
  incl (vectorLegitItems v) (vectorLegitItems v') /\
  (forall w1 w2 c, w = w1 ++ w2 -> item_at root w2 = Some c ->
                   In (item_ptr c) (vectorLegitItems v')) /\
  (forall q, In q (vectorLegitItems v') ->
             In q (vectorLegitItems v) \/
             exists w1 w2 c,
               w = w1 ++ w2 /\ item_at root w2 = Some c /\
               (q = item_ptr c \/
                (In q (ptrs c) /\ incl (ptrs c) (vectorLegitItems v')))).

(** The variable of index [i] is referenced by a variable expression of
    the tree that is in [legit]. *)
Definition referenced (root : citem_t) (legit : list nat) (i : nat) : Prop :=
  exists t w,
    item_at root w = Some t /\ item_op t = cot_var /\ v_idx (hdr t) = i /\
    In (item_ptr t) legit.

(** Every variable whose [afVariableIsLegit] entry is set is an argument
    or is referenced by a legitimate variable expression. *)
Definition vars_referenced (f : cfunc_t) (v : FIND_LEGIT_ITEMS_VISITOR) : Prop :=
  forall i, var_is_legit v i = true ->
    (exists x, nth_error (lvars f) i = Some x /\ is_arg_var x = true) \/
    referenced (body f) (vectorLegitItems v) i.

(** What the label code leaves of an item where it stands: its address,
    and its kind unless it was a goto. *)
Definition same_place (h' h : citem_hdr) : Prop :=
  self h' = self h /\ (op h' = op h \/ op h = cit_goto).

(** A call whose callee is not a helper: [IsLegitimateCall] answers
    [true] for it without looking at a name. *)
Definition real_call (t : citem_t) : bool :=
  ctype_eqb (item_op t) cot_call &&
  match kids t with
  | [] => false
  | pCalledFunction :: _ => negb (ctype_eqb (item_op pCalledFunction) cot_helper)
  end.

(** The items that Scanning mode marks whatever the marks are so far
    and that no mode rewrites: references to objects, calls whose callee
    is not a helper, and break, continue and return statements. *)
Definition kept_kind (t : citem_t) : bool :=
  ctype_eqb (item_op t) cot_obj || real_call t
  || ctype_eqb (item_op t) cit_break || ctype_eqb (item_op t) cit_continue
  || ctype_eqb (item_op t) cit_return.

(** The items of these kinds in a tree, in visiting order, each with
    its address and its kind. *)
Fixpoint kept_items (t : citem_t) : list (nat * ctype_t) :=
  match t with
  | Citem h ks =>
      (if kept_kind (Citem h ks) then [(self h, op h)] else [])
      ++ flat_map kept_items ks
  end.

(** Gotos, empty statements and empty expressions own nothing. *)
Definition leaf_ok (t : citem_t) : bool :=
  if ctype_eqb (item_op t) cit_goto || ctype_eqb (item_op t) cit_empty
     || ctype_eqb (item_op t) cot_empty
  then match kids t with [] => true | _ :: _ => false end
  else true.

(** Whether the item of index [i] among those owned by [a] can be
    reached by a walk in MarkingDescendants mode started at [a] or at
    that item: [a] is an expression statement, a call or a return
    (the ancestor loop marks all of [a]), or the item is the expression
    of an if, a while, a do or a for, or the init or step of a for
    (Scanning mode marks it once [a] is legitimate). *)
Definition floods (a : citem_t) (i : nat) : bool :=
  match item_op a with
  | cit_expr | cot_call | cit_return => true
  | cit_if | cit_while => Nat.eqb i 0
  | cit_do => Nat.eqb i 1
  | cit_for => Nat.ltb i 3
  | _ => false
  end.

(** No step of the way from [t] down to the position [p] is of that
    sort: the position lies in statement parts only. *)
Fixpoint flood_free (t : citem_t) (p : path) : bool :=
  match p with
  | [] => true
  | i :: p' =>
      negb (floods t i) &&
      match nth_error (kids t) i with
      | Some k => flood_free k p'
      | None => false
      end
  end.

(** An item that Scanning mode does not take for legitimate while the
    variables of [J] are unmarked: a reference to a variable of [J]
    whose type is not the exception record, or an item of another kind
    for which the test in front of the ancestor loop returns 0. *)
Definition junk_item (hexdsp : hexdsp_t) (J : list nat) (x : citem_t) : bool :=
  (if ctype_eqb (item_op x) cot_var
   then existsb (Nat.eqb (v_idx (hdr x))) J else true)
  && negb (marks_ancestors hexdsp x fliv_init).

(** The address [q] belongs to an item of one of the regions. *)
Definition in_region (root : citem_t) (regions : list path) (q : nat) : Prop :=
  exists r s, In r regions /\ get root r = Some s /\ In q (ptrs s).

(** Junk: variables [J], none of them an argument, and subtrees of the
    body (at the positions [regions], all in statement parts) made of
    junk items only, such that every reference to a variable of [J]
    lies in one of the subtrees. *)
Definition junk (hexdsp : hexdsp_t) (f : cfunc_t) (J : list nat)
    (regions : list path) : Prop :=
  (forall i x, In i J -> nth_error (lvars f) i = Some x -> is_arg_var x = false) /\
  (forall r, In r regions ->
     exists s, get (body f) r = Some s /\ flood_free (body f) r = true /\
               all_items (junk_item hexdsp J) s = true) /\
  (forall p x, get (body f) p = Some x -> item_op x = cot_var ->
               In (v_idx (hdr x)) J ->
               exists r p', In r regions /\ p = r ++ p').

(** No item of a region is in [vectorLegitItems] and no variable of [J]
    has its [afVariableIsLegit] entry set. *)
Definition junk_unmarked (f : cfunc_t) (J : list nat) (regions : list path)
    (v : FIND_LEGIT_ITEMS_VISITOR) : Prop :=
  (forall q, in_region (body f) regions q -> ~ In q (vectorLegitItems v)) /\
  (forall i, In i J -> var_is_legit v i = false).

(** The position [p] is in none of the regions. *)
Definition outside (regions : list path) (p : path) : Prop :=
  forall r p', In r regions -> p <> r ++ p'.

(** An item that was left as it is, but for its label number and its
    goto target. *)
Definition same_item (h h0 : citem_hdr) : Prop :=
  self h = self h0 /\ op h = op h0 /\ ea h = ea h0 /\ v_idx h = v_idx h0 /\
  type h = type h0 /\ helper h = helper h0.

(** An item that was emptied where it stands. *)
Definition emptied (h h0 : citem_hdr) : Prop :=
  self h = self h0 /\ op h = cit_empty /\ ea h = ea h0.

(** The items [l] are what is left of the items [l0], in order, each
    related by [R] to the one it comes from; items may be missing only
    where [blk] holds. *)
Section KidsFrom.
Variable R : citem_t -> citem_t -> Prop.
Variable blk : Prop.

Fixpoint kids_from (l0 l : list citem_t) {struct l0} : Prop :=
  match l0 with
  | [] => l = []
  | k0 :: l0' =>
      (blk /\ kids_from l0' l) \/
      match l with
      | [] => False
      | k :: l' => R k0 k /\ kids_from l0' l'
      end
  end.
End KidsFrom.

(** [t] is what pruning can make of [t0]: the item is emptied and owns
    nothing any more, or it is the same item and owns what is left of
    the items it owned, each pruned in turn; only a block can have lost
    some of them. *)
Fixpoint pruned_from (t0 t : citem_t) {struct t0} : Prop :=
  match t0 with
  | Citem h0 ks0 =>
      (emptied (hdr t) h0 /\ kids t = []) \/
      (same_item (hdr t) h0 /\
       (fix go (l0 l : list citem_t) {struct l0} : Prop :=
          match l0 with
          | [] => l = []
          | k0 :: l0' =>
              (op h0 = cit_block /\ go l0' l) \/
              match l with
              | [] => False
              | k :: l' => pruned_from k0 k /\ go l0' l'
              end
          end) ks0 (kids t))
  end.

(** The kinds of the items that own the position [p], from [t] down. *)
Fixpoint ops_along (t : citem_t) (p : path) : list ctype_t :=
  match p with
  | [] => []
  | i :: p' =>
      item_op t :: match nth_error (kids t) i with
                   | Some k => ops_along k p'
                   | None => []
                   end
  end.

(** A walk in Pruning mode is not kept from the position [p] by the
    kinds of its owners: none of them is of the seven kinds whose
    children the walk skips. *)
Definition walk_enters (t : citem_t) (p : path) : bool :=
  forallb (fun o => negb (never_cleaned o)) (ops_along t p).

(** [r] is the beginning of [p]. *)
Fixpoint is_prefix (r p : path) : bool :=
  match r, p with
  | [], _ => true
  | i :: r', j :: p' => Nat.eqb i j && is_prefix r' p'
  | _ :: _, [] => false
  end.

Section RefsInRegions.
Variable J : list nat.
Variable regions : list path.

(** Every reference to a variable of [J] in [t], the item standing at
    [here], is at a position that one of the regions is the beginning
    of. *)
Fixpoint refs_in_regions (here : path) (t : citem_t) {struct t} : bool :=
  match t with
  | Citem h ks =>
      (if ctype_eqb (op h) cot_var && existsb (Nat.eqb (v_idx h)) J
       then existsb (fun r => is_prefix r here) regions else true)
      && (fix go (i : nat) (l : list citem_t) {struct l} : bool :=
            match l with
            | [] => true
            | k :: l' => refs_in_regions (here ++ [i]) k && go (S i) l'
            end) O ks
  end.

Fixpoint refs_in_regions_kids (here : path) (i : nat) (l : list citem_t) : bool :=
  match l with
  | [] => true
  | k :: l' => refs_in_regions (here ++ [i]) k
               && refs_in_regions_kids here (S i) l'
  end.
End RefsInRegions.

(** The three conditions of [junk], as a test. *)
Definition junk_check (hexdsp : hexdsp_t) (f : cfunc_t) (J : list nat)
    (regions : list path) : bool :=
  forallb (fun i => match nth_error (lvars f) i with
                    | Some x => negb (is_arg_var x)
                    | None => true
                    end) J
  && forallb (fun r => match get (body f) r with
                       | Some s => flood_free (body f) r
                                   && all_items (junk_item hexdsp J) s
                       | None => false
                       end) regions
  && refs_in_regions J regions [] (body f).

(* ================================================================== *)
(** * The plugin entry points *)
(* ================================================================== *)

(** The two texts the plugin prints with [msg]: the one that begins
    with "CrowdDetox plugin loaded" and the one that begins with
    "Failed to install CrowdDetox Hex-Rays callback". *)
Inductive message : Type :=
  | plugin_loaded_text
  | install_failed_text.

(** The calls the entry points make into the SDK, in the order they are
    made, with what [init_hexrays_plugin] and [install_hexrays_callback]
    answered. *)
Inductive sdk_call : Type :=
  | init_hexrays_plugin (ok : bool)
  | term_hexrays_plugin
  | msg (text : message)
  | install_hexrays_callback (ok : bool)
  | open_pseudocode
  | remove_hexrays_callback.

Inductive plugin_init_result : Type :=
  | PLUGIN_SKIP
  | PLUGIN_KEEP.

(** The global [g_fInitialized] and the calls made so far. *)
Record plugin_state : Type := mk_plugin {
  g_fInitialized : bool;
  sdk_calls : list sdk_call
}.

(** The state the plugin is loaded in: [bool g_fInitialized = false;]. *)
Definition plugin_loaded : plugin_state :=
  {| g_fInitialized := false; sdk_calls := [] |}.

(** [PLUGIN_init]; [init_ok] is the answer of [init_hexrays_plugin()]. *)
Definition PLUGIN_init (init_ok : bool) (s : plugin_state)
    : plugin_state * plugin_init_result :=
  if negb init_ok then
    ({| g_fInitialized := false;
        sdk_calls := sdk_calls s ++ [init_hexrays_plugin false] |}, PLUGIN_SKIP)
  else
    ({| g_fInitialized := true;
        sdk_calls := sdk_calls s ++ [init_hexrays_plugin true;
                                     msg plugin_loaded_text] |},
     PLUGIN_KEEP).

(** [PLUGIN_term]. *)
Definition PLUGIN_term (s : plugin_state) : plugin_state :=
  if g_fInitialized s then
    {| g_fInitialized := g_fInitialized s;
       sdk_calls := sdk_calls s ++ [term_hexrays_plugin] |}
  else s.

(** [PLUGIN_run]; [install_ok] is the answer of
    [install_hexrays_callback(HexRaysEventCallback, NULL)]. *)
Definition PLUGIN_run (install_ok : bool) (s : plugin_state) : plugin_state :=
  if negb install_ok then
    {| g_fInitialized := g_fInitialized s;
       sdk_calls := sdk_calls s ++
                    [install_hexrays_callback false;
                     msg install_failed_text] |}
  else
    {| g_fInitialized := g_fInitialized s;
       sdk_calls := sdk_calls s ++
                    [install_hexrays_callback true; open_pseudocode;
                     remove_hexrays_callback] |}.

(** The entry points as the kernel calls them through [PLUGIN]. *)
Inductive plugin_entry : Type :=
  | call_init (init_ok : bool)
  | call_term
  | call_run (install_ok : bool).

Definition plugin_step (s : plugin_state) (e : plugin_entry) : plugin_state :=
  match e with
  | call_init ok => fst (PLUGIN_init ok s)
  | call_term => PLUGIN_term s
  | call_run ok => PLUGIN_run ok s
  end.

Definition plugin_runs (es : list plugin_entry) (s : plugin_state)
    : plugin_state :=
  fold_left plugin_step es s.

(** Reading a list of SDK calls from the left with the answer of the
    last [init_hexrays_plugin] in hand ([flag]): whether every
    [term_hexrays_plugin] comes while that answer is [true], and the
    answer in hand at the end. *)
Fixpoint term_follows_init (flag : bool) (tr : list sdk_call) : bool * bool :=
  match tr with
  | [] => (true, flag)
  | init_hexrays_plugin ok :: tr' => term_follows_init ok tr'
  | term_hexrays_plugin :: tr' =>
      (flag && fst (term_follows_init flag tr'), snd (term_follows_init flag tr'))
  | _ :: tr' => term_follows_init flag tr'
  end.

(** The callbacks that are installed after a list of SDK calls, counted
    from [n]; [None] when a callback is removed that was not installed. *)
Fixpoint callbacks_installed (n : nat) (tr : list sdk_call) : option nat :=
  match tr with
  | [] => Some n
  | install_hexrays_callback true :: tr' => callbacks_installed (S n) tr'
  | remove_hexrays_callback :: tr' =>
      match n with
      | O => None
      | S n' => callbacks_installed n' tr'
      end
  | _ :: tr' => callbacks_installed n tr'
  end.

(** [n] is no label ([-1]) or the label number of an item of the tree. *)
Definition known_label (root : citem_t) (n : Z) : Prop :=
  n = -1 \/ In n (map snd (labels root)).

(** The headers of all items of a tree, in visiting order. *)
Fixpoint headers (t : citem_t) : list citem_hdr :=
  match t with
  | Citem h ks => h :: flat_map headers ks
  end.

(** The label numbers and goto targets of [t] come from [t0]: every
    label number of [t] is [-1] or a label number of [t0], and the
    target of every goto of [t] is the target of a goto of [t0] or a
    label number of [t0]. *)
Definition labels_from (t0 t : citem_t) : Prop :=
  forall h, In h (headers t) ->
    (label_num h = -1 \/
     exists h0, In h0 (headers t0) /\ label_num h0 = label_num h) /\
    (op h = cit_goto ->
     exists h0, In h0 (headers t0) /\
       ((op h0 = cit_goto /\ goto_label h0 = goto_label h) \/
        label_num h0 = goto_label h)).

(** The test of the ancestor loop that hands the whole subtree of an
    item to MarkingDescendants mode: an expression statement, a
    legitimate call or a return. *)
Definition marked_whole_kind (hexdsp : hexdsp_t) (t : citem_t) : bool :=
  ctype_eqb (item_op t) cit_expr
  || (ctype_eqb (item_op t) cot_call && IsLegitimateCall hexdsp t)
  || ctype_eqb (item_op t) cit_return.

(** A [cot_var] item names a variable of the function. *)
Definition names_a_variable (pFunction : cfunc_t) (x : citem_t) : bool :=
  if ctype_eqb (item_op x) cot_var
  then Nat.ltb (v_idx (hdr x)) (List.length (lvars pFunction))
  else true.

Definition vars_in_range (pFunction : cfunc_t) : bool :=
  all_items (names_a_variable pFunction) (body pFunction).

(** The subtree [e] is marked as a whole: its items are legitimate and
    so are the variables it refers to. *)
Definition marked_whole (v : FIND_LEGIT_ITEMS_VISITOR) (e : citem_t) : Prop :=
  incl (ptrs e) (vectorLegitItems v) /\
  forall p x, get e p = Some x -> item_op x = cot_var ->
              var_is_legit v (v_idx (hdr x)) = true.

(** An item in [vectorDescendantsMarkedLegit] has all the items below
    it in there, too. *)
Definition descended_whole (root : citem_t) (v : FIND_LEGIT_ITEMS_VISITOR)
    : Prop :=
  forall w x, item_at root w = Some x ->
              In (item_ptr x) (vectorDescendantsMarkedLegit v) ->
              incl (ptrs x) (vectorDescendantsMarkedLegit v).

(** The variable of a [cot_var] item in [vectorDescendantsMarkedLegit]
    is legitimate. *)
Definition descended_vars (root : citem_t) (v : FIND_LEGIT_ITEMS_VISITOR)
    : Prop :=
  forall w x, item_at root w = Some x ->
              In (item_ptr x) (vectorDescendantsMarkedLegit v) ->
              item_op x = cot_var ->
              var_is_legit v (v_idx (hdr x)) = true.

(** A legitimate item of a kind that is marked whole is in
    [vectorDescendantsMarkedLegit], the items of [pending] apart. *)
Definition whole_descended (hexdsp : hexdsp_t) (root : citem_t)
    (pending : list nat) (v : FIND_LEGIT_ITEMS_VISITOR) : Prop :=
  forall w x, item_at root w = Some x ->
              In (item_ptr x) (vectorLegitItems v) ->
              marked_whole_kind hexdsp x = true ->
              In (item_ptr x) (vectorDescendantsMarkedLegit v) \/
              In (item_ptr x) pending.

(** Between [v] and [v'], [vectorDescendantsMarkedLegit] has lost no
    address, and [fNewLegitItemFound] is clear in [v'] only if it was
    clear in [v] and no legitimate item was added. *)
Definition quiet_step (v v' : FIND_LEGIT_ITEMS_VISITOR) : Prop :=
  incl (vectorDescendantsMarkedLegit v) (vectorDescendantsMarkedLegit v') /\
  (fNewLegitItemFound v' = false ->
   fNewLegitItemFound v = false /\ vectorLegitItems v' = vectorLegitItems v).

(* ================================================================== *)
(** * Sample functions *)
(* ================================================================== *)

(** A renderer in the manner of the kernel: [print1] writes a helper's
    name between a colour-on and a colour-off tag (an escape byte and a
    colour byte each) and [tag_remove] drops such pairs. *)
Definition COLOR_ON : ascii := ascii_of_nat 1.
Definition COLOR_OFF : ascii := ascii_of_nat 2.
Definition COLOR_MACRO : ascii := ascii_of_nat 35.

Fixpoint strip_tags (s : string) : string :=
  match s with
  | EmptyString => EmptyString
  | String c s' =>
      if Ascii.eqb c COLOR_ON || Ascii.eqb c COLOR_OFF then
        match s' with
        | EmptyString => EmptyString
        | String _ s'' => strip_tags s''
        end
      else String c (strip_tags s')
  end.

Definition print_tagged (t : citem_t) : string :=
  match helper (hdr t) with
  | EmptyString => EmptyString
  | name => String COLOR_ON (String COLOR_MACRO
              (name ++ String COLOR_OFF (String COLOR_MACRO EmptyString)))
  end.

Definition sample_hexdsp : hexdsp_t :=
  {| print1 := print_tagged;
     tag_remove := strip_tags;
     print_type_to_one_line := fun ty => Some ty |}.

(** Builders: a statement or expression, a variable, a goto, a helper. *)
Definition item (p : nat) (o : ctype_t) (a l : Z) (ks : list citem_t) : citem_t :=
  Citem (mk_hdr p o a l O EmptyString EmptyString (-1)) ks.
Definition var_ref (p : nat) (idx : nat) : citem_t :=
  Citem (mk_hdr p cot_var 0 (-1) idx EmptyString EmptyString (-1)) [].
Definition goto_stmt (p : nat) (a target : Z) : citem_t :=
  Citem (mk_hdr p cit_goto a (-1) O EmptyString EmptyString target) [].
Definition helper_ref (p : nat) (name : string) : citem_t :=
  Citem (mk_hdr p cot_helper 0 (-1) O EmptyString name (-1)) [].

(** [v1 = LOBYTE(v2);] at address [a], labelled [l]; its items take the
    addresses [p .. p+5]. *)
Definition lobyte_stmt (p : nat) (a l : Z) : citem_t :=
  item p cit_expr a l
    [ item (p + 1) cot_other a (-1)
        [ var_ref (p + 2) 1;
          item (p + 3) cot_call a (-1)
            [ helper_ref (p + 4) "LOBYTE"; var_ref (p + 5) 2 ] ] ].

(** [sub_401000();] at address [a]. *)
Definition call_stmt (p : nat) (a : Z) : citem_t :=
  item p cit_expr a (-1)
    [ item (p + 1) cot_call a (-1) [ item (p + 2) cot_obj a (-1) [] ] ].

Definition three_locals : list lvar_t :=
  [ mk_lvar false true; mk_lvar false true; mk_lvar false true ].

(** [{ __asm { ... } }] *)
Definition asm_function : cfunc_t :=
  mk_cfunc (item 1 cit_block 0 (-1) [ item 2 cit_asm 4 (-1) [] ]) [].

(** [{ sub_401000(); }], without and with local variables. *)
Definition call_function : cfunc_t :=
  mk_cfunc (item 1 cit_block 0 (-1) [ call_stmt 2 4 ]) [].
Definition call_function_locals : cfunc_t :=
  mk_cfunc (item 1 cit_block 0 (-1) [ call_stmt 2 4 ]) three_locals.

(** [{ if (v0) { goto LABEL_5; }  LABEL_5: v1 = LOBYTE(v2); }] *)
Definition goto_function : cfunc_t :=
  mk_cfunc
    (item 1 cit_block 0 (-1)
       [ item 2 cit_if 10 (-1)
           [ var_ref 3 0; item 4 cit_block 11 (-1) [ goto_stmt 5 12 5 ] ];
         lobyte_stmt 6 20 5 ])
    three_locals.

(** [{ if (a0) { LABEL_7: v1 = LOBYTE(v2); }  sub_401000(); }] with
    [a0] an argument: the labelled statement is the last one of the
    inner block. *)
Definition nested_label_body : citem_t :=
  item 1 cit_block 0 (-1)
    [ item 2 cit_if 10 (-1)
        [ var_ref 3 0; item 4 cit_block 11 (-1) [ lobyte_stmt 5 12 7 ] ];
      call_stmt 11 20 ].

Definition nested_label_function : cfunc_t :=
  mk_cfunc nested_label_body
    [ mk_lvar true true; mk_lvar false true; mk_lvar false true ].

(* ================================================================== *)
(** * Properties *)
(* ================================================================== *)

Lemma ctype_eqb_eq (a b : ctype_t) : ctype_eqb a b = true <-> a = b.
Proof.
  split.
  - destruct a, b; simpl; intro H; try reflexivity; discriminate H.
  - intros ->. destruct b; reflexivity.
Qed.

Lemma ctype_eqb_refl (a : ctype_t) : ctype_eqb a a = true.
Proof. destruct a; reflexivity. Qed.

Lemma ctype_eqb_neq (a b : ctype_t) : ctype_eqb a b = false <-> a <> b.
Proof.
  split.
  - intros H ->. rewrite ctype_eqb_refl in H. discriminate.
  - intro H. destruct (ctype_eqb a b) eqn:E; [|reflexivity].
    apply ctype_eqb_eq in E. contradiction.
Qed.

Lemma is_non_legit_helper_In (name : string) :
  is_non_legit_helper name = true <-> In name aszNonLegitHelpers.
Proof.
  unfold is_non_legit_helper. rewrite existsb_exists. split.
  - intros [x [Hin Heq]]. apply String.eqb_eq in Heq. now subst.
  - intro H. exists name. split; [assumption | apply String.eqb_refl].
Qed.

(* ------------------------------------------------------------------ *)
(** ** Induction on the ctree and on the visitor engine *)
(* ------------------------------------------------------------------ *)

Fixpoint citem_t_ind (P : citem_t -> Prop)
    (IH : forall h ks, Forall P ks -> P (Citem h ks)) (t : citem_t) : P t :=
  match t with
  | Citem h ks =>
      IH h ks ((fix go (l : list citem_t) : Forall P l :=
                  match l with
                  | [] => Forall_nil P
                  | k :: l' => Forall_cons k (citem_t_ind P IH k) (go l')
                  end) ks)
  end.

Section ApplyToFacts.
Context {V : Type}.
Variable visit : where_t -> citem_t -> V -> V * visit_result.

Lemma apply_to_eq (w : where_t) (t : citem_t) (v : V) :
  apply_to visit w t v =
  match visit w t v with
  | (v1, Stop) => (v1, true)
  | (v1, PruneNow) => (v1, false)
  | (v1, Continue) => apply_to_kids visit w O (kids t) v1
  end.
Proof.
  destruct t as [h ks]. simpl.
  destruct (visit w (Citem h ks) v) as [v1 [| |]]; try reflexivity.
  generalize O. revert v1.
  induction ks as [|k ks IH]; intros v1 i; simpl; [reflexivity|].
  destruct (apply_to visit (i :: w) k v1) as [v2 [|]]; [reflexivity|].
  apply IH.
Qed.

(** A property that every visit hands on is handed on by the walk. *)
Lemma apply_to_preserves (P : V -> Prop) :
  (forall w t v, P v -> P (fst (visit w t v))) ->
  forall t w v, P v -> P (fst (apply_to visit w t v)).
Proof.
  intros Hv t. induction t as [h ks IH] using citem_t_ind.
  intros w v Pv. rewrite apply_to_eq.
  specialize (Hv w (Citem h ks) v Pv).
  destruct (visit w (Citem h ks) v) as [v1 r]. simpl in Hv.
  destruct r; simpl; try assumption.
  generalize O. revert v1 Hv.
  induction IH as [|k ks Hk _ IHks]; intros v1 Pv1 i; simpl; [assumption|].
  specialize (Hk (i :: w) v1 Pv1).
  destruct (apply_to visit (i :: w) k v1) as [v2 [|]]; simpl in *;
    [assumption|]. now apply IHks.
Qed.
End ApplyToFacts.

Lemma item_at_cons (root : citem_t) (w : where_t) (i : nat) :
  item_at root (i :: w) =
  match item_at root w with
  | Some t => nth_error (kids t) i
  | None => None
  end.
Proof.
  unfold item_at. simpl. generalize (rev w) as p. intro p. revert root.
  induction p as [|j p IH]; intro root; simpl.
  - destruct (nth_error (kids root) i); reflexivity.
  - destruct (nth_error (kids root) j); [apply IH | reflexivity].
Qed.

Section ApplyToPlaces.
Context {V : Type}.
Variable visit : where_t -> citem_t -> V -> V * visit_result.
Variable root : citem_t.
Variables P Q : V -> Prop.

(** The same for a walk over [root] that may stop: [P] holds until a
    visit stops the walk, and [Q] holds then.  Each visit may rely on
    the visited item standing at the position it is told. *)
Hypothesis visit_step :
  forall w t v v' r,
    item_at root w = Some t -> P v -> visit w t v = (v', r) ->
    match r with Stop => Q v' | _ => P v' end.

Lemma apply_to_places :
  forall t w v v' b,
    item_at root w = Some t -> P v -> apply_to visit w t v = (v', b) ->
    if b then Q v' else P v'.
Proof.
  intro t. induction t as [h ks IH] using citem_t_ind.
  intros w v v' b Hat Pv. rewrite apply_to_eq.
  destruct (visit w (Citem h ks) v) as [v1 r] eqn:Ev.
  pose proof (visit_step _ _ _ _ _ Hat Pv Ev) as Hs.
  destruct r.
  - simpl.
    assert (Hk : forall i, nth_error (kids (Citem h ks)) i = nth_error ks i)
      by reflexivity.
    assert (Hgen : forall l i v1 v' b,
               Forall (fun k => forall w v v' b,
                 item_at root w = Some k -> P v ->
                 apply_to visit w k v = (v', b) -> if b then Q v' else P v') l ->
               (forall j k, nth_error l j = Some k ->
                            item_at root ((i + j)%nat :: w) = Some k) ->
               P v1 -> apply_to_kids visit w i l v1 = (v', b) ->
               if b then Q v' else P v').
    { clear - visit_step. intros l.
      induction l as [|k l IHl]; intros i v1 v' b Hall Hpos Pv1 E; simpl in E.
      - inversion E; subst. assumption.
      - inversion Hall as [|? ? Hk Hl]; subst.
        destruct (apply_to visit (i :: w) k v1) as [v2 b2] eqn:E2.
        assert (Hik : item_at root (i :: w) = Some k).
        { specialize (Hpos O k eq_refl). now rewrite Nat.add_0_r in Hpos. }
        pose proof (Hk _ _ _ _ Hik Pv1 E2) as H2.
        destruct b2.
        + inversion E; subst. assumption.
        + apply (IHl (S i) v2 v' b Hl); try assumption.
          intros j k' Hj. specialize (Hpos (S j) k' Hj).
          now rewrite Nat.add_succ_r in Hpos. }
    intro E. apply (Hgen ks O v1 v' b IH); try assumption.
    intros j k Hj. simpl. rewrite item_at_cons, Hat. exact Hj.
  - intro E. inversion E; subst. assumption.
  - intro E. inversion E; subst. assumption.
Qed.
End ApplyToPlaces.

(* ------------------------------------------------------------------ *)
(** ** FIND_LEGIT_ITEMS_VISITOR: the marks only grow *)
(* ------------------------------------------------------------------ *)

Lemma length_set_nth (i : nat) (a : list bool) :
  List.length (set_nth i a) = List.length a.
Proof.
  revert i. induction a as [|b a IH]; intros [|i]; simpl; try reflexivity.
  now rewrite IH.
Qed.

Lemma nth_set_nth_keeps (i j : nat) (a : list bool) :
  nth j a false = true -> nth j (set_nth i a) false = true.
Proof.
  revert i j. induction a as [|b a IH]; intros i j H.
  - destruct j; discriminate H.
  - destruct i as [|i], j as [|j]; simpl in *; auto.
Qed.

Lemma grows_refl (v : FIND_LEGIT_ITEMS_VISITOR) : grows v v.
Proof. split; [exists []; now rewrite app_nil_r | auto]. Qed.

Lemma grows_trans (a b c : FIND_LEGIT_ITEMS_VISITOR) :
  grows a b -> grows b c -> grows a c.
Proof.
  intros [[l1 H1] M1] [[l2 H2] M2]. split.
  - exists (l1 ++ l2). now rewrite H2, H1, app_assoc.
  - auto.
Qed.

Section FindLegitFacts.
Variable hexdsp : hexdsp_t.
Variable malloc_ok : bool.
Variable pFunction : cfunc_t.

Let inv := fliv_inv pFunction.

(** [v'] comes after [v]: the marks grew and the invariant holds. *)
Let after (v v' : FIND_LEGIT_ITEMS_VISITOR) : Prop := grows v v' /\ inv v'.

Lemma after_refl v : inv v -> after v v.
Proof. intro H. split; [apply grows_refl | exact H]. Qed.

Lemma after_trans a b c : after a b -> after b c -> after a c.
Proof. intros [G1 _] [G2 I2]. split; [eapply grows_trans; eauto | exact I2]. Qed.

Lemma mark_variable_after i v : inv v -> after v (mark_variable i v).
Proof.
  unfold after, inv, fliv_inv, grows, var_is_legit, mark_variable. simpl.
  intro H. destruct (afVariableIsLegit v) as [a|]; simpl.
  - destruct H as (F & L & A). repeat split.
    + exists []. now rewrite app_nil_r.
    + intros j. apply nth_set_nth_keeps.
    + exact F.
    + now rewrite length_set_nth.
    + intros j x Hj Hx. apply nth_set_nth_keeps. eauto.
  - repeat split; [exists []; now rewrite app_nil_r | auto | exact H].
Qed.

Lemma mark_item_after t v : inv v -> after v (mark_item t v).
Proof.
  intro H. unfold mark_item. destruct (has (vectorLegitItems v) t).
  - now apply after_refl.
  - split; [split|]; simpl.
    + now exists [item_ptr t].
    + auto.
    + exact H.
Qed.

Lemma remember_descended_after t v : inv v -> after v (remember_descended t v).
Proof.
  intro H. split; [split|]; simpl.
  - exists []. now rewrite app_nil_r.
  - auto.
  - exact H.
Qed.

Lemma ensure_initialized_after v v' :
  inv v -> ensure_initialized malloc_ok pFunction v = Some v' -> after v v'.
Proof.
  unfold ensure_initialized, Initialize. intros H E.
  destruct (fInitialized v) eqn:F.
  - inversion E; subst. now apply after_refl.
  - destruct malloc_ok; [|discriminate]. inversion E; subst; clear E.
    assert (N : afVariableIsLegit v = None).
    { unfold inv, fliv_inv in H. destruct (afVariableIsLegit v); [|reflexivity].
      destruct H as [H _]. congruence. }
    split; [split|]; simpl.
    + exists []. now rewrite app_nil_r.
    + unfold var_is_legit. rewrite N. discriminate.
    + unfold inv, fliv_inv. simpl. repeat split.
      * apply length_map.
      * intros i x Hi Hx.
        rewrite <- Hx.
        change false with (is_arg_var (mk_lvar false false)).
        rewrite map_nth. apply nth_error_nth with (d := mk_lvar false false) in Hi.
        now rewrite Hi.
Qed.

Lemma visit_item_marking_after w t v :
  inv v -> after v (fst (visit_item_marking malloc_ok pFunction w t v)).
Proof.
  intro H. unfold visit_item_marking.
  destruct (ensure_initialized malloc_ok pFunction v) as [v1|] eqn:E.
  - pose proof (ensure_initialized_after _ _ H E) as A1.
    destruct (has (vectorDescendantsMarkedLegit v1) t); simpl; [exact A1|].
    eapply after_trans; [exact A1|].
    assert (A2 : after v1 (if ctype_eqb (item_op t) cot_var
                           then mark_variable (v_idx (hdr t)) v1 else v1)).
    { destruct (ctype_eqb (item_op t) cot_var).
      - apply mark_variable_after, A1.
      - apply after_refl, A1. }
    eapply after_trans; [exact A2|].
    eapply after_trans; [apply mark_item_after, A2|].
    apply remember_descended_after.
    apply (mark_item_after t _ (proj2 A2)).
  - simpl. now apply after_refl.
Qed.

Lemma mark_descendants_after p v :
  inv v -> after v (mark_descendants malloc_ok pFunction p v).
Proof.
  intro H. unfold mark_descendants.
  apply (apply_to_preserves (visit_item_marking malloc_ok pFunction) (after v)).
  - intros w t v1 A1. eapply after_trans; [exact A1|].
    apply visit_item_marking_after, A1.
  - now apply after_refl.
Qed.

Lemma mark_descendants_once_after p v :
  inv v -> after v (mark_descendants_once malloc_ok pFunction p v).
Proof.
  intro H. unfold mark_descendants_once.
  destruct (has (vectorDescendantsMarkedLegit v) p).
  - now apply after_refl.
  - now apply mark_descendants_after.
Qed.

Lemma mark_opt_after p v :
  inv v -> after v (mark_opt malloc_ok pFunction p v).
Proof.
  intro H. destruct p as [e|]; simpl.
  - now apply mark_descendants_once_after.
  - now apply after_refl.
Qed.

Lemma visit_legit_item_after t v :
  inv v -> after v (visit_legit_item malloc_ok pFunction t v).
Proof.
  intro H. unfold visit_legit_item.
  destruct (governing_expression t) as [e|]; [|now apply after_refl].
  destruct (has (vectorDescendantsMarkedLegit v) e); [now apply after_refl|].
  pose proof (mark_descendants_after e v H) as A1.
  destruct (ctype_eqb (item_op t) cit_for); [|exact A1].
  eapply after_trans; [exact A1|].
  pose proof (mark_opt_after (for_init t) _ (proj2 A1)) as A2.
  eapply after_trans; [exact A2|].
  apply mark_opt_after, A2.
Qed.

Lemma mark_ancestor_after t v :
  inv v -> after v (mark_ancestor hexdsp malloc_ok pFunction t v).
Proof.
  intro H. unfold mark_ancestor.
  pose proof (mark_item_after t v H) as A1.
  match goal with |- context [if ?c then _ else _] => destruct c end.
  - eapply after_trans; [exact A1|].
    apply mark_descendants_once_after, A1.
  - exact A1.
Qed.

Lemma mark_ancestors_after w : forall t v,
  inv v -> after v (mark_ancestors hexdsp malloc_ok pFunction t w v).
Proof.
  induction w as [|i w IH]; intros t v H; simpl.
  - now apply mark_ancestor_after.
  - pose proof (mark_ancestor_after t v H) as A1.
    destruct (item_at (body pFunction) w) as [par|]; [|exact A1].
    eapply after_trans; [exact A1|]. apply IH, A1.
Qed.

Lemma visit_item_scanning_after w t v :
  inv v -> after v (fst (visit_item_scanning hexdsp malloc_ok pFunction w t v)).
Proof.
  intro H. unfold visit_item_scanning.
  destruct (ensure_initialized malloc_ok pFunction v) as [v1|] eqn:E.
  - pose proof (ensure_initialized_after _ _ H E) as A1.
    destruct (has (vectorLegitItems v1) t); simpl.
    + eapply after_trans; [exact A1|]. apply visit_legit_item_after, A1.
    + destruct (marks_ancestors hexdsp t v1); simpl; [|exact A1].
      eapply after_trans; [exact A1|]. apply mark_ancestors_after, A1.
  - simpl. now apply after_refl.
Qed.

Lemma set_fNewLegitItemFound_after b v :
  inv v -> after v (set_fNewLegitItemFound b v).
Proof.
  intro H. split; [split|]; simpl.
  - exists []. now rewrite app_nil_r.
  - auto.
  - exact H.
Qed.

Lemma find_legit_pass_after v :
  inv v -> after v (find_legit_pass hexdsp malloc_ok pFunction v).
Proof.
  intro H. unfold find_legit_pass.
  apply (apply_to_preserves
           (visit_item_scanning hexdsp malloc_ok pFunction) (after v)).
  - intros w t v1 A1. eapply after_trans; [exact A1|].
    apply visit_item_scanning_after, A1.
  - now apply set_fNewLegitItemFound_after.
Qed.

Lemma find_legit_loop_after fuel : forall v v' n,
  inv v ->
  find_legit_loop hexdsp malloc_ok pFunction fuel v = Some (v', n) ->
  after v v'.
Proof.
  induction fuel as [|fuel IH]; intros v v' n H E; simpl in E; [discriminate|].
  pose proof (find_legit_pass_after v H) as A1.
  destruct (fNewLegitItemFound (find_legit_pass hexdsp malloc_ok pFunction v)).
  - destruct (find_legit_loop hexdsp malloc_ok pFunction fuel
                (find_legit_pass hexdsp malloc_ok pFunction v))
      as [[v2 k]|] eqn:E2; [|discriminate].
    inversion E; subst. eapply after_trans; [exact A1|].
    eapply IH; [apply A1 | exact E2].
  - inversion E; subst. exact A1.
Qed.

Lemma fliv_init_inv : inv fliv_init.
Proof. reflexivity. Qed.
End FindLegitFacts.

(* ------------------------------------------------------------------ *)
(** ** The call classifier *)
(* ------------------------------------------------------------------ *)

(** C2.  A call whose callee is not a helper is legitimate.  A call to a
    helper is legitimate unless the helper's name cannot be rendered
    ([print1] returns 0) or the rendered name, colour tags stripped, is
    one of the macros of [aszNonLegitHelpers] (LOBYTE, HIWORD, __ROL__,
    __CFADD__, ...): it is not legitimate exactly in these two cases. *)
Theorem IsLegitimateCall_classifies (hexdsp : hexdsp_t)
    (e x : citem_t) (args : list citem_t) :
  item_op e = cot_call ->
  kids e = x :: args ->
  (item_op x <> cot_helper -> IsLegitimateCall hexdsp e = true) /\
  (item_op x = cot_helper ->
     String.length (print1 hexdsp x) = O ->
     IsLegitimateCall hexdsp e = false) /\
  (item_op x = cot_helper ->
     String.length (print1 hexdsp x) <> O ->
     (IsLegitimateCall hexdsp e = false <->
      In (tag_remove hexdsp (print1 hexdsp x)) aszNonLegitHelpers)) /\
  In "LOBYTE"%string aszNonLegitHelpers /\
  In "HIWORD"%string aszNonLegitHelpers /\
  In "__ROL__"%string aszNonLegitHelpers /\
  In "__CFADD__"%string aszNonLegitHelpers.
Proof.
  intros Hop Hk. unfold IsLegitimateCall. rewrite Hop, Hk. simpl.
  split; [|split; [|split]].
  - intro Hx. apply ctype_eqb_neq in Hx. now rewrite Hx.
  - intros Hx Hl. rewrite Hx, Hl. reflexivity.
  - intros Hx Hl. rewrite Hx. simpl. apply Nat.eqb_neq in Hl. rewrite Hl.
    destruct (is_non_legit_helper (tag_remove hexdsp (print1 hexdsp x))) eqn:E;
      split.
    + intros _. now apply is_non_legit_helper_In.
    + reflexivity.
    + discriminate.
    + intro Hin. apply is_non_legit_helper_In in Hin. congruence.
  - repeat split; apply is_non_legit_helper_In; reflexivity.
Qed.

Lemma IsLegitimateCall_classifies_witness :
  IsLegitimateCall sample_hexdsp
    (item 1 cot_call 0 (-1) [ helper_ref 2 "LOBYTE"; var_ref 3 0 ]) = false /\
  IsLegitimateCall sample_hexdsp
    (item 1 cot_call 0 (-1) [ helper_ref 2 "__readfsdword"; var_ref 3 0 ]) = true.
Proof.
  split.
  - apply (proj1 (proj2 (proj2 (IsLegitimateCall_classifies sample_hexdsp
             (item 1 cot_call 0 (-1) [ helper_ref 2 "LOBYTE"; var_ref 3 0 ])
             (helper_ref 2 "LOBYTE") [ var_ref 3 0 ] eq_refl eq_refl)))).
    + reflexivity.
    + simpl. discriminate.
    + vm_compute. tauto.
  - pose proof (IsLegitimateCall_classifies sample_hexdsp
             (item 1 cot_call 0 (-1) [ helper_ref 2 "__readfsdword"; var_ref 3 0 ])
             (helper_ref 2 "__readfsdword") [ var_ref 3 0 ] eq_refl eq_refl)
      as (_ & _ & H & _).
    destruct (IsLegitimateCall sample_hexdsp
             (item 1 cot_call 0 (-1) [ helper_ref 2 "__readfsdword"; var_ref 3 0 ]))
      eqn:E; [reflexivity|].
    exfalso.
    assert (Hin : In (tag_remove sample_hexdsp
                        (print1 sample_hexdsp (helper_ref 2 "__readfsdword")))
                     aszNonLegitHelpers).
    { apply H; [reflexivity | simpl; discriminate | reflexivity]. }
    apply is_non_legit_helper_In in Hin. vm_compute in Hin. discriminate.
Defined.

(** C10.  An expression that is not a call is not a legitimate call,
    whatever it owns and whatever the renderers would say. *)
Theorem IsLegitimateCall_not_a_call (hexdsp : hexdsp_t) (e : citem_t) :
  item_op e <> cot_call -> IsLegitimateCall hexdsp e = false.
Proof.
  intro H. unfold IsLegitimateCall. apply ctype_eqb_neq in H. now rewrite H.
Qed.

Lemma IsLegitimateCall_not_a_call_witness :
  IsLegitimateCall sample_hexdsp (item 1 cot_obj 0 (-1) [ helper_ref 2 "memcpy" ])
  = false.
Proof.
  apply (IsLegitimateCall_not_a_call sample_hexdsp
           (item 1 cot_obj 0 (-1) [ helper_ref 2 "memcpy" ])).
  simpl. discriminate.
Defined.

(* ------------------------------------------------------------------ *)
(** ** The marking phase *)
(* ------------------------------------------------------------------ *)

Lemma marks_ancestors_asm (hexdsp : hexdsp_t) (t : citem_t)
    (v : FIND_LEGIT_ITEMS_VISITOR) :
  item_op t = cit_asm -> marks_ancestors hexdsp t v = false.
Proof. intro H. unfold marks_ancestors. rewrite H. reflexivity. Qed.

(** C4.  What the code does with an inline-assembly statement: the test
    in front of the ancestor loop returns 0 for [cit_asm], so in
    [{ __asm { ... } }] the visit of the statement leaves the visitor as
    it is and the marking loop ends after one round with no legitimate
    item at all, neither the statement nor the block above it, while a
    [goto] in the same place marks itself and the block. *)
Theorem asm_statement_is_not_marked :
  marks_ancestors sample_hexdsp (item 2 cit_asm 4 (-1) []) fliv_init = false /\
  option_map (fun r => (vectorLegitItems (fst r), snd r))
    (find_legit_loop sample_hexdsp true asm_function 4 fliv_init)
  = Some ([], 1%nat) /\
  option_map (fun r => (vectorLegitItems (fst r), snd r))
    (find_legit_loop sample_hexdsp true
       (mk_cfunc (item 1 cit_block 0 (-1) [ goto_stmt 2 4 9 ]) []) 4 fliv_init)
  = Some ([2%nat; 1%nat], 2%nat).
Proof.
  split; [apply marks_ancestors_asm; reflexivity|].
  split; vm_compute; reflexivity.
Qed.

(** C7.  From a visitor state that satisfies the invariant of
    [Initialize], every [visit_item] call in either mode, every round of
    the marking loop and the loop as a whole only add to
    [vectorLegitItems] and only turn entries of [afVariableIsLegit] from
    false to true. *)
Theorem legit_marks_only_grow (hexdsp : hexdsp_t) (malloc_ok : bool)
    (pFunction : cfunc_t) (v : FIND_LEGIT_ITEMS_VISITOR) :
  fliv_inv pFunction v ->
  (forall w t, grows v (fst (visit_item_scanning hexdsp malloc_ok pFunction w t v))) /\
  (forall w t, grows v (fst (visit_item_marking malloc_ok pFunction w t v))) /\
  grows v (find_legit_pass hexdsp malloc_ok pFunction v) /\
  (forall fuel,
      match find_legit_loop hexdsp malloc_ok pFunction fuel v with
      | Some (v', _) => grows v v'
      | None => True
      end).
Proof.
  intro H. split; [|split; [|split]].
  - intros w t. apply visit_item_scanning_after, H.
  - intros w t. apply visit_item_marking_after, H.
  - apply find_legit_pass_after, H.
  - intro fuel.
    destruct (find_legit_loop hexdsp malloc_ok pFunction fuel v) as [[v' n]|] eqn:E;
      [|exact I].
    eapply find_legit_loop_after; eauto.
Qed.

Lemma legit_marks_only_grow_witness :
  fliv_inv goto_function fliv_init /\
  grows fliv_init (find_legit_pass sample_hexdsp true goto_function fliv_init).
Proof.
  split; [reflexivity|].
  exact (proj1 (proj2 (proj2 (legit_marks_only_grow sample_hexdsp true
                                goto_function fliv_init eq_refl)))).
Defined.

(* ------------------------------------------------------------------ *)
(** ** The variable sweep *)
(* ------------------------------------------------------------------ *)

Lemma clear_unused_length (af : list bool) (vars : list lvar_t) :
  forall i0, List.length (clear_unused af i0 vars) = List.length vars.
Proof. induction vars as [|x vars IH]; intro i0; simpl; [|rewrite IH]; reflexivity. Qed.

Lemma clear_unused_nth (af : list bool) (vars : list lvar_t) :
  forall i0 i x,
    nth_error vars i = Some x ->
    nth_error (clear_unused af i0 vars) i =
    Some (if negb (nth (i0 + i) af false) then clear_used x else x).
Proof.
  induction vars as [|y vars IH]; intros i0 i x H.
  - destruct i; discriminate H.
  - destruct i as [|i]; simpl in *.
    + inversion H; subst. now rewrite Nat.add_0_r.
    + rewrite (IH (S i0) i x H). now rewrite Nat.add_succ_r.
Qed.

(** C1.  When an invocation returns, every variable has kept its
    [is_arg_var], its [CVAR_USED] flag is the old flag where the entry of
    [afVariableIsLegit] is true and is clear where the entry is false,
    and the entry of every argument variable is true, so that the flag of
    an argument variable is what it was. *)
Theorem Detox_clears_exactly_the_unmarked (hexdsp : hexdsp_t)
    (malloc_ok : bool) (fuel : nat) (f f' : cfunc_t) :
  Detox hexdsp malloc_ok fuel f = Returns f' ->
  exists fliv n,
    find_legit_loop hexdsp malloc_ok f fuel fliv_init = Some (fliv, n) /\
    List.length (lvars f') = List.length (lvars f) /\
    forall i x,
      nth_error (lvars f) i = Some x ->
      exists x',
        nth_error (lvars f') i = Some x' /\
        is_arg_var x' = is_arg_var x /\
        used x' = (used x && var_is_legit fliv i)%bool /\
        (is_arg_var x = true -> var_is_legit fliv i = true /\ used x' = used x).
Proof.
  unfold Detox. intro E.
  destruct (find_legit_loop hexdsp malloc_ok f fuel fliv_init)
    as [[fliv n]|] eqn:EL; [|discriminate].
  pose proof (find_legit_loop_after hexdsp malloc_ok f fuel _ _ _
                (fliv_init_inv f) EL) as [_ Hinv].
  exists fliv, n. split; [reflexivity|].
  destruct (prune_loop (vectorLegitItems fliv) fuel fuel (piv_init (body f)))
    as [[piv k]|]; [|discriminate].
  destruct (lvars f) as [|x0 vars] eqn:EV.
  - inversion E; subst; simpl. split; [reflexivity|].
    intros i x H. destruct i; discriminate H.
  - unfold fliv_inv in Hinv. unfold var_is_legit.
    destruct (afVariableIsLegit fliv) as [af|]; [|discriminate].
    destruct Hinv as (_ & _ & Hargs).
    injection E as E. subst f'. cbn [lvars].
    split; [exact (clear_unused_length af (x0 :: vars) O)|].
    intros i x H.
    exists (if negb (nth i af false) then clear_used x else x).
    split; [exact (clear_unused_nth af (x0 :: vars) O i x H)|].
    rewrite EV in Hargs.
    destruct (nth i af false) eqn:En; simpl.
    + split; [reflexivity|]. split; [now rewrite andb_true_r|].
      intros _. split; reflexivity.
    + split; [reflexivity|]. split; [now rewrite andb_false_r|].
      intro Ha. specialize (Hargs i x H Ha). congruence.
Qed.

Lemma Detox_clears_exactly_the_unmarked_witness :
  exists f' fliv n,
    Detox sample_hexdsp true 8 nested_label_function = Returns f' /\
    find_legit_loop sample_hexdsp true nested_label_function 8 fliv_init
      = Some (fliv, n) /\
    List.length (lvars f') = List.length (lvars nested_label_function).
Proof.
  assert (E : { f' | Detox sample_hexdsp true 8 nested_label_function = Returns f' })
    by (eexists; vm_compute; reflexivity).
  destruct E as [f' E].
  destruct (Detox_clears_exactly_the_unmarked sample_hexdsp true 8
              nested_label_function f' E) as (fliv & n & EL & L & _).
  exists f', fliv, n. split; [exact E|]. split; [exact EL | exact L].
Defined.

(* ------------------------------------------------------------------ *)
(** ** Allocation failure and repeated runs *)
(* ------------------------------------------------------------------ *)

(** C3.  What the code does when [malloc] fails: the marking walk stops
    at its first item, and [Detox] goes on.  On [{ sub_401000(); }] the
    pruning loop then runs with an empty [vectorLegitItems] and removes
    the call statement, which the same invocation keeps when the
    allocation succeeds; with local variables present the last loop
    reads through the [NULL] array pointer. *)
Theorem Detox_after_failed_allocation :
  Detox sample_hexdsp false 5 call_function
    = Returns (mk_cfunc (item 1 cit_block 0 (-1) []) []) /\
  Detox sample_hexdsp true 5 call_function = Returns call_function /\
  Detox sample_hexdsp false 5 call_function_locals = Undefined.
Proof. repeat split; vm_compute; reflexivity. Qed.

(** C9.  What the code does on
    [{ if (v0) { goto LABEL_5; }  LABEL_5: v1 = LOBYTE(v2); }]:
    the first run keeps [if (v0) { }] and the flag of [v0]; a second run
    on that result removes the [if] and clears the flag of [v0]. *)
Theorem Detox_twice_differs :
  exists f1 f2,
    Detox sample_hexdsp true 8 goto_function = Returns f1 /\
    Detox sample_hexdsp true 8 f1 = Returns f2 /\
    body f1 = item 1 cit_block 0 (-1)
                [ item 2 cit_if 10 (-1)
                    [ var_ref 3 0; item 4 cit_block 11 (-1) [] ] ] /\
    map used (lvars f1) = [true; false; false] /\
    body f2 = item 1 cit_block 0 (-1) [] /\
    map used (lvars f2) = [false; false; false] /\
    f2 <> f1.
Proof.
  eexists. eexists.
  split; [vm_compute; reflexivity|]. split; [vm_compute; reflexivity|].
  repeat split. discriminate.
Qed.

(** An empty statement between two call statements is erased and the
    two calls stay, in their order. *)
Example Detox_erases_an_empty_statement :
  Detox sample_hexdsp true 6
    (mk_cfunc (item 1 cit_block 0 (-1)
                 [ call_stmt 2 4; item 5 cit_empty 8 (-1) []; call_stmt 6 12 ])
              [])
  = Returns (mk_cfunc (item 1 cit_block 0 (-1) [ call_stmt 2 4; call_stmt 6 12 ])
                      []).
Proof. vm_compute. reflexivity. Qed.

(* ------------------------------------------------------------------ *)
(** ** Pruning mode *)
(* ------------------------------------------------------------------ *)

Lemma first_empty_spec (l : list citem_t) (i : nat) :
  first_empty l = Some i ->
  exists k,
    nth_error l i = Some k /\
    (item_op k = cit_empty \/ item_op k = cot_empty) /\
    (forall j k', (j < i)%nat -> nth_error l j = Some k' ->
                  item_op k' <> cit_empty /\ item_op k' <> cot_empty).
Proof.
  revert i. induction l as [|x l IH]; intros i H; simpl in H; [discriminate|].
  destruct (ctype_eqb (item_op x) cit_empty || ctype_eqb (item_op x) cot_empty)
    eqn:E.
  - inversion H; subst. exists x. split; [reflexivity|]. split.
    + apply orb_true_iff in E. destruct E as [E|E]; apply ctype_eqb_eq in E; auto.
    + intros j k' Hj. inversion Hj.
  - destruct (first_empty l) as [i'|] eqn:F; [|discriminate].
    inversion H; subst. destruct (IH i' eq_refl) as (k & Hk & Hop & Hbefore).
    exists k. split; [exact Hk|]. split; [exact Hop|].
    intros j k' Hj Hn. destruct j as [|j]; simpl in Hn.
    + inversion Hn; subst. apply orb_false_iff in E. destruct E as [E1 E2].
      split; now apply ctype_eqb_neq.
    + apply (Hbefore j k'); [lia | exact Hn].
Qed.

Lemma never_cleaned_not_block (o : ctype_t) :
  never_cleaned o = true -> ctype_eqb o cit_block = false.
Proof. destruct o; simpl; intro H; try reflexivity; discriminate H. Qed.

Lemma expr_not_block (o : ctype_t) :
  op_is_expr o = true -> ctype_eqb o cit_block = false.
Proof. destruct o; simpl; intro H; try reflexivity; discriminate H. Qed.

(** One [visit_item] call in Pruning mode on the item [t], as far as
    the visited item goes:
    - an item of kind break, continue, goto, empty statement, empty
      expression, asm or return is left alone, and the walk does not
      descend into it;
    - an expression is left alone;
    - an item of [pVectorLegitItems] that is not a block is left alone;
    - the call changes the tree only when it returns 1, and then either
      [t] is a block and its first empty child was erased, or [t] is a
      statement of none of the seven kinds, not in [pVectorLegitItems],
      and [cleanup()] was called on it. *)
Theorem visit_item_pruning_targets (legit : list nat) (fuel : nat)
    (w : where_t) (t : citem_t) (v : PRUNE_ITEMS_VISITOR) :
  (never_cleaned (item_op t) = true ->
     visit_item_pruning legit fuel w t v = (v, PruneNow) /\
     apply_to (visit_item_pruning legit fuel) w t v = (v, false)) /\
  (op_is_expr (item_op t) = true ->
     fst (visit_item_pruning legit fuel w t v) = v /\
     snd (visit_item_pruning legit fuel w t v) <> Stop) /\
  (has legit t = true -> item_op t <> cit_block ->
     fst (visit_item_pruning legit fuel w t v) = v /\
     snd (visit_item_pruning legit fuel w t v) <> Stop) /\
  (snd (visit_item_pruning legit fuel w t v) <> Stop ->
     fst (visit_item_pruning legit fuel w t v) = v) /\
  (snd (visit_item_pruning legit fuel w t v) = Stop ->
     (item_op t = cit_block /\
      exists i k,
        first_empty (kids t) = Some i /\
        nth_error (kids t) i = Some k /\
        (item_op k = cit_empty \/ item_op k = cot_empty) /\
        (forall j k', (j < i)%nat -> nth_error (kids t) j = Some k' ->
                      item_op k' <> cit_empty /\ item_op k' <> cot_empty) /\
        fst (visit_item_pruning legit fuel w t v)
        = set_fPruned true (set_ctree (update_at (ctree v) w (erase_child i)) v))
     \/
     (item_op t <> cit_block /\
      never_cleaned (item_op t) = false /\
      has legit t = false /\
      op_is_expr (item_op t) = false /\
      exists v1,
        fst (visit_item_pruning legit fuel w t v)
        = set_fPruned true (set_ctree (update_at (ctree v1) w cleanup) v1))).
Proof.
  split; [|split; [|split; [|split]]].
  - intro N. assert (E : visit_item_pruning legit fuel w t v = (v, PruneNow)).
    { unfold visit_item_pruning.
      now rewrite (never_cleaned_not_block _ N), N. }
    split; [exact E|]. rewrite apply_to_eq, E. reflexivity.
  - intro X. unfold visit_item_pruning. rewrite (expr_not_block _ X), X.
    destruct (never_cleaned (item_op t)); [split; [reflexivity | discriminate]|].
    destruct (has legit t); split; try reflexivity; discriminate.
  - intros L B. unfold visit_item_pruning.
    apply ctype_eqb_neq in B. rewrite B, L.
    destruct (never_cleaned (item_op t)); split; try reflexivity; discriminate.
  - unfold visit_item_pruning.
    destruct (ctype_eqb (item_op t) cit_block).
    + destruct (first_empty (kids t)); simpl; [congruence | reflexivity].
    + destruct (never_cleaned (item_op t)); [reflexivity|].
      destruct (has legit t); [reflexivity|].
      destruct (op_is_expr (item_op t)); [reflexivity|]. simpl. congruence.
  - unfold visit_item_pruning.
    destruct (ctype_eqb (item_op t) cit_block) eqn:B.
    + destruct (first_empty (kids t)) as [i|] eqn:F; simpl; [|discriminate].
      intros _. left. split; [now apply ctype_eqb_eq|].
      destruct (first_empty_spec _ _ F) as (k & Hk & Hop & Hb).
      exists i, k. repeat split; auto; apply (Hb j k'); assumption.
    + destruct (never_cleaned (item_op t)) eqn:N; [discriminate|].
      destruct (has legit t) eqn:L; [discriminate|].
      destruct (op_is_expr (item_op t)) eqn:X; [discriminate|].
      intros _. right. split; [now apply ctype_eqb_neq|].
      repeat split. eexists. reflexivity.
Qed.

Lemma visit_item_pruning_targets_witness :
  visit_item_pruning [] 3 [O] (goto_stmt 5 12 5) (piv_init (body goto_function))
  = (piv_init (body goto_function), PruneNow).
Proof.
  exact (proj1 (proj1 (visit_item_pruning_targets [] 3 [O] (goto_stmt 5 12 5)
                         (piv_init (body goto_function))) eq_refl)).
Defined.

(** C6.  What the pruning phase does on
    [{ if (v0) { goto LABEL_5; }  LABEL_5: v1 = LOBYTE(v2); }]: the
    goto is in [vectorLegitItems] when the phase starts.  The visit in
    Pruning mode of the labelled junk statement, which ends the first
    round, finds no carrier for the label; the goto conversion it runs
    leaves a [cit_empty] where the goto was.  In the third round the
    block rule erases that item, and the body [Detox] returns no longer
    holds the address of the goto. *)
Theorem legit_goto_is_deleted :
  exists fliv k v1 f',
    find_legit_loop sample_hexdsp true goto_function 8 fliv_init
    = Some (fliv, k) /\
    item_at (body goto_function) [O; 1%nat; O] = Some (goto_stmt 5 12 5) /\
    has (vectorLegitItems fliv) (goto_stmt 5 12 5) = true /\
    visit_item_pruning (vectorLegitItems fliv) 8 [1%nat] (lobyte_stmt 6 20 5)
      (piv_init (body goto_function)) = (v1, Stop) /\
    prune_pass (vectorLegitItems fliv) 8 (piv_init (body goto_function)) = v1 /\
    item_at (ctree v1) [O; 1%nat; O] = Some (item 5 cit_empty 12 (-1) []) /\
    item_at (ctree (prune_pass (vectorLegitItems fliv) 8 v1)) [1%nat; O]
    = Some (item 4 cit_block 11 (-1) [ item 5 cit_empty 12 (-1) [] ]) /\
    item_at (ctree (prune_pass (vectorLegitItems fliv) 8
                      (prune_pass (vectorLegitItems fliv) 8 v1))) [1%nat; O]
    = Some (item 4 cit_block 11 (-1) []) /\
    Detox sample_hexdsp true 8 goto_function = Returns f' /\
    existsb (Nat.eqb 5) (ptrs (body f')) = false.
Proof.
  do 4 eexists.
  split; [vm_compute; reflexivity|]. split; [reflexivity|].
  split; [reflexivity|]. split; [vm_compute; reflexivity|].
  split; [vm_compute; reflexivity|]. split; [reflexivity|].
  split; [vm_compute; reflexivity|]. split; [vm_compute; reflexivity|].
  split; [vm_compute; reflexivity|]. reflexivity.
Qed.

(* ------------------------------------------------------------------ *)
(** ** CleaningUpGotoLabels mode *)
(* ------------------------------------------------------------------ *)

Lemma picked_snoc_skip (a : Z) (pre : list citem_t) (c : citem_t) acc :
  picked a pre acc -> ea (hdr c) <= a -> picked a (pre ++ [c]) acc.
Proof.
  intros H Hc. destruct acc as [[j d]|]; simpl in *.
  - destruct H as (Hn & Hd & Hmin). split; [|split; [exact Hd|]].
    + rewrite nth_error_app1; [exact Hn|]. apply nth_error_Some. congruence.
    + intros j' c' Hn' Hc'.
      destruct (Nat.lt_ge_cases j' (List.length pre)) as [Hlt|Hge].
      * rewrite nth_error_app1 in Hn' by exact Hlt. now apply Hmin.
      * rewrite nth_error_app2 in Hn' by exact Hge.
        destruct (j' - List.length pre)%nat as [|k]; simpl in Hn'.
        -- inversion Hn'; subst. lia.
        -- destruct k; discriminate Hn'.
  - intros c' Hin. apply in_app_or in Hin. destruct Hin as [Hin|[->|[]]]; auto.
Qed.

Lemma picked_snoc_first (a : Z) (pre : list citem_t) (c : citem_t) :
  picked a pre None -> ea (hdr c) > a ->
  picked a (pre ++ [c]) (Some (List.length pre, c)).
Proof.
  intros H Hc. simpl. split; [|split; [exact Hc|]].
  - rewrite nth_error_app2 by lia. now rewrite Nat.sub_diag.
  - intros j' c' Hn' Hc'.
    destruct (Nat.lt_ge_cases j' (List.length pre)) as [Hlt|Hge].
    + rewrite nth_error_app1 in Hn' by exact Hlt.
      apply nth_error_In in Hn'. specialize (H c' Hn'). lia.
    + rewrite nth_error_app2 in Hn' by exact Hge.
      destruct (j' - List.length pre)%nat as [|k] eqn:Ek; simpl in Hn'.
      * inversion Hn'; subst. split; [lia|]. intro. lia.
      * destruct k; discriminate Hn'.
Qed.

Lemma picked_snoc_better (a : Z) (pre : list citem_t) (c d : citem_t) (j : nat) :
  picked a pre (Some (j, d)) -> ea (hdr c) > a -> ea (hdr c) < ea (hdr d) ->
  picked a (pre ++ [c]) (Some (List.length pre, c)).
Proof.
  intros (Hn & Hd & Hmin) Hc Hlt. simpl. split; [|split; [exact Hc|]].
  - rewrite nth_error_app2 by lia. now rewrite Nat.sub_diag.
  - intros j' c' Hn' Hc'.
    destruct (Nat.lt_ge_cases j' (List.length pre)) as [Hl|Hge].
    + rewrite nth_error_app1 in Hn' by exact Hl.
      destruct (Hmin j' c' Hn' Hc') as [Hle _]. split; [lia|]. intro. lia.
    + rewrite nth_error_app2 in Hn' by exact Hge.
      destruct (j' - List.length pre)%nat as [|k] eqn:Ek; simpl in Hn'.
      * inversion Hn'; subst. split; [lia|]. intro. lia.
      * destruct k; discriminate Hn'.
Qed.

Lemma picked_snoc_worse (a : Z) (pre : list citem_t) (c d : citem_t) (j : nat) :
  picked a pre (Some (j, d)) -> ea (hdr d) <= ea (hdr c) ->
  picked a (pre ++ [c]) (Some (j, d)).
Proof.
  intros (Hn & Hd & Hmin) Hle. simpl.
  assert (Hj : (j < List.length pre)%nat) by (apply nth_error_Some; congruence).
  split; [|split; [exact Hd|]].
  - now rewrite nth_error_app1.
  - intros j' c' Hn' Hc'.
    destruct (Nat.lt_ge_cases j' (List.length pre)) as [Hl|Hge].
    + rewrite nth_error_app1 in Hn' by exact Hl. now apply Hmin.
    + rewrite nth_error_app2 in Hn' by exact Hge.
      destruct (j' - List.length pre)%nat as [|k] eqn:Ek; simpl in Hn'.
      * inversion Hn'; subst. split; [lia|]. intro. lia.
      * destruct k; discriminate Hn'.
Qed.

Lemma pick_destination_picked (a : Z) (l : list citem_t) :
  forall pre acc,
    picked a pre acc ->
    picked a (pre ++ l) (pick_destination a (List.length pre) l acc).
Proof.
  induction l as [|c l IH]; intros pre acc H; simpl.
  - now rewrite app_nil_r.
  - assert (Hl : S (List.length pre) = List.length (pre ++ [c]))
      by (rewrite length_app; simpl; lia).
    replace (pre ++ c :: l) with ((pre ++ [c]) ++ l)
      by (now rewrite <- app_assoc).
    destruct (ea (hdr c) >? a) eqn:G; simpl.
    + apply Z.gtb_lt in G.
      destruct acc as [[j d]|].
      * destruct (ea (hdr c) <? ea (hdr d)) eqn:L; rewrite Hl; apply IH.
        -- apply Z.ltb_lt in L. eapply picked_snoc_better; eauto. lia.
        -- apply Z.ltb_ge in L. now apply picked_snoc_worse.
      * rewrite Hl. apply IH. apply picked_snoc_first; [exact H | lia].
    + rewrite Hl. apply IH. apply picked_snoc_skip; [exact H|].
      rewrite Z.gtb_ltb in G. apply Z.ltb_ge in G. exact G.
Qed.

Lemma pick_destination_spec (a : Z) (l : list citem_t) :
  picked a l (pick_destination a O l None).
Proof.
  apply (pick_destination_picked a l [] None). intros c [].
Qed.

Lemma find_new_destination_blocks (root : citem_t) (a : Z) (w : where_t) :
  find_new_destination root w a = carrier_in_blocks a (blocks_above root w).
Proof.
  induction w as [|i w IH]; simpl; [reflexivity|].
  destruct (item_at root w) as [p|]; [|reflexivity].
  destruct (ctype_eqb (item_op p) cit_block); [|exact IH].
  simpl. unfold children_of_parent.
  destruct (pick_destination a O (kids p) None) as [[j d]|];
    [reflexivity | exact IH].
Qed.

Lemma list_sum_map_zero {A : Type} (f : A -> nat) (l : list A) :
  Forall (fun x => f x = O) l -> list_sum (map f l) = O.
Proof.
  induction 1 as [|x l Hx _ IH]; simpl; [reflexivity|]. now rewrite Hx, IH.
Qed.

Lemma gotos_to_change_gotos (nOld nNew : Z) (t : citem_t) :
  nNew <> nOld -> gotos_to nOld (change_gotos nOld nNew t) = O.
Proof.
  intro Hne. induction t as [h ks IH] using citem_t_ind.
  assert (Hk : list_sum (map (gotos_to nOld) (map (change_gotos nOld nNew) ks)) = O).
  { rewrite map_map. apply list_sum_map_zero. exact IH. }
  simpl. destruct (ctype_eqb (op h) cit_goto && (goto_label h =? nOld)) eqn:G; simpl.
  - destruct (nNew =? -1) eqn:N; simpl.
    + reflexivity.
    + rewrite Hk.
      apply andb_true_iff in G. destruct G as [G1 G2]. rewrite G1. simpl.
      apply Z.eqb_neq in Hne. now rewrite Hne.
  - rewrite G, Hk. reflexivity.
Qed.

Lemma labels_change_gotos (nOld nNew : Z) (t : citem_t) :
  nNew <> -1 -> labels (change_gotos nOld nNew t) = labels t.
Proof.
  intro Hne. apply Z.eqb_neq in Hne.
  induction t as [h ks IH] using citem_t_ind.
  assert (Hk : flat_map labels (map (change_gotos nOld nNew) ks)
               = flat_map labels ks).
  { induction IH as [|k ks Hk _ IHks]; simpl; [reflexivity|].
    now rewrite Hk, IHks. }
  simpl. destruct (ctype_eqb (op h) cit_goto && (goto_label h =? nOld)); simpl.
  - rewrite Hne. simpl. now rewrite Hk.
  - now rewrite Hk.
Qed.

(* ------------------------------------------------------------------ *)
(** ** Trees: sizes, positions and in-place changes *)
(* ------------------------------------------------------------------ *)

Lemma size_eq (h : citem_hdr) (ks : list citem_t) :
  size (Citem h ks) = S (size_list ks).
Proof. reflexivity. Qed.

Lemma ptrs_eq (h : citem_hdr) (ks : list citem_t) :
  ptrs (Citem h ks) = self h :: flat_map ptrs ks.
Proof. reflexivity. Qed.

Lemma size_pos (t : citem_t) : (1 <= size t)%nat.
Proof. destruct t. rewrite size_eq. lia. Qed.

Lemma length_ptrs (t : citem_t) : List.length (ptrs t) = size t.
Proof.
  induction t as [h ks IH] using citem_t_ind.
  rewrite ptrs_eq, size_eq. simpl. f_equal.
  induction IH as [|k ks Hk _ IHks]; simpl; [reflexivity|].
  now rewrite length_app, Hk, IHks.
Qed.

Lemma nth_error_in_flat_map {A B : Type} (f : A -> list B) (l : list A)
    (i : nat) (x : A) (y : B) :
  nth_error l i = Some x -> In y (f x) -> In y (flat_map f l).
Proof.
  intros Hn Hy. apply in_flat_map. exists x. split; [|exact Hy].
  eapply nth_error_In; eauto.
Qed.

Lemma get_ptrs_incl (p : path) : forall t x,
  get t p = Some x -> incl (ptrs x) (ptrs t).
Proof.
  induction p as [|i p IH]; intros t x H; simpl in H.
  - inversion H; subst. apply incl_refl.
  - destruct (nth_error (kids t) i) as [k|] eqn:Hk; [|discriminate].
    destruct t as [h ks]. simpl in Hk. rewrite ptrs_eq.
    intros a Ha. right. eapply nth_error_in_flat_map; eauto.
    now apply (IH k x H).
Qed.

Lemma item_ptr_in_ptrs (t : citem_t) : In (item_ptr t) (ptrs t).
Proof. destruct t. rewrite ptrs_eq. now left. Qed.

Lemma item_at_ptr_in (root : citem_t) (w : where_t) (t : citem_t) :
  item_at root w = Some t -> In (item_ptr t) (ptrs root).
Proof.
  intro H. apply (get_ptrs_incl _ _ _ H). apply item_ptr_in_ptrs.
Qed.

Lemma item_at_below_root (root : citem_t) (i : nat) (w : where_t) (t : citem_t) :
  item_at root (i :: w) = Some t -> NoDup (ptrs root) ->
  item_ptr t <> item_ptr root.
Proof.
  unfold item_at. simpl. intros H ND.
  destruct root as [h ks]. rewrite ptrs_eq in ND.
  inversion ND as [|? ? Hnot _]; subst.
  assert (Hin : In (item_ptr t) (flat_map ptrs ks)).
  { destruct (rev w ++ [i]) as [|j q] eqn:E.
    - destruct (rev w); discriminate E.
    - simpl in H. destruct (nth_error ks j) as [k|] eqn:Hk; [|discriminate].
      eapply nth_error_in_flat_map; eauto.
      apply (get_ptrs_incl _ _ _ H). apply item_ptr_in_ptrs. }
  intro Heq. apply Hnot. unfold item_ptr in Heq. simpl in Heq.
  now rewrite <- Heq.
Qed.

Lemma item_at_parent (root : citem_t) (i : nat) (w : where_t) (t : citem_t) :
  item_at root (i :: w) = Some t ->
  exists p, item_at root w = Some p /\ nth_error (kids p) i = Some t.
Proof.
  rewrite item_at_cons. destruct (item_at root w) as [p|]; [|discriminate].
  intro H. now exists p.
Qed.

Lemma kid_ptrs_incl (p k : citem_t) (i : nat) :
  nth_error (kids p) i = Some k -> incl (ptrs k) (ptrs p).
Proof.
  intro H. apply (get_ptrs_incl [i] p k). simpl. now rewrite H.
Qed.

Lemma nth_error_update_nth {A : Type} (f : A -> A) (l : list A) :
  forall i j,
    nth_error (update_nth i f l) j =
    if Nat.eqb i j then option_map f (nth_error l j) else nth_error l j.
Proof.
  induction l as [|x l IH]; intros [|i] [|j]; simpl; try reflexivity.
  - now destruct (Nat.eqb i j).
  - apply IH.
Qed.

Lemma length_update_nth {A : Type} (f : A -> A) (l : list A) :
  forall i, List.length (update_nth i f l) = List.length l.
Proof.
  induction l as [|x l IH]; intros [|i]; simpl; try reflexivity.
  now rewrite IH.
Qed.

Lemma update_nth_none {A : Type} (f : A -> A) (l : list A) :
  forall i, nth_error l i = None -> update_nth i f l = l.
Proof.
  induction l as [|x l IH]; intros [|i] H; simpl in *; try reflexivity.
  - discriminate.
  - now rewrite IH.
Qed.

Lemma get_update_same (p : path) (f : citem_t -> citem_t) : forall t,
  get (update t p f) p = option_map f (get t p).
Proof.
  induction p as [|i p IH]; intro t; simpl; [reflexivity|].
  rewrite nth_error_update_nth, Nat.eqb_refl.
  destruct (nth_error (kids t) i) as [k|]; simpl; [apply IH | reflexivity].
Qed.

Lemma get_update_other (n : Z) (q : path) : forall t p x,
  get t q = Some x -> p <> q ->
  exists x1, get (update t p (relabel n)) q = Some x1 /\ hdr x1 = hdr x.
Proof.
  induction q as [|j q IH]; intros t p x H Hne.
  - simpl in H. inversion H; subst. destruct p as [|i p]; [congruence|].
    simpl. eexists. split; reflexivity.
  - simpl in H. destruct (nth_error (kids t) j) as [k|] eqn:Hk; [|discriminate].
    destruct p as [|i p].
    + simpl. rewrite Hk. exists x. split; [exact H | reflexivity].
    + simpl. rewrite nth_error_update_nth, Hk.
      destruct (Nat.eqb i j) eqn:E; simpl.
      * apply Nat.eqb_eq in E. subst. apply IH; [exact H | congruence].
      * exists x. split; [exact H | reflexivity].
Qed.

Lemma fold_add_nonneg (l : list Z) :
  Forall (fun z => 0 <= z) l -> 0 <= fold_right Z.add 0 l.
Proof. induction 1; simpl; lia. Qed.

Lemma weigh_nonneg (wt : citem_hdr -> Z) (t : citem_t) :
  (forall h, 0 <= wt h) -> 0 <= weigh wt t.
Proof.
  intro Hw. induction t as [h ks IH] using citem_t_ind. simpl.
  assert (0 <= fold_right Z.add 0 (map (weigh wt) ks)).
  { apply fold_add_nonneg. apply Forall_map. exact IH. }
  specialize (Hw h). lia.
Qed.

Lemma fold_add_update_nth (wt : citem_hdr -> Z) (g : citem_t -> citem_t)
    (l : list citem_t) : forall i k,
  nth_error l i = Some k ->
  fold_right Z.add 0 (map (weigh wt) (update_nth i g l))
  = fold_right Z.add 0 (map (weigh wt) l) - weigh wt k + weigh wt (g k).
Proof.
  induction l as [|x l IH]; intros [|i] k H; simpl in *; try discriminate.
  - inversion H; subst. lia.
  - rewrite (IH i k H). lia.
Qed.

(** The weight of a tree after an in-place change of one item. *)
Lemma weigh_update (wt : citem_hdr -> Z) (f : citem_t -> citem_t) (p : path) :
  forall t x,
    get t p = Some x ->
    weigh wt (update t p f) = weigh wt t - weigh wt x + weigh wt (f x).
Proof.
  induction p as [|i p IH]; intros t x H; simpl in H.
  - inversion H; subst. simpl. lia.
  - destruct (nth_error (kids t) i) as [k|] eqn:Hk; [|discriminate].
    destruct t as [h ks]. simpl in *.
    rewrite (fold_add_update_nth wt _ ks i k Hk).
    rewrite (IH k x H). lia.
Qed.

Lemma size_as_weight (t : citem_t) : Z.of_nat (size t) = weigh (fun _ => 1) t.
Proof.
  induction t as [h ks IH] using citem_t_ind.
  rewrite size_eq, Nat2Z.inj_succ.
  change (weigh (fun _ => 1) (Citem h ks))
    with (1 + fold_right Z.add 0 (map (weigh (fun _ => 1)) ks)).
  assert (E : Z.of_nat (size_list ks)
              = fold_right Z.add 0 (map (weigh (fun _ => 1)) ks)).
  { induction IH as [|k ks Hk _ IHks]; [reflexivity|].
    change (size_list (k :: ks)) with (size k + size_list ks)%nat.
    rewrite Nat2Z.inj_add, Hk, IHks. reflexivity. }
  lia.
Qed.

Lemma size_update (f : citem_t -> citem_t) (p : path) (t x : citem_t) :
  get t p = Some x ->
  (size (update t p f) + size x = size t + size (f x))%nat.
Proof.
  intro H. pose proof (weigh_update (fun _ => 1) f p t x H) as E.
  rewrite <- !size_as_weight in E. lia.
Qed.

(* ------------------------------------------------------------------ *)
(** ** The marking loop ends *)
(* ------------------------------------------------------------------ *)

Lemma has_true_iff (l : list nat) (t : citem_t) :
  has l t = true <-> In (item_ptr t) l.
Proof.
  unfold has. rewrite existsb_exists. split.
  - intros [x [Hin Heq]]. apply Nat.eqb_eq in Heq. now subst.
  - intro H. exists (item_ptr t). split; [exact H | apply Nat.eqb_refl].
Qed.

Lemma has_false_iff (l : list nat) (t : citem_t) :
  has l t = false <-> ~ In (item_ptr t) l.
Proof.
  rewrite <- has_true_iff. destruct (has l t); split; congruence.
Qed.

Lemma NoDup_snoc (l : list nat) (x : nat) :
  NoDup l -> ~ In x l -> NoDup (l ++ [x]).
Proof.
  intros Hl Hx. induction Hl as [|y l Hy Hl IH]; simpl.
  - constructor; [intros [] | constructor].
  - constructor.
    + intro Hin. apply in_app_or in Hin. destruct Hin as [Hin|[->|[]]].
      * contradiction.
      * apply Hx. now left.
    + apply IH. intro Hin. apply Hx. now right.
Qed.

Lemma NoDup_two (l : list nat) (a b : nat) :
  NoDup l -> In a l -> In b l -> a <> b -> (2 <= List.length l)%nat.
Proof.
  intros _ Ha Hb Hne. destruct l as [|x [|y l]]; simpl in *.
  - contradiction.
  - destruct Ha as [->|[]], Hb as [->|[]]. congruence.
  - lia.
Qed.

Lemma grows_In (v v' : FIND_LEGIT_ITEMS_VISITOR) (p : nat) :
  grows v v' -> In p (vectorLegitItems v) -> In p (vectorLegitItems v').
Proof. intros [[l ->] _] H. apply in_or_app. now left. Qed.

Lemma grows_length (v v' : FIND_LEGIT_ITEMS_VISITOR) :
  grows v v' ->
  (List.length (vectorLegitItems v) <= List.length (vectorLegitItems v'))%nat.
Proof. intros [[l ->] _]. rewrite length_app. lia. Qed.

Lemma mark_item_In (t : citem_t) (v : FIND_LEGIT_ITEMS_VISITOR) :
  In (item_ptr t) (vectorLegitItems (mark_item t v)).
Proof.
  unfold mark_item. destruct (has (vectorLegitItems v) t) eqn:E.
  - now apply has_true_iff.
  - simpl. apply in_or_app. right. now left.
Qed.

Section FindLegitCount.
Variable hexdsp : hexdsp_t.
Variable malloc_ok : bool.
Variable pFunction : cfunc_t.
Variable v0 : FIND_LEGIT_ITEMS_VISITOR.

Let in_body (t : citem_t) : Prop := incl (ptrs t) (ptrs (body pFunction)).
Let ok := counted pFunction v0.

Lemma counted_same v v' :
  ok v -> fliv_inv pFunction v' ->
  vectorLegitItems v' = vectorLegitItems v ->
  fNewLegitItemFound v' = fNewLegitItemFound v -> ok v'.
Proof.
  intros (_ & L & N & F) I E1 E2. unfold ok, counted, legit_in_body in *.
  rewrite E1, E2. auto.
Qed.

Lemma counted_mark_item t v :
  In (item_ptr t) (ptrs (body pFunction)) -> ok v -> ok (mark_item t v).
Proof.
  intros Hin H. pose proof (mark_item_after pFunction t v (proj1 H)) as [_ I].
  revert I. unfold mark_item. destruct (has (vectorLegitItems v) t) eqn:E;
    intro I; [exact H|].
  destruct H as (_ & (ND & IN) & N & F).
  apply has_false_iff in E.
  split; [exact I|]. split; [split|]; simpl.
  - now apply NoDup_snoc.
  - apply incl_app; [exact IN|]. intros x [<-|[]]. exact Hin.
  - rewrite length_app. simpl. split; [lia|]. intros _. lia.
Qed.

Lemma counted_mark_variable i v : ok v -> ok (mark_variable i v).
Proof.
  intro H. apply (counted_same v); try reflexivity; [exact H|].
  apply (mark_variable_after pFunction i v), H.
Qed.

Lemma counted_remember t v : ok v -> ok (remember_descended t v).
Proof.
  intro H. apply (counted_same v); try reflexivity; [exact H|].
  apply (remember_descended_after pFunction t v), H.
Qed.

Lemma counted_ensure v v1 :
  ok v -> ensure_initialized malloc_ok pFunction v = Some v1 -> ok v1.
Proof.
  intros H E.
  pose proof (ensure_initialized_after malloc_ok pFunction v v1 (proj1 H) E)
    as [_ I].
  apply (counted_same v); [exact H | exact I | |];
    unfold ensure_initialized, Initialize in E;
    destruct (fInitialized v); try (inversion E; reflexivity);
    destruct malloc_ok; try discriminate; inversion E; reflexivity.
Qed.

Lemma counted_visit_marking w t v :
  In (item_ptr t) (ptrs (body pFunction)) -> ok v ->
  ok (fst (visit_item_marking malloc_ok pFunction w t v)).
Proof.
  intros Hin H. unfold visit_item_marking.
  destruct (ensure_initialized malloc_ok pFunction v) as [v1|] eqn:E;
    [|exact H].
  pose proof (counted_ensure _ _ H E) as H1.
  destruct (has (vectorDescendantsMarkedLegit v1) t); simpl; [exact H1|].
  apply counted_remember, counted_mark_item; [exact Hin|].
  destruct (ctype_eqb (item_op t) cot_var);
    [now apply counted_mark_variable | exact H1].
Qed.

Lemma counted_mark_descendants p v :
  in_body p -> ok v -> ok (mark_descendants malloc_ok pFunction p v).
Proof.
  intros Hp H. unfold mark_descendants.
  destruct (apply_to (visit_item_marking malloc_ok pFunction) [] p v)
    as [v' b] eqn:E.
  assert (Hstep : forall w t v1 v1' r,
             item_at p w = Some t -> ok v1 ->
             visit_item_marking malloc_ok pFunction w t v1 = (v1', r) ->
             match r with Stop => ok v1' | _ => ok v1' end).
  { intros w t v1 v1' r Hat Hv1 Ev.
    assert (Hv1' : ok v1').
    { replace v1' with (fst (visit_item_marking malloc_ok pFunction w t v1))
        by (now rewrite Ev).
      apply counted_visit_marking; [|exact Hv1].
      apply Hp. eapply item_at_ptr_in; eauto. }
    destruct r; exact Hv1'. }
  pose proof (apply_to_places _ p ok ok Hstep p [] v v' b eq_refl H E) as R.
  simpl. destruct b; exact R.
Qed.

Lemma counted_mark_descendants_once p v :
  in_body p -> ok v -> ok (mark_descendants_once malloc_ok pFunction p v).
Proof.
  intros Hp H. unfold mark_descendants_once.
  destruct (has (vectorDescendantsMarkedLegit v) p);
    [exact H | now apply counted_mark_descendants].
Qed.

Lemma in_body_kid t i k :
  in_body t -> nth_error (kids t) i = Some k -> in_body k.
Proof.
  intros Ht Hk. unfold in_body. eapply incl_tran; [|exact Ht].
  eapply kid_ptrs_incl; eauto.
Qed.

Lemma counted_mark_opt t i v :
  in_body t -> ok v ->
  ok (mark_opt malloc_ok pFunction (nth_error (kids t) i) v).
Proof.
  intros Ht H. destruct (nth_error (kids t) i) as [e|] eqn:E; simpl;
    [|exact H].
  apply counted_mark_descendants_once; [|exact H]. eapply in_body_kid; eauto.
Qed.

Lemma governing_expression_kid t e :
  governing_expression t = Some e -> exists i, nth_error (kids t) i = Some e.
Proof.
  unfold governing_expression. destruct (item_op t); try discriminate; eauto.
Qed.

Lemma counted_visit_legit_item t v :
  in_body t -> ok v -> ok (visit_legit_item malloc_ok pFunction t v).
Proof.
  intros Ht H. unfold visit_legit_item.
  destruct (governing_expression t) as [e|] eqn:G; [|exact H].
  destruct (governing_expression_kid _ _ G) as [i Hi].
  destruct (has (vectorDescendantsMarkedLegit v) e); [exact H|].
  assert (H1 : ok (mark_descendants malloc_ok pFunction e v)).
  { apply counted_mark_descendants; [|exact H]. eapply in_body_kid; eauto. }
  destruct (ctype_eqb (item_op t) cit_for); [|exact H1].
  unfold for_step, for_init. now repeat apply counted_mark_opt.
Qed.

Lemma counted_mark_ancestor t v :
  in_body t -> ok v -> ok (mark_ancestor hexdsp malloc_ok pFunction t v).
Proof.
  intros Ht H. unfold mark_ancestor.
  assert (H1 : ok (mark_item t v)).
  { apply counted_mark_item; [|exact H]. apply Ht, item_ptr_in_ptrs. }
  match goal with |- context [if ?c then _ else _] => destruct c end;
    [now apply counted_mark_descendants_once | exact H1].
Qed.

Lemma counted_mark_ancestors w : forall t v,
  item_at (body pFunction) w = Some t -> ok v ->
  ok (mark_ancestors hexdsp malloc_ok pFunction t w v).
Proof.
  induction w as [|i w IH]; intros t v Hat H; simpl.
  - apply counted_mark_ancestor; [|exact H]. exact (get_ptrs_incl _ _ _ Hat).
  - assert (H1 : ok (mark_ancestor hexdsp malloc_ok pFunction t v)).
    { apply counted_mark_ancestor; [|exact H]. exact (get_ptrs_incl _ _ _ Hat). }
    destruct (item_at (body pFunction) w) as [par|] eqn:P; [|exact H1].
    now apply IH.
Qed.

Lemma counted_visit_scanning w t v :
  item_at (body pFunction) w = Some t -> ok v ->
  ok (fst (visit_item_scanning hexdsp malloc_ok pFunction w t v)).
Proof.
  intros Hat H. unfold visit_item_scanning.
  destruct (ensure_initialized malloc_ok pFunction v) as [v1|] eqn:E;
    [|exact H].
  pose proof (counted_ensure _ _ H E) as H1.
  destruct (has (vectorLegitItems v1) t); simpl.
  - apply counted_visit_legit_item; [|exact H1]. exact (get_ptrs_incl _ _ _ Hat).
  - destruct (marks_ancestors hexdsp t v1); simpl; [|exact H1].
    now apply counted_mark_ancestors.
Qed.
End FindLegitCount.

Section FindLegitLoop.
Variable hexdsp : hexdsp_t.
Variable malloc_ok : bool.
Variable pFunction : cfunc_t.

Lemma legit_length_le_size v :
  legit_in_body pFunction v ->
  (List.length (vectorLegitItems v) <= size (body pFunction))%nat.
Proof.
  intros [ND IN]. rewrite <- length_ptrs. now apply NoDup_incl_length.
Qed.

Lemma counted_pass v :
  fliv_inv pFunction v -> legit_in_body pFunction v ->
  counted pFunction v (find_legit_pass hexdsp malloc_ok pFunction v).
Proof.
  intros I L. unfold find_legit_pass.
  destruct (apply_to (visit_item_scanning hexdsp malloc_ok pFunction) []
              (body pFunction) (set_fNewLegitItemFound false v))
    as [v' b] eqn:E.
  assert (Hstep : forall w t v1 v1' r,
             item_at (body pFunction) w = Some t -> counted pFunction v v1 ->
             visit_item_scanning hexdsp malloc_ok pFunction w t v1 = (v1', r) ->
             match r with
             | Stop => counted pFunction v v1'
             | _ => counted pFunction v v1'
             end).
  { intros w t v1 v1' r Hat Hv1 Ev.
    assert (Hv1' : counted pFunction v v1').
    { replace v1' with
        (fst (visit_item_scanning hexdsp malloc_ok pFunction w t v1))
        by (now rewrite Ev).
      now apply counted_visit_scanning. }
    destruct r; exact Hv1'. }
  assert (H0 : counted pFunction v (set_fNewLegitItemFound false v)).
  { split; [apply (set_fNewLegitItemFound_after pFunction false v I)|].
    split; [exact L|]. simpl. split; [lia | discriminate]. }
  pose proof (apply_to_places _ (body pFunction) _ _ Hstep
                (body pFunction) [] _ v' b eq_refl H0 E) as R.
  simpl. destruct b; exact R.
Qed.

Lemma marks_ancestors_block t v :
  item_op t = cit_block -> marks_ancestors hexdsp t v = false.
Proof. intro H. unfold marks_ancestors. rewrite H. reflexivity. Qed.

Lemma mark_ancestor_marks t v :
  fliv_inv pFunction v ->
  In (item_ptr t)
     (vectorLegitItems (mark_ancestor hexdsp malloc_ok pFunction t v)).
Proof.
  intro I. unfold mark_ancestor.
  match goal with |- context [if ?c then _ else _] => destruct c end;
    [|apply mark_item_In].
  pose proof (mark_item_after pFunction t v I) as [_ I1].
  pose proof (mark_descendants_once_after malloc_ok pFunction t _ I1) as [G _].
  eapply grows_In; [exact G | apply mark_item_In].
Qed.

Lemma mark_ancestors_marks w : forall t v,
  fliv_inv pFunction v ->
  item_at (body pFunction) w = Some t ->
  In (item_ptr t)
     (vectorLegitItems (mark_ancestors hexdsp malloc_ok pFunction t w v)) /\
  In (item_ptr (body pFunction))
     (vectorLegitItems (mark_ancestors hexdsp malloc_ok pFunction t w v)).
Proof.
  induction w as [|i w IH]; intros t v I Hat; simpl.
  - unfold item_at in Hat. simpl in Hat. inversion Hat; subst.
    split; now apply mark_ancestor_marks.
  - destruct (item_at_parent _ _ _ _ Hat) as (par & Hp & _). rewrite Hp.
    pose proof (mark_ancestor_after hexdsp malloc_ok pFunction t v I) as [_ I1].
    destruct (IH par _ I1 Hp) as [_ Hroot]. split; [|exact Hroot].
    pose proof (mark_ancestors_after hexdsp malloc_ok pFunction w par _ I1)
      as [G _].
    eapply grows_In; [exact G | now apply mark_ancestor_marks].
Qed.

Lemma none_or_two_visit v0 w t v :
  item_op (body pFunction) = cit_block ->
  NoDup (ptrs (body pFunction)) ->
  item_at (body pFunction) w = Some t ->
  counted pFunction v0 v -> none_or_two v ->
  none_or_two (fst (visit_item_scanning hexdsp malloc_ok pFunction w t v)).
Proof.
  intros B ND Hat C N.
  pose proof (visit_item_scanning_after hexdsp malloc_ok pFunction w t v
                (proj1 C)) as [G _].
  pose proof (counted_visit_scanning hexdsp malloc_ok pFunction v0 w t v Hat C)
    as (_ & (ND' & _) & _).
  destruct N as [N|N]; [|right; pose proof (grows_length _ _ G); lia].
  revert G ND'. unfold visit_item_scanning.
  destruct (ensure_initialized malloc_ok pFunction v) as [v1|] eqn:E;
    [|intros; now left].
  pose proof (ensure_initialized_after malloc_ok pFunction v v1 (proj1 C) E)
    as [_ I1].
  assert (L1 : vectorLegitItems v1 = []).
  { rewrite <- N. unfold ensure_initialized, Initialize in E.
    destruct (fInitialized v); [now inversion E|].
    destruct malloc_ok; [now inversion E | discriminate]. }
  rewrite L1. simpl.
  destruct (marks_ancestors hexdsp t v1) eqn:M; simpl; [|intros; now left].
  intros _ ND'. right.
  destruct (mark_ancestors_marks w t v1 I1 Hat) as [Ht Hr].
  apply (NoDup_two _ _ _ ND' Ht Hr).
  destruct w as [|i w].
  - unfold item_at in Hat. simpl in Hat. inversion Hat; subst.
    rewrite (marks_ancestors_block _ v1 B) in M. discriminate.
  - eapply item_at_below_root; eauto.
Qed.

Lemma none_or_two_first_pass :
  item_op (body pFunction) = cit_block ->
  NoDup (ptrs (body pFunction)) ->
  none_or_two (find_legit_pass hexdsp malloc_ok pFunction fliv_init).
Proof.
  intros B ND. unfold find_legit_pass.
  destruct (apply_to (visit_item_scanning hexdsp malloc_ok pFunction) []
              (body pFunction) (set_fNewLegitItemFound false fliv_init))
    as [v' b] eqn:E.
  pose (P := fun v => counted pFunction fliv_init v /\ none_or_two v).
  assert (Hstep : forall w t v1 v1' r,
             item_at (body pFunction) w = Some t -> P v1 ->
             visit_item_scanning hexdsp malloc_ok pFunction w t v1 = (v1', r) ->
             match r with Stop => P v1' | _ => P v1' end).
  { intros w t v1 v1' r Hat [C N] Ev.
    assert (Hv1' : P v1').
    { replace v1' with
        (fst (visit_item_scanning hexdsp malloc_ok pFunction w t v1))
        by (now rewrite Ev).
      split; [now apply counted_visit_scanning|].
      eapply none_or_two_visit; eauto. }
    destruct r; exact Hv1'. }
  assert (H0 : P (set_fNewLegitItemFound false fliv_init)).
  { split; [|now left]. split; [reflexivity|]. split.
    - split; [constructor | intros x []].
    - simpl. split; [lia | discriminate]. }
  pose proof (apply_to_places _ (body pFunction) _ _ Hstep
                (body pFunction) [] _ v' b eq_refl H0 E) as R.
  simpl. destruct b; apply R.
Qed.

Lemma find_legit_loop_ends (fuel : nat) : forall v,
  fliv_inv pFunction v -> legit_in_body pFunction v ->
  (size (body pFunction) < fuel + List.length (vectorLegitItems v))%nat ->
  exists v' k,
    find_legit_loop hexdsp malloc_ok pFunction fuel v = Some (v', k) /\
    fNewLegitItemFound v' = false /\
    (1 <= k)%nat /\
    (k + List.length (vectorLegitItems v) <= size (body pFunction) + 1)%nat.
Proof.
  induction fuel as [|fuel IH]; intros v I L Hf.
  - pose proof (legit_length_le_size v L). lia.
  - simpl. destruct (counted_pass v I L) as (I1 & L1 & Hle & Hlt).
    pose proof (legit_length_le_size v L) as Hv.
    destruct (fNewLegitItemFound (find_legit_pass hexdsp malloc_ok pFunction v))
      eqn:F.
    + specialize (Hlt eq_refl).
      destruct (IH _ I1 L1) as (v' & k & E & F' & K1 & K2); [lia|].
      rewrite E. exists v', (S k). repeat split; try assumption; lia.
    + exists (find_legit_pass hexdsp malloc_ok pFunction v), 1%nat.
      repeat split; try assumption; lia.
Qed.

(** The marking loop of a well-formed function ends within as many
    rounds as the body has items. *)
Lemma find_legit_loop_terminates (fuel : nat) :
  well_formed pFunction ->
  (size (body pFunction) < fuel)%nat ->
  exists v' k,
    find_legit_loop hexdsp malloc_ok pFunction fuel fliv_init = Some (v', k) /\
    fNewLegitItemFound v' = false /\
    (1 <= k <= size (body pFunction))%nat.
Proof.
  intros (B & ND & _) Hf. destruct fuel as [|fuel]; [lia|]. simpl.
  assert (I0 : fliv_inv pFunction fliv_init) by reflexivity.
  assert (L0 : legit_in_body pFunction fliv_init)
    by (split; [constructor | intros x []]).
  destruct (counted_pass fliv_init I0 L0) as (I1 & L1 & _ & Hlt).
  pose proof (none_or_two_first_pass B ND) as N.
  pose proof (size_pos (body pFunction)) as Hs.
  destruct (fNewLegitItemFound
              (find_legit_pass hexdsp malloc_ok pFunction fliv_init)) eqn:F.
  - specialize (Hlt eq_refl). simpl in Hlt.
    assert (H2 : (2 <= List.length
                    (vectorLegitItems
                       (find_legit_pass hexdsp malloc_ok pFunction fliv_init)))%nat).
    { destruct N as [N|N]; [rewrite N in Hlt; simpl in Hlt; lia | exact N]. }
    destruct (find_legit_loop_ends fuel _ I1 L1) as (v' & k & E & F' & K1 & K2);
      [lia|].
    rewrite E. exists v', (S k). repeat split; try assumption; lia.
  - exists (find_legit_pass hexdsp malloc_ok pFunction fliv_init), 1%nat.
    repeat split; try assumption; lia.
Qed.
End FindLegitLoop.

(* ------------------------------------------------------------------ *)
(** ** FIND_LEGIT_ITEMS_VISITOR: a round that finds nothing adds nothing *)
(* ------------------------------------------------------------------ *)

Section FindLegitQuiet.
Variable hexdsp : hexdsp_t.
Variable malloc_ok : bool.
Variable pFunction : cfunc_t.

Lemma quiet_step_refl (v : FIND_LEGIT_ITEMS_VISITOR) : quiet_step v v.
Proof. split; [apply incl_refl | now split]. Qed.

Lemma quiet_step_trans (a b c : FIND_LEGIT_ITEMS_VISITOR) :
  quiet_step a b -> quiet_step b c -> quiet_step a c.
Proof.
  intros [D1 Q1] [D2 Q2]. split; [eapply incl_tran; eauto|].
  intro F. destruct (Q2 F) as [Fb Lb]. destruct (Q1 Fb) as [Fa La].
  split; [exact Fa | congruence].
Qed.

Lemma mark_item_quiet_step (t : citem_t) (v : FIND_LEGIT_ITEMS_VISITOR) :
  quiet_step v (mark_item t v).
Proof.
  unfold mark_item.
  destruct (has (vectorLegitItems v) t); [apply quiet_step_refl|].
  split; simpl; [apply incl_refl | discriminate].
Qed.

Lemma ensure_initialized_quiet_step (v v1 : FIND_LEGIT_ITEMS_VISITOR) :
  ensure_initialized malloc_ok pFunction v = Some v1 -> quiet_step v v1.
Proof.
  unfold ensure_initialized, Initialize.
  destruct (fInitialized v); [intro E; inversion E; apply quiet_step_refl|].
  destruct malloc_ok; [|discriminate]. intro E. inversion E; subst.
  split; simpl; [apply incl_refl | now split].
Qed.

Lemma visit_item_marking_quiet_step (w : where_t) (t : citem_t)
    (v : FIND_LEGIT_ITEMS_VISITOR) :
  quiet_step v (fst (visit_item_marking malloc_ok pFunction w t v)).
Proof.
  unfold visit_item_marking.
  destruct (ensure_initialized malloc_ok pFunction v) as [v1|] eqn:E;
    [|apply quiet_step_refl].
  apply (quiet_step_trans _ v1); [now apply ensure_initialized_quiet_step|].
  destruct (has (vectorDescendantsMarkedLegit v1) t); cbn [fst];
    [apply quiet_step_refl|].
  set (vm := if ctype_eqb (item_op t) cot_var
             then mark_variable (v_idx (hdr t)) v1 else v1).
  assert (Qm : quiet_step v1 vm).
  { unfold vm. destruct (ctype_eqb (item_op t) cot_var);
      [|apply quiet_step_refl].
    split; simpl; [apply incl_refl | now split]. }
  apply (quiet_step_trans _ vm); [exact Qm|].
  apply (quiet_step_trans _ (mark_item t vm)); [apply mark_item_quiet_step|].
  split; simpl; [apply incl_appl, incl_refl | now split].
Qed.

Lemma mark_descendants_quiet_step (p : citem_t) (v : FIND_LEGIT_ITEMS_VISITOR) :
  quiet_step v (mark_descendants malloc_ok pFunction p v).
Proof.
  unfold mark_descendants.
  apply (apply_to_preserves _ (quiet_step v)); [|apply quiet_step_refl].
  intros w t v0 Q0.
  eapply quiet_step_trans; [exact Q0 | apply visit_item_marking_quiet_step].
Qed.

Lemma mark_descendants_once_quiet_step (p : citem_t)
    (v : FIND_LEGIT_ITEMS_VISITOR) :
  quiet_step v (mark_descendants_once malloc_ok pFunction p v).
Proof.
  unfold mark_descendants_once.
  destruct (has (vectorDescendantsMarkedLegit v) p);
    [apply quiet_step_refl | apply mark_descendants_quiet_step].
Qed.

Lemma mark_opt_quiet_step (o : option citem_t) (v : FIND_LEGIT_ITEMS_VISITOR) :
  quiet_step v (mark_opt malloc_ok pFunction o v).
Proof.
  destruct o; simpl;
    [apply mark_descendants_once_quiet_step | apply quiet_step_refl].
Qed.

Lemma visit_legit_item_quiet_step (t : citem_t) (v : FIND_LEGIT_ITEMS_VISITOR) :
  quiet_step v (visit_legit_item malloc_ok pFunction t v).
Proof.
  unfold visit_legit_item.
  destruct (governing_expression t) as [e|]; [|apply quiet_step_refl].
  destruct (has (vectorDescendantsMarkedLegit v) e); [apply quiet_step_refl|].
  destruct (ctype_eqb (item_op t) cit_for);
    [|apply mark_descendants_quiet_step].
  eapply quiet_step_trans; [apply mark_descendants_quiet_step|].
  eapply quiet_step_trans; apply mark_opt_quiet_step.
Qed.

Lemma mark_ancestor_quiet_step (c : citem_t) (v : FIND_LEGIT_ITEMS_VISITOR) :
  quiet_step v (mark_ancestor hexdsp malloc_ok pFunction c v).
Proof.
  unfold mark_ancestor.
  match goal with |- context [if ?b then _ else _] => destruct b end;
    [|apply mark_item_quiet_step].
  eapply quiet_step_trans;
    [apply mark_item_quiet_step | apply mark_descendants_once_quiet_step].
Qed.

Lemma mark_ancestors_quiet_step (w : where_t) : forall t v,
  quiet_step v (mark_ancestors hexdsp malloc_ok pFunction t w v).
Proof.
  induction w as [|i w IH]; intros t v; simpl;
    [apply mark_ancestor_quiet_step|].
  destruct (item_at (body pFunction) w) as [par|];
    [|apply mark_ancestor_quiet_step].
  eapply quiet_step_trans; [apply mark_ancestor_quiet_step | apply IH].
Qed.

Lemma visit_item_scanning_quiet_step (w : where_t) (t : citem_t)
    (v : FIND_LEGIT_ITEMS_VISITOR) :
  quiet_step v (fst (visit_item_scanning hexdsp malloc_ok pFunction w t v)).
Proof.
  unfold visit_item_scanning.
  destruct (ensure_initialized malloc_ok pFunction v) as [v1|] eqn:E;
    [|apply quiet_step_refl].
  apply (quiet_step_trans _ v1); [now apply ensure_initialized_quiet_step|].
  destruct (has (vectorLegitItems v1) t); cbn [fst];
    [apply visit_legit_item_quiet_step|].
  destruct (marks_ancestors hexdsp t v1); cbn [fst];
    [apply mark_ancestors_quiet_step | apply quiet_step_refl].
Qed.

(** A round that leaves [fNewLegitItemFound] clear has added no
    legitimate item. *)
Lemma find_legit_pass_adds_nothing (v : FIND_LEGIT_ITEMS_VISITOR) :
  fNewLegitItemFound (find_legit_pass hexdsp malloc_ok pFunction v) = false ->
  vectorLegitItems (find_legit_pass hexdsp malloc_ok pFunction v)
  = vectorLegitItems v.
Proof.
  unfold find_legit_pass. intro F.
  assert (Q : quiet_step (set_fNewLegitItemFound false v)
                (fst (apply_to (visit_item_scanning hexdsp malloc_ok pFunction) []
                        (body pFunction) (set_fNewLegitItemFound false v)))).
  { apply (apply_to_preserves _ (quiet_step (set_fNewLegitItemFound false v)));
      [|apply quiet_step_refl].
    intros w t v0 Q0.
    eapply quiet_step_trans; [exact Q0 | apply visit_item_scanning_quiet_step]. }
  destruct Q as [_ Q]. now destruct (Q F).
Qed.

(** The rounds of the marking loop: the state it returns is the state
    after [k] rounds, the last of them added no legitimate item, and
    every round before it added one. *)
Lemma find_legit_loop_rounds (fuel : nat) : forall v v' k,
  fliv_inv pFunction v -> legit_in_body pFunction v ->
  find_legit_loop hexdsp malloc_ok pFunction fuel v = Some (v', k) ->
  (1 <= k)%nat /\
  v' = Nat.iter k (find_legit_pass hexdsp malloc_ok pFunction) v /\
  vectorLegitItems v'
  = vectorLegitItems
      (Nat.iter (k - 1) (find_legit_pass hexdsp malloc_ok pFunction) v) /\
  (forall j, (j < k - 1)%nat ->
     (List.length
        (vectorLegitItems
           (Nat.iter j (find_legit_pass hexdsp malloc_ok pFunction) v))
      < List.length
          (vectorLegitItems
             (Nat.iter (S j) (find_legit_pass hexdsp malloc_ok pFunction) v)))%nat).
Proof.
  induction fuel as [|fuel IH]; intros v v' k I L E; simpl in E; [discriminate|].
  destruct (counted_pass hexdsp malloc_ok pFunction v I L) as (I1 & L1 & _ & Hlt).
  destruct (fNewLegitItemFound (find_legit_pass hexdsp malloc_ok pFunction v))
    eqn:F.
  - destruct (find_legit_loop hexdsp malloc_ok pFunction fuel
                (find_legit_pass hexdsp malloc_ok pFunction v))
      as [[v2 n]|] eqn:E2; [|discriminate].
    inversion E; subst v' k. clear E.
    destruct (IH _ _ _ I1 L1 E2) as (Hn & Ev & El & Hj).
    split; [lia|]. split; [now rewrite Nat.iter_succ_r|]. split.
    + destruct n as [|m]; [lia|].
      replace (S (S m) - 1)%nat with (S m) by lia.
      rewrite Nat.iter_succ_r.
      replace (S m - 1)%nat with m in El by lia. exact El.
    + intros j Hlt'. destruct j as [|j].
      * simpl. now apply Hlt.
      * rewrite (Nat.iter_succ_r (S j)).
        rewrite (Nat.iter_succ_r j _ _ v).
        apply (Hj j). lia.
  - inversion E; subst v' k. split; [lia|]. split; [reflexivity|]. split.
    + simpl. now apply find_legit_pass_adds_nothing.
    + intros j Hj. simpl in Hj. lia.
Qed.
End FindLegitQuiet.

(* ------------------------------------------------------------------ *)
(** ** Shapes and label potential under the changes of the pruner *)
(* ------------------------------------------------------------------ *)

Lemma skel_eq (h : citem_hdr) (ks : list citem_t) :
  skel (Citem h ks)
  = Citem (mk_hdr O (shape_op (op h)) 0 0 O EmptyString EmptyString 0)
          (map skel ks).
Proof. reflexivity. Qed.

Lemma skel_relabel (n : Z) (x : citem_t) : skel (relabel n x) = skel x.
Proof. destruct x. reflexivity. Qed.

Lemma all_items_eq (p : citem_t -> bool) (h : citem_hdr) (ks : list citem_t) :
  all_items p (Citem h ks) = p (Citem h ks) && forallb (all_items p) ks.
Proof. reflexivity. Qed.

Lemma owns_ok_shape (h h' : citem_hdr) (ks ks' : list citem_t) :
  shape_op (op h') = shape_op (op h) ->
  (ks' = [] <-> ks = []) ->
  owns_ok (Citem h' ks') = owns_ok (Citem h ks).
Proof.
  intros Ho Hk. unfold owns_ok, item_op. simpl.
  assert (E : match ks' with [] => true | _ :: _ => false end
              = match ks with [] => true | _ :: _ => false end).
  { destruct ks, ks'; try reflexivity.
    - destruct Hk as [_ Hk]. discriminate (Hk eq_refl).
    - destruct Hk as [Hk _]. discriminate (Hk eq_refl). }
  assert (E' : match ks' with [] => false | _ :: _ => true end
               = match ks with [] => false | _ :: _ => true end).
  { destruct ks, ks'; try reflexivity; discriminate E. }
  rewrite E, E'.
  destruct (op h), (op h'); simpl in *; try reflexivity; discriminate Ho.
Qed.

Lemma map_eq_nil_iff {A B : Type} (f : A -> B) (l : list A) :
  map f l = [] <-> l = [].
Proof. destruct l; simpl; split; congruence. Qed.

Lemma all_items_skel (t : citem_t) :
  all_items owns_ok (skel t) = all_items owns_ok t.
Proof.
  induction t as [h ks IH] using citem_t_ind.
  rewrite skel_eq, !all_items_eq. f_equal.
  - apply owns_ok_shape.
    + simpl. now destruct (op h).
    + apply map_eq_nil_iff.
  - induction IH as [|k ks Hk _ IHks]; simpl; [reflexivity|].
    now rewrite Hk, IHks.
Qed.

Lemma all_items_same_skel (t t' : citem_t) :
  skel t' = skel t -> all_items owns_ok t' = all_items owns_ok t.
Proof. intro E. now rewrite <- (all_items_skel t'), E, all_items_skel. Qed.

Lemma size_skel (t : citem_t) : size (skel t) = size t.
Proof.
  induction t as [h ks IH] using citem_t_ind. rewrite skel_eq, !size_eq.
  f_equal. induction IH as [|k ks Hk _ IHks]; [reflexivity|].
  change (size (skel k) + size_list (map skel ks) = size k + size_list ks)%nat.
  now rewrite Hk, IHks.
Qed.

Lemma size_same_skel (t t' : citem_t) : skel t' = skel t -> size t' = size t.
Proof. intro E. now rewrite <- (size_skel t'), E, size_skel. Qed.

Lemma all_items_get (q : citem_t -> bool) (p : path) : forall t x,
  all_items q t = true -> get t p = Some x -> all_items q x = true.
Proof.
  induction p as [|i p IH]; intros t x A H; simpl in H.
  - now inversion H; subst.
  - destruct (nth_error (kids t) i) as [k|] eqn:Hk; [|discriminate].
    destruct t as [h ks]. rewrite all_items_eq in A.
    apply andb_true_iff in A. destruct A as [_ A].
    rewrite forallb_forall in A. apply (IH k x); [|exact H].
    apply A. eapply nth_error_In; eauto.
Qed.

Lemma skel_update (f : citem_t -> citem_t) (p : path) : forall t x,
  get t p = Some x -> skel (f x) = skel x -> skel (update t p f) = skel t.
Proof.
  induction p as [|i p IH]; intros t x H E; simpl in H.
  - inversion H; subst. exact E.
  - destruct (nth_error (kids t) i) as [k|] eqn:Hk; [|discriminate].
    destruct t as [h ks]. cbn [kids] in Hk.
    change (update (Citem h ks) (i :: p) f)
      with (Citem h (update_nth i (fun k0 => update k0 p f) ks)).
    rewrite !skel_eq. f_equal.
    revert i Hk. induction ks as [|y ks IHks]; intros [|i] Hk; simpl in *;
      try discriminate.
    + inversion Hk; subst. f_equal. now apply (IH k x).
    + f_equal. now apply IHks.
Qed.

Lemma get_same_skel (p : path) : forall t t' x,
  skel t' = skel t -> get t p = Some x ->
  exists x', get t' p = Some x' /\ skel x' = skel x.
Proof.
  induction p as [|i p IH]; intros t t' x E H; simpl in H.
  - inversion H; subst. exists t'. split; [reflexivity | exact E].
  - destruct (nth_error (kids t) i) as [k|] eqn:Hk; [|discriminate].
    destruct t as [h ks], t' as [h' ks']. rewrite !skel_eq in E.
    injection E as _ Em. cbn [kids get] in *.
    assert (Hk' : exists k', nth_error ks' i = Some k' /\ skel k' = skel k).
    { clear - Hk Em. revert ks' i Hk Em.
      induction ks as [|y ks IHks]; intros ks' [|i] Hk Em; simpl in *;
        try discriminate; destruct ks' as [|y' ks']; try discriminate;
        simpl in Em; injection Em as E1 E2.
      - inversion Hk; subst. exists y'. split; [reflexivity | exact E1].
      - now apply IHks. }
    destruct Hk' as (k' & Hk' & Ek). rewrite Hk'. now apply (IH k k').
Qed.

Lemma skel_change_gotos (nOld nNew : Z) (t : citem_t) :
  all_items owns_ok t = true -> skel (change_gotos nOld nNew t) = skel t.
Proof.
  induction t as [h ks IH] using citem_t_ind. intro A.
  rewrite all_items_eq in A. apply andb_true_iff in A. destruct A as [Ho A].
  assert (Hk : map skel (map (change_gotos nOld nNew) ks) = map skel ks).
  { clear Ho. induction IH as [|k ks Hk _ IHks]; simpl; [reflexivity|].
    simpl in A. apply andb_true_iff in A. destruct A as [A1 A2].
    now rewrite Hk, IHks. }
  simpl. destruct (ctype_eqb (op h) cit_goto && (goto_label h =? nOld)) eqn:G;
    simpl.
  - destruct (nNew =? -1); simpl.
    + apply andb_true_iff in G. destruct G as [G _].
      apply ctype_eqb_eq in G. unfold owns_ok, item_op in Ho. simpl in Ho.
      rewrite G in Ho. simpl in Ho. destruct ks; [|discriminate].
      unfold goto_to_return, cleanup, replace_by. simpl. now rewrite G.
    + now rewrite Hk.
  - now rewrite Hk.
Qed.

Lemma label_weight_nonneg (h : citem_hdr) : 0 <= label_weight h.
Proof. unfold label_weight. destruct (label_num h =? -1); lia. Qed.

Lemma label_potential_nonneg (t : citem_t) : 0 <= label_potential t.
Proof. apply weigh_nonneg, label_weight_nonneg. Qed.

Lemma weigh_eq (wt : citem_hdr -> Z) (h : citem_hdr) (ks : list citem_t) :
  weigh wt (Citem h ks) = wt h + fold_right Z.add 0 (map (weigh wt) ks).
Proof. reflexivity. Qed.

Lemma potential_change_gotos (nOld nNew : Z) (t : citem_t) :
  label_potential (change_gotos nOld nNew t) <= label_potential t.
Proof.
  unfold label_potential. induction t as [h ks IH] using citem_t_ind.
  assert (Hk : fold_right Z.add 0
                 (map (weigh label_weight) (map (change_gotos nOld nNew) ks))
               <= fold_right Z.add 0 (map (weigh label_weight) ks)).
  { induction IH as [|k ks Hk _ IHks]; simpl; lia. }
  assert (H0 : 0 <= fold_right Z.add 0 (map (weigh label_weight) ks)).
  { apply fold_add_nonneg, Forall_map, Forall_forall.
    intros x _. apply label_potential_nonneg. }
  rewrite (weigh_eq _ h ks). simpl change_gotos.
  destruct (ctype_eqb (op h) cit_goto && (goto_label h =? nOld)); simpl negb;
    cbv iota.
  - destruct (nNew =? -1); simpl negb; cbv iota.
    + unfold goto_to_return, cleanup, replace_by. rewrite weigh_eq. simpl.
      unfold label_weight at 1. simpl. unfold label_weight at 1. lia.
    + rewrite weigh_eq. unfold label_weight at 1 3. simpl. lia.
  - rewrite weigh_eq. lia.
Qed.

Lemma potential_relabel (n : Z) (x : citem_t) :
  label_potential (relabel n x)
  = label_potential x - label_weight (hdr x)
    + label_weight (set_label_num n (hdr x)).
Proof. destruct x as [h ks]. unfold label_potential, relabel. simpl. lia. Qed.

Lemma potential_cleanup (x : citem_t) :
  label_potential (cleanup x) <= label_potential x.
Proof.
  destruct x as [h ks]. unfold label_potential, cleanup.
  rewrite !weigh_eq. simpl.
  assert (H0 : 0 <= fold_right Z.add 0 (map (weigh label_weight) ks)).
  { apply fold_add_nonneg, Forall_map, Forall_forall.
    intros x _. apply label_potential_nonneg. }
  unfold label_weight at 1 2. simpl. lia.
Qed.

Lemma potential_erase_child (i : nat) (x : citem_t) :
  label_potential (erase_child i x) <= label_potential x.
Proof.
  destruct x as [h ks]. unfold label_potential, erase_child.
  rewrite !weigh_eq. simpl hdr. simpl kids.
  assert (fold_right Z.add 0 (map (weigh label_weight) (erase_nth i ks))
          <= fold_right Z.add 0 (map (weigh label_weight) ks)); [|lia].
  revert i. induction ks as [|k ks IH]; intros [|i]; simpl; try lia.
  - pose proof (label_potential_nonneg k). unfold label_potential in *. lia.
  - specialize (IH i). lia.
Qed.

Lemma potential_update_le (f : citem_t -> citem_t) (p : path) (t x : citem_t) :
  get t p = Some x ->
  label_potential (f x) <= label_potential x ->
  label_potential (update t p f) <= label_potential t.
Proof.
  intros H L. unfold label_potential in *.
  rewrite (weigh_update _ f p t x H). lia.
Qed.

(* ------------------------------------------------------------------ *)
(** ** The label loop ends *)
(* ------------------------------------------------------------------ *)

Lemma find_new_destination_at (root : citem_t) (a : Z) (w : where_t) :
  forall wd d,
    find_new_destination root w a = Some (wd, d) ->
    item_at root wd = Some d /\ ea (hdr d) > a.
Proof.
  induction w as [|i w IH]; intros wd d H; simpl in H; [discriminate|].
  destruct (item_at root w) as [p|] eqn:P; [|discriminate].
  destruct (ctype_eqb (item_op p) cit_block); [|now apply IH].
  unfold children_of_parent in H.
  pose proof (pick_destination_spec a (kids p)) as Hs.
  destruct (pick_destination a O (kids p) None) as [[j d']|]; [|now apply IH].
  inversion H; subst. destruct Hs as (Hn & Hd & _).
  split; [|exact Hd]. now rewrite item_at_cons, P.
Qed.

Lemma relabelled_refl (v : PRUNE_ITEMS_VISITOR) : relabelled v v.
Proof. repeat split; reflexivity || lia. Qed.

Lemma relabelled_trans (a b c : PRUNE_ITEMS_VISITOR) :
  relabelled a b -> relabelled b c -> relabelled a c.
Proof.
  intros (S1 & P1 & F1 & R1) (S2 & P2 & F2 & R2).
  repeat split; try congruence. lia.
Qed.

(** Moving a label onto a later item without one keeps the shape of the
    tree and lowers its potential. *)
Lemma label_transfer (t : citem_t) (w wd : where_t) (L d : citem_t) :
  item_at t w = Some L -> item_at t wd = Some d ->
  label_num (hdr L) <> -1 -> label_num (hdr d) = -1 ->
  ea (hdr d) > ea (hdr L) ->
  skel (update_at (update_at t wd (relabel (label_num (hdr L)))) w (relabel (-1)))
  = skel t /\
  label_potential
    (update_at (update_at t wd (relabel (label_num (hdr L)))) w (relabel (-1)))
  < label_potential t.
Proof.
  unfold item_at, update_at. intros HL Hd NL Nd Hea.
  assert (Hne : rev wd <> rev w).
  { intro E. rewrite E in Hd. rewrite HL in Hd. inversion Hd; subst. lia. }
  destruct (get_update_other (label_num (hdr L)) (rev w) t (rev wd) L HL Hne)
    as (L1 & HL1 & EL1).
  split.
  - rewrite (skel_update _ _ _ L1 HL1 (skel_relabel _ _)).
    apply (skel_update _ _ _ d Hd (skel_relabel _ _)).
  - unfold label_potential.
    rewrite (weigh_update _ _ _ _ L1 HL1), (weigh_update _ _ _ _ d Hd).
    fold (label_potential (relabel (-1) L1)) (label_potential L1)
         (label_potential (relabel (label_num (hdr L)) d)) (label_potential d).
    rewrite !potential_relabel, EL1.
    unfold label_weight. simpl. rewrite Nd.
    apply Z.eqb_neq in NL. rewrite NL. simpl. lia.
Qed.

Lemma visit_item_cleaning_step (w : where_t) (L : citem_t)
    (v v' : PRUNE_ITEMS_VISITOR) (r : visit_result) :
  all_items owns_ok (ctree v) = true ->
  item_at (ctree v) w = Some L ->
  visit_item_cleaning w L v = (v', r) ->
  match r with
  | Stop => fGotoCleaned v' = true /\ label_step v v'
  | _ => v' = v
  end.
Proof.
  intros A HL. unfold visit_item_cleaning.
  destruct (label_num (hdr L) =? -1) eqn:NL.
  - intro E. inversion E; subst. reflexivity.
  - apply Z.eqb_neq in NL.
    destruct (find_new_destination (ctree v) w (ea (hdr L))) as [[wd d]|] eqn:F.
    + destruct (find_new_destination_at _ _ _ _ _ F) as [Hd Hea].
      destruct (label_num (hdr d) =? -1) eqn:Nd; simpl; intro E;
        inversion E; subst; clear E; simpl.
      * apply Z.eqb_eq in Nd.
        destruct (label_transfer _ _ _ _ _ HL Hd NL Nd Hea) as [Sk Po].
        split; [reflexivity|]. split.
        -- repeat split; simpl; try reflexivity; [exact Sk | lia].
        -- right. split; [reflexivity | exact Po].
      * split; [reflexivity|]. split; [|now left].
        repeat split; simpl; try reflexivity.
        -- now apply skel_change_gotos.
        -- apply potential_change_gotos.
    + intro E. inversion E; subst; clear E; simpl.
      split; [reflexivity|]. split; [|now left].
      repeat split; simpl; try reflexivity.
      * now apply skel_change_gotos.
      * apply potential_change_gotos.
Qed.

Lemma relabel_pass_step (w : where_t) (v : PRUNE_ITEMS_VISITOR) :
  all_items owns_ok (ctree v) = true ->
  fGotoCleaned v = false ->
  relabelled v (relabel_pass w v) /\
  (fGotoCleaned (relabel_pass w v) = false \/
   (visitingMode v = CleaningUpGotoLabels /\ label_step v (relabel_pass w v))).
Proof.
  intros A G. unfold relabel_pass.
  destruct (item_at (ctree v) w) as [pItem|] eqn:Hat;
    [|split; [apply relabelled_refl | now left]].
  destruct (visitingMode v) eqn:M;
    try (split; [apply relabelled_refl | now left]).
  - destruct (apply_to visit_item_cleaning w pItem v) as [v' b] eqn:E.
    pose (P := fun x : PRUNE_ITEMS_VISITOR => x = v).
    pose (Q := fun x : PRUNE_ITEMS_VISITOR =>
                 fGotoCleaned x = true /\ label_step v x).
    assert (Hstep : forall w1 t v1 v1' r,
               item_at (ctree v) w1 = Some t -> P v1 ->
               visit_item_cleaning w1 t v1 = (v1', r) ->
               match r with Stop => Q v1' | _ => P v1' end).
    { intros w1 t v1 v1' r Ht Hv1 Ev. unfold P in Hv1. subst v1.
      pose proof (visit_item_cleaning_step w1 t v v1' r A Ht Ev) as Hs.
      destruct r; exact Hs. }
    pose proof (apply_to_places _ (ctree v) P Q Hstep pItem w v v' b Hat
                  eq_refl E) as R.
    simpl. destruct b.
    + destruct R as [_ Hs]. split; [apply Hs|]. right. now split.
    + unfold P in R. subst v'. split; [apply relabelled_refl | now left].
  - simpl. split; [|now left].
    unfold update_at. unfold item_at in Hat.
    pose proof (all_items_get _ _ _ _ A Hat) as Ap.
    repeat split; simpl.
    + apply (skel_update _ _ _ pItem Hat). now apply skel_change_gotos.
    + apply (potential_update_le _ _ _ pItem Hat), potential_change_gotos.
Qed.

Lemma cleanup_goto_labels_done (fuel : nat) (w : where_t)
    (v : PRUNE_ITEMS_VISITOR) :
  fGotoCleaned v = false -> cleanup_goto_labels fuel w v = v.
Proof. intro G. destruct fuel; simpl; now rewrite G. Qed.

(** With fuel above the label potential the label loop runs to its end:
    [fuel_spent] stays as it was. *)
Lemma cleanup_goto_labels_ends (w : where_t) (fuel : nat) : forall v,
  all_items owns_ok (ctree v) = true ->
  match visitingMode v with
  | CleaningUpGotoLabels =>
      (Z.to_nat (label_potential (ctree v)) + 2 <= fuel)%nat
  | ChangingGotos => (1 <= fuel)%nat
  | _ => False
  end ->
  relabelled v (cleanup_goto_labels fuel w v).
Proof.
  induction fuel as [|fuel IH]; intros v A Hf.
  - destruct (visitingMode v); try contradiction; lia.
  - simpl. destruct (fGotoCleaned v) eqn:G; [|apply relabelled_refl].
    set (v0 := set_fGotoCleaned false v).
    assert (R0 : relabelled v v0) by (repeat split; reflexivity || lia).
    destruct (relabel_pass_step w v0 A eq_refl) as [R1 C].
    assert (A1 : all_items owns_ok (ctree (relabel_pass w v0)) = true).
    { rewrite (all_items_same_skel (ctree v0)); [exact A | apply R1]. }
    eapply relabelled_trans; [exact R0|].
    eapply relabelled_trans; [exact R1|].
    destruct C as [C|[M [_ [C|[C1 C2]]]]].
    + rewrite cleanup_goto_labels_done by exact C. apply relabelled_refl.
    + apply IH; [exact A1|]. rewrite C.
      change (visitingMode v0) with (visitingMode v) in M. rewrite M in Hf. lia.
    + apply IH; [exact A1|]. rewrite C1.
      change (visitingMode v0) with (visitingMode v) in M. rewrite M in Hf.
      change (ctree v0) with (ctree v) in C2.
      pose proof (label_potential_nonneg (ctree (relabel_pass w v0))). lia.
Qed.

(* ------------------------------------------------------------------ *)
(** ** The pruning loop ends *)
(* ------------------------------------------------------------------ *)

Lemma all_items_update (f : citem_t -> citem_t) (p : path) : forall t x,
  all_items owns_ok t = true -> get t p = Some x ->
  all_items owns_ok (f x) = true ->
  all_items owns_ok (update t p f) = true.
Proof.
  induction p as [|i p IH]; intros t x A H Af; simpl in H.
  - now inversion H; subst.
  - destruct (nth_error (kids t) i) as [k|] eqn:Hk; [|discriminate].
    destruct t as [h ks]. cbn [kids] in Hk.
    change (update (Citem h ks) (i :: p) f)
      with (Citem h (update_nth i (fun k0 => update k0 p f) ks)).
    rewrite all_items_eq in *. apply andb_true_iff in A. destruct A as [Ho A].
    apply andb_true_iff. split.
    + rewrite <- Ho. apply owns_ok_shape; [reflexivity|].
      split; intro E.
      * apply (f_equal (@List.length _)) in E.
        rewrite length_update_nth in E. now destruct ks.
      * subst. now destruct i.
    + clear Ho. revert i Hk A.
      induction ks as [|y ks IHks]; intros [|i] Hk A; simpl in *;
        try discriminate; apply andb_true_iff in A; destruct A as [A1 A2];
        apply andb_true_iff; split; auto.
      inversion Hk; subst. now apply (IH k x).
Qed.

Lemma forallb_erase_nth {A : Type} (q : A -> bool) (l : list A) : forall i,
  forallb q l = true -> forallb q (erase_nth i l) = true.
Proof.
  induction l as [|x l IH]; intros [|i] H; simpl in *; try reflexivity;
    apply andb_true_iff in H; destruct H as [H1 H2]; auto.
  apply andb_true_iff. split; auto.
Qed.

Lemma size_list_erase_nth (l : list citem_t) : forall i k,
  nth_error l i = Some k ->
  (size_list (erase_nth i l) + size k = size_list l)%nat.
Proof.
  induction l as [|x l IH]; intros [|i] k H; simpl in *; try discriminate.
  - inversion H; subst. lia.
  - specialize (IH i k H). unfold size_list in *. simpl. lia.
Qed.

Lemma cleanable_shape (o o' : ctype_t) :
  cleanable o = true -> shape_op o' = shape_op o -> o' = o.
Proof.
  destruct o, o'; intros C E; try reflexivity;
    try (cbv in C; discriminate C); cbv in E; discriminate E.
Qed.

Section PruneLoop.
Variable legit : list nat.
Variable fuel : nat.

Lemma visit_item_pruning_step (w : where_t) (t : citem_t)
    (v v' : PRUNE_ITEMS_VISITOR) (r : visit_result) :
  piv_inv v ->
  (Z.to_nat (label_potential (ctree v)) + 2 <= fuel)%nat ->
  item_at (ctree v) w = Some t ->
  visit_item_pruning legit fuel w t v = (v', r) ->
  match r with
  | Stop => pruned_step v v'
  | _ => v' = v
  end.
Proof.
  intros (M & F & A) Hf Hat. unfold visit_item_pruning.
  destruct (ctype_eqb (item_op t) cit_block) eqn:B.
  - destruct (first_empty (kids t)) as [i|] eqn:Fe; intro E; inversion E;
      subst; clear E; [|reflexivity].
    destruct (first_empty_spec _ _ Fe) as (k & Hk & _).
    unfold item_at in Hat. unfold pruned_step, piv_inv, update_at. simpl.
    assert (Ae : all_items owns_ok (erase_child i t) = true).
    { pose proof (all_items_get _ _ _ _ A Hat) as At.
      destruct t as [h ks]. unfold erase_child. cbn [hdr kids].
      rewrite all_items_eq in *. apply andb_true_iff in At.
      destruct At as [_ At]. apply andb_true_iff. split.
      - apply ctype_eqb_eq in B. unfold item_op in B. simpl in B.
        unfold owns_ok, item_op, cleanable. simpl. rewrite B. reflexivity.
      - now apply forallb_erase_nth. }
    repeat split; try assumption.
    + now apply (all_items_update _ _ _ t).
    + apply (potential_update_le _ _ _ t Hat), potential_erase_child.
    + pose proof (size_update (erase_child i) _ _ _ Hat) as Hsz.
      destruct t as [h ks]. cbn [kids] in Hk.
      change (size (erase_child i (Citem h ks)))
        with (S (size_list (erase_nth i ks))) in Hsz.
      rewrite size_eq in Hsz.
      pose proof (size_list_erase_nth ks i k Hk). pose proof (size_pos k). lia.
  - destruct (never_cleaned (item_op t)) eqn:N;
      [intro E; inversion E; reflexivity|].
    destruct (has legit t); [intro E; inversion E; reflexivity|].
    destruct (op_is_expr (item_op t)) eqn:X;
      [intro E; inversion E; reflexivity|].
    intro E. inversion E; subst; clear E.
    set (v1 := set_fGotoCleaned true (set_visitingMode CleaningUpGotoLabels v)).
    assert (R : relabelled v1 (cleanup_goto_labels fuel w v1)).
    { apply cleanup_goto_labels_ends; [exact A | exact Hf]. }
    destruct R as (Sk & Po & Fs & _).
    set (v2 := cleanup_goto_labels fuel w v1) in *.
    change (ctree v1) with (ctree v) in *.
    change (fuel_spent v1) with (fuel_spent v) in Fs.
    assert (A2 : all_items owns_ok (ctree v2) = true)
      by (now rewrite (all_items_same_skel (ctree v))).
    unfold item_at in Hat.
    destruct (get_same_skel _ _ _ _ Sk Hat) as (x & Hx & Ex).
    assert (C : cleanable (item_op t) = true)
      by (unfold cleanable; now rewrite B, N, X).
    assert (Ox : item_op x = item_op t).
    { apply cleanable_shape; [exact C|].
      destruct x as [hx kx], t as [ht kt]. rewrite !skel_eq in Ex.
      now injection Ex. }
    assert (Kx : (2 <= size x)%nat).
    { pose proof (all_items_get _ _ _ _ A2 Hx) as Ax.
      destruct x as [hx [|k kx]].
      - rewrite all_items_eq in Ax. apply andb_true_iff in Ax.
        destruct Ax as [Ax _]. unfold owns_ok in Ax. rewrite Ox in Ax.
        rewrite C in Ax.
        destruct (ctype_eqb (item_op t) cit_goto || ctype_eqb (item_op t) cit_empty)
          eqn:GE; [|discriminate].
        exfalso. clear - C GE. destruct (item_op t); discriminate.
      - rewrite size_eq. unfold size_list. simpl. pose proof (size_pos k). lia. }
    unfold pruned_step, piv_inv, update_at. simpl.
    repeat split.
    + congruence.
    + now apply (all_items_update _ _ _ x).
    + etransitivity; [|exact Po].
      apply (potential_update_le _ _ _ x Hx), potential_cleanup.
    + pose proof (size_update cleanup _ _ _ Hx) as Hsz.
      rewrite <- (size_same_skel _ _ Sk).
      change (size (cleanup x)) with 1%nat in Hsz. lia.
Qed.

Lemma prune_pass_step (v : PRUNE_ITEMS_VISITOR) :
  piv_inv v ->
  (Z.to_nat (label_potential (ctree v)) + 2 <= fuel)%nat ->
  match apply_to (visit_item_pruning legit fuel) [] (ctree v)
                 (set_fPruned false v) with
  | (v', true) => pruned_step v v'
  | (v', false) => v' = set_fPruned false v
  end.
Proof.
  intros I Hf.
  destruct (apply_to (visit_item_pruning legit fuel) [] (ctree v)
              (set_fPruned false v)) as [v' b] eqn:E.
  pose (P := fun x : PRUNE_ITEMS_VISITOR => x = set_fPruned false v).
  pose (Q := pruned_step v).
  assert (Hstep : forall w t v1 v1' r,
             item_at (ctree v) w = Some t -> P v1 ->
             visit_item_pruning legit fuel w t v1 = (v1', r) ->
             match r with Stop => Q v1' | _ => P v1' end).
  { intros w t v1 v1' r Ht Hv1 Ev. unfold P in Hv1. subst v1.
    pose proof (visit_item_pruning_step w t (set_fPruned false v) v1' r I Hf Ht Ev)
      as Hs.
    destruct r; exact Hs. }
  exact (apply_to_places _ (ctree v) P Q Hstep (ctree v) [] _ v' b eq_refl
           eq_refl E).
Qed.

Lemma prune_loop_ends (n : nat) : forall v,
  piv_inv v ->
  (Z.to_nat (label_potential (ctree v)) + 2 <= fuel)%nat ->
  (size (ctree v) <= n)%nat ->
  exists v' k,
    prune_loop legit fuel n v = Some (v', k) /\
    fPruned v' = false /\
    (1 <= k <= size (ctree v))%nat /\
    apply_to (visit_item_pruning legit fuel) [] (ctree v') (set_fPruned false v')
    = (v', false).
Proof.
  induction n as [|n IH]; intros v I Hf Hn.
  - pose proof (size_pos (ctree v)). lia.
  - simpl. unfold prune_pass. pose proof (prune_pass_step v I Hf) as Hp.
    pose proof (size_pos (ctree v)) as Hs.
    destruct (apply_to (visit_item_pruning legit fuel) [] (ctree v)
                (set_fPruned false v)) as [v1 [|]] eqn:E; simpl.
    + destruct Hp as (I1 & Po & Fp & Sz).
      destruct I1 as (M1 & F1 & A1). rewrite F1, Fp.
      pose proof (label_potential_nonneg (ctree v1)).
      destruct (IH v1) as (v' & k & E' & Fp' & K & Q);
        [now repeat split|lia|lia|].
      rewrite E'. exists v', (S k). repeat split; try assumption; lia.
    + subst v1. destruct I as (_ & F & _). simpl. rewrite F.
      eexists. exists 1%nat. repeat split; try reflexivity; try lia.
      exact E.
Qed.
End PruneLoop.

(* ------------------------------------------------------------------ *)
(** ** Both loops of [Detox] end *)
(* ------------------------------------------------------------------ *)

Lemma apply_to_never_stops {V : Type}
    (visit : where_t -> citem_t -> V -> V * visit_result) :
  (forall w t v, snd (visit w t v) <> Stop) ->
  forall t w v, snd (apply_to visit w t v) = false.
Proof.
  intros Hv t. induction t as [h ks IH] using citem_t_ind.
  intros w v. rewrite apply_to_eq.
  specialize (Hv w (Citem h ks) v).
  destruct (visit w (Citem h ks) v) as [v1 r]. simpl in Hv.
  destruct r; try reflexivity; [|congruence].
  simpl kids. generalize O. revert v1.
  induction IH as [|k ks Hk _ IHks]; intros v1 i; simpl; [reflexivity|].
  specialize (Hk (i :: w) v1).
  destruct (apply_to visit (i :: w) k v1) as [v2 b]. simpl in Hk. subst b.
  apply IHks.
Qed.

Lemma visit_item_scanning_goes_on (hexdsp : hexdsp_t) (pFunction : cfunc_t)
    (w : where_t) (t : citem_t) (v : FIND_LEGIT_ITEMS_VISITOR) :
  snd (visit_item_scanning hexdsp true pFunction w t v) <> Stop.
Proof.
  unfold visit_item_scanning, ensure_initialized, Initialize.
  destruct (fInitialized v); simpl;
    repeat match goal with
           | |- context [if ?c then _ else _] => destruct c
           end; simpl; discriminate.
Qed.

(** C8.  For a function as the SDK hands it over, there is an amount of
    fuel from which on the embedding follows both loops of [Detox] to
    their end.  The marking loop returns the state after [k1] rounds,
    each a walk over the whole body when the allocation succeeds: the
    last round left [fNewLegitItemFound] clear and added nothing to
    [vectorLegitItems], every round before it added an item.  The
    pruning loop ends after a round that left [fPruned] clear and that
    walked the whole body without changing it.  Neither loop runs more
    rounds than the body has items. *)
Theorem Detox_loops_terminate (hexdsp : hexdsp_t) (malloc_ok : bool)
    (f : cfunc_t) :
  well_formed f ->
  exists N,
    forall fuel, (N <= fuel)%nat ->
    exists fliv k1 piv k2,
      find_legit_loop hexdsp malloc_ok f fuel fliv_init = Some (fliv, k1) /\
      fNewLegitItemFound fliv = false /\
      (1 <= k1 <= size (body f))%nat /\
      fliv = Nat.iter k1 (find_legit_pass hexdsp malloc_ok f) fliv_init /\
      vectorLegitItems fliv
      = vectorLegitItems
          (Nat.iter (k1 - 1) (find_legit_pass hexdsp malloc_ok f) fliv_init) /\
      (forall j, (j < k1 - 1)%nat ->
         (List.length
            (vectorLegitItems
               (Nat.iter j (find_legit_pass hexdsp malloc_ok f) fliv_init))
          < List.length
              (vectorLegitItems
                 (Nat.iter (S j) (find_legit_pass hexdsp malloc_ok f)
                    fliv_init)))%nat) /\
      (malloc_ok = true ->
       forall v, snd (apply_to (visit_item_scanning hexdsp malloc_ok f) []
                        (body f) v) = false) /\
      prune_loop (vectorLegitItems fliv) fuel fuel (piv_init (body f))
      = Some (piv, k2) /\
      fPruned piv = false /\
      (1 <= k2 <= size (body f))%nat /\
      apply_to (visit_item_pruning (vectorLegitItems fliv) fuel) []
               (ctree piv) (set_fPruned false piv) = (piv, false).
Proof.
  intro W.
  exists (Nat.max (S (size (body f)))
                  (Z.to_nat (label_potential (body f)) + 2)).
  intros fuel Hf.
  destruct (find_legit_loop_terminates hexdsp malloc_ok f fuel W)
    as (fliv & k1 & E1 & F1 & K1); [lia|].
  assert (I0 : fliv_inv f fliv_init) by reflexivity.
  assert (L0 : legit_in_body f fliv_init)
    by (split; [constructor | intros x []]).
  destruct (find_legit_loop_rounds hexdsp malloc_ok f fuel _ _ _ I0 L0 E1)
    as (_ & R1 & R2 & R3).
  destruct (prune_loop_ends (vectorLegitItems fliv) fuel fuel
              (piv_init (body f)))
    as (piv & k2 & E2 & F2 & K2 & Q2).
  - destruct W as (_ & _ & A). repeat split; assumption.
  - simpl. lia.
  - simpl. lia.
  - exists fliv, k1, piv, k2. simpl in K2.
    split; [exact E1|]. split; [exact F1|]. split; [exact K1|].
    split; [exact R1|]. split; [exact R2|]. split; [exact R3|].
    split.
    + intros -> v. apply apply_to_never_stops. intros w t v1.
      apply visit_item_scanning_goes_on.
    + split; [exact E2|]. split; [exact F2|]. split; [lia | exact Q2].
Qed.

Lemma goto_function_well_formed : well_formed goto_function.
Proof.
  split; [reflexivity|]. split; [|reflexivity].
  repeat (constructor; [simpl; intuition discriminate|]). constructor.
Defined.

Lemma Detox_loops_terminate_witness :
  well_formed goto_function /\
  exists N,
    forall fuel, (N <= fuel)%nat ->
    exists fliv k1 piv k2,
      find_legit_loop sample_hexdsp true goto_function fuel fliv_init
      = Some (fliv, k1) /\
      (1 <= k1 <= size (body goto_function))%nat /\
      prune_loop (vectorLegitItems fliv) fuel fuel
                 (piv_init (body goto_function)) = Some (piv, k2) /\
      (1 <= k2 <= size (body goto_function))%nat.
Proof.
  split; [exact goto_function_well_formed|].
  destruct (Detox_loops_terminate sample_hexdsp true goto_function
              goto_function_well_formed) as [N H].
  exists N. intros fuel Hf.
  destruct (H fuel Hf)
    as (fliv & k1 & piv & k2 & E1 & _ & K1 & _ & _ & _ & _ & E2 & _ & K2 & _).
  exists fliv, k1, piv, k2. repeat split; try assumption; apply K1 || apply K2.
Defined.

(* ------------------------------------------------------------------ *)
(** ** [find_parent_of] and positions agree *)
(* ------------------------------------------------------------------ *)

Lemma find_parent_of_eq (h : citem_hdr) (ks : list citem_t) (p : nat) :
  find_parent_of (Citem h ks) p =
  if existsb (fun k => Nat.eqb (item_ptr k) p) ks then Some (Citem h ks)
  else find_parent_in ks p.
Proof.
  simpl. destruct (existsb (fun k => Nat.eqb (item_ptr k) p) ks);
    [reflexivity|].
  induction ks as [|k ks IH]; simpl; [reflexivity|].
  destruct (find_parent_of k p); [reflexivity | exact IH].
Qed.

Lemma find_parent_of_none (t : citem_t) (q : nat) :
  ~ In q (flat_map ptrs (kids t)) -> find_parent_of t q = None.
Proof.
  induction t as [h ks IH] using citem_t_ind. simpl kids. intro H.
  rewrite find_parent_of_eq.
  assert (E : existsb (fun k => Nat.eqb (item_ptr k) q) ks = false).
  { apply not_true_is_false. intro E. apply existsb_exists in E.
    destruct E as (k & Hk & Hq). apply Nat.eqb_eq in Hq. apply H.
    apply in_flat_map. exists k. split; [exact Hk|].
    rewrite <- Hq. apply item_ptr_in_ptrs. }
  rewrite E. clear E.
  induction IH as [|k ks Hk _ IHks]; simpl; [reflexivity|].
  rewrite Hk.
  - apply IHks. intro Hin. apply H. simpl. apply in_or_app. now right.
  - intro Hin. apply H. simpl. apply in_or_app. left.
    destruct k as [hk kk]. rewrite ptrs_eq. now right.
Qed.

Lemma NoDup_app_disjoint (l1 l2 : list nat) (x : nat) :
  NoDup (l1 ++ l2) -> In x l1 -> In x l2 -> False.
Proof.
  induction l1 as [|y l1 IH]; intros ND H1 H2; [contradiction|].
  simpl in ND. inversion ND as [|? ? Hy ND']; subst.
  destruct H1 as [->|H1].
  - apply Hy. apply in_or_app. now right.
  - now apply IH.
Qed.

Lemma NoDup_flat_map_disjoint {A : Type} (f : A -> list nat) (l : list A) :
  forall i j a b x,
    NoDup (flat_map f l) ->
    nth_error l i = Some a -> nth_error l j = Some b -> i <> j ->
    In x (f a) -> In x (f b) -> False.
Proof.
  induction l as [|y l IH]; intros i j a b x ND Ha Hb Hne Hxa Hxb.
  - destruct i; discriminate Ha.
  - simpl in ND. destruct i as [|i], j as [|j]; simpl in *.
    + congruence.
    + inversion Ha; subst.
      apply (NoDup_app_disjoint _ _ x ND Hxa).
      eapply nth_error_in_flat_map; eauto.
    + inversion Hb; subst.
      apply (NoDup_app_disjoint _ _ x ND Hxb).
      eapply nth_error_in_flat_map; eauto.
    + apply NoDup_app_remove_l in ND.
      apply (IH i j a b x ND Ha Hb); auto.
Qed.

Lemma NoDup_flat_map_kid {A : Type} (f : A -> list nat) (l : list A) :
  forall i a, NoDup (flat_map f l) -> nth_error l i = Some a -> NoDup (f a).
Proof.
  induction l as [|y l IH]; intros [|i] a ND Ha; simpl in *; try discriminate.
  - inversion Ha; subst. now apply NoDup_app_remove_r in ND.
  - apply NoDup_app_remove_l in ND. now apply (IH i).
Qed.

Lemma find_parent_in_nth (q : nat) (r : citem_t) (ks : list citem_t) :
  forall i k,
    nth_error ks i = Some k ->
    (forall j kj, (j < i)%nat -> nth_error ks j = Some kj ->
                  find_parent_of kj q = None) ->
    find_parent_of k q = Some r ->
    find_parent_in ks q = Some r.
Proof.
  induction ks as [|y ks IH]; intros [|i] k Hk Hb Hr; simpl in *;
    try discriminate.
  - inversion Hk; subst. now rewrite Hr.
  - rewrite (Hb O y); [|lia|reflexivity].
    apply (IH i k Hk); [|exact Hr].
    intros j kj Hj Hn. apply (Hb (S j) kj); [lia | exact Hn].
Qed.

Lemma get_below_in_kids (p : path) : forall t i x,
  get t (i :: p) = Some x -> In (item_ptr x) (flat_map ptrs (kids t)).
Proof.
  intros t i x H. simpl in H.
  destruct (nth_error (kids t) i) as [k|] eqn:Hk; [|discriminate].
  eapply nth_error_in_flat_map; eauto.
  apply (get_ptrs_incl _ _ _ H), item_ptr_in_ptrs.
Qed.

Lemma get_removelast_some (q : path) : forall k t,
  get k q = Some t -> q <> [] -> exists r, get k (removelast q) = Some r.
Proof.
  induction q as [|a q IH]; intros k t H Hne; [congruence|].
  destruct q as [|b q].
  - exists k. reflexivity.
  - change (removelast (a :: b :: q)) with (a :: removelast (b :: q)).
    simpl in H. simpl get.
    destruct (nth_error (kids k) a) as [k'|]; [|discriminate].
    apply (IH k' t H). discriminate.
Qed.

(** In a tree whose items have distinct addresses, [find_parent_of] on
    the address of the item at a position answers the item one step up,
    and [NULL] for the root. *)
Lemma find_parent_of_get (p : path) : forall root t,
  NoDup (ptrs root) -> get root p = Some t ->
  find_parent_of root (item_ptr t) =
  match p with
  | [] => None
  | _ :: _ => get root (removelast p)
  end.
Proof.
  induction p as [|i p IH]; intros root t ND H.
  - simpl in H. inversion H; subst. apply find_parent_of_none.
    destruct t as [h ks]. rewrite ptrs_eq in ND. now inversion ND.
  - destruct root as [h ks]. rewrite find_parent_of_eq.
    pose proof H as H'. simpl in H'.
    destruct (nth_error ks i) as [k|] eqn:Hk; [|discriminate].
    rewrite ptrs_eq in ND. inversion ND as [|? ? Hself NDk]; subst.
    destruct p as [|j p].
    + simpl in H'. inversion H'; subst.
      assert (E : existsb (fun k => Nat.eqb (item_ptr k) (item_ptr t)) ks = true).
      { apply existsb_exists. exists t. split.
        - eapply nth_error_In; eauto.
        - apply Nat.eqb_refl. }
      rewrite E. reflexivity.
    + assert (Ht : In (item_ptr t) (flat_map ptrs (kids k)))
        by (eapply get_below_in_kids; eauto).
      assert (NDi : NoDup (ptrs k)) by (eapply NoDup_flat_map_kid; eauto).
      assert (E : existsb (fun k => Nat.eqb (item_ptr k) (item_ptr t)) ks = false).
      { apply not_true_is_false. intro E. apply existsb_exists in E.
        destruct E as (kk & Hkk & Hq). apply Nat.eqb_eq in Hq.
        apply In_nth_error in Hkk. destruct Hkk as [j' Hj'].
        destruct (Nat.eq_dec j' i) as [->|Hne].
        - rewrite Hk in Hj'. inversion Hj'; subst kk.
          destruct k as [hk kk]. rewrite ptrs_eq in NDi.
          inversion NDi as [|? ? Hn _]; subst. apply Hn.
          unfold item_ptr in Hq. simpl in Hq. rewrite Hq. exact Ht.
        - apply (NoDup_flat_map_disjoint ptrs ks j' i kk k (item_ptr t) NDk
                   Hj' Hk Hne).
          + rewrite <- Hq. apply item_ptr_in_ptrs.
          + destruct k as [hk kk']. rewrite ptrs_eq. now right. }
      rewrite E.
      change (removelast (i :: j :: p)) with (i :: removelast (j :: p)).
      change (get (Citem h ks) (i :: removelast (j :: p)))
        with (match nth_error ks i with
              | Some k0 => get k0 (removelast (j :: p))
              | None => None
              end).
      rewrite Hk.
      pose proof (IH k t NDi H') as IHk.
      change (find_parent_of k (item_ptr t) = get k (removelast (j :: p)))
        in IHk.
      destruct (get k (removelast (j :: p))) as [r|] eqn:R.
      * apply (find_parent_in_nth _ r ks i k Hk); [|exact IHk].
        intros j' kj Hj' Hn. apply find_parent_of_none. intro Hin.
        apply (NoDup_flat_map_disjoint ptrs ks j' i kj k (item_ptr t) NDk
                 Hn Hk); [lia| |].
        -- destruct kj as [hj kj']. rewrite ptrs_eq. now right.
        -- destruct k as [hk kk']. rewrite ptrs_eq. now right.
      * exfalso.
        destruct (get_removelast_some (j :: p) k t H') as [r Hr];
          [discriminate|]. congruence.
Qed.

(** The same at a position given from the item upwards: the ancestor
    walk by [find_parent_of] is the walk up the positions. *)
Lemma find_parent_of_position (root : citem_t) (w : where_t) (t : citem_t) :
  NoDup (ptrs root) -> item_at root w = Some t ->
  find_parent_of root (item_ptr t) = parent_at root w.
Proof.
  intros ND H. unfold item_at in H.
  rewrite (find_parent_of_get _ _ _ ND H).
  destruct w as [|i w]; [reflexivity|].
  simpl. unfold item_at. rewrite removelast_last.
  destruct (rev w ++ [i]) eqn:E; [|reflexivity].
  destruct (rev w); discriminate E.
Qed.

(* ------------------------------------------------------------------ *)
(** ** The relocation of a label *)
(* ------------------------------------------------------------------ *)

Lemma list_sum_map_add {A : Type} (f g h : A -> nat) (l : list A) :
  Forall (fun x => f x = (g x + h x)%nat) l ->
  list_sum (map f l) = (list_sum (map g l) + list_sum (map h l))%nat.
Proof.
  induction 1 as [|x l Hx _ IH]; simpl; [reflexivity|]. rewrite Hx, IH. lia.
Qed.

(** Retargeting moves the gotos of the old label to the new one. *)
Lemma gotos_to_retargeted (nOld nNew : Z) (t : citem_t) :
  nNew <> -1 -> nNew <> nOld ->
  gotos_to nNew (change_gotos nOld nNew t)
  = (gotos_to nNew t + gotos_to nOld t)%nat.
Proof.
  intros H1 Hne. apply Z.eqb_neq in H1.
  induction t as [h ks IH] using citem_t_ind.
  assert (Hk : list_sum (map (gotos_to nNew) (map (change_gotos nOld nNew) ks))
               = (list_sum (map (gotos_to nNew) ks)
                  + list_sum (map (gotos_to nOld) ks))%nat).
  { rewrite map_map. apply list_sum_map_add. exact IH. }
  simpl. destruct (ctype_eqb (op h) cit_goto) eqn:G; simpl.
  - destruct (goto_label h =? nOld) eqn:Eo; simpl.
    + rewrite H1. simpl. rewrite G, Z.eqb_refl, Hk. simpl.
      apply Z.eqb_eq in Eo. rewrite Eo.
      assert (E : (nOld =? nNew) = false) by (apply Z.eqb_neq; congruence).
      rewrite E. lia.
    + rewrite G, Hk. simpl. lia.
  - rewrite G, Hk. simpl. lia.
Qed.

(** After a label has moved, the carrier has it and the item has none. *)
Lemma label_transfer_places (t : citem_t) (w wd : where_t) (L d : citem_t)
    (n : Z) :
  item_at t w = Some L -> item_at t wd = Some d ->
  ea (hdr d) > ea (hdr L) ->
  (exists c,
      item_at (update_at (update_at t wd (relabel n)) w (relabel (-1))) wd
      = Some c /\
      label_num (hdr c) = n /\ item_ptr c = item_ptr d) /\
  (exists i,
      item_at (update_at (update_at t wd (relabel n)) w (relabel (-1))) w
      = Some i /\
      label_num (hdr i) = -1 /\ item_ptr i = item_ptr L).
Proof.
  unfold item_at, update_at. intros HL Hd Hea.
  assert (Hne : rev wd <> rev w).
  { intro E. rewrite E in Hd. rewrite HL in Hd. inversion Hd; subst. lia. }
  destruct (get_update_other n (rev w) t (rev wd) L HL Hne) as (L1 & HL1 & EL1).
  assert (Hd1 : get (update t (rev wd) (relabel n)) (rev wd) = Some (relabel n d))
    by (now rewrite get_update_same, Hd).
  split.
  - destruct (get_update_other (-1) (rev wd) _ (rev w) _ Hd1
                (fun E => Hne (eq_sym E))) as (c & Hc & Ec).
    exists c. split; [exact Hc|]. unfold item_ptr. rewrite Ec.
    destruct d. split; reflexivity.
  - exists (relabel (-1) L1). split.
    + now rewrite get_update_same, HL1.
    + unfold item_ptr. destruct L1 as [h1 k1]. simpl in *. rewrite EL1.
      split; reflexivity.
Qed.

(** C5, as the code has it.  [visit_item] in CleaningUpGotoLabels mode
    on a labelled item: the blocks above the item are tried from the
    nearest outwards, and the first block that owns a child of greater
    address gives the carrier, its first child of least address among
    those.  A carrier that has a label of its own makes every goto of the
    body that targets the old label target the carrier's label, and no
    label moves; a carrier without a label receives the label number,
    which is cleared from the item.  When no block above the item owns a
    child of greater address, and so when there is no block above it, the
    goto conversion runs over the body and leaves no goto that targets
    the label. *)
Theorem label_relocation (w : where_t) (pItem : citem_t)
    (v : PRUNE_ITEMS_VISITOR) :
  item_at (ctree v) w = Some pItem ->
  label_num (hdr pItem) <> -1 ->
  snd (visit_item_cleaning w pItem v) = Stop /\
  fGotoCleaned (fst (visit_item_cleaning w pItem v)) = true /\
  find_new_destination (ctree v) w (ea (hdr pItem))
  = carrier_in_blocks (ea (hdr pItem)) (blocks_above (ctree v) w) /\
  (forall p, picked (ea (hdr pItem)) (kids p)
               (pick_destination (ea (hdr pItem)) O (kids p) None)) /\
  match find_new_destination (ctree v) w (ea (hdr pItem)) with
  | Some (wd, d) =>
      if label_num (hdr d) =? -1 then
        ctree (fst (visit_item_cleaning w pItem v))
        = update_at (update_at (ctree v) wd (relabel (label_num (hdr pItem))))
                    w (relabel (-1)) /\
        (exists c,
            item_at (ctree (fst (visit_item_cleaning w pItem v))) wd = Some c /\
            label_num (hdr c) = label_num (hdr pItem) /\
            item_ptr c = item_ptr d) /\
        (exists i,
            item_at (ctree (fst (visit_item_cleaning w pItem v))) w = Some i /\
            label_num (hdr i) = -1 /\
            item_ptr i = item_ptr pItem)
      else
        ctree (fst (visit_item_cleaning w pItem v))
        = change_gotos (label_num (hdr pItem)) (label_num (hdr d)) (ctree v) /\
        labels (ctree (fst (visit_item_cleaning w pItem v))) = labels (ctree v) /\
        (label_num (hdr d) <> label_num (hdr pItem) ->
         gotos_to (label_num (hdr pItem))
                  (ctree (fst (visit_item_cleaning w pItem v))) = O /\
         gotos_to (label_num (hdr d))
                  (ctree (fst (visit_item_cleaning w pItem v)))
         = (gotos_to (label_num (hdr d)) (ctree v)
            + gotos_to (label_num (hdr pItem)) (ctree v))%nat)
  | None =>
      ctree (fst (visit_item_cleaning w pItem v))
      = change_gotos (label_num (hdr pItem)) (-1) (ctree v) /\
      gotos_to (label_num (hdr pItem))
               (ctree (fst (visit_item_cleaning w pItem v))) = O
  end.
Proof.
  intros Hat Hl. unfold visit_item_cleaning.
  apply Z.eqb_neq in Hl. rewrite Hl. apply Z.eqb_neq in Hl.
  assert (Hb := find_new_destination_blocks (ctree v) (ea (hdr pItem)) w).
  destruct (find_new_destination (ctree v) w (ea (hdr pItem))) as [[wd d]|] eqn:F.
  - destruct (find_new_destination_at _ _ _ _ _ F) as [Hd Hea].
    destruct (label_num (hdr d) =? -1) eqn:D; simpl.
    + split; [reflexivity|]. split; [reflexivity|]. split; [exact Hb|].
      split; [intro p; apply pick_destination_spec|].
      split; [reflexivity|].
      exact (label_transfer_places _ _ _ _ _ (label_num (hdr pItem)) Hat Hd Hea).
    + apply Z.eqb_neq in D.
      split; [reflexivity|]. split; [reflexivity|]. split; [exact Hb|].
      split; [intro p; apply pick_destination_spec|].
      split; [reflexivity|]. split; [now apply labels_change_gotos|].
      intro Hne. split.
      * now apply gotos_to_change_gotos.
      * now apply gotos_to_retargeted.
  - simpl. split; [reflexivity|]. split; [reflexivity|]. split; [exact Hb|].
    split; [intro p; apply pick_destination_spec|].
    split; [reflexivity|]. apply gotos_to_change_gotos. congruence.
Qed.

Lemma label_relocation_witness :
  ctree (fst (visit_item_cleaning [O; 1%nat; O] (lobyte_stmt 5 12 7)
                (piv_init nested_label_body)))
  = update_at (update_at nested_label_body [1%nat] (relabel 7))
              [O; 1%nat; O] (relabel (-1)).
Proof.
  pose proof (label_relocation [O; 1%nat; O] (lobyte_stmt 5 12 7)
                (piv_init nested_label_body)) as H.
  assert (Hat : item_at (ctree (piv_init nested_label_body)) [O; 1%nat; O]
                = Some (lobyte_stmt 5 12 7)) by reflexivity.
  assert (Hl : label_num (hdr (lobyte_stmt 5 12 7)) <> -1) by (simpl; lia).
  destruct (H Hat Hl) as (_ & _ & _ & _ & H5).
  exact (proj1 H5).
Defined.

(** C5, as the specification words it, fails.  In
    [{ if (a0) { LABEL_7: v1 = LOBYTE(v2); }  sub_401000(); }] the
    labelled statement is the last statement of the block around it, so
    that block has no child of greater address and offers no carrier;
    the code goes on to the block above and moves the label onto the call
    statement, which is not a child of the nearest block.  [Detox] as a
    whole does so on its way to removing the labelled statement. *)
Lemma carrier_is_not_in_nearest_block :
  item_at nested_label_body [O; 1%nat; O] = Some (lobyte_stmt 5 12 7) /\
  hd_error (blocks_above nested_label_body [O; 1%nat; O])
  = Some ([1%nat; O], item 4 cit_block 11 (-1) [ lobyte_stmt 5 12 7 ]) /\
  carrier_in_nearest_block nested_label_body [O; 1%nat; O] 12 = None /\
  find_new_destination nested_label_body [O; 1%nat; O] 12
  = Some ([1%nat], call_stmt 11 20) /\
  find_new_destination nested_label_body [O; 1%nat; O] 12
  <> carrier_in_nearest_block nested_label_body [O; 1%nat; O] 12 /\
  ~ In (call_stmt 11 20) (kids (item 4 cit_block 11 (-1) [ lobyte_stmt 5 12 7 ])) /\
  ctree (fst (visit_item_cleaning [O; 1%nat; O] (lobyte_stmt 5 12 7)
                (piv_init nested_label_body)))
  = item 1 cit_block 0 (-1)
      [ item 2 cit_if 10 (-1)
          [ var_ref 3 0; item 4 cit_block 11 (-1) [ lobyte_stmt 5 12 (-1) ] ];
        relabel 7 (call_stmt 11 20) ] /\
  Detox sample_hexdsp true 8 nested_label_function
  = Returns
      (mk_cfunc
         (item 1 cit_block 0 (-1)
            [ item 2 cit_if 10 (-1)
                [ var_ref 3 0; item 4 cit_block 11 (-1) [] ];
              relabel 7 (call_stmt 11 20) ])
         [ mk_lvar true true; mk_lvar false false; mk_lvar false false ]).
Proof.
  repeat split; try (vm_compute; reflexivity).
  - vm_compute. discriminate.
  - intros [H|[]]. vm_compute in H. discriminate H.
Qed.

(* ================================================================== *)
(** * Further properties of the two visitors *)
(* ================================================================== *)

(* ------------------------------------------------------------------ *)
(** ** What the marking loop leaves in [vectorLegitItems] *)
(* ------------------------------------------------------------------ *)

Lemma find_legit_loop_counted (hexdsp : hexdsp_t) (malloc_ok : bool)
    (pFunction : cfunc_t) (fuel : nat) : forall v v' k,
  fliv_inv pFunction v -> legit_in_body pFunction v ->
  find_legit_loop hexdsp malloc_ok pFunction fuel v = Some (v', k) ->
  fliv_inv pFunction v' /\ legit_in_body pFunction v'.
Proof.
  induction fuel as [|fuel IH]; intros v v' k I L E; simpl in E; [discriminate|].
  destruct (counted_pass hexdsp malloc_ok pFunction v I L) as (I1 & L1 & _).
  destruct (fNewLegitItemFound (find_legit_pass hexdsp malloc_ok pFunction v)).
  - destruct (find_legit_loop hexdsp malloc_ok pFunction fuel
                (find_legit_pass hexdsp malloc_ok pFunction v))
      as [[v2 n]|] eqn:E2; [|discriminate].
    inversion E; subst. exact (IH _ _ _ I1 L1 E2).
  - inversion E; subst. split; assumption.
Qed.

(** X1.  When the marking loop returns, [vectorLegitItems] holds no
    address twice, holds only addresses of items of the function body,
    and so is no longer than the body has items. *)
Theorem legit_items_are_body_items (hexdsp : hexdsp_t) (malloc_ok : bool)
    (f : cfunc_t) (fuel : nat) (v : FIND_LEGIT_ITEMS_VISITOR) (k : nat) :
  find_legit_loop hexdsp malloc_ok f fuel fliv_init = Some (v, k) ->
  NoDup (vectorLegitItems v) /\
  incl (vectorLegitItems v) (ptrs (body f)) /\
  (List.length (vectorLegitItems v) <= size (body f))%nat.
Proof.
  intro E.
  destruct (find_legit_loop_counted hexdsp malloc_ok f fuel fliv_init v k)
    as [_ L]; [reflexivity | split; [constructor | intros x []] | exact E |].
  split; [apply L|]. split; [apply L|]. now apply legit_length_le_size.
Qed.

Lemma legit_items_are_body_items_witness :
  exists v k,
    find_legit_loop sample_hexdsp true goto_function 8 fliv_init = Some (v, k) /\
    NoDup (vectorLegitItems v) /\
    incl (vectorLegitItems v) (ptrs (body goto_function)).
Proof.
  assert (E : { r | find_legit_loop sample_hexdsp true goto_function 8 fliv_init
                    = Some r }) by (eexists; vm_compute; reflexivity).
  destruct E as [[v k] E]. exists v, k. split; [exact E|].
  destruct (legit_items_are_body_items sample_hexdsp true goto_function 8 v k E)
    as (N & I & _).
  split; assumption.
Defined.

(* ------------------------------------------------------------------ *)
(** ** What the pruning loop leaves behind *)
(* ------------------------------------------------------------------ *)

Lemma settled_eq (legit : list nat) (h : citem_hdr) (ks : list citem_t) :
  settled legit (Citem h ks) =
  if ctype_eqb (op h) cit_block then
    match first_empty ks with
    | None => forallb (settled legit) ks
    | Some _ => false
    end
  else if never_cleaned (op h) then true
  else (has legit (Citem h ks) || op_is_expr (op h))
       && forallb (settled legit) ks.
Proof. reflexivity. Qed.

(** A visit in Pruning mode that does not end the walk leaves the
    visitor as it is. *)
Lemma visit_item_pruning_quiet (legit : list nat) (fuel : nat) (w : where_t)
    (t : citem_t) (v v' : PRUNE_ITEMS_VISITOR) (r : visit_result) :
  visit_item_pruning legit fuel w t v = (v', r) -> r <> Stop -> v' = v.
Proof.
  unfold visit_item_pruning.
  destruct (ctype_eqb (item_op t) cit_block).
  - destruct (first_empty (kids t)); intros E N; inversion E; subst;
      [congruence | reflexivity].
  - destruct (never_cleaned (item_op t)); [intros E _; now inversion E|].
    destruct (has legit t); [intros E _; now inversion E|].
    destruct (op_is_expr (item_op t)); [intros E _; now inversion E|].
    intros E N. inversion E; subst. congruence.
Qed.

(** A walk in Pruning mode runs to its end exactly on a settled tree,
    and then the visitor is as it was. *)
Lemma apply_to_pruning_settled (legit : list nat) (fuel : nat) (t : citem_t) :
  forall w v,
    settled legit t = true ->
    apply_to (visit_item_pruning legit fuel) w t v = (v, false).
Proof.
  induction t as [h ks IH] using citem_t_ind. intros w v S.
  rewrite settled_eq in S. rewrite apply_to_eq.
  unfold visit_item_pruning, item_op. cbn [hdr kids].
  destruct (ctype_eqb (op h) cit_block) eqn:B.
  - destruct (first_empty ks); [discriminate|].
    generalize O. revert S. clear B.
    induction IH as [|k ks Hk _ IHks]; intros S i; simpl; [reflexivity|].
    simpl in S. apply andb_true_iff in S. destruct S as [S1 S2].
    rewrite (Hk _ _ S1). now apply IHks.
  - destruct (never_cleaned (op h)); [reflexivity|].
    apply andb_true_iff in S. destruct S as [S0 S].
    assert (Hkids : forall i, apply_to_kids (visit_item_pruning legit fuel) w i ks v
                              = (v, false)).
    { clear S0 B. revert S.
      induction IH as [|k ks Hk _ IHks]; intros S i; simpl; [reflexivity|].
      simpl in S. apply andb_true_iff in S. destruct S as [S1 S2].
      rewrite (Hk _ _ S1). now apply IHks. }
    destruct (has legit (Citem h ks)); [apply Hkids|].
    simpl in S0. rewrite S0. apply Hkids.
Qed.

Lemma apply_to_pruning_quiet (legit : list nat) (fuel : nat) (t : citem_t) :
  forall w v v',
    apply_to (visit_item_pruning legit fuel) w t v = (v', false) ->
    v' = v /\ settled legit t = true.
Proof.
  induction t as [h ks IH] using citem_t_ind. intros w v v'.
  rewrite apply_to_eq, settled_eq.
  destruct (visit_item_pruning legit fuel w (Citem h ks) v) as [v1 r] eqn:Ev.
  assert (Hkids : forall i v0 v0',
             apply_to_kids (visit_item_pruning legit fuel) w i ks v0 = (v0', false) ->
             v0' = v0 /\ forallb (settled legit) ks = true).
  { clear Ev. induction IH as [|k ks Hk _ IHks]; intros i v0 v0' E; simpl in E.
    - inversion E. split; reflexivity.
    - destruct (apply_to (visit_item_pruning legit fuel) (i :: w) k v0)
        as [v2 [|]] eqn:E2; [discriminate|].
      destruct (Hk _ _ _ E2) as [-> Sk].
      destruct (IHks _ _ _ E) as [-> Sks].
      split; [reflexivity|]. simpl. now rewrite Sk, Sks. }
  destruct r; cbn [kids].
  - intro E. destruct (Hkids _ _ _ E) as [-> Sk].
    assert (v1 = v) by (eapply visit_item_pruning_quiet; eauto; discriminate).
    subst v1. split; [reflexivity|].
    revert Ev. unfold visit_item_pruning, item_op. cbn [hdr kids].
    destruct (ctype_eqb (op h) cit_block).
    + destruct (first_empty ks); [intro E'; inversion E'|]. intros _. exact Sk.
    + destruct (never_cleaned (op h)); [reflexivity|].
      destruct (has legit (Citem h ks)); [now rewrite Sk|].
      destruct (op_is_expr (op h)); [now rewrite Sk|].
      intro E'. inversion E'.
  - intro E. inversion E; subst.
    assert (v' = v) by (eapply visit_item_pruning_quiet; eauto; discriminate).
    split; [assumption|].
    revert Ev. unfold visit_item_pruning, item_op. cbn [hdr kids].
    destruct (ctype_eqb (op h) cit_block).
    + destruct (first_empty ks); intro E'; inversion E'.
    + destruct (never_cleaned (op h)); [reflexivity|].
      destruct (has legit (Citem h ks)); [intro E'; inversion E'|].
      destruct (op_is_expr (op h)); intro E'; inversion E'.
  - intro E. inversion E.
Qed.

(** A visit in Pruning mode that ends the walk has set [fPruned]. *)
Lemma visit_item_pruning_stop_flag (legit : list nat) (fuel : nat) (w : where_t)
    (t : citem_t) (v v' : PRUNE_ITEMS_VISITOR) :
  visit_item_pruning legit fuel w t v = (v', Stop) -> fPruned v' = true.
Proof.
  unfold visit_item_pruning.
  destruct (ctype_eqb (item_op t) cit_block).
  - destruct (first_empty (kids t)); intro E; inversion E; reflexivity.
  - destruct (never_cleaned (item_op t)); [intro E; now inversion E|].
    destruct (has legit t); [intro E; now inversion E|].
    destruct (op_is_expr (item_op t)); intro E; inversion E; reflexivity.
Qed.

Lemma apply_to_pruning_stopped (legit : list nat) (fuel : nat) (t : citem_t) :
  forall w v v',
    apply_to (visit_item_pruning legit fuel) w t v = (v', true) ->
    fPruned v' = true.
Proof.
  induction t as [h ks IH] using citem_t_ind. intros w v v'.
  rewrite apply_to_eq.
  destruct (visit_item_pruning legit fuel w (Citem h ks) v) as [v1 r] eqn:Ev.
  destruct r.
  - cbn [kids]. clear Ev. generalize O. revert v1.
    induction IH as [|k ks Hk _ IHks]; intros v1 i E; simpl in E; [discriminate|].
    destruct (apply_to (visit_item_pruning legit fuel) (i :: w) k v1)
      as [v2 [|]] eqn:E2.
    + inversion E; subst. exact (Hk _ _ _ E2).
    + exact (IHks _ _ E).
  - intro E. discriminate.
  - intro E. inversion E; subst. exact (visit_item_pruning_stop_flag _ _ _ _ _ _ Ev).
Qed.

Lemma prune_pass_quiet (legit : list nat) (fuel : nat) (v : PRUNE_ITEMS_VISITOR) :
  fPruned (prune_pass legit fuel v) = false ->
  prune_pass legit fuel v = set_fPruned false v /\
  settled legit (ctree v) = true.
Proof.
  unfold prune_pass.
  destruct (apply_to (visit_item_pruning legit fuel) [] (ctree v)
              (set_fPruned false v)) as [v1 b] eqn:E.
  cbn [fst]. intro F. destruct b.
  - rewrite (apply_to_pruning_stopped _ _ _ _ _ _ E) in F. discriminate.
  - destruct (apply_to_pruning_quiet _ _ _ _ _ _ E) as [-> S']. now split.
Qed.

Lemma prune_loop_settled (legit : list nat) (fuel : nat) : forall n v v' k,
  prune_loop legit fuel n v = Some (v', k) ->
  settled legit (ctree v') = true /\ fPruned v' = false /\ fuel_spent v' = false.
Proof.
  induction n as [|n IH]; intros v v' k E; simpl in E; [discriminate|].
  destruct (fuel_spent (prune_pass legit fuel v)) eqn:Fs; [discriminate|].
  destruct (fPruned (prune_pass legit fuel v)) eqn:Fp.
  - destruct (prune_loop legit fuel n (prune_pass legit fuel v))
      as [[v2 k2]|] eqn:E2; [|discriminate].
    inversion E; subst. exact (IH _ _ _ E2).
  - inversion E; subst. destruct (prune_pass_quiet _ _ _ Fp) as [Ev Sv].
    split; [|split; assumption]. rewrite Ev. exact Sv.
Qed.

Lemma prune_loop_on_settled (legit : list nat) (fuel n : nat)
    (v : PRUNE_ITEMS_VISITOR) :
  settled legit (ctree v) = true -> fuel_spent v = false ->
  prune_loop legit fuel (S n) v = Some (set_fPruned false v, 1%nat).
Proof.
  intros Sv Fs. simpl. unfold prune_pass.
  rewrite (apply_to_pruning_settled legit fuel (ctree v) [] (set_fPruned false v) Sv).
  cbn [fst]. simpl. now rewrite Fs.
Qed.

(** X2.  When [Detox] returns, the body it leaves is settled for the
    [vectorLegitItems] of its marking loop: wherever a walk in Pruning
    mode descends, no block has a [cit_empty] or [cot_empty] statement
    left among its statements, and every other item is one of the seven
    kinds that are never cleaned, is in [vectorLegitItems], or is an
    expression. *)
Theorem Detox_result_is_settled (hexdsp : hexdsp_t) (malloc_ok : bool)
    (fuel : nat) (f f' : cfunc_t) :
  Detox hexdsp malloc_ok fuel f = Returns f' ->
  exists fliv k,
    find_legit_loop hexdsp malloc_ok f fuel fliv_init = Some (fliv, k) /\
    settled (vectorLegitItems fliv) (body f') = true.
Proof.
  unfold Detox.
  destruct (find_legit_loop hexdsp malloc_ok f fuel fliv_init)
    as [[fliv k]|] eqn:E1; [|discriminate].
  destruct (prune_loop (vectorLegitItems fliv) fuel fuel (piv_init (body f)))
    as [[piv k2]|] eqn:E2; [|discriminate].
  destruct (prune_loop_settled _ _ _ _ _ _ E2) as (S' & _ & _).
  intro E. exists fliv, k. split; [reflexivity|].
  destruct (lvars f); [inversion E; subst; exact S'|].
  destruct (afVariableIsLegit fliv); [|discriminate].
  inversion E; subst; exact S'.
Qed.

Lemma Detox_result_is_settled_witness :
  exists f' fliv k,
    Detox sample_hexdsp true 8 goto_function = Returns f' /\
    find_legit_loop sample_hexdsp true goto_function 8 fliv_init = Some (fliv, k) /\
    settled (vectorLegitItems fliv) (body f') = true.
Proof.
  assert (E : { f' | Detox sample_hexdsp true 8 goto_function = Returns f' })
    by (eexists; vm_compute; reflexivity).
  destruct E as [f' E]. exists f'.
  destruct (Detox_result_is_settled sample_hexdsp true 8 goto_function f' E)
    as (fliv & k & E1 & S').
  exists fliv, k. split; [exact E|]. split; assumption.
Defined.

(** X3.  On a settled body the pruning loop does nothing: it returns
    after one round, with the tree and every member of the visitor as
    they were and [fPruned] clear. *)
Theorem prune_loop_leaves_a_settled_tree (legit : list nat) (fuel n : nat)
    (v : PRUNE_ITEMS_VISITOR) :
  settled legit (ctree v) = true -> fuel_spent v = false ->
  prune_loop legit fuel (S n) v = Some (set_fPruned false v, 1%nat).
Proof. apply prune_loop_on_settled. Qed.

Lemma prune_loop_leaves_a_settled_tree_witness :
  prune_loop [6%nat; 1%nat] 0 1 (piv_init (body asm_function))
  = Some (piv_init (body asm_function), 1%nat).
Proof.
  apply (prune_loop_leaves_a_settled_tree [6%nat; 1%nat] 0 0
           (piv_init (body asm_function))); reflexivity.
Defined.

(** X4.  For one and the same [pVectorLegitItems] the pruning loop is
    idempotent: a second [PRUNE_ITEMS_VISITOR], started on the tree the
    first one left, ends after a single round without changing
    anything, whatever bound the label loop has. *)
Theorem prune_loop_twice (legit : list nat) (fuel fuel' n m : nat)
    (v v' : PRUNE_ITEMS_VISITOR) (k : nat) :
  prune_loop legit fuel n v = Some (v', k) ->
  prune_loop legit fuel' (S m) (piv_init (ctree v'))
  = Some (piv_init (ctree v'), 1%nat).
Proof.
  intro E. destruct (prune_loop_settled _ _ _ _ _ _ E) as (S' & _ & _).
  exact (prune_loop_on_settled legit fuel' m (piv_init (ctree v')) S' eq_refl).
Qed.

Lemma prune_loop_twice_witness :
  exists v' k,
    prune_loop [] 8 8 (piv_init (body goto_function)) = Some (v', k) /\
    prune_loop [] 0 1 (piv_init (ctree v')) = Some (piv_init (ctree v'), 1%nat).
Proof.
  assert (E : { r | prune_loop [] 8 8 (piv_init (body goto_function)) = Some r })
    by (eexists; vm_compute; reflexivity).
  destruct E as [[v' k] E]. exists v', k. split; [exact E|].
  exact (prune_loop_twice [] 8 0 8 0 (piv_init (body goto_function)) v' k E).
Defined.

(* ------------------------------------------------------------------ *)
(** ** Invariants of the pruning loop *)
(* ------------------------------------------------------------------ *)

Lemma update_none (f : citem_t -> citem_t) (p : path) : forall t,
  get t p = None -> update t p f = t.
Proof.
  induction p as [|i p IH]; intros t H; simpl in H; [discriminate|].
  destruct t as [h ks]. cbn [kids] in H.
  change (update (Citem h ks) (i :: p) f)
    with (Citem h (update_nth i (fun k => update k p f) ks)).
  f_equal. revert i H.
  induction ks as [|k ks IHks]; intros [|i] H; simpl in *; try reflexivity.
  - now rewrite IH.
  - now rewrite IHks.
Qed.

(** The addresses of a tree around the subtree standing at [p]. *)
Lemma ptrs_update (p : path) : forall t x,
  get t p = Some x ->
  exists pre post,
    ptrs t = pre ++ ptrs x ++ post /\
    forall f, ptrs (update t p f) = pre ++ ptrs (f x) ++ post.
Proof.
  induction p as [|i p IH]; intros t x H; simpl in H.
  - inversion H; subst. exists [], []. split; [|intro f];
      simpl; now rewrite app_nil_r.
  - destruct (nth_error (kids t) i) as [k|] eqn:Hk; [|discriminate].
    destruct t as [h ks]. cbn [kids] in Hk.
    destruct (IH k x H) as (pre & post & E1 & E2).
    assert (G : exists a b, flat_map ptrs ks = a ++ ptrs k ++ b /\
                forall g, flat_map ptrs (update_nth i g ks)
                          = a ++ ptrs (g k) ++ b).
    { clear - Hk. revert i Hk.
      induction ks as [|y ks IHks]; intros [|i] Hk; simpl in Hk; try discriminate.
      - inversion Hk; subst. exists [], (flat_map ptrs ks).
        split; [|intro g]; reflexivity.
      - destruct (IHks i Hk) as (a & b & Ea & Eb).
        exists (ptrs y ++ a), b. split; [|intro g]; simpl.
        + now rewrite Ea, <- app_assoc.
        + now rewrite Eb, <- app_assoc. }
    destruct G as (a & b & Ea & Eb).
    exists (self h :: a ++ pre), (post ++ b). split; [|intro f].
    + rewrite ptrs_eq, Ea, E1. simpl. now rewrite <- !app_assoc.
    + change (update (Citem h ks) (i :: p) f)
        with (Citem h (update_nth i (fun k => update k p f) ks)).
      rewrite ptrs_eq, Eb, E2. simpl. now rewrite <- !app_assoc.
Qed.

Lemma ptrs_update_incl (f : citem_t -> citem_t) (p : path) (t : citem_t) :
  (forall y, incl (ptrs (f y)) (ptrs y)) ->
  incl (ptrs (update t p f)) (ptrs t).
Proof.
  intro Hf. destruct (get t p) as [x|] eqn:H.
  - destruct (ptrs_update p t x H) as (pre & post & E1 & E2).
    rewrite E1, E2. intros a Ha.
    apply in_app_or in Ha. destruct Ha as [Ha|Ha]; [apply in_or_app; now left|].
    apply in_app_or in Ha. apply in_or_app. right. apply in_or_app.
    destruct Ha as [Ha|Ha]; [left; now apply Hf | now right].
  - rewrite (update_none f p t H). apply incl_refl.
Qed.

Lemma NoDup_app_parts (l1 l2 : list nat) :
  NoDup l1 -> NoDup l2 -> (forall a, In a l1 -> In a l2 -> False) ->
  NoDup (l1 ++ l2).
Proof.
  intros N1 N2 D. induction N1 as [|x l1 Hx N1 IH]; simpl; [exact N2|].
  constructor.
  - intro Hin. apply in_app_or in Hin. destruct Hin as [Hin|Hin]; [now apply Hx|].
    apply (D x); [now left | exact Hin].
  - apply IH. intros a Ha. apply D. now right.
Qed.

Lemma NoDup_middle_shrinks (pre mid mid' post : list nat) :
  NoDup (pre ++ mid ++ post) -> NoDup mid' -> incl mid' mid ->
  NoDup (pre ++ mid' ++ post).
Proof.
  intros N Nm Hi.
  pose proof (NoDup_app_remove_l _ _ N) as N2.
  apply NoDup_app_parts.
  - now apply NoDup_app_remove_r in N.
  - apply NoDup_app_parts; [exact Nm | now apply NoDup_app_remove_l in N2 |].
    intros a Ha Hb. apply (NoDup_app_disjoint _ _ a N2); [now apply Hi | exact Hb].
  - intros a Ha Hb. apply (NoDup_app_disjoint _ _ a N); [exact Ha|].
    apply in_app_or in Hb. apply in_or_app.
    destruct Hb as [Hb|Hb]; [left; now apply Hi | now right].
Qed.

Lemma ptrs_update_NoDup (f : citem_t -> citem_t) (p : path) (t : citem_t) :
  (forall y, incl (ptrs (f y)) (ptrs y)) ->
  (forall y, NoDup (ptrs y) -> NoDup (ptrs (f y))) ->
  NoDup (ptrs t) -> NoDup (ptrs (update t p f)).
Proof.
  intros Hi Hn N. destruct (get t p) as [x|] eqn:H.
  - destruct (ptrs_update p t x H) as (pre & post & E1 & E2).
    rewrite E2. rewrite E1 in N.
    apply (NoDup_middle_shrinks pre (ptrs x)); [exact N | | apply Hi].
    apply Hn. apply NoDup_app_remove_l in N. now apply NoDup_app_remove_r in N.
  - now rewrite (update_none f p t H).
Qed.

Lemma size_update_le (f : citem_t -> citem_t) (p : path) (t : citem_t) :
  (forall y, (size (f y) <= size y)%nat) ->
  (size (update t p f) <= size t)%nat.
Proof.
  intro Hf. destruct (get t p) as [x|] eqn:H.
  - pose proof (size_update f p t x H). specialize (Hf x). lia.
  - now rewrite (update_none f p t H).
Qed.

(** What each primitive does to the addresses of the subtree it is
    applied to. *)
Lemma ptrs_relabel (n : Z) (t : citem_t) : ptrs (relabel n t) = ptrs t.
Proof. destruct t. reflexivity. Qed.

Lemma ptrs_cleanup (t : citem_t) : ptrs (cleanup t) = [item_ptr t].
Proof. destruct t. reflexivity. Qed.

Lemma flat_map_erase_nth_incl (l : list citem_t) : forall i,
  incl (flat_map ptrs (erase_nth i l)) (flat_map ptrs l).
Proof.
  induction l as [|k l IH]; intros [|i]; simpl; try apply incl_refl.
  - apply incl_appr, incl_refl.
  - apply incl_app; [apply incl_appl, incl_refl | apply incl_appr, IH].
Qed.

Lemma flat_map_erase_nth_NoDup (l : list citem_t) : forall i,
  NoDup (flat_map ptrs l) -> NoDup (flat_map ptrs (erase_nth i l)).
Proof.
  induction l as [|k l IH]; intros [|i] N; simpl in *; try assumption.
  - now apply NoDup_app_remove_l in N.
  - apply NoDup_app_parts.
    + now apply NoDup_app_remove_r in N.
    + apply IH. now apply NoDup_app_remove_l in N.
    + intros a Ha Hb. apply (NoDup_app_disjoint _ _ a N Ha).
      now apply (flat_map_erase_nth_incl l i).
Qed.

Lemma ptrs_erase_child_incl (i : nat) (t : citem_t) :
  incl (ptrs (erase_child i t)) (ptrs t).
Proof.
  destruct t as [h ks]. unfold erase_child. cbn [hdr kids]. rewrite !ptrs_eq.
  intros a [Ha|Ha]; [now left | right]. now apply (flat_map_erase_nth_incl ks i).
Qed.

Lemma ptrs_erase_child_NoDup (i : nat) (t : citem_t) :
  NoDup (ptrs t) -> NoDup (ptrs (erase_child i t)).
Proof.
  destruct t as [h ks]. unfold erase_child. cbn [hdr kids]. rewrite !ptrs_eq.
  intro N. inversion N as [|? ? Hx N']; subst. constructor.
  - intro Hin. apply Hx. now apply (flat_map_erase_nth_incl ks i).
  - now apply flat_map_erase_nth_NoDup.
Qed.

Lemma change_gotos_eq (nOld nNew : Z) (h : citem_hdr) (ks : list citem_t) :
  change_gotos nOld nNew (Citem h ks) =
  if negb (ctype_eqb (op h) cit_goto && (goto_label h =? nOld)) then
    Citem h (map (change_gotos nOld nNew) ks)
  else if negb (nNew =? -1) then
    Citem (set_goto_label nNew h) (map (change_gotos nOld nNew) ks)
  else goto_to_return (Citem h ks).
Proof. reflexivity. Qed.

Lemma item_ptr_change_gotos (nOld nNew : Z) (t : citem_t) :
  item_ptr (change_gotos nOld nNew t) = item_ptr t.
Proof.
  destruct t as [h ks]. rewrite change_gotos_eq.
  destruct (negb _); [reflexivity|]. destruct (negb _); reflexivity.
Qed.

Lemma ptrs_change_gotos_incl (nOld nNew : Z) (t : citem_t) :
  incl (ptrs (change_gotos nOld nNew t)) (ptrs t).
Proof.
  induction t as [h ks IH] using citem_t_ind.
  assert (G : incl (flat_map ptrs (map (change_gotos nOld nNew) ks))
                   (flat_map ptrs ks)).
  { induction IH as [|k ks Hk _ IHks]; simpl; [apply incl_refl|].
    apply incl_app; [apply incl_appl, Hk | apply incl_appr, IHks]. }
  rewrite change_gotos_eq.
  destruct (negb (ctype_eqb (op h) cit_goto && (goto_label h =? nOld))).
  - rewrite !ptrs_eq. intros a [Ha|Ha]; [now left | right; now apply G].
  - destruct (negb (nNew =? -1)).
    + rewrite !ptrs_eq. intros a [Ha|Ha]; [now left | right; now apply G].
    + intros a [Ha|[]]. now left.
Qed.

Lemma ptrs_change_gotos_NoDup (nOld nNew : Z) (t : citem_t) :
  NoDup (ptrs t) -> NoDup (ptrs (change_gotos nOld nNew t)).
Proof.
  induction t as [h ks IH] using citem_t_ind. intro N.
  rewrite ptrs_eq in N. inversion N as [|? ? Hx N']; subst.
  assert (Gi : incl (flat_map ptrs (map (change_gotos nOld nNew) ks))
                    (flat_map ptrs ks)).
  { clear. induction ks as [|k ks IHks]; simpl; [apply incl_refl|].
    apply incl_app; [apply incl_appl, ptrs_change_gotos_incl
                    | apply incl_appr, IHks]. }
  assert (G : NoDup (flat_map ptrs (map (change_gotos nOld nNew) ks))).
  { clear Hx N Gi. induction IH as [|k ks Hk _ IHks]; simpl; [constructor|].
    simpl in N'. apply NoDup_app_parts.
    - apply Hk. now apply NoDup_app_remove_r in N'.
    - apply IHks. now apply NoDup_app_remove_l in N'.
    - intros a Ha Hb. apply (NoDup_app_disjoint _ _ a N').
      + now apply (ptrs_change_gotos_incl nOld nNew k).
      + clear - Hb. induction ks as [|y ks IHks]; simpl in *; [contradiction|].
        apply in_app_or in Hb. apply in_or_app.
        destruct Hb as [Hb|Hb];
          [left; now apply (ptrs_change_gotos_incl nOld nNew y) | right; auto]. }
  rewrite change_gotos_eq.
  destruct (negb (ctype_eqb (op h) cit_goto && (goto_label h =? nOld))).
  - rewrite ptrs_eq. constructor; [|exact G]. intro Hin. apply Hx. now apply Gi.
  - destruct (negb (nNew =? -1)).
    + rewrite ptrs_eq. constructor; [|exact G]. intro Hin. apply Hx. now apply Gi.
    + constructor; [intros []|constructor].
Qed.

Lemma size_change_gotos_le (nOld nNew : Z) (t : citem_t) :
  (size (change_gotos nOld nNew t) <= size t)%nat.
Proof.
  rewrite <- !length_ptrs.
  induction t as [h ks IH] using citem_t_ind.
  assert (G : (List.length (flat_map ptrs (map (change_gotos nOld nNew) ks))
               <= List.length (flat_map ptrs ks))%nat).
  { induction IH as [|k ks Hk _ IHks]; simpl; [lia|].
    rewrite !length_app. lia. }
  rewrite change_gotos_eq.
  destruct (negb (ctype_eqb (op h) cit_goto && (goto_label h =? nOld))).
  - rewrite !ptrs_eq. simpl. lia.
  - destruct (negb (nNew =? -1)).
    + rewrite !ptrs_eq. simpl. lia.
    + rewrite ptrs_eq. simpl. lia.
Qed.

(** The item standing at a position after an update by a function that
    keeps items in place: it has the address it had, and its kind
    unless it was a goto. *)
Lemma get_update_place (f : citem_t -> citem_t) :
  (forall y q x', get (f y) q = Some x' ->
                  exists x, get y q = Some x /\ same_place (hdr x') (hdr x)) ->
  forall p t q x',
    get (update t p f) q = Some x' ->
    exists x, get t q = Some x /\ same_place (hdr x') (hdr x).
Proof.
  intro Hf. induction p as [|i p IH]; intros t q x' H.
  - simpl in H. now apply Hf.
  - destruct t as [h ks].
    change (update (Citem h ks) (i :: p) f)
      with (Citem h (update_nth i (fun k => update k p f) ks)) in H.
    destruct q as [|j q]; simpl in H.
    + inversion H; subst. eexists. split; [reflexivity|]. split; auto.
    + rewrite nth_error_update_nth in H. simpl.
      destruct (Nat.eqb i j).
      * destruct (nth_error ks j) as [k|]; [|discriminate]. simpl in H.
        now apply IH.
      * destruct (nth_error ks j) as [k|]; [|discriminate].
        exists x'. split; [exact H|]. split; auto.
Qed.

Lemma get_relabel_place (n : Z) (y : citem_t) (q : path) (x' : citem_t) :
  get (relabel n y) q = Some x' ->
  exists x, get y q = Some x /\ same_place (hdr x') (hdr x).
Proof.
  destruct y as [h ks]. destruct q as [|j q]; simpl; intro H.
  - inversion H; subst. eexists. split; [reflexivity|]. split; auto.
  - exists x'. split; [exact H|]. split; auto.
Qed.

Lemma same_place_change_gotos (nOld nNew : Z) (t : citem_t) :
  same_place (hdr (change_gotos nOld nNew t)) (hdr t).
Proof.
  destruct t as [h ks]. rewrite change_gotos_eq.
  destruct (ctype_eqb (op h) cit_goto) eqn:G; simpl.
  - apply ctype_eqb_eq in G.
    destruct (negb (goto_label h =? nOld)); [split; auto|].
    destruct (negb (nNew =? -1)); split; auto.
  - split; auto.
Qed.

Lemma get_change_gotos_place (nOld nNew : Z) (y : citem_t) : forall q x',
  get (change_gotos nOld nNew y) q = Some x' ->
  exists x, get y q = Some x /\ same_place (hdr x') (hdr x).
Proof.
  induction y as [h ks IH] using citem_t_ind. intros [|j q] x' H.
  - cbn [get] in H. injection H as <-. eexists. split; [reflexivity|].
    exact (same_place_change_gotos nOld nNew (Citem h ks)).
  - rewrite change_gotos_eq in H.
    assert (G : forall h', get (Citem h' (map (change_gotos nOld nNew) ks)) (j :: q)
                           = Some x' ->
                exists x, get (Citem h ks) (j :: q) = Some x
                          /\ same_place (hdr x') (hdr x)).
    { intros h' G. simpl in G. simpl. rewrite nth_error_map in G.
      destruct (nth_error ks j) as [k|] eqn:Hk; [|discriminate]. simpl in G.
      rewrite Forall_forall in IH. apply (IH k); [|exact G].
      eapply nth_error_In; eauto. }
    destruct (negb (ctype_eqb (op h) cit_goto && (goto_label h =? nOld)));
      [now apply (G h)|].
    destruct (negb (nNew =? -1)); [now apply (G (set_goto_label nNew h))|].
    simpl in H. destruct j; discriminate.
Qed.

Lemma labels_eq (h : citem_hdr) (ks : list citem_t) :
  labels (Citem h ks) = (op h, label_num h) :: flat_map labels ks.
Proof. reflexivity. Qed.

Lemma known_label_item (root : citem_t) (w : where_t) (t : citem_t) :
  item_at root w = Some t -> known_label root (label_num (hdr t)).
Proof.
  unfold item_at. generalize (rev w) as p. intros p H. right.
  revert root H. induction p as [|i p IH]; intros root H; simpl in H.
  - inversion H; subst. destruct t as [h ks]. now left.
  - destruct (nth_error (kids root) i) as [k|] eqn:Hk; [|discriminate].
    destruct root as [h ks]. cbn [kids] in Hk. rewrite labels_eq. simpl. right.
    rewrite flat_map_concat_map, concat_map, map_map.
    rewrite <- flat_map_concat_map. apply in_flat_map. exists k.
    split; [eapply nth_error_In; eauto | now apply IH].
Qed.

Lemma labels_update (f : citem_t -> citem_t) :
  (forall y, labels (f y) = labels y) ->
  forall p t, labels (update t p f) = labels t.
Proof.
  intro Hf. induction p as [|i p IH]; intro t; [apply Hf|].
  destruct t as [h ks].
  change (update (Citem h ks) (i :: p) f)
    with (Citem h (update_nth i (fun k => update k p f) ks)).
  rewrite !labels_eq. f_equal. revert i.
  induction ks as [|k ks IHks]; intros [|i]; simpl; try reflexivity.
  - now rewrite IH.
  - now rewrite IHks.
Qed.

Lemma known_label_change_gotos (t : citem_t) (w : where_t) (a b : Z) :
  known_label t b -> known_label (update_at t w (change_gotos a b)) b.
Proof.
  intros [->|H]; [now left|].
  destruct (Z.eq_dec b (-1)) as [->|Hb]; [now left | right].
  unfold update_at. rewrite labels_update; [exact H|].
  intro y. now apply labels_change_gotos.
Qed.

Section RelocationInvariant.
Variable P : citem_t -> Prop.
Hypothesis P_relabel : forall t w n,
  P t -> known_label t n -> P (update_at t w (relabel n)).
Hypothesis P_gotos : forall t w a b,
  P t -> known_label t b -> P (update_at t w (change_gotos a b)).

(** [P] holds of the tree, and in ChangingGotos mode the new label
    number is one of the tree. *)
Let relocating (v : PRUNE_ITEMS_VISITOR) : Prop :=
  P (ctree v) /\
  (visitingMode v = ChangingGotos ->
   known_label (ctree v) (nNewLabelNumber v)).

Lemma visit_item_cleaning_keeps (w : where_t) (t : citem_t)
    (v : PRUNE_ITEMS_VISITOR) :
  visitingMode v = CleaningUpGotoLabels ->
  item_at (ctree v) w = Some t -> P (ctree v) ->
  relocating (fst (visit_item_cleaning w t v)).
Proof.
  intros M Hat H. unfold visit_item_cleaning, relocating.
  destruct (label_num (hdr t) =? -1) eqn:El.
  - cbn [fst]. split; [exact H|]. rewrite M. discriminate.
  - destruct (find_new_destination (ctree v) w (ea (hdr t))) as [[wd d]|] eqn:Fd.
    + destruct (find_new_destination_at _ _ _ _ _ Fd) as [Hd _].
      pose proof (known_label_item _ _ _ Hd) as Kd.
      destruct (negb (label_num (hdr d) =? -1));
        cbn [fst ctree visitingMode nNewLabelNumber].
      * split; [now apply (P_gotos _ [])|]. intros _.
        now apply (known_label_change_gotos _ []).
      * split; [|discriminate].
        apply P_relabel; [|now left]. apply P_relabel; [exact H|].
        exact (known_label_item _ _ _ Hat).
    + cbn [fst ctree visitingMode nNewLabelNumber].
      split; [apply (P_gotos _ []); [exact H | now left]|]. intros _. now left.
Qed.

Lemma relabel_pass_keeps (w : where_t) (v : PRUNE_ITEMS_VISITOR) :
  relocating v -> relocating (relabel_pass w v).
Proof.
  intros [H K]. unfold relabel_pass.
  destruct (item_at (ctree v) w) as [t|] eqn:Hat; [|now split].
  destruct (visitingMode v) eqn:M.
  - split; [exact H | rewrite M; discriminate].
  - destruct (apply_to visit_item_cleaning w t v) as [v' b] eqn:E.
    assert (Hstep : forall w1 t1 v1 v1' r,
               item_at (ctree v) w1 = Some t1 -> v1 = v ->
               visit_item_cleaning w1 t1 v1 = (v1', r) ->
               match r with Stop => relocating v1' | _ => v1' = v end).
    { intros w1 t1 v1 v1' r Hat1 -> Ev.
      pose proof (visit_item_cleaning_keeps w1 t1 v M Hat1 H) as R.
      rewrite Ev in R. cbn [fst] in R.
      revert Ev. unfold visit_item_cleaning.
      destruct (label_num (hdr t1) =? -1);
        [intro Ev; inversion Ev; subst; reflexivity|].
      destruct (find_new_destination (ctree v) w1 (ea (hdr t1))) as [[wd d]|];
        [destruct (negb (label_num (hdr d) =? -1))|];
        intro Ev; inversion Ev; subst; exact R. }
    pose proof (apply_to_places _ (ctree v) (fun v0 => v0 = v) relocating Hstep
                  t w v v' b Hat eq_refl E) as R.
    cbn [fst]. destruct b; [exact R|]. subst v'. split; [exact H|].
    rewrite M. discriminate.
  - cbn [set_ctree ctree visitingMode nNewLabelNumber]. specialize (K eq_refl).
    split; [now apply P_gotos | intros _; now apply known_label_change_gotos].
  - split; [exact H | rewrite M; discriminate].
Qed.

Lemma cleanup_goto_labels_keeps (fuel : nat) (w : where_t) :
  forall v, relocating v -> P (ctree (cleanup_goto_labels fuel w v)).
Proof.
  induction fuel as [|fuel IH]; intros v R; simpl.
  - destruct (fGotoCleaned v); apply R.
  - destruct (fGotoCleaned v); [|apply R].
    apply IH, relabel_pass_keeps. exact R.
Qed.

Lemma cleanup_goto_labels_from_pruning (fuel : nat) (w : where_t)
    (v : PRUNE_ITEMS_VISITOR) :
  P (ctree v) ->
  P (ctree (cleanup_goto_labels fuel w
              (set_fGotoCleaned true (set_visitingMode CleaningUpGotoLabels v)))).
Proof.
  intro H. apply cleanup_goto_labels_keeps. split; [exact H | discriminate].
Qed.
End RelocationInvariant.

Section PruneInvariant.
Variable legit : list nat.
Variable fuel : nat.
Variable Inv : citem_t -> Prop.
Hypothesis Inv_erase : forall t w x i,
  Inv t -> item_at t w = Some x -> item_op x = cit_block ->
  first_empty (kids x) = Some i -> Inv (update_at t w (erase_child i)).
Hypothesis Inv_relabel : forall t w n,
  Inv t -> known_label t n -> Inv (update_at t w (relabel n)).
Hypothesis Inv_gotos : forall t w a b,
  Inv t -> known_label t b -> Inv (update_at t w (change_gotos a b)).
Hypothesis Inv_cleanup : forall t w,
  Inv t ->
  (forall x, item_at t w = Some x ->
             has legit x = false /\ cleanable (item_op x) = true) ->
  Inv (update_at t w cleanup).

Lemma visit_item_pruning_keeps (w : where_t) (t : citem_t)
    (v : PRUNE_ITEMS_VISITOR) :
  Inv (ctree v) -> item_at (ctree v) w = Some t ->
  Inv (ctree (fst (visit_item_pruning legit fuel w t v))).
Proof.
  intros H Hat. unfold visit_item_pruning.
  destruct (ctype_eqb (item_op t) cit_block) eqn:B.
  - destruct (first_empty (kids t)) as [i|] eqn:Fe; [|exact H].
    cbn [fst set_fPruned set_ctree ctree].
    apply (Inv_erase _ _ t); auto. now apply ctype_eqb_eq.
  - destruct (never_cleaned (item_op t)) eqn:N; [exact H|].
    destruct (has legit t) eqn:L; [exact H|].
    destruct (op_is_expr (item_op t)) eqn:X; [exact H|].
    cbn [fst set_fPruned set_ctree ctree set_visitingMode].
    assert (Ng : item_op t <> cit_goto).
    { intro Eg. rewrite Eg in N. discriminate N. }
    set (Pw := fun t' => Inv t' /\
                 forall x, item_at t' w = Some x ->
                           item_ptr x = item_ptr t /\ item_op x = item_op t).
    assert (Tr : forall t0 t1 : citem_t,
               (forall x', item_at t1 w = Some x' ->
                           exists x, item_at t0 w = Some x
                                     /\ same_place (hdr x') (hdr x)) ->
               (forall x, item_at t0 w = Some x ->
                          item_ptr x = item_ptr t /\ item_op x = item_op t) ->
               forall x, item_at t1 w = Some x ->
                         item_ptr x = item_ptr t /\ item_op x = item_op t).
    { intros t0 t1 H01 H0 x Hx.
      destruct (H01 x Hx) as (x0 & Hx0 & Es & Eo).
      destruct (H0 x0 Hx0) as [Ep Eo0]. unfold item_ptr, item_op in *.
      split; [congruence|]. destruct Eo as [Eo|Eo]; congruence. }
    assert (Hk : Pw (ctree (cleanup_goto_labels fuel w
                   (set_fGotoCleaned true
                      (set_visitingMode CleaningUpGotoLabels v))))).
    { apply (cleanup_goto_labels_from_pruning Pw).
      - intros t0 w0 n [H0 H1] Kn. split; [now apply Inv_relabel|].
        apply (Tr t0); [|exact H1]. intros x' Hx'.
        unfold item_at, update_at in *.
        exact (get_update_place (relabel n) (get_relabel_place n) _ _ _ _ Hx').
      - intros t0 w0 a b [H0 H1] Kb. split; [now apply Inv_gotos|].
        apply (Tr t0); [|exact H1]. intros x' Hx'.
        unfold item_at, update_at in *.
        exact (get_update_place (change_gotos a b)
                 (get_change_gotos_place a b) _ _ _ _ Hx').
      - split; [exact H|].
        intros x Hx. rewrite Hat in Hx. now inversion Hx. }
    destruct Hk as [H0 H1]. apply Inv_cleanup; [exact H0|].
    intros x Hx. destruct (H1 x Hx) as [Ep Eo]. split.
    + unfold has in *. now rewrite Ep.
    + rewrite Eo. unfold cleanable. now rewrite B, N, X.
Qed.

Lemma prune_pass_keeps (v : PRUNE_ITEMS_VISITOR) :
  Inv (ctree v) -> Inv (ctree (prune_pass legit fuel v)).
Proof.
  intro H. unfold prune_pass.
  destruct (apply_to (visit_item_pruning legit fuel) [] (ctree v)
              (set_fPruned false v)) as [v' b] eqn:E.
  set (Pv := fun v0 : PRUNE_ITEMS_VISITOR => ctree v0 = ctree v).
  set (Qv := fun v0 : PRUNE_ITEMS_VISITOR => Inv (ctree v0)).
  assert (Hstep : forall w t v1 v1' r,
             item_at (ctree v) w = Some t -> Pv v1 ->
             visit_item_pruning legit fuel w t v1 = (v1', r) ->
             match r with Stop => Qv v1' | _ => Pv v1' end).
  { intros w t v1 v1' r Hat Hp Ev. unfold Pv, Qv in *.
    destruct r.
    - now rewrite (visit_item_pruning_quiet _ _ _ _ _ _ _ Ev).
    - now rewrite (visit_item_pruning_quiet _ _ _ _ _ _ _ Ev).
    - replace v1' with (fst (visit_item_pruning legit fuel w t v1))
        by (now rewrite Ev).
      apply visit_item_pruning_keeps; rewrite Hp; assumption. }
  pose proof (apply_to_places _ (ctree v) Pv Qv Hstep (ctree v) []
                (set_fPruned false v) v' b eq_refl eq_refl E) as R.
  cbn [fst]. destruct b; [exact R|]. unfold Pv in R. now rewrite R.
Qed.

Lemma prune_loop_keeps : forall n v v' k,
  Inv (ctree v) -> prune_loop legit fuel n v = Some (v', k) -> Inv (ctree v').
Proof.
  induction n as [|n IH]; intros v v' k H E; simpl in E; [discriminate|].
  pose proof (prune_pass_keeps v H) as H1.
  destruct (fuel_spent (prune_pass legit fuel v)); [discriminate|].
  destruct (fPruned (prune_pass legit fuel v)).
  - destruct (prune_loop legit fuel n (prune_pass legit fuel v))
      as [[v2 k2]|] eqn:E2; [|discriminate].
    inversion E; subst. exact (IH _ _ _ H1 E2).
  - inversion E; subst. exact H1.
Qed.
End PruneInvariant.

Lemma Detox_body (hexdsp : hexdsp_t) (malloc_ok : bool) (fuel : nat)
    (f f' : cfunc_t) :
  Detox hexdsp malloc_ok fuel f = Returns f' ->
  exists fliv k piv k',
    find_legit_loop hexdsp malloc_ok f fuel fliv_init = Some (fliv, k) /\
    prune_loop (vectorLegitItems fliv) fuel fuel (piv_init (body f))
    = Some (piv, k') /\
    body f' = ctree piv.
Proof.
  unfold Detox.
  destruct (find_legit_loop hexdsp malloc_ok f fuel fliv_init)
    as [[fliv k]|] eqn:E1; [|discriminate].
  destruct (prune_loop (vectorLegitItems fliv) fuel fuel (piv_init (body f)))
    as [[piv k2]|] eqn:E2; [|discriminate].
  intro E. exists fliv, k, piv, k2. split; [reflexivity|]. split; [exact E2|].
  destruct (lvars f); [now inversion E|].
  destruct (afVariableIsLegit fliv); [|discriminate]. now inversion E.
Qed.

Lemma size_erase_child_le (i : nat) (t : citem_t) :
  (size (erase_child i t) <= size t)%nat.
Proof.
  destruct t as [h ks]. unfold erase_child. cbn [hdr kids]. rewrite !size_eq.
  apply le_n_S. revert i.
  induction ks as [|k ks IH]; intros [|i]; simpl; try lia.
  specialize (IH i). unfold size_list in *. lia.
Qed.

Lemma size_cleanup_le (t : citem_t) : (size (cleanup t) <= size t)%nat.
Proof. destruct t as [h ks]. pose proof (size_pos (Citem h ks)). simpl. lia. Qed.

Lemma size_relabel (n : Z) (t : citem_t) : size (relabel n t) = size t.
Proof. destruct t. reflexivity. Qed.

Lemma prune_loop_no_new_items (legit : list nat) (fuel n : nat)
    (v v' : PRUNE_ITEMS_VISITOR) (k : nat) :
  prune_loop legit fuel n v = Some (v', k) ->
  incl (ptrs (ctree v')) (ptrs (ctree v)) /\
  (NoDup (ptrs (ctree v)) -> NoDup (ptrs (ctree v'))) /\
  (size (ctree v') <= size (ctree v))%nat.
Proof.
  intro E.
  assert (G : forall f : citem_t -> citem_t,
             (forall y, incl (ptrs (f y)) (ptrs y)) ->
             (forall y, NoDup (ptrs y) -> NoDup (ptrs (f y))) ->
             (forall y, (size (f y) <= size y)%nat) ->
             forall t w,
               incl (ptrs t) (ptrs (ctree v)) /\
               (NoDup (ptrs (ctree v)) -> NoDup (ptrs t)) /\
               (size t <= size (ctree v))%nat ->
               incl (ptrs (update_at t w f)) (ptrs (ctree v)) /\
               (NoDup (ptrs (ctree v)) -> NoDup (ptrs (update_at t w f))) /\
               (size (update_at t w f) <= size (ctree v))%nat).
  { intros f F1 F2 F3 t w (H1 & H2 & H3). unfold update_at. split; [|split].
    - eapply incl_tran; [|exact H1]. now apply ptrs_update_incl.
    - intro N. apply ptrs_update_NoDup; auto.
    - etransitivity; [|exact H3]. now apply size_update_le. }
  apply (prune_loop_keeps legit fuel
           (fun t => incl (ptrs t) (ptrs (ctree v)) /\
                     (NoDup (ptrs (ctree v)) -> NoDup (ptrs t)) /\
                     (size t <= size (ctree v))%nat)) with (n := n) (v := v) (k := k);
    [| | | | |exact E].
  - intros t w x i H _ _ _. apply G; [| | |exact H].
    + apply ptrs_erase_child_incl.
    + apply ptrs_erase_child_NoDup.
    + apply size_erase_child_le.
  - intros t w m H _. apply G; [| | |exact H].
    + intro y. rewrite ptrs_relabel. apply incl_refl.
    + intro y. now rewrite ptrs_relabel.
    + intro y. now rewrite size_relabel.
  - intros t w a b H _. apply G; [| | |exact H].
    + apply ptrs_change_gotos_incl.
    + apply ptrs_change_gotos_NoDup.
    + apply size_change_gotos_le.
  - intros t w H _. apply G; [| | |exact H].
    + intro y. rewrite ptrs_cleanup. intros a [<-|[]]. apply item_ptr_in_ptrs.
    + intros y _. rewrite ptrs_cleanup. constructor; [intros []|constructor].
    + apply size_cleanup_le.
  - split; [apply incl_refl|]. split; [auto | lia].
Qed.

(** X5.  [Detox] creates no item and duplicates none: every address in
    the body it returns is an address of the body it was given, the
    body has at most as many items as before, and if the addresses
    were distinct they still are.  Nothing is moved under another
    address: the goto conversion leaves its [cit_empty] at the address
    of the goto. *)
Theorem Detox_creates_no_item (hexdsp : hexdsp_t) (malloc_ok : bool)
    (fuel : nat) (f f' : cfunc_t) :
  Detox hexdsp malloc_ok fuel f = Returns f' ->
  incl (ptrs (body f')) (ptrs (body f)) /\
  (size (body f') <= size (body f))%nat /\
  (NoDup (ptrs (body f)) -> NoDup (ptrs (body f'))).
Proof.
  intro E. destruct (Detox_body _ _ _ _ _ E) as (fliv & k & piv & k' & _ & E2 & ->).
  destruct (prune_loop_no_new_items _ _ _ _ _ _ E2) as (H1 & H2 & H3).
  split; [exact H1|]. split; [exact H3 | exact H2].
Qed.

Lemma Detox_creates_no_item_witness :
  exists f',
    Detox sample_hexdsp true 8 goto_function = Returns f' /\
    incl (ptrs (body f')) (ptrs (body goto_function)) /\
    (size (body f') <= size (body goto_function))%nat.
Proof.
  assert (E : { f' | Detox sample_hexdsp true 8 goto_function = Returns f' })
    by (eexists; vm_compute; reflexivity).
  destruct E as [f' E]. exists f'. split; [exact E|].
  destruct (Detox_creates_no_item sample_hexdsp true 8 goto_function f' E)
    as (H1 & H2 & _).
  split; assumption.
Defined.

(* ------------------------------------------------------------------ *)
(** ** Legitimate items and the statements that are cleaned up *)
(* ------------------------------------------------------------------ *)

Lemma owns_legit_true_iff (legit : list nat) (t : citem_t) :
  owns_legit legit t = true <-> exists p, In p (ptrs t) /\ In p legit.
Proof.
  unfold owns_legit. rewrite existsb_exists. split.
  - intros (p & Hp & Hl). exists p. split; [exact Hp|].
    apply existsb_exists in Hl. destruct Hl as (q & Hq & E).
    apply Nat.eqb_eq in E. now subst.
  - intros (p & Hp & Hl). exists p. split; [exact Hp|].
    apply existsb_exists. exists p. split; [exact Hl | apply Nat.eqb_refl].
Qed.

Lemma owns_legit_incl (legit : list nat) (t t' : citem_t) :
  incl (ptrs t') (ptrs t) -> owns_legit legit t' = true ->
  owns_legit legit t = true.
Proof.
  intros Hi H. apply owns_legit_true_iff in H. destruct H as (p & Hp & Hl).
  apply owns_legit_true_iff. exists p. split; [now apply Hi | exact Hl].
Qed.

Lemma has_same_ptr (legit : list nat) (t t' : citem_t) :
  item_ptr t' = item_ptr t -> has legit t' = has legit t.
Proof. intro E. unfold has. now rewrite E. Qed.

Lemma up_closed_eq (legit : list nat) (h : citem_hdr) (ks : list citem_t) :
  up_closed legit (Citem h ks) =
  implb (owns_legit legit (Citem h ks)) (has legit (Citem h ks))
  && forallb (up_closed legit) ks.
Proof. reflexivity. Qed.

(** The root condition carries over to a tree with the same address and
    no more items. *)
Lemma up_closed_root (legit : list nat) (t t' : citem_t) :
  item_ptr t' = item_ptr t -> incl (ptrs t') (ptrs t) ->
  implb (owns_legit legit t) (has legit t) = true ->
  implb (owns_legit legit t') (has legit t') = true.
Proof.
  intros E Hi H. rewrite (has_same_ptr legit t t' E).
  destruct (owns_legit legit t') eqn:O'; [|reflexivity].
  now rewrite (owns_legit_incl legit t t' Hi O') in H.
Qed.

Lemma up_closed_update (legit : list nat) (f : citem_t -> citem_t) :
  (forall y, incl (ptrs (f y)) (ptrs y)) ->
  (forall y, up_closed legit y = true -> up_closed legit (f y) = true) ->
  forall p t, up_closed legit t = true -> up_closed legit (update t p f) = true.
Proof.
  intros Hi Hf. induction p as [|i p IH]; intros t H; [now apply Hf|].
  pose proof (ptrs_update_incl f (i :: p) t Hi) as Hin.
  destruct t as [h ks].
  change (update (Citem h ks) (i :: p) f)
    with (Citem h (update_nth i (fun k => update k p f) ks)) in *.
  rewrite up_closed_eq in *. apply andb_true_iff in H. destruct H as [H1 H2].
  apply andb_true_iff. split.
  - eapply up_closed_root; [| exact Hin | exact H1]. reflexivity.
  - clear - IH H2. revert i.
    induction ks as [|k ks IHks]; intros [|i]; simpl in *; try reflexivity;
      apply andb_true_iff in H2; destruct H2 as [Hk Hks];
      apply andb_true_iff; split; auto.
Qed.

Lemma up_closed_relabel (legit : list nat) (n : Z) (t : citem_t) :
  up_closed legit (relabel n t) = up_closed legit t.
Proof. destruct t. reflexivity. Qed.

Lemma up_closed_cleanup (legit : list nat) (t : citem_t) :
  up_closed legit (cleanup t) = true.
Proof.
  destruct t as [h ks]. unfold cleanup. rewrite up_closed_eq.
  unfold owns_legit, has, item_ptr. simpl. rewrite orb_false_r.
  now destruct (existsb (Nat.eqb (self h)) legit).
Qed.

Lemma up_closed_erase_child (legit : list nat) (i : nat) (t : citem_t) :
  up_closed legit t = true -> up_closed legit (erase_child i t) = true.
Proof.
  intro H. pose proof (ptrs_erase_child_incl i t) as Hin.
  destruct t as [h ks]. unfold erase_child in *. cbn [hdr kids] in *.
  rewrite up_closed_eq in *. apply andb_true_iff in H. destruct H as [H1 H2].
  apply andb_true_iff. split.
  - eapply up_closed_root; [| exact Hin | exact H1]. reflexivity.
  - now apply forallb_erase_nth.
Qed.

Lemma up_closed_change_gotos (legit : list nat) (nOld nNew : Z) (t : citem_t) :
  up_closed legit t = true -> up_closed legit (change_gotos nOld nNew t) = true.
Proof.
  induction t as [h ks IH] using citem_t_ind. intro H.
  pose proof (ptrs_change_gotos_incl nOld nNew (Citem h ks)) as Hin.
  pose proof (item_ptr_change_gotos nOld nNew (Citem h ks)) as Hp.
  rewrite up_closed_eq in H. apply andb_true_iff in H. destruct H as [H1 H2].
  assert (G : forallb (up_closed legit) (map (change_gotos nOld nNew) ks) = true).
  { clear - IH H2. induction IH as [|k ks Hk _ IHks]; simpl in *; [reflexivity|].
    apply andb_true_iff in H2. destruct H2 as [A B].
    apply andb_true_iff. split; auto. }
  rewrite change_gotos_eq in *.
  destruct (negb (ctype_eqb (op h) cit_goto && (goto_label h =? nOld))).
  - rewrite up_closed_eq. apply andb_true_iff. split; [|exact G].
    eapply up_closed_root; [exact Hp | exact Hin | exact H1].
  - destruct (negb (nNew =? -1)).
    + rewrite up_closed_eq. apply andb_true_iff. split; [|exact G].
      eapply up_closed_root; [exact Hp | exact Hin | exact H1].
    + apply up_closed_cleanup.
Qed.

Lemma up_closed_not_legit (legit : list nat) (root : citem_t) (w : where_t)
    (t : citem_t) :
  up_closed legit root = true -> item_at root w = Some t ->
  has legit t = false -> forall p, In p (ptrs t) -> ~ In p legit.
Proof.
  intros U Hat L p Hp Hl.
  pose proof (all_items_get _ _ _ _ U Hat) as Ut.
  destruct t as [h ks]. change (up_closed legit (Citem h ks) = true) in Ut.
  rewrite up_closed_eq in Ut.
  apply andb_true_iff in Ut. destruct Ut as [Ut _]. rewrite L in Ut.
  assert (O' : owns_legit legit (Citem h ks) = true)
    by (apply owns_legit_true_iff; now exists p).
  rewrite O' in Ut. discriminate.
Qed.

Lemma prune_loop_up_closed (legit : list nat) (fuel n : nat)
    (v v' : PRUNE_ITEMS_VISITOR) (k : nat) :
  up_closed legit (ctree v) = true ->
  prune_loop legit fuel n v = Some (v', k) ->
  up_closed legit (ctree v') = true.
Proof.
  intros U E.
  apply (prune_loop_keeps legit fuel (fun t => up_closed legit t = true))
    with (n := n) (v := v) (k := k); [| | | |exact U|exact E].
  - intros t w x i H _ _ _. apply up_closed_update; auto.
    + apply ptrs_erase_child_incl.
    + intro y. apply up_closed_erase_child.
  - intros t w m H _. apply up_closed_update; auto.
    + intro y. rewrite ptrs_relabel. apply incl_refl.
    + intro y. now rewrite up_closed_relabel.
  - intros t w a b H _. apply up_closed_update; auto.
    + apply ptrs_change_gotos_incl.
    + intro y. apply up_closed_change_gotos.
  - intros t w H _. apply up_closed_update; auto.
    + intro y. rewrite ptrs_cleanup. intros a [<-|[]]. apply item_ptr_in_ptrs.
    + intros y _. apply up_closed_cleanup.
Qed.

(** X6.  The pruning loop keeps [pVectorLegitItems] closed upwards in
    the tree it works on, and while it is, [cleanup()] takes no
    legitimate item away: a statement on which a visit in Pruning mode
    calls [cleanup()] owns, at any depth, no item of
    [pVectorLegitItems]. *)
Theorem cleanup_spares_legit_items (legit : list nat) (fuel n : nat)
    (v v' : PRUNE_ITEMS_VISITOR) (k : nat) :
  up_closed legit (ctree v) = true ->
  prune_loop legit fuel n v = Some (v', k) ->
  up_closed legit (ctree v') = true /\
  forall w t v1 v1',
    up_closed legit (ctree v1) = true ->
    item_at (ctree v1) w = Some t ->
    visit_item_pruning legit fuel w t v1 = (v1', Stop) ->
    item_op t <> cit_block ->
    forall p, In p (ptrs t) -> ~ In p legit.
Proof.
  intros U E. split; [exact (prune_loop_up_closed _ _ _ _ _ _ U E)|].
  intros w t v1 v1' U1 Hat Ev Hb.
  apply (up_closed_not_legit legit (ctree v1) w t U1 Hat).
  revert Ev. unfold visit_item_pruning.
  destruct (ctype_eqb (item_op t) cit_block) eqn:B;
    [apply ctype_eqb_eq in B; contradiction|].
  destruct (never_cleaned (item_op t)); [discriminate|].
  destruct (has legit t); [discriminate | reflexivity].
Qed.

Lemma cleanup_spares_legit_items_witness :
  exists v' k,
    prune_loop [1%nat; 2%nat; 4%nat; 5%nat] 8 8 (piv_init (body goto_function))
    = Some (v', k) /\
    up_closed [1%nat; 2%nat; 4%nat; 5%nat] (ctree v') = true.
Proof.
  assert (E : { r | prune_loop [1%nat; 2%nat; 4%nat; 5%nat] 8 8
                      (piv_init (body goto_function)) = Some r })
    by (eexists; vm_compute; reflexivity).
  destruct E as [[v' k] E]. exists v', k. split; [exact E|].
  apply (cleanup_spares_legit_items [1%nat; 2%nat; 4%nat; 5%nat] 8 8
           (piv_init (body goto_function)) v' k); [vm_compute; reflexivity | exact E].
Defined.

(* ------------------------------------------------------------------ *)
(** ** The marks are closed upwards *)
(* ------------------------------------------------------------------ *)

Lemma In_flat_map_kid (ks : list citem_t) (q : nat) :
  In q (flat_map ptrs ks) ->
  exists j k, nth_error ks j = Some k /\ In q (ptrs k).
Proof.
  intro H. apply in_flat_map in H. destruct H as (k & Hk & Hq).
  apply In_nth_error in Hk. destruct Hk as [j Hj]. now exists j, k.
Qed.

Lemma owns_legit_congr (L L' : list nat) (t : citem_t) :
  (forall q, In q (ptrs t) -> (In q L' <-> In q L)) ->
  owns_legit L' t = owns_legit L t.
Proof.
  intro H. destruct (owns_legit L t) eqn:E.
  - apply owns_legit_true_iff in E. destruct E as (p & Hp & Hl).
    apply owns_legit_true_iff. exists p. split; [exact Hp | now apply H].
  - destruct (owns_legit L' t) eqn:E'; [|reflexivity].
    apply owns_legit_true_iff in E'. destruct E' as (p & Hp & Hl).
    assert (O' : owns_legit L t = true)
      by (apply owns_legit_true_iff; exists p; split; [exact Hp | now apply H]).
    congruence.
Qed.

Lemma has_congr (L L' : list nat) (t : citem_t) :
  (In (item_ptr t) L' <-> In (item_ptr t) L) -> has L' t = has L t.
Proof.
  intro H. destruct (has L t) eqn:E.
  - apply has_true_iff. apply H. now apply has_true_iff.
  - apply has_false_iff. intro Hin. apply has_false_iff in E. apply E. now apply H.
Qed.

(** Whether a set is closed upwards in a tree depends only on which
    addresses of the tree it holds. *)
Lemma up_closed_congr (L L' : list nat) (t : citem_t) :
  (forall q, In q (ptrs t) -> (In q L' <-> In q L)) ->
  up_closed L' t = up_closed L t.
Proof.
  induction t as [h ks IH] using citem_t_ind. intro H.
  rewrite !up_closed_eq.
  rewrite (owns_legit_congr L L' (Citem h ks) H).
  rewrite (has_congr L L' (Citem h ks)) by (apply H, item_ptr_in_ptrs).
  f_equal.
  assert (Hk : forall k, In k ks ->
                 forall q, In q (ptrs k) -> (In q L' <-> In q L)).
  { intros k Hin q Hq. apply H. rewrite ptrs_eq. right.
    apply in_flat_map. now exists k. }
  clear - IH Hk. induction IH as [|k ks Hk' _ IHks]; simpl; [reflexivity|].
  rewrite Hk'.
  - f_equal. apply IHks. intros k' Hin. apply Hk. now right.
  - apply Hk. now left.
Qed.

Lemma up_closed_full (L : list nat) (t : citem_t) :
  incl (ptrs t) L -> up_closed L t = true.
Proof.
  induction t as [h ks IH] using citem_t_ind. intro H.
  rewrite up_closed_eq. apply andb_true_iff. split.
  - assert (E : has L (Citem h ks) = true)
      by (apply has_true_iff, H, item_ptr_in_ptrs).
    rewrite E. now destruct (owns_legit L (Citem h ks)).
  - rewrite ptrs_eq in H. apply forallb_forall. intros k Hin.
    rewrite Forall_forall in IH. apply IH; [exact Hin|].
    intros a Ha. apply H. right. apply in_flat_map. now exists k.
Qed.

Lemma up_closed_nil (t : citem_t) : up_closed [] t = true.
Proof.
  induction t as [h ks IH] using citem_t_ind.
  rewrite up_closed_eq. apply andb_true_iff. split.
  - assert (E : owns_legit [] (Citem h ks) = false).
    { destruct (owns_legit [] (Citem h ks)) eqn:E; [|reflexivity].
      apply owns_legit_true_iff in E. now destruct E as (p & _ & []). }
    now rewrite E.
  - apply forallb_forall. rewrite Forall_forall in IH. exact IH.
Qed.

Lemma forallb_In_dec (L : list nat) (l : list nat) :
  incl l L \/ exists q, In q l /\ ~ In q L.
Proof.
  induction l as [|a l IH].
  - left. intros x [].
  - destruct IH as [IH|(q & Hq & Hn)].
    + destruct (in_dec Nat.eq_dec a L) as [Ha|Ha].
      * left. intros x [<-|Hx]; auto.
      * right. exists a. split; [now left | exact Ha].
    + right. exists q. split; [now right | exact Hn].
Qed.

(** Adding to a set that is closed upwards the items on the way from
    the root to a position, and whole subtrees of some of them, gives a
    set that is closed upwards. *)
Lemma up_closed_chain (L L' : list nat) : forall p T t,
  NoDup (ptrs T) -> up_closed L T = true -> get T p = Some t ->
  incl L L' ->
  (forall p1 p2 c, p = p1 ++ p2 -> get T p1 = Some c -> In (item_ptr c) L') ->
  (forall q, In q (ptrs T) -> In q L' ->
             In q L \/
             exists p1 p2 c,
               p = p1 ++ p2 /\ get T p1 = Some c /\
               (q = item_ptr c \/ (In q (ptrs c) /\ incl (ptrs c) L'))) ->
  up_closed L' T = true.
Proof.
  induction p as [|i p IH]; intros T t ND U Hg HL H2 H3.
  - (* the chain ends here *)
    destruct (forallb_In_dec L' (ptrs T)) as [Hall|(q0 & Hq0 & Hn0)];
      [now apply up_closed_full|].
    destruct T as [h ks]. rewrite up_closed_eq in *.
    apply andb_true_iff in U. destruct U as [_ U].
    apply andb_true_iff. split.
    + assert (E : has L' (Citem h ks) = true).
      { apply has_true_iff. apply (H2 [] [] (Citem h ks)); reflexivity. }
      rewrite E. now destruct (owns_legit L' (Citem h ks)).
    + apply forallb_forall. intros k Hin. rewrite forallb_forall in U.
      rewrite (up_closed_congr L L' k); [now apply U|].
      intros q Hq. split; [|apply HL].
      intro Hl.
      assert (HqT : In q (ptrs (Citem h ks)))
        by (rewrite ptrs_eq; right; apply in_flat_map; now exists k).
      destruct (H3 q HqT Hl) as [Hq'|(p1 & p2 & c & Ep & Hc & Hor)]; [exact Hq'|].
      destruct p1; [|discriminate Ep]. simpl in Hc. inversion Hc; subst c.
      destruct Hor as [Hor|[_ Hor]].
      * rewrite ptrs_eq in ND. apply NoDup_cons_iff in ND. destruct ND as [Hx _].
        exfalso. apply Hx. unfold item_ptr in Hor. simpl in Hor. rewrite <- Hor.
        apply in_flat_map. now exists k.
      * exfalso. apply Hn0. now apply Hor.
  - destruct (forallb_In_dec L' (ptrs T)) as [Hall|(q0 & Hq0 & Hn0)];
      [now apply up_closed_full|].
    destruct T as [h ks]. simpl in Hg.
    destruct (nth_error ks i) as [ki|] eqn:Hki; [|discriminate].
    rewrite up_closed_eq in *.
    apply andb_true_iff in U. destruct U as [_ U].
    rewrite ptrs_eq in ND. apply NoDup_cons_iff in ND. destruct ND as [Hx ND'].
    apply andb_true_iff. split.
    + assert (E : has L' (Citem h ks) = true).
      { apply has_true_iff. apply (H2 [] (i :: p) (Citem h ks)); reflexivity. }
      rewrite E. now destruct (owns_legit L' (Citem h ks)).
    + apply forallb_forall. intros k Hin. rewrite forallb_forall in U.
      destruct (In_nth_error _ _ Hin) as [j Hj].
      assert (HkT : incl (ptrs k) (flat_map ptrs ks))
        by (intros a Ha; apply in_flat_map; now exists k).
      assert (Hroot : forall q, In q (flat_map ptrs ks) -> q <> self h)
        by (intros q Hq ->; now apply Hx).
      destruct (Nat.eq_dec j i) as [->|Hji].
      * (* the child the chain goes through *)
        rewrite Hki in Hj. inversion Hj; subst k.
        apply (IH ki t); auto.
        -- eapply NoDup_flat_map_kid; eauto.
        -- intros p1 p2 c Ep Hc. apply (H2 (i :: p1) p2 c).
           ++ simpl. now rewrite Ep.
           ++ simpl. now rewrite Hki.
        -- intros q Hq Hl.
           assert (HqT : In q (ptrs (Citem h ks)))
             by (rewrite ptrs_eq; right; now apply HkT).
           destruct (H3 q HqT Hl) as [Hq'|(p1 & p2 & c & Ep & Hc & Hor)];
             [now left|].
           destruct p1 as [|i' p1].
           ++ simpl in Hc. inversion Hc; subst c. exfalso.
              destruct Hor as [Hor|[_ Hor]].
              ** apply (Hroot q); [now apply HkT | exact Hor].
              ** apply Hn0. now apply Hor.
           ++ simpl in Ep. inversion Ep; subst i'. simpl in Hc.
              rewrite Hki in Hc. right. now exists p1, p2, c.
      * (* another child *)
        rewrite (up_closed_congr L L' k); [now apply U|].
        intros q Hq. split; [|apply HL].
        intro Hl.
        assert (HqT : In q (ptrs (Citem h ks)))
          by (rewrite ptrs_eq; right; now apply HkT).
        destruct (H3 q HqT Hl) as [Hq'|(p1 & p2 & c & Ep & Hc & Hor)];
          [exact Hq'|].
        exfalso. destruct p1 as [|i' p1].
        -- simpl in Hc. inversion Hc; subst c.
           destruct Hor as [Hor|[_ Hor]].
           ++ apply (Hroot q); [now apply HkT | exact Hor].
           ++ apply Hn0. now apply Hor.
        -- simpl in Ep. inversion Ep; subst i'. simpl in Hc.
           rewrite Hki in Hc.
           assert (Hqi : In q (ptrs ki)).
           { destruct Hor as [->|[Hor _]].
             - apply (get_ptrs_incl _ _ _ Hc), item_ptr_in_ptrs.
             - now apply (get_ptrs_incl _ _ _ Hc). }
           exact (NoDup_flat_map_disjoint ptrs ks j i k ki q ND' Hj Hki Hji Hq Hqi).
Qed.

Lemma get_app (p1 : path) : forall T p2,
  get T (p1 ++ p2) = match get T p1 with
                     | Some c => get c p2
                     | None => None
                     end.
Proof.
  induction p1 as [|i p1 IH]; intros T p2; simpl; [reflexivity|].
  destruct (nth_error (kids T) i); [apply IH | reflexivity].
Qed.

Lemma item_at_app (root : citem_t) (w1 w2 : where_t) :
  item_at root (w1 ++ w2) = match item_at root w2 with
                            | Some c => get c (rev w1)
                            | None => None
                            end.
Proof. unfold item_at. rewrite rev_app_distr. apply get_app. Qed.

(** In a set that is closed upwards, the owners of a member are
    members. *)
Lemma up_closed_ancestor (L : list nat) (root : citem_t) (w1 w2 : where_t)
    (t c : citem_t) :
  up_closed L root = true ->
  item_at root (w1 ++ w2) = Some t -> In (item_ptr t) L ->
  item_at root w2 = Some c -> In (item_ptr c) L.
Proof.
  intros U Ht Hl Hc. rewrite item_at_app, Hc in Ht.
  apply has_true_iff. destruct (has L c) eqn:E; [reflexivity|].
  exfalso. apply (up_closed_not_legit L root w2 c U Hc E (item_ptr t)); [|exact Hl].
  apply (get_ptrs_incl _ _ _ Ht), item_ptr_in_ptrs.
Qed.

Lemma up_closed_chain_at (L L' : list nat) (root : citem_t) (w : where_t)
    (t : citem_t) :
  NoDup (ptrs root) -> up_closed L root = true -> item_at root w = Some t ->
  incl L L' ->
  (forall w1 w2 c, w = w1 ++ w2 -> item_at root w2 = Some c ->
                   In (item_ptr c) L') ->
  (forall q, In q L' ->
             In q L \/
             exists w1 w2 c,
               w = w1 ++ w2 /\ item_at root w2 = Some c /\
               (q = item_ptr c \/ (In q (ptrs c) /\ incl (ptrs c) L'))) ->
  up_closed L' root = true.
Proof.
  intros ND U Hat HL H2 H3.
  apply (up_closed_chain L L' (rev w) root t ND U Hat HL).
  - intros p1 p2 c Ep Hc. apply (H2 (rev p2) (rev p1) c).
    + rewrite <- rev_app_distr, <- Ep. now rewrite rev_involutive.
    + unfold item_at. now rewrite rev_involutive.
  - intros q _ Hl. destruct (H3 q Hl) as [Hq|(w1 & w2 & c & Ew & Hc & Hor)];
      [now left | right].
    exists (rev w2), (rev w1), c. split; [|split; [exact Hc | exact Hor]].
    rewrite Ew. apply rev_app_distr.
Qed.

Section FindLegitClosed.
Variable hexdsp : hexdsp_t.
Variable malloc_ok : bool.
Variable pFunction : cfunc_t.

Lemma ensure_initialized_set (v : FIND_LEGIT_ITEMS_VISITOR) :
  fInitialized v = true -> ensure_initialized malloc_ok pFunction v = Some v.
Proof. intro F. unfold ensure_initialized. now rewrite F. Qed.

Lemma ensure_initialized_marks (v v1 : FIND_LEGIT_ITEMS_VISITOR) :
  ensure_initialized malloc_ok pFunction v = Some v1 ->
  fInitialized v1 = true /\
  vectorLegitItems v1 = vectorLegitItems v /\
  vectorDescendantsMarkedLegit v1 = vectorDescendantsMarkedLegit v.
Proof.
  unfold ensure_initialized, Initialize.
  destruct (fInitialized v) eqn:F.
  - intro E. inversion E; subst. now repeat split.
  - destruct malloc_ok; [|discriminate]. intro E. inversion E; subst.
    now repeat split.
Qed.

Lemma mark_item_spec (t : citem_t) (v : FIND_LEGIT_ITEMS_VISITOR) :
  fInitialized (mark_item t v) = fInitialized v /\
  vectorDescendantsMarkedLegit (mark_item t v) = vectorDescendantsMarkedLegit v /\
  incl (vectorLegitItems v) (vectorLegitItems (mark_item t v)) /\
  In (item_ptr t) (vectorLegitItems (mark_item t v)) /\
  (forall q, In q (vectorLegitItems (mark_item t v)) ->
             In q (vectorLegitItems v) \/ q = item_ptr t).
Proof.
  split; [|split; [|split; [|split]]].
  - unfold mark_item. now destruct (has (vectorLegitItems v) t).
  - unfold mark_item. now destruct (has (vectorLegitItems v) t).
  - unfold mark_item. destruct (has (vectorLegitItems v) t); simpl.
    + apply incl_refl.
    + apply incl_appl, incl_refl.
  - apply mark_item_In.
  - unfold mark_item. destruct (has (vectorLegitItems v) t); simpl.
    + now left.
    + intros q Hq. apply in_app_or in Hq. destruct Hq as [Hq|[<-|[]]]; auto.
Qed.

(** One visit in MarkingDescendants mode, once the array is there. *)
Lemma visit_item_marking_spec (w : where_t) (t : citem_t)
    (v : FIND_LEGIT_ITEMS_VISITOR) :
  fInitialized v = true -> descended_in_legit v ->
  exists v1,
    visit_item_marking malloc_ok pFunction w t v = (v1, Continue) /\
    fInitialized v1 = true /\ descended_in_legit v1 /\
    incl (vectorLegitItems v) (vectorLegitItems v1) /\
    In (item_ptr t) (vectorLegitItems v1) /\
    (forall q, In q (vectorLegitItems v1) ->
               In q (vectorLegitItems v) \/ q = item_ptr t).
Proof.
  intros F D. unfold visit_item_marking.
  rewrite (ensure_initialized_set v F).
  destruct (has (vectorDescendantsMarkedLegit v) t) eqn:Hd.
  - exists v. split; [reflexivity|]. split; [exact F|]. split; [exact D|].
    split; [apply incl_refl|]. split; [|now left].
    apply D. now apply has_true_iff.
  - eexists. split; [reflexivity|].
    set (vm := if ctype_eqb (item_op t) cot_var
               then mark_variable (v_idx (hdr t)) v else v).
    assert (Em : fInitialized vm = fInitialized v /\
                 vectorLegitItems vm = vectorLegitItems v /\
                 vectorDescendantsMarkedLegit vm = vectorDescendantsMarkedLegit v)
      by (unfold vm; destruct (ctype_eqb (item_op t) cot_var); now repeat split).
    destruct Em as (Fm & Lm & Dm).
    destruct (mark_item_spec t vm) as (F1 & D1 & I1 & M1 & O1).
    unfold descended_in_legit. cbn [remember_descended fInitialized
      vectorDescendantsMarkedLegit vectorLegitItems].
    rewrite Lm in *. split; [congruence|]. split; [|split; [exact I1|split; auto]].
    rewrite D1, Dm. apply incl_app; [eapply incl_tran; [exact D | exact I1]|].
    intros a [<-|[]]. exact M1.
Qed.

Lemma flooded_trans_kids (k : citem_t) (ks : list citem_t)
    (v v1 v2 : FIND_LEGIT_ITEMS_VISITOR) :
  flooded k v v1 ->
  (fInitialized v2 = true /\ descended_in_legit v2 /\
   incl (vectorLegitItems v1) (vectorLegitItems v2) /\
   incl (flat_map ptrs ks) (vectorLegitItems v2) /\
   (forall q, In q (vectorLegitItems v2) ->
              In q (vectorLegitItems v1) \/ In q (flat_map ptrs ks))) ->
  fInitialized v2 = true /\ descended_in_legit v2 /\
  incl (vectorLegitItems v) (vectorLegitItems v2) /\
  incl (flat_map ptrs (k :: ks)) (vectorLegitItems v2) /\
  (forall q, In q (vectorLegitItems v2) ->
             In q (vectorLegitItems v) \/ In q (flat_map ptrs (k :: ks))).
Proof.
  intros (F1 & D1 & I1 & P1 & O1) (F2 & D2 & I2 & P2 & O2).
  split; [exact F2|]. split; [exact D2|].
  split; [eapply incl_tran; eauto|]. split.
  - simpl. apply incl_app; [eapply incl_tran; eauto | exact P2].
  - intros q Hq. simpl. destruct (O2 q Hq) as [H|H].
    + destruct (O1 q H) as [H'|H']; [now left | right].
      apply in_or_app. now left.
    + right. apply in_or_app. now right.
Qed.

(** A walk in MarkingDescendants mode adds the addresses of the subtree
    it runs over, all of them and nothing else. *)
Lemma apply_to_marking_flooded (p : citem_t) : forall w v,
  fInitialized v = true -> descended_in_legit v ->
  flooded p v (fst (apply_to (visit_item_marking malloc_ok pFunction) w p v)) /\
  snd (apply_to (visit_item_marking malloc_ok pFunction) w p v) = false.
Proof.
  induction p as [h ks IH] using citem_t_ind. intros w v F D.
  rewrite apply_to_eq.
  destruct (visit_item_marking_spec w (Citem h ks) v F D)
    as (v1 & Ev & F1 & D1 & I1 & M1 & O1).
  rewrite Ev. cbn [kids].
  assert (G : forall i v1,
             fInitialized v1 = true -> descended_in_legit v1 ->
             let r := apply_to_kids (visit_item_marking malloc_ok pFunction)
                        w i ks v1 in
             snd r = false /\
             fInitialized (fst r) = true /\ descended_in_legit (fst r) /\
             incl (vectorLegitItems v1) (vectorLegitItems (fst r)) /\
             incl (flat_map ptrs ks) (vectorLegitItems (fst r)) /\
             (forall q, In q (vectorLegitItems (fst r)) ->
                        In q (vectorLegitItems v1) \/ In q (flat_map ptrs ks))).
  { clear - IH. induction IH as [|k ks Hk _ IHks]; intros i v1 F1 D1; simpl.
    - split; [reflexivity|]. split; [exact F1|]. split; [exact D1|].
      split; [apply incl_refl|]. split; [intros a []|]. intros q Hq. now left.
    - destruct (Hk (i :: w) v1 F1 D1) as [Fl Sn].
      destruct (apply_to (visit_item_marking malloc_ok pFunction) (i :: w) k v1)
        as [v2 b]. cbn [fst snd] in *. subst b.
      destruct Fl as (F2 & D2 & Fl).
      destruct (IHks (S i) v2 F2 D2) as (Sn & R).
      split; [exact Sn|].
      apply (flooded_trans_kids k ks v1 v2); [|exact R].
      split; [exact F2|]. split; [exact D2 | exact Fl]. }
  destruct (G O v1 F1 D1) as (Sn & F2 & D2 & I2 & P2 & O2).
  destruct (apply_to_kids (visit_item_marking malloc_ok pFunction) w 0 ks v1)
    as [v2 b]. cbn [fst snd] in *. split; [|exact Sn].
  split; [exact F2|]. split; [exact D2|]. split; [eapply incl_tran; eauto|].
  split.
  - rewrite ptrs_eq. intros a [<-|Ha]; [now apply I2 | now apply P2].
  - intros q Hq. rewrite ptrs_eq. destruct (O2 q Hq) as [H|H].
    + destruct (O1 q H) as [H'|H']; [now left | right; left].
      now rewrite H'.
    + right. now right.
Qed.

Lemma mark_descendants_flooded (p : citem_t) (v : FIND_LEGIT_ITEMS_VISITOR) :
  fInitialized v = true -> descended_in_legit v ->
  flooded p v (mark_descendants malloc_ok pFunction p v).
Proof. intros F D. now apply apply_to_marking_flooded. Qed.

(** One round of the ancestor loop. *)
Lemma mark_ancestor_spec (t : citem_t) (v : FIND_LEGIT_ITEMS_VISITOR) :
  fInitialized v = true -> descended_in_legit v ->
  let v1 := mark_ancestor hexdsp malloc_ok pFunction t v in
  fInitialized v1 = true /\ descended_in_legit v1 /\
  incl (vectorLegitItems v) (vectorLegitItems v1) /\
  In (item_ptr t) (vectorLegitItems v1) /\
  (forall q, In q (vectorLegitItems v1) ->
             In q (vectorLegitItems v) \/ q = item_ptr t \/
             (In q (ptrs t) /\ incl (ptrs t) (vectorLegitItems v1))).
Proof.
  intros F D. unfold mark_ancestor.
  destruct (mark_item_spec t v) as (F1 & D1 & I1 & M1 & O1).
  assert (Dm : descended_in_legit (mark_item t v)).
  { unfold descended_in_legit. rewrite D1. eapply incl_tran; [exact D | exact I1]. }
  assert (Fm : fInitialized (mark_item t v) = true) by congruence.
  assert (Base :
    fInitialized (mark_item t v) = true /\ descended_in_legit (mark_item t v) /\
    incl (vectorLegitItems v) (vectorLegitItems (mark_item t v)) /\
    In (item_ptr t) (vectorLegitItems (mark_item t v)) /\
    (forall q, In q (vectorLegitItems (mark_item t v)) ->
               In q (vectorLegitItems v) \/ q = item_ptr t \/
               (In q (ptrs t) /\
                incl (ptrs t) (vectorLegitItems (mark_item t v))))).
  { split; [exact Fm|]. split; [exact Dm|]. split; [exact I1|].
    split; [exact M1|]. intros q Hq. destruct (O1 q Hq); auto. }
  match goal with |- context [if ?c then _ else _] => destruct c end;
    [|exact Base].
  unfold mark_descendants_once.
  destruct (has (vectorDescendantsMarkedLegit (mark_item t v)) t); [exact Base|].
  destruct (mark_descendants_flooded t (mark_item t v) Fm Dm)
    as (F2 & D2 & I2 & P2 & O2).
  split; [exact F2|]. split; [exact D2|]. split; [eapply incl_tran; eauto|].
  split; [now apply I2|].
  intros q Hq. destruct (O2 q Hq) as [H|H].
  - destruct (O1 q H); auto.
  - right. right. now split.
Qed.

Lemma mark_ancestors_chain (w : where_t) : forall t v,
  fInitialized v = true -> descended_in_legit v ->
  item_at (body pFunction) w = Some t ->
  chain_marked (body pFunction) w v
    (mark_ancestors hexdsp malloc_ok pFunction t w v).
Proof.
  induction w as [|i w IH]; intros t v F D Hat; simpl.
  - destruct (mark_ancestor_spec t v F D) as (F1 & D1 & I1 & M1 & O1).
    split; [exact F1|]. split; [exact D1|]. split; [exact I1|]. split.
    + intros w1 w2 c Ew Hc. destruct w1; [|discriminate]. simpl in Ew. subst w2.
      rewrite Hat in Hc. now inversion Hc; subst.
    + intros q Hq. destruct (O1 q Hq) as [H|H]; [now left | right].
      exists [], [], t. split; [reflexivity|]. split; [exact Hat | exact H].
  - destruct (mark_ancestor_spec t v F D) as (F1 & D1 & I1 & M1 & O1).
    destruct (item_at_parent _ _ _ _ Hat) as (par & Hpar & _).
    rewrite Hpar.
    destruct (IH par _ F1 D1 Hpar) as (F2 & D2 & I2 & C2 & O2).
    split; [exact F2|]. split; [exact D2|].
    split; [eapply incl_tran; eauto|]. split.
    + intros w1 w2 c Ew Hc. destruct w1 as [|j w1].
      * simpl in Ew. subst w2. rewrite Hat in Hc. inversion Hc; subst.
        now apply I2.
      * simpl in Ew. inversion Ew; subst. now apply (C2 w1 w2 c).
    + intros q Hq. destruct (O2 q Hq) as [H|(w1 & w2 & c & Ew & Hc & Hor)].
      * destruct (O1 q H) as [H'|H']; [now left | right].
        exists [], (i :: w), t. split; [reflexivity|]. split; [exact Hat|].
        destruct H' as [H'|[H' H'']]; [now left | right].
        split; [exact H'|]. eapply incl_tran; eauto.
      * right. exists (i :: w1), w2, c. split; [simpl; now rewrite Ew|].
        now split.
Qed.

Hypothesis body_distinct : NoDup (ptrs (body pFunction)).

(** Adding the whole subtree of an item owned by a legitimate item
    keeps the set closed upwards. *)
Lemma flooded_kid_closed (w : where_t) (t e : citem_t) (i : nat)
    (v v' : FIND_LEGIT_ITEMS_VISITOR) :
  up_closed (vectorLegitItems v) (body pFunction) = true ->
  item_at (body pFunction) w = Some t ->
  In (item_ptr t) (vectorLegitItems v) ->
  nth_error (kids t) i = Some e ->
  flooded e v v' ->
  up_closed (vectorLegitItems v') (body pFunction) = true.
Proof.
  intros U Hat Ht He (F & D & I1 & P1 & O1).
  assert (Hate : item_at (body pFunction) (i :: w) = Some e)
    by (now rewrite item_at_cons, Hat).
  apply (up_closed_chain_at (vectorLegitItems v) (vectorLegitItems v')
           (body pFunction) (i :: w) e body_distinct U Hate I1).
  - intros w1 w2 c Ew Hc. destruct w1 as [|j w1].
    + simpl in Ew. subst w2. rewrite Hate in Hc. inversion Hc; subst.
      apply P1, item_ptr_in_ptrs.
    + simpl in Ew. inversion Ew; subst. apply I1.
      now apply (up_closed_ancestor _ (body pFunction) w1 w2 t c).
  - intros q Hq. destruct (O1 q Hq) as [H|H]; [now left | right].
    exists [], (i :: w), e. split; [reflexivity|]. split; [exact Hate|].
    right. now split.
Qed.

Lemma mark_descendants_once_closed (w : where_t) (t e : citem_t) (i : nat)
    (v : FIND_LEGIT_ITEMS_VISITOR) :
  fInitialized v = true -> descended_in_legit v ->
  up_closed (vectorLegitItems v) (body pFunction) = true ->
  item_at (body pFunction) w = Some t ->
  In (item_ptr t) (vectorLegitItems v) ->
  nth_error (kids t) i = Some e ->
  let v' := mark_descendants_once malloc_ok pFunction e v in
  fInitialized v' = true /\ descended_in_legit v' /\
  incl (vectorLegitItems v) (vectorLegitItems v') /\
  up_closed (vectorLegitItems v') (body pFunction) = true.
Proof.
  intros F D U Hat Ht He. unfold mark_descendants_once.
  destruct (has (vectorDescendantsMarkedLegit v) e).
  - split; [exact F|]. split; [exact D|]. split; [apply incl_refl | exact U].
  - pose proof (mark_descendants_flooded e v F D) as Fl.
    pose proof (flooded_kid_closed w t e i v _ U Hat Ht He Fl) as U'.
    destruct Fl as (F' & D' & I' & _). now repeat split.
Qed.

Lemma visit_legit_item_closed (w : where_t) (t : citem_t)
    (v : FIND_LEGIT_ITEMS_VISITOR) :
  fInitialized v = true -> descended_in_legit v ->
  up_closed (vectorLegitItems v) (body pFunction) = true ->
  item_at (body pFunction) w = Some t ->
  In (item_ptr t) (vectorLegitItems v) ->
  let v' := visit_legit_item malloc_ok pFunction t v in
  descended_in_legit v' /\
  up_closed (vectorLegitItems v') (body pFunction) = true.
Proof.
  intros F D U Hat Ht. unfold visit_legit_item.
  destruct (governing_expression t) as [e|] eqn:Ge; [|now split].
  assert (He : exists i, nth_error (kids t) i = Some e).
  { unfold governing_expression in Ge.
    destruct (item_op t); try discriminate; eauto. }
  destruct He as [i He].
  pose proof (mark_descendants_once_closed w t e i v F D U Hat Ht He) as M.
  unfold mark_descendants_once in M.
  destruct (has (vectorDescendantsMarkedLegit v) e); [now split|].
  destruct M as (F1 & D1 & I1 & U1).
  destruct (ctype_eqb (item_op t) cit_for); [|now split].
  assert (Step : forall o v0,
             (o = None \/ exists j, nth_error (kids t) j = o) ->
             fInitialized v0 = true -> descended_in_legit v0 ->
             up_closed (vectorLegitItems v0) (body pFunction) = true ->
             In (item_ptr t) (vectorLegitItems v0) ->
             let v' := mark_opt malloc_ok pFunction o v0 in
             fInitialized v' = true /\ descended_in_legit v' /\
             incl (vectorLegitItems v0) (vectorLegitItems v') /\
             up_closed (vectorLegitItems v') (body pFunction) = true).
  { intros o v0 Ho F0 D0 U0 H0. destruct o as [e0|]; simpl.
    - destruct Ho as [Ho|[j Ho]]; [discriminate|].
      now apply (mark_descendants_once_closed w t e0 j).
    - split; [exact F0|]. split; [exact D0|]. split; [apply incl_refl | exact U0]. }
  destruct (Step (for_init t) _ (or_intror (ex_intro _ O eq_refl)) F1 D1 U1
              (I1 _ Ht)) as (F2 & D2 & I2 & U2).
  destruct (Step (for_step t) _ (or_intror (ex_intro _ 2%nat eq_refl)) F2 D2 U2
              (I2 _ (I1 _ Ht))) as (F3 & D3 & I3 & U3).
  now split.
Qed.

Lemma visit_item_scanning_closed (w : where_t) (t : citem_t)
    (v : FIND_LEGIT_ITEMS_VISITOR) :
  descended_in_legit v ->
  up_closed (vectorLegitItems v) (body pFunction) = true ->
  item_at (body pFunction) w = Some t ->
  let v' := fst (visit_item_scanning hexdsp malloc_ok pFunction w t v) in
  descended_in_legit v' /\
  up_closed (vectorLegitItems v') (body pFunction) = true.
Proof.
  intros D U Hat. unfold visit_item_scanning.
  destruct (ensure_initialized malloc_ok pFunction v) as [v1|] eqn:E;
    [|now split].
  destruct (ensure_initialized_marks v v1 E) as (F1 & L1 & D1).
  assert (Dv1 : descended_in_legit v1)
    by (unfold descended_in_legit; now rewrite L1, D1).
  assert (Uv1 : up_closed (vectorLegitItems v1) (body pFunction) = true)
    by (now rewrite L1).
  destruct (has (vectorLegitItems v1) t) eqn:Hl; cbn [fst].
  - apply (visit_legit_item_closed w t v1); auto. now apply has_true_iff.
  - destruct (marks_ancestors hexdsp t v1); cbn [fst]; [|now split].
    destruct (mark_ancestors_chain w t v1 F1 Dv1 Hat) as (F2 & D2 & I2 & C2 & O2).
    split; [exact D2|].
    exact (up_closed_chain_at _ _ _ w t body_distinct Uv1 Hat I2 C2 O2).
Qed.

Lemma find_legit_pass_closed (v : FIND_LEGIT_ITEMS_VISITOR) :
  descended_in_legit v ->
  up_closed (vectorLegitItems v) (body pFunction) = true ->
  descended_in_legit (find_legit_pass hexdsp malloc_ok pFunction v) /\
  up_closed (vectorLegitItems (find_legit_pass hexdsp malloc_ok pFunction v))
            (body pFunction) = true.
Proof.
  intros D U. unfold find_legit_pass.
  destruct (apply_to (visit_item_scanning hexdsp malloc_ok pFunction) []
              (body pFunction) (set_fNewLegitItemFound false v))
    as [v' b] eqn:E.
  set (K := fun v0 => descended_in_legit v0 /\
                      up_closed (vectorLegitItems v0) (body pFunction) = true).
  assert (Hstep : forall w t v1 v1' r,
             item_at (body pFunction) w = Some t -> K v1 ->
             visit_item_scanning hexdsp malloc_ok pFunction w t v1 = (v1', r) ->
             match r with Stop => K v1' | _ => K v1' end).
  { intros w t v1 v1' r Hat [D1 U1] Ev.
    assert (K v1').
    { replace v1' with
        (fst (visit_item_scanning hexdsp malloc_ok pFunction w t v1))
        by (now rewrite Ev).
      now apply visit_item_scanning_closed. }
    now destruct r. }
  pose proof (apply_to_places _ (body pFunction) K K Hstep (body pFunction) []
                (set_fNewLegitItemFound false v) v' b eq_refl
                (conj D U) E) as R.
  cbn [fst]. now destruct b.
Qed.

Lemma find_legit_loop_closed (fuel : nat) : forall v v' k,
  descended_in_legit v ->
  up_closed (vectorLegitItems v) (body pFunction) = true ->
  find_legit_loop hexdsp malloc_ok pFunction fuel v = Some (v', k) ->
  up_closed (vectorLegitItems v') (body pFunction) = true.
Proof.
  induction fuel as [|fuel IH]; intros v v' k D U E; simpl in E; [discriminate|].
  destruct (find_legit_pass_closed v D U) as [D1 U1].
  destruct (fNewLegitItemFound (find_legit_pass hexdsp malloc_ok pFunction v)).
  - destruct (find_legit_loop hexdsp malloc_ok pFunction fuel
                (find_legit_pass hexdsp malloc_ok pFunction v))
      as [[v2 n]|] eqn:E2; [|discriminate].
    inversion E; subst. exact (IH _ _ _ D1 U1 E2).
  - inversion E; subst. exact U1.
Qed.
End FindLegitClosed.

(** X7.  In a function whose items have distinct addresses, the
    [vectorLegitItems] the marking loop returns is closed upwards in
    the body: every item that owns, at any depth, a legitimate item is
    legitimate itself.  In particular the body is legitimate as soon as
    anything is. *)
Theorem legit_items_closed_upwards (hexdsp : hexdsp_t) (malloc_ok : bool)
    (f : cfunc_t) (fuel : nat) (v : FIND_LEGIT_ITEMS_VISITOR) (k : nat) :
  NoDup (ptrs (body f)) ->
  find_legit_loop hexdsp malloc_ok f fuel fliv_init = Some (v, k) ->
  up_closed (vectorLegitItems v) (body f) = true /\
  (vectorLegitItems v <> [] -> In (item_ptr (body f)) (vectorLegitItems v)).
Proof.
  intros ND E.
  assert (U : up_closed (vectorLegitItems v) (body f) = true).
  { apply (find_legit_loop_closed hexdsp malloc_ok f ND fuel fliv_init v k);
      [intros a [] | apply up_closed_nil | exact E]. }
  split; [exact U|]. intro Hne.
  destruct (vectorLegitItems v) as [|q l] eqn:El; [congruence|].
  destruct (find_legit_loop_counted hexdsp malloc_ok f fuel fliv_init v k)
    as [_ [_ Hin]]; [reflexivity | split; [constructor | intros x []] | exact E |].
  rewrite El in Hin.
  apply has_true_iff. destruct (has (q :: l) (body f)) eqn:Hh; [reflexivity|].
  exfalso.
  apply (up_closed_not_legit (q :: l) (body f) [] (body f) U eq_refl Hh q).
  - apply Hin. now left.
  - now left.
Qed.

Lemma legit_items_closed_upwards_witness :
  exists v k,
    find_legit_loop sample_hexdsp true goto_function 8 fliv_init = Some (v, k) /\
    up_closed (vectorLegitItems v) (body goto_function) = true.
Proof.
  assert (E : { r | find_legit_loop sample_hexdsp true goto_function 8 fliv_init
                    = Some r }) by (eexists; vm_compute; reflexivity).
  destruct E as [[v k] E]. exists v, k. split; [exact E|].
  apply (legit_items_closed_upwards sample_hexdsp true goto_function 8 v k);
    [|exact E].
  vm_compute. repeat constructor; simpl; intuition discriminate.
Defined.

(* ------------------------------------------------------------------ *)
(** ** Which variables are marked *)
(* ------------------------------------------------------------------ *)

Lemma nth_set_nth_set (a : list bool) : forall i j,
  nth j (set_nth i a) false = true -> j = i \/ nth j a false = true.
Proof.
  induction a as [|b a IH]; intros [|i] [|j] H; simpl in *; auto.
  destruct (IH i j H); auto.
Qed.

Lemma referenced_incl (root : citem_t) (L L' : list nat) (i : nat) :
  incl L L' -> referenced root L i -> referenced root L' i.
Proof.
  intros Hi (t & w & Hat & Ho & Hv & Hl). exists t, w. repeat split; auto.
Qed.

Section FindLegitVariables.
Variable hexdsp : hexdsp_t.
Variable malloc_ok : bool.
Variable pFunction : cfunc_t.

Lemma vars_referenced_step (v v' : FIND_LEGIT_ITEMS_VISITOR) :
  vars_referenced pFunction v ->
  incl (vectorLegitItems v) (vectorLegitItems v') ->
  (forall i, var_is_legit v' i = true ->
             var_is_legit v i = true \/
             referenced (body pFunction) (vectorLegitItems v') i) ->
  vars_referenced pFunction v'.
Proof.
  intros V Hi Hs i Hv. destruct (Hs i Hv) as [H|H]; [|now right].
  destruct (V i H) as [Ha|Hr]; [now left | right].
  now apply (referenced_incl _ (vectorLegitItems v)).
Qed.

Lemma ensure_initialized_referenced (v v1 : FIND_LEGIT_ITEMS_VISITOR) :
  vars_referenced pFunction v ->
  ensure_initialized malloc_ok pFunction v = Some v1 ->
  vars_referenced pFunction v1.
Proof.
  unfold ensure_initialized, Initialize. intros V.
  destruct (fInitialized v); [intro E; now inversion E; subst|].
  destruct malloc_ok; [|discriminate]. intro E. inversion E; subst; clear E.
  intros i Hv. left. unfold var_is_legit in Hv. simpl in Hv.
  destruct (nth_error (lvars pFunction) i) as [x|] eqn:Hx.
  - exists x. split; [reflexivity|].
    rewrite (nth_indep _ false (is_arg_var x)) in Hv.
    + rewrite map_nth in Hv. rewrite <- Hv. f_equal.
      symmetry. now apply nth_error_nth.
    + rewrite length_map. apply nth_error_Some. congruence.
  - apply nth_error_None in Hx. rewrite nth_overflow in Hv; [discriminate|].
    now rewrite length_map.
Qed.

Lemma visit_item_marking_referenced (w wb : where_t) (t : citem_t)
    (v : FIND_LEGIT_ITEMS_VISITOR) :
  item_at (body pFunction) wb = Some t ->
  vars_referenced pFunction v ->
  vars_referenced pFunction (fst (visit_item_marking malloc_ok pFunction w t v)).
Proof.
  intros Hat V. unfold visit_item_marking.
  destruct (ensure_initialized malloc_ok pFunction v) as [v1|] eqn:E; [|exact V].
  pose proof (ensure_initialized_referenced v v1 V E) as V1.
  destruct (has (vectorDescendantsMarkedLegit v1) t); [exact V1|].
  cbn [fst].
  set (vm := if ctype_eqb (item_op t) cot_var
             then mark_variable (v_idx (hdr t)) v1 else v1).
  destruct (mark_item_spec t vm) as (_ & _ & I1 & M1 & _).
  assert (Lm : vectorLegitItems vm = vectorLegitItems v1)
    by (unfold vm; now destruct (ctype_eqb (item_op t) cot_var)).
  apply (vars_referenced_step v1); [exact V1 | |].
  - cbn [remember_descended vectorLegitItems]. now rewrite <- Lm.
  - intros i Hv.
    assert (Ev : var_is_legit (remember_descended t (mark_item t vm)) i
                 = var_is_legit vm i).
    { unfold var_is_legit, remember_descended, mark_item. cbn [afVariableIsLegit].
      now destruct (has (vectorLegitItems vm) t). }
    rewrite Ev in Hv. unfold vm in Hv.
    destruct (ctype_eqb (item_op t) cot_var) eqn:Ho; [|now left].
    unfold var_is_legit, mark_variable in *. cbn [afVariableIsLegit] in Hv.
    destruct (afVariableIsLegit v1) as [a|]; [|discriminate]. simpl in Hv.
    destruct (nth_set_nth_set a _ _ Hv) as [->|H]; [right | now left].
    exists t, wb. split; [exact Hat|]. split; [now apply ctype_eqb_eq|].
    split; [reflexivity | exact M1].
Qed.

Lemma mark_descendants_referenced (wp : where_t) (p : citem_t)
    (v : FIND_LEGIT_ITEMS_VISITOR) :
  item_at (body pFunction) wp = Some p ->
  vars_referenced pFunction v ->
  vars_referenced pFunction (mark_descendants malloc_ok pFunction p v).
Proof.
  intros Hp V. unfold mark_descendants.
  destruct (apply_to (visit_item_marking malloc_ok pFunction) [] p v)
    as [v' b] eqn:E.
  assert (Hstep : forall w t v1 v1' r,
             item_at p w = Some t -> vars_referenced pFunction v1 ->
             visit_item_marking malloc_ok pFunction w t v1 = (v1', r) ->
             match r with
             | Stop => vars_referenced pFunction v1'
             | _ => vars_referenced pFunction v1'
             end).
  { intros w t v1 v1' r Hat V1 Ev.
    assert (vars_referenced pFunction v1').
    { replace v1' with (fst (visit_item_marking malloc_ok pFunction w t v1))
        by (now rewrite Ev).
      apply (visit_item_marking_referenced w (w ++ wp)); [|exact V1].
      now rewrite item_at_app, Hp. }
    now destruct r. }
  pose proof (apply_to_places _ p _ _ Hstep p [] v v' b eq_refl V E) as R.
  cbn [fst]. now destruct b.
Qed.

Lemma mark_descendants_once_referenced (wp : where_t) (p : citem_t)
    (v : FIND_LEGIT_ITEMS_VISITOR) :
  item_at (body pFunction) wp = Some p ->
  vars_referenced pFunction v ->
  vars_referenced pFunction (mark_descendants_once malloc_ok pFunction p v).
Proof.
  intros Hp V. unfold mark_descendants_once.
  destruct (has (vectorDescendantsMarkedLegit v) p); [exact V|].
  now apply (mark_descendants_referenced wp).
Qed.

Lemma visit_legit_item_referenced (w : where_t) (t : citem_t)
    (v : FIND_LEGIT_ITEMS_VISITOR) :
  item_at (body pFunction) w = Some t ->
  vars_referenced pFunction v ->
  vars_referenced pFunction (visit_legit_item malloc_ok pFunction t v).
Proof.
  intros Hat V. unfold visit_legit_item.
  assert (Kid : forall j e, nth_error (kids t) j = Some e ->
                            item_at (body pFunction) (j :: w) = Some e)
    by (intros j e He; now rewrite item_at_cons, Hat).
  destruct (governing_expression t) as [e|] eqn:Ge; [|exact V].
  assert (He : exists i, nth_error (kids t) i = Some e).
  { unfold governing_expression in Ge.
    destruct (item_op t); try discriminate; eauto. }
  destruct He as [i He].
  destruct (has (vectorDescendantsMarkedLegit v) e); [exact V|].
  pose proof (mark_descendants_referenced _ e v (Kid _ _ He) V) as V1.
  destruct (ctype_eqb (item_op t) cit_for); [|exact V1].
  assert (Step : forall j v0,
             vars_referenced pFunction v0 ->
             vars_referenced pFunction
               (mark_opt malloc_ok pFunction (nth_error (kids t) j) v0)).
  { intros j v0 V0. destruct (nth_error (kids t) j) as [e0|] eqn:E0; simpl;
      [|exact V0].
    now apply (mark_descendants_once_referenced (j :: w)); [apply Kid|]. }
  apply (Step 2%nat), (Step O), V1.
Qed.

Lemma mark_ancestor_referenced (w : where_t) (t : citem_t)
    (v : FIND_LEGIT_ITEMS_VISITOR) :
  item_at (body pFunction) w = Some t ->
  vars_referenced pFunction v ->
  vars_referenced pFunction (mark_ancestor hexdsp malloc_ok pFunction t v).
Proof.
  intros Hat V. unfold mark_ancestor.
  destruct (mark_item_spec t v) as (_ & _ & I1 & _ & _).
  assert (V1 : vars_referenced pFunction (mark_item t v)).
  { apply (vars_referenced_step v); [exact V | exact I1 |].
    intros i Hv. left. unfold var_is_legit, mark_item in *.
    now destruct (has (vectorLegitItems v) t). }
  match goal with |- context [if ?c then _ else _] => destruct c end;
    [|exact V1].
  now apply (mark_descendants_once_referenced w).
Qed.

Lemma mark_ancestors_referenced (w : where_t) : forall t v,
  item_at (body pFunction) w = Some t ->
  vars_referenced pFunction v ->
  vars_referenced pFunction (mark_ancestors hexdsp malloc_ok pFunction t w v).
Proof.
  induction w as [|i w IH]; intros t v Hat V; simpl.
  - now apply (mark_ancestor_referenced []).
  - pose proof (mark_ancestor_referenced (i :: w) t v Hat V) as V1.
    destruct (item_at (body pFunction) w) as [par|] eqn:Hpar; [|exact V1].
    now apply IH.
Qed.

Lemma visit_item_scanning_referenced (w : where_t) (t : citem_t)
    (v : FIND_LEGIT_ITEMS_VISITOR) :
  item_at (body pFunction) w = Some t ->
  vars_referenced pFunction v ->
  vars_referenced pFunction
    (fst (visit_item_scanning hexdsp malloc_ok pFunction w t v)).
Proof.
  intros Hat V. unfold visit_item_scanning.
  destruct (ensure_initialized malloc_ok pFunction v) as [v1|] eqn:E; [|exact V].
  pose proof (ensure_initialized_referenced v v1 V E) as V1.
  destruct (has (vectorLegitItems v1) t); cbn [fst].
  - now apply (visit_legit_item_referenced w).
  - destruct (marks_ancestors hexdsp t v1); cbn [fst]; [|exact V1].
    now apply mark_ancestors_referenced.
Qed.

Lemma find_legit_pass_referenced (v : FIND_LEGIT_ITEMS_VISITOR) :
  vars_referenced pFunction v ->
  vars_referenced pFunction (find_legit_pass hexdsp malloc_ok pFunction v).
Proof.
  intros V. unfold find_legit_pass.
  destruct (apply_to (visit_item_scanning hexdsp malloc_ok pFunction) []
              (body pFunction) (set_fNewLegitItemFound false v))
    as [v' b] eqn:E.
  assert (Hstep : forall w t v1 v1' r,
             item_at (body pFunction) w = Some t ->
             vars_referenced pFunction v1 ->
             visit_item_scanning hexdsp malloc_ok pFunction w t v1 = (v1', r) ->
             match r with
             | Stop => vars_referenced pFunction v1'
             | _ => vars_referenced pFunction v1'
             end).
  { intros w t v1 v1' r Hat V1 Ev.
    assert (vars_referenced pFunction v1').
    { replace v1' with
        (fst (visit_item_scanning hexdsp malloc_ok pFunction w t v1))
        by (now rewrite Ev).
      now apply visit_item_scanning_referenced. }
    now destruct r. }
  pose proof (apply_to_places _ (body pFunction) _ _ Hstep (body pFunction) []
                (set_fNewLegitItemFound false v) v' b eq_refl V E) as R.
  cbn [fst]. now destruct b.
Qed.

Lemma find_legit_loop_referenced (fuel : nat) : forall v v' k,
  vars_referenced pFunction v ->
  find_legit_loop hexdsp malloc_ok pFunction fuel v = Some (v', k) ->
  vars_referenced pFunction v'.
Proof.
  induction fuel as [|fuel IH]; intros v v' k V E; simpl in E; [discriminate|].
  pose proof (find_legit_pass_referenced v V) as V1.
  destruct (fNewLegitItemFound (find_legit_pass hexdsp malloc_ok pFunction v)).
  - destruct (find_legit_loop hexdsp malloc_ok pFunction fuel
                (find_legit_pass hexdsp malloc_ok pFunction v))
      as [[v2 n]|] eqn:E2; [|discriminate].
    inversion E; subst. exact (IH _ _ _ V1 E2).
  - inversion E; subst. exact V1.
Qed.
End FindLegitVariables.

(** X8.  No variable is kept without a reason.  When the marking loop
    returns, a variable whose [afVariableIsLegit] entry is set is an
    argument or is the variable of a [cot_var] expression of the body
    that is in [vectorLegitItems]; so a variable whose [CVAR_USED] flag
    is still set when [Detox] returns is an argument or has such a
    reference. *)
Theorem kept_variables_are_referenced (hexdsp : hexdsp_t) (malloc_ok : bool)
    (fuel : nat) (f f' : cfunc_t) :
  Detox hexdsp malloc_ok fuel f = Returns f' ->
  exists fliv n,
    find_legit_loop hexdsp malloc_ok f fuel fliv_init = Some (fliv, n) /\
    vars_referenced f fliv /\
    forall i x',
      nth_error (lvars f') i = Some x' -> used x' = true ->
      is_arg_var x' = true \/ referenced (body f) (vectorLegitItems fliv) i.
Proof.
  unfold Detox. intro E.
  destruct (find_legit_loop hexdsp malloc_ok f fuel fliv_init)
    as [[fliv n]|] eqn:EL; [|discriminate].
  assert (V : vars_referenced f fliv).
  { apply (find_legit_loop_referenced hexdsp malloc_ok f fuel fliv_init fliv n);
      [|exact EL].
    intros i Hv. discriminate Hv. }
  exists fliv, n. split; [reflexivity|]. split; [exact V|].
  destruct (prune_loop (vectorLegitItems fliv) fuel fuel (piv_init (body f)))
    as [[piv k]|]; [|discriminate].
  destruct (lvars f) as [|x0 vars] eqn:EV.
  - inversion E; subst; simpl. intros i x' H. destruct i; discriminate H.
  - destruct (afVariableIsLegit fliv) as [af|] eqn:Ea; [|discriminate].
    injection E as E. subst f'. intros i x' Hx' Hu.
    change (nth_error (clear_unused af O (x0 :: vars)) i = Some x') in Hx'.
    destruct (nth_error (x0 :: vars) i) as [x|] eqn:Hx.
    + rewrite (clear_unused_nth af (x0 :: vars) O i x Hx) in Hx'.
      simpl in Hx'. inversion Hx'; subst x'; clear Hx'.
      destruct (nth i af false) eqn:En; simpl in Hu;
        [|destruct x; discriminate Hu].
      simpl. assert (Hv : var_is_legit fliv i = true)
        by (unfold var_is_legit; now rewrite Ea).
      destruct (V i Hv) as [(y & Hy & Ha)|Hr]; [left | now right].
      rewrite EV, Hx in Hy. now inversion Hy; subst.
    + exfalso. apply nth_error_None in Hx.
      assert (Hlen : (i < List.length (clear_unused af O (x0 :: vars)))%nat)
        by (apply nth_error_Some; congruence).
      rewrite clear_unused_length in Hlen. lia.
Qed.

Lemma kept_variables_are_referenced_witness :
  exists f' fliv n,
    Detox sample_hexdsp true 8 goto_function = Returns f' /\
    find_legit_loop sample_hexdsp true goto_function 8 fliv_init
    = Some (fliv, n) /\
    vars_referenced goto_function fliv.
Proof.
  assert (E : { f' | Detox sample_hexdsp true 8 goto_function = Returns f' })
    by (eexists; vm_compute; reflexivity).
  destruct E as [f' E]. exists f'.
  destruct (kept_variables_are_referenced sample_hexdsp true 8 goto_function f' E)
    as (fliv & n & E1 & V & _).
  exists fliv, n. split; [exact E|]. split; assumption.
Defined.

(* ------------------------------------------------------------------ *)
(** ** A walk that never stops reaches every item *)
(* ------------------------------------------------------------------ *)

Section ApplyToReaches.
Context {V : Type}.
Variable visit : where_t -> citem_t -> V -> V * visit_result.
Variable root : citem_t.
Variable Inv : V -> Prop.
Variable Post : citem_t -> V -> Prop.
Hypothesis visit_goes_on : forall w t v, snd (visit w t v) = Continue.
Hypothesis visit_inv : forall w t v, Inv v -> Inv (fst (visit w t v)).
Hypothesis visit_post : forall w t v,
  item_at root w = Some t -> Inv v -> Post t (fst (visit w t v)).
Hypothesis visit_stable : forall w t x v,
  Inv v -> Post x v -> Post x (fst (visit w t v)).

Lemma apply_to_keeps_inv (t : citem_t) (w : where_t) (v : V) :
  Inv v -> Inv (fst (apply_to visit w t v)).
Proof. apply (apply_to_preserves visit Inv). intros; now apply visit_inv. Qed.

Lemma apply_to_keeps_post (x t : citem_t) (w : where_t) (v : V) :
  Inv v -> Post x v -> Post x (fst (apply_to visit w t v)).
Proof.
  intros I0 P0.
  apply (apply_to_preserves visit (fun v0 => Inv v0 /\ Post x v0)); [|now split].
  intros w1 t1 v1 [I1 P1]. split; [now apply visit_inv | now apply visit_stable].
Qed.

Lemma apply_to_kids_keeps (x : citem_t) (w : where_t) (l : list citem_t) :
  forall i v,
    Inv v -> Inv (fst (apply_to_kids visit w i l v)) /\
             (Post x v -> Post x (fst (apply_to_kids visit w i l v))).
Proof.
  induction l as [|k l IH]; intros i v I0; simpl; [now split|].
  pose proof (apply_to_keeps_inv k (i :: w) v I0) as I1.
  pose proof (apply_to_keeps_post x k (i :: w) v I0) as P1.
  destruct (apply_to visit (i :: w) k v) as [v2 [|]]; cbn [fst] in *;
    [now split|].
  destruct (IH (S i) v2 I1) as [I2 P2]. split; auto.
Qed.

Lemma apply_to_reaches (t : citem_t) : forall w v,
  item_at root w = Some t -> Inv v ->
  forall p x, get t p = Some x -> Post x (fst (apply_to visit w t v)).
Proof.
  induction t as [h ks IH] using citem_t_ind. intros w v Hat I0 p x Hx.
  rewrite apply_to_eq.
  pose proof (visit_goes_on w (Citem h ks) v) as Go.
  pose proof (visit_inv w (Citem h ks) v I0) as I1.
  pose proof (visit_post w (Citem h ks) v Hat I0) as P1.
  destruct (visit w (Citem h ks) v) as [v1 r]. cbn [fst snd] in *. subst r.
  cbn [kids]. destruct p as [|i p].
  - simpl in Hx. inversion Hx; subst x.
    now apply (apply_to_kids_keeps (Citem h ks) w ks O v1 I1).
  - simpl in Hx. destruct (nth_error ks i) as [k|] eqn:Hk; [|discriminate].
    assert (Hpos : forall j k', nth_error ks j = Some k' ->
                                item_at root ((0 + j)%nat :: w) = Some k')
      by (intros j k' Hj; now rewrite item_at_cons, Hat).
    clear Hat P1 I0. revert Hpos Hk I1. generalize O as i0. revert i v1.
    induction IH as [|k0 l Hk0 _ IHl]; intros i v1 i0 Hpos Hk I1.
    + destruct i; discriminate Hk.
    + simpl.
      assert (Hk0pos : item_at root (i0 :: w) = Some k0).
      { specialize (Hpos O k0 eq_refl). now rewrite Nat.add_0_r in Hpos. }
      pose proof (apply_to_keeps_inv k0 (i0 :: w) v1 I1) as I2.
      destruct i as [|i]; simpl in Hk.
      * inversion Hk; subst k0.
        pose proof (Hk0 (i0 :: w) v1 Hk0pos I1 p x Hx) as P2.
        destruct (apply_to visit (i0 :: w) k v1) as [v2 [|]]; cbn [fst] in *;
          [exact P2|].
        now apply (apply_to_kids_keeps x w l (S i0) v2 I2).
      * destruct (apply_to visit (i0 :: w) k0 v1) as [v2 b] eqn:E2.
        assert (b = false).
        { pose proof (apply_to_never_stops visit) as Ns.
          assert (Hn : forall w t v, snd (visit w t v) <> Stop)
            by (intros w0 t0 v0; rewrite visit_goes_on; discriminate).
          specialize (Ns Hn k0 (i0 :: w) v1). now rewrite E2 in Ns. }
        subst b. cbn [fst] in *.
        apply (IHl i v2 (S i0)); auto.
        intros j k' Hj. specialize (Hpos (S j) k' Hj).
        now rewrite Nat.add_succ_r in Hpos.
Qed.
End ApplyToReaches.

(* ------------------------------------------------------------------ *)
(** ** What [Detox] never removes *)
(* ------------------------------------------------------------------ *)

Lemma kept_items_eq (h : citem_hdr) (ks : list citem_t) :
  kept_items (Citem h ks) =
  (if kept_kind (Citem h ks) then [(self h, op h)] else [])
  ++ flat_map kept_items ks.
Proof. reflexivity. Qed.

Lemma kept_kind_marks (hexdsp : hexdsp_t) (t : citem_t)
    (v : FIND_LEGIT_ITEMS_VISITOR) :
  kept_kind t = true -> marks_ancestors hexdsp t v = true.
Proof.
  unfold kept_kind, real_call, marks_ancestors, IsLegitimateCall.
  destruct t as [h ks]. unfold item_op. cbn [hdr kids].
  destruct (op h); simpl; try discriminate; try reflexivity.
  destruct ks as [|x ks]; [discriminate|].
  unfold item_op. destruct (ctype_eqb (op (hdr x)) cot_helper);
    [discriminate | reflexivity].
Qed.

Lemma kept_items_In (e : nat * ctype_t) (t : citem_t) :
  In e (kept_items t) ->
  exists p x, get t p = Some x /\ kept_kind x = true
              /\ e = (item_ptr x, item_op x).
Proof.
  induction t as [h ks IH] using citem_t_ind. rewrite kept_items_eq.
  intro H. apply in_app_or in H. destruct H as [H|H].
  - destruct (kept_kind (Citem h ks)) eqn:K; [|contradiction].
    destruct H as [<-|[]]. exists [], (Citem h ks). now repeat split.
  - apply in_flat_map in H. destruct H as (k & Hk & He).
    rewrite Forall_forall in IH.
    destruct (IH k Hk He) as (p & x & Hx & Kx & Ee).
    destruct (In_nth_error _ _ Hk) as [i Hi].
    exists (i :: p), x. split; [simpl; now rewrite Hi | now split].
Qed.

Lemma kept_items_ptrs (t : citem_t) : incl (map fst (kept_items t)) (ptrs t).
Proof.
  intros a Ha. apply in_map_iff in Ha. destruct Ha as (e & <- & He).
  destruct (kept_items_In e t He) as (p & x & Hx & _ & ->). simpl.
  apply (get_ptrs_incl _ _ _ Hx), item_ptr_in_ptrs.
Qed.

Lemma kept_items_get (p : path) : forall t x,
  get t p = Some x -> incl (kept_items x) (kept_items t).
Proof.
  induction p as [|i p IH]; intros t x H; simpl in H.
  - inversion H; subst. apply incl_refl.
  - destruct (nth_error (kids t) i) as [k|] eqn:Hk; [|discriminate].
    destruct t as [h ks]. cbn [kids] in Hk. rewrite kept_items_eq.
    intros a Ha. apply in_or_app. right. apply in_flat_map.
    exists k. split; [eapply nth_error_In; eauto | now apply (IH k x)].
Qed.

(** Whether an item is [kept_kind] depends on its kind and on whether
    its first owned item is a helper. *)
Lemma kept_kind_congr (h : citem_hdr) (ks ks' : list citem_t) :
  match ks, ks' with
  | [], [] => True
  | x :: _, x' :: _ =>
      ctype_eqb (item_op x') cot_helper = ctype_eqb (item_op x) cot_helper
  | _, _ => False
  end ->
  kept_kind (Citem h ks') = kept_kind (Citem h ks).
Proof.
  unfold kept_kind, real_call, item_op. cbn [hdr kids].
  destruct ks as [|x ks], ks' as [|x' ks']; try contradiction; [reflexivity|].
  unfold item_op. now intros ->.
Qed.

Lemma is_helper_update (f : citem_t -> citem_t) (p : path) (t x : citem_t) :
  get t p = Some x ->
  ctype_eqb (item_op (f x)) cot_helper = ctype_eqb (item_op x) cot_helper ->
  ctype_eqb (item_op (update t p f)) cot_helper
  = ctype_eqb (item_op t) cot_helper.
Proof.
  destruct p as [|i p]; simpl; intros H E.
  - now inversion H; subst.
  - reflexivity.
Qed.

Lemma kept_items_update (f : citem_t -> citem_t) (p : path) : forall t x,
  get t p = Some x ->
  kept_items (f x) = kept_items x ->
  ctype_eqb (item_op (f x)) cot_helper = ctype_eqb (item_op x) cot_helper ->
  kept_items (update t p f) = kept_items t.
Proof.
  induction p as [|i p IH]; intros t x H Ek Eh.
  - simpl in H. inversion H; subst. exact Ek.
  - simpl in H. destruct (nth_error (kids t) i) as [k|] eqn:Hk; [|discriminate].
    destruct t as [h ks]. cbn [kids] in Hk.
    change (update (Citem h ks) (i :: p) f)
      with (Citem h (update_nth i (fun k => update k p f) ks)).
    rewrite !kept_items_eq.
    pose proof (IH k x H Ek Eh) as IHk.
    pose proof (is_helper_update f p k x H Eh) as Hh.
    f_equal.
    + rewrite (kept_kind_congr h ks); [reflexivity|].
      destruct ks as [|y ks]; [destruct i; discriminate Hk|].
      destruct i as [|i]; simpl in *; [|reflexivity].
      inversion Hk; subst y. exact Hh.
    + clear - Hk IHk. revert i Hk.
      induction ks as [|y ks IHks]; intros [|i] Hk; simpl in *; try discriminate.
      * inversion Hk; subst y. now rewrite IHk.
      * now rewrite (IHks i Hk).
Qed.

Lemma kept_items_relabel (n : Z) (t : citem_t) :
  kept_items (relabel n t) = kept_items t.
Proof. destruct t as [h ks]. reflexivity. Qed.

Lemma kept_items_cleanup (t : citem_t) : kept_items (cleanup t) = [].
Proof. destruct t as [h ks]. reflexivity. Qed.

Lemma leaf_ok_eq (h : citem_hdr) (ks : list citem_t) :
  all_items leaf_ok (Citem h ks)
  = leaf_ok (Citem h ks) && forallb (all_items leaf_ok) ks.
Proof. reflexivity. Qed.

Lemma is_helper_change_gotos (nOld nNew : Z) (t : citem_t) :
  ctype_eqb (item_op (change_gotos nOld nNew t)) cot_helper
  = ctype_eqb (item_op t) cot_helper.
Proof.
  destruct (same_place_change_gotos nOld nNew t) as [_ [E|E]];
    unfold item_op in *.
  - now rewrite E.
  - rewrite E. destruct t as [h ks]. rewrite change_gotos_eq. cbn [hdr] in E.
    rewrite E. simpl.
    destruct (negb (goto_label h =? nOld)); simpl; [now rewrite E|].
    destruct (negb (nNew =? -1)); simpl; [now rewrite E | reflexivity].
Qed.

Lemma kept_items_change_gotos (nOld nNew : Z) (t : citem_t) :
  all_items leaf_ok t = true ->
  kept_items (change_gotos nOld nNew t) = kept_items t.
Proof.
  induction t as [h ks IH] using citem_t_ind. intro A.
  rewrite leaf_ok_eq in A. apply andb_true_iff in A. destruct A as [Lf A].
  assert (G : flat_map kept_items (map (change_gotos nOld nNew) ks)
              = flat_map kept_items ks).
  { clear Lf. induction IH as [|k ks Hk _ IHks]; simpl in *; [reflexivity|].
    apply andb_true_iff in A. destruct A as [A1 A2].
    now rewrite Hk, IHks. }
  assert (K : forall h', op h' = op h ->
              kept_kind (Citem h' (map (change_gotos nOld nNew) ks))
              = kept_kind (Citem h ks)).
  { intros h' Eo.
    transitivity (kept_kind (Citem h (map (change_gotos nOld nNew) ks))).
    - unfold kept_kind, real_call, item_op. cbn [hdr kids]. now rewrite Eo.
    - apply kept_kind_congr. destruct ks as [|x ks]; simpl; [exact I|].
      apply is_helper_change_gotos. }
  rewrite change_gotos_eq.
  destruct (ctype_eqb (op h) cit_goto) eqn:Eg.
  - (* a goto owns nothing and is not kept *)
    unfold leaf_ok, item_op in Lf. cbn [hdr kids] in Lf. rewrite Eg in Lf.
    simpl in Lf. destruct ks as [|k ks]; [|discriminate].
    apply ctype_eqb_eq in Eg.
    destruct (negb (true && (goto_label h =? nOld))).
    + reflexivity.
    + destruct (negb (nNew =? -1)).
      * rewrite !kept_items_eq. simpl.
        unfold kept_kind, real_call, item_op. simpl. now rewrite Eg.
      * rewrite !kept_items_eq. simpl.
        unfold kept_kind, real_call, item_op. simpl. now rewrite Eg.
  - cbn [andb negb]. rewrite !kept_items_eq, G, (K h eq_refl). reflexivity.
Qed.

Lemma flat_map_erase_nth_nil {B : Type} (g : citem_t -> list B)
    (l : list citem_t) : forall i k,
  nth_error l i = Some k -> g k = [] ->
  flat_map g (erase_nth i l) = flat_map g l.
Proof.
  induction l as [|y l IH]; intros [|i] k H E; simpl in *; try discriminate.
  - inversion H; subst. now rewrite E.
  - now rewrite (IH i k H E).
Qed.

Lemma kept_items_erase_child (i : nat) (x : citem_t) :
  item_op x = cit_block -> first_empty (kids x) = Some i ->
  all_items leaf_ok x = true ->
  kept_items (erase_child i x) = kept_items x.
Proof.
  intros B Fe A. destruct (first_empty_spec _ _ Fe) as (k & Hk & Ek & _).
  destruct x as [h ks]. cbn [kids] in *. unfold erase_child. cbn [hdr kids].
  rewrite !kept_items_eq.
  assert (Kk : kept_items k = []).
  { rewrite leaf_ok_eq in A. apply andb_true_iff in A. destruct A as [_ A].
    rewrite forallb_forall in A. specialize (A k (nth_error_In _ _ Hk)).
    destruct k as [hk kk]. rewrite leaf_ok_eq in A.
    apply andb_true_iff in A. destruct A as [Lk _].
    unfold leaf_ok, item_op in *. cbn [hdr kids] in *.
    rewrite kept_items_eq. unfold kept_kind, real_call, item_op. cbn [hdr kids].
    destruct Ek as [Ek|Ek]; rewrite Ek in *; simpl in *;
      (destruct kk; [reflexivity | discriminate]). }
  rewrite (flat_map_erase_nth_nil kept_items ks i k Hk Kk). f_equal.
  unfold kept_kind, real_call, item_op in *. cbn [hdr kids] in *. now rewrite B.
Qed.

(** Gotos and empty items keep owning nothing. *)
Lemma leaves_update (f : citem_t -> citem_t) :
  (forall y, all_items leaf_ok y = true -> all_items leaf_ok (f y) = true) ->
  forall p t, all_items leaf_ok t = true ->
              all_items leaf_ok (update t p f) = true.
Proof.
  intros Hf. induction p as [|i p IH]; intros t A; [now apply Hf|].
  destruct t as [h ks].
  change (update (Citem h ks) (i :: p) f)
    with (Citem h (update_nth i (fun k => update k p f) ks)).
  rewrite leaf_ok_eq in *. apply andb_true_iff in A. destruct A as [Lf A].
  apply andb_true_iff. split.
  - unfold leaf_ok, item_op in *. cbn [hdr kids] in *.
    destruct (ctype_eqb (op h) cit_goto || ctype_eqb (op h) cit_empty
              || ctype_eqb (op h) cot_empty); [|reflexivity].
    destruct ks; [now destruct i | discriminate].
  - clear - IH A. revert i.
    induction ks as [|k ks IHks]; intros [|i]; simpl in *; try reflexivity;
      apply andb_true_iff in A; destruct A as [A1 A2];
      apply andb_true_iff; split; auto.
Qed.

Lemma leaves_relabel (n : Z) (t : citem_t) :
  all_items leaf_ok (relabel n t) = all_items leaf_ok t.
Proof. destruct t. reflexivity. Qed.

Lemma leaves_cleanup (t : citem_t) : all_items leaf_ok (cleanup t) = true.
Proof. destruct t. reflexivity. Qed.

Lemma leaves_erase_child (i : nat) (t : citem_t) :
  all_items leaf_ok t = true -> all_items leaf_ok (erase_child i t) = true.
Proof.
  destruct t as [h ks]. unfold erase_child. cbn [hdr kids].
  rewrite !leaf_ok_eq. intro A. apply andb_true_iff in A. destruct A as [Lf A].
  apply andb_true_iff. split; [|now apply forallb_erase_nth].
  unfold leaf_ok, item_op in *. cbn [hdr kids] in *.
  destruct (ctype_eqb (op h) cit_goto || ctype_eqb (op h) cit_empty
            || ctype_eqb (op h) cot_empty); [|reflexivity].
  destruct ks; [now destruct i | discriminate].
Qed.

Lemma leaves_change_gotos (nOld nNew : Z) (t : citem_t) :
  all_items leaf_ok t = true ->
  all_items leaf_ok (change_gotos nOld nNew t) = true.
Proof.
  induction t as [h ks IH] using citem_t_ind. intro A.
  rewrite leaf_ok_eq in A. apply andb_true_iff in A. destruct A as [Lf A].
  assert (G : forallb (all_items leaf_ok) (map (change_gotos nOld nNew) ks)
              = true).
  { clear Lf. induction IH as [|k ks Hk _ IHks]; simpl in *; [reflexivity|].
    apply andb_true_iff in A. destruct A as [A1 A2].
    apply andb_true_iff. split; auto. }
  assert (Lh : forall h', op h' = op h ->
               leaf_ok (Citem h' (map (change_gotos nOld nNew) ks)) = true).
  { intros h' Eo. unfold leaf_ok, item_op in *. cbn [hdr kids] in *. rewrite Eo.
    destruct (ctype_eqb (op h) cit_goto || ctype_eqb (op h) cit_empty
              || ctype_eqb (op h) cot_empty); [|reflexivity].
    destruct ks; [reflexivity | discriminate]. }
  rewrite change_gotos_eq.
  destruct (negb (ctype_eqb (op h) cit_goto && (goto_label h =? nOld))).
  - rewrite leaf_ok_eq, G, (Lh h eq_refl). reflexivity.
  - destruct (negb (nNew =? -1)).
    + rewrite leaf_ok_eq, G, (Lh (set_goto_label nNew h) eq_refl). reflexivity.
    + reflexivity.
Qed.

Lemma prune_loop_keeps_kept_items (legit : list nat) (fuel n : nat)
    (v v' : PRUNE_ITEMS_VISITOR) (k : nat) :
  up_closed legit (ctree v) = true ->
  all_items leaf_ok (ctree v) = true ->
  incl (map fst (kept_items (ctree v))) legit ->
  prune_loop legit fuel n v = Some (v', k) ->
  kept_items (ctree v') = kept_items (ctree v).
Proof.
  intros U A Hk E.
  set (Inv := fun t => up_closed legit t = true /\
                       all_items leaf_ok t = true /\
                       kept_items t = kept_items (ctree v)).
  assert (Upd : forall (f : citem_t -> citem_t) t w,
             (forall y, incl (ptrs (f y)) (ptrs y)) ->
             (forall y, up_closed legit y = true -> up_closed legit (f y) = true) ->
             (forall y, all_items leaf_ok y = true ->
                        all_items leaf_ok (f y) = true) ->
             (forall x, item_at t w = Some x ->
                        kept_items (f x) = kept_items x /\
                        ctype_eqb (item_op (f x)) cot_helper
                        = ctype_eqb (item_op x) cot_helper) ->
             Inv t -> Inv (update_at t w f)).
  { intros f t w F1 F2 F3 F4 (I1 & I2 & I3). unfold Inv, update_at.
    split; [now apply up_closed_update|]. split; [now apply leaves_update|].
    rewrite <- I3. destruct (item_at t w) as [x|] eqn:Hx.
    - destruct (F4 x eq_refl) as [Fk Fh].
      now apply (kept_items_update f (rev w) t x).
    - unfold item_at in Hx. now rewrite (update_none f _ t Hx). }
  assert (R : Inv (ctree v')).
  { apply (prune_loop_keeps legit fuel Inv) with (n := n) (v := v) (k := k);
      [| | | | |exact E].
    - intros t w x i It Hx Hb Fe. apply Upd; [| | | |exact It].
      + apply ptrs_erase_child_incl.
      + intro y. apply up_closed_erase_child.
      + intro y. apply leaves_erase_child.
      + intros x0 Hx0. rewrite Hx in Hx0. inversion Hx0; subst x0.
        split; [|destruct x; reflexivity].
        apply kept_items_erase_child; auto.
        destruct It as (_ & I2 & _). exact (all_items_get _ _ _ _ I2 Hx).
    - intros t w m It _. apply Upd; [| | | |exact It].
      + intro y. rewrite ptrs_relabel. apply incl_refl.
      + intro y. now rewrite up_closed_relabel.
      + intro y. now rewrite leaves_relabel.
      + intros x _. split; [apply kept_items_relabel | destruct x; reflexivity].
    - intros t w a b It _. apply Upd; [| | | |exact It].
      + apply ptrs_change_gotos_incl.
      + intro y. apply up_closed_change_gotos.
      + intro y. apply leaves_change_gotos.
      + intros x Hx. split; [|apply is_helper_change_gotos].
        apply kept_items_change_gotos.
        destruct It as (_ & I2 & _). exact (all_items_get _ _ _ _ I2 Hx).
    - intros t w It Hx. apply Upd; [| | | |exact It].
      + intro y. rewrite ptrs_cleanup. intros a [<-|[]]. apply item_ptr_in_ptrs.
      + intros y _. apply up_closed_cleanup.
      + intros y _. apply leaves_cleanup.
      + intros x Hx0. destruct (Hx x Hx0) as [Hl Hc].
        destruct It as (I1 & I2 & I3).
        assert (Kx : kept_items x = []).
        { destruct (kept_items x) as [|e l] eqn:Ek; [reflexivity|]. exfalso.
          apply (up_closed_not_legit legit t w x I1 Hx0 Hl (fst e)).
          - apply kept_items_ptrs. rewrite Ek. now left.
          - apply Hk. rewrite <- I3. apply in_map.
            apply (kept_items_get _ _ _ Hx0). rewrite Ek. now left. }
        rewrite kept_items_cleanup, Kx. split; [reflexivity|].
        destruct x as [hx kx]. unfold cleanable, item_op in *. cbn [hdr] in *.
        unfold cleanup, item_op. simpl.
        destruct (op hx); try reflexivity; discriminate Hc.
    - now repeat split. }
  apply R.
Qed.

Lemma visit_item_scanning_continue (hexdsp : hexdsp_t) (pFunction : cfunc_t)
    (w : where_t) (t : citem_t) (v : FIND_LEGIT_ITEMS_VISITOR) :
  snd (visit_item_scanning hexdsp true pFunction w t v) = Continue.
Proof.
  unfold visit_item_scanning, ensure_initialized, Initialize.
  destruct (fInitialized v); simpl;
    repeat match goal with
           | |- context [if ?c then _ else _] => destruct c
           end; reflexivity.
Qed.

Lemma visit_item_scanning_marks_kept (hexdsp : hexdsp_t) (pFunction : cfunc_t)
    (w : where_t) (t : citem_t) (v : FIND_LEGIT_ITEMS_VISITOR) :
  item_at (body pFunction) w = Some t -> fliv_inv pFunction v ->
  kept_kind t = true ->
  In (item_ptr t)
     (vectorLegitItems (fst (visit_item_scanning hexdsp true pFunction w t v))).
Proof.
  intros Hat I K. unfold visit_item_scanning.
  destruct (ensure_initialized true pFunction v) as [v1|] eqn:E.
  - pose proof (ensure_initialized_after true pFunction v v1 I E) as [_ I1].
    destruct (has (vectorLegitItems v1) t) eqn:Hl; cbn [fst].
    + pose proof (visit_legit_item_after true pFunction t v1 I1) as [G _].
      apply (grows_In _ _ _ G). now apply has_true_iff.
    + rewrite (kept_kind_marks hexdsp t v1 K). cbn [fst].
      now apply mark_ancestors_marks.
  - unfold ensure_initialized, Initialize in E.
    destruct (fInitialized v); discriminate E.
Qed.

Lemma find_legit_pass_marks_kept (hexdsp : hexdsp_t) (pFunction : cfunc_t)
    (v : FIND_LEGIT_ITEMS_VISITOR) :
  fliv_inv pFunction v ->
  forall p x, get (body pFunction) p = Some x -> kept_kind x = true ->
              In (item_ptr x)
                 (vectorLegitItems (find_legit_pass hexdsp true pFunction v)).
Proof.
  intros I p x Hx. unfold find_legit_pass.
  apply (apply_to_reaches (visit_item_scanning hexdsp true pFunction)
           (body pFunction) (fliv_inv pFunction)
           (fun x v0 => kept_kind x = true -> In (item_ptr x) (vectorLegitItems v0)))
    with (p := p); [| | | |reflexivity| |exact Hx].
  - intros. apply visit_item_scanning_continue.
  - intros w t v0 I0. now apply (visit_item_scanning_after hexdsp true pFunction).
  - intros w t v0 Hat I0 K. now apply visit_item_scanning_marks_kept.
  - intros w t x0 v0 I0 P0 K.
    destruct (visit_item_scanning_after hexdsp true pFunction w t v0 I0) as [G _].
    apply (grows_In _ _ _ G). now apply P0.
  - now apply (set_fNewLegitItemFound_after pFunction false v).
Qed.

Lemma find_legit_loop_marks_kept (hexdsp : hexdsp_t) (pFunction : cfunc_t)
    (fuel : nat) (v v' : FIND_LEGIT_ITEMS_VISITOR) (k : nat) :
  fliv_inv pFunction v ->
  find_legit_loop hexdsp true pFunction fuel v = Some (v', k) ->
  incl (map fst (kept_items (body pFunction))) (vectorLegitItems v').
Proof.
  intros I E a Ha. apply in_map_iff in Ha. destruct Ha as (e & <- & He).
  destruct (kept_items_In e _ He) as (p & x & Hx & Kx & ->). simpl.
  destruct fuel as [|fuel]; simpl in E; [discriminate|].
  pose proof (find_legit_pass_marks_kept hexdsp pFunction v I p x Hx Kx) as M.
  pose proof (find_legit_pass_after hexdsp true pFunction v I) as [_ I1].
  destruct (fNewLegitItemFound (find_legit_pass hexdsp true pFunction v)).
  - destruct (find_legit_loop hexdsp true pFunction fuel
                (find_legit_pass hexdsp true pFunction v))
      as [[v2 n]|] eqn:E2; [|discriminate].
    inversion E; subst.
    destruct (find_legit_loop_after hexdsp true pFunction fuel _ _ _ I1 E2)
      as [G _].
    exact (grows_In _ _ _ G M).
  - inversion E; subst. exact M.
Qed.

(** X9.  What [Detox] never removes.  When [malloc] succeeds, in a
    function whose items have distinct addresses and whose gotos, empty
    statements and empty expressions own nothing, every reference to an
    object, every call whose callee is not a helper, and every break,
    continue and return statement of the body is still there when
    [Detox] returns: the items of these kinds, with their addresses and
    in visiting order, are the same before and after. *)
Theorem Detox_keeps_calls_and_transfers (hexdsp : hexdsp_t) (fuel : nat)
    (f f' : cfunc_t) :
  NoDup (ptrs (body f)) ->
  all_items leaf_ok (body f) = true ->
  Detox hexdsp true fuel f = Returns f' ->
  kept_items (body f') = kept_items (body f).
Proof.
  intros ND A E.
  destruct (Detox_body _ _ _ _ _ E) as (fliv & k & piv & k' & E1 & E2 & ->).
  apply (prune_loop_keeps_kept_items (vectorLegitItems fliv) fuel fuel
           (piv_init (body f)) piv k'); [| exact A | | exact E2].
  - apply (find_legit_loop_closed hexdsp true f ND fuel fliv_init fliv k);
      [intros a [] | apply up_closed_nil | exact E1].
  - apply (find_legit_loop_marks_kept hexdsp f fuel fliv_init fliv k);
      [reflexivity | exact E1].
Qed.

Lemma Detox_keeps_calls_and_transfers_witness :
  exists f',
    Detox sample_hexdsp true 8 nested_label_function = Returns f' /\
    kept_items (body f') = [(12%nat, cot_call); (13%nat, cot_obj)].
Proof.
  assert (E : { f' | Detox sample_hexdsp true 8 nested_label_function
                     = Returns f' }) by (eexists; vm_compute; reflexivity).
  destruct E as [f' E]. exists f'. split; [exact E|].
  rewrite (Detox_keeps_calls_and_transfers sample_hexdsp 8
             nested_label_function f'); [reflexivity | | reflexivity | exact E].
  vm_compute. repeat constructor; simpl; intuition discriminate.
Defined.

(* ------------------------------------------------------------------ *)
(** ** An invocation whose allocation fails *)
(* ------------------------------------------------------------------ *)

Lemma find_legit_loop_no_memory (hexdsp : hexdsp_t) (f : cfunc_t) (n : nat) :
  find_legit_loop hexdsp false f (S n) fliv_init = Some (fliv_init, 1%nat).
Proof.
  simpl. unfold find_legit_pass. rewrite apply_to_eq. reflexivity.
Qed.

(** X10.  When [malloc] fails, the marking loop ends in its first
    visit with nothing marked, and [Detox] goes on all the same.  It
    returns only for a function without local variables, and the body
    it returns is settled for an empty [vectorLegitItems]: wherever the
    walk descends, every statement that can be cleaned up is gone.  For
    a function with a local variable it does not return: the last loop
    reads through the [NULL] array. *)
Theorem Detox_without_memory (hexdsp : hexdsp_t) (fuel : nat) (f f' : cfunc_t) :
  Detox hexdsp false fuel f = Returns f' ->
  lvars f = [] /\ lvars f' = [] /\ settled [] (body f') = true.
Proof.
  destruct fuel as [|n]; [discriminate|].
  unfold Detox. rewrite find_legit_loop_no_memory.
  cbn [vectorLegitItems afVariableIsLegit fliv_init].
  destruct (prune_loop [] (S n) (S n) (piv_init (body f)))
    as [[piv k]|] eqn:E2; [|discriminate].
  destruct (prune_loop_settled _ _ _ _ _ _ E2) as (S' & _ & _).
  destruct (lvars f); [|discriminate].
  intro E. inversion E; subst. now repeat split.
Qed.

Lemma Detox_without_memory_witness :
  exists f',
    Detox sample_hexdsp false 8 call_function = Returns f' /\
    settled [] (body f') = true.
Proof.
  assert (E : { f' | Detox sample_hexdsp false 8 call_function = Returns f' })
    by (eexists; vm_compute; reflexivity).
  destruct E as [f' E]. exists f'. split; [exact E|].
  apply (Detox_without_memory sample_hexdsp 8 call_function f' E).
Defined.

(* ------------------------------------------------------------------ *)
(** ** Junk is never marked *)
(* ------------------------------------------------------------------ *)

(** In a tree whose items have distinct addresses, two subtrees that
    share an address lie one inside the other. *)
Lemma shared_address_nested (q : nat) : forall p1 p2 T a b,
  NoDup (ptrs T) -> get T p1 = Some a -> get T p2 = Some b ->
  In q (ptrs a) -> In q (ptrs b) ->
  (exists p', p2 = p1 ++ p') \/ (exists p', p1 = p2 ++ p').
Proof.
  induction p1 as [|i1 p1 IH]; intros p2 T a b ND Ha Hb Qa Qb.
  - left. now exists p2.
  - destruct p2 as [|i2 p2]; [right; now exists (i1 :: p1)|].
    simpl in Ha, Hb.
    destruct (nth_error (kids T) i1) as [k1|] eqn:H1; [|discriminate].
    destruct (nth_error (kids T) i2) as [k2|] eqn:H2; [|discriminate].
    destruct T as [h ks]. cbn [kids] in *. rewrite ptrs_eq in ND.
    apply NoDup_cons_iff in ND. destruct ND as [_ ND].
    destruct (Nat.eq_dec i1 i2) as [->|Hne].
    + rewrite H1 in H2. inversion H2; subst k2.
      destruct (IH p2 k1 a b (NoDup_flat_map_kid ptrs ks i2 k1 ND H1) Ha Hb Qa Qb)
        as [[p' ->]|[p' ->]]; [left | right]; now exists p'.
    + exfalso.
      apply (NoDup_flat_map_disjoint ptrs ks i1 i2 k1 k2 q ND H1 H2 Hne).
      * now apply (get_ptrs_incl _ _ _ Ha).
      * now apply (get_ptrs_incl _ _ _ Hb).
Qed.

Lemma flood_free_app (p1 : path) : forall T a i p2,
  flood_free T (p1 ++ i :: p2) = true -> get T p1 = Some a ->
  floods a i = false.
Proof.
  induction p1 as [|j p1 IH]; intros T a i p2 F H; simpl in *.
  - inversion H; subst. apply andb_true_iff in F. destruct F as [F _].
    now destruct (floods a i).
  - apply andb_true_iff in F. destruct F as [_ F].
    destruct (nth_error (kids T) j) as [k|]; [|discriminate].
    now apply (IH k a i p2).
Qed.

Lemma strictly_below (c s : citem_t) (i : nat) (p : path) :
  NoDup (ptrs c) -> get c (i :: p) = Some s -> ~ In (item_ptr c) (ptrs s).
Proof.
  intros ND H Hin. simpl in H.
  destruct (nth_error (kids c) i) as [k|] eqn:Hk; [|discriminate].
  destruct c as [h ks]. cbn [kids] in Hk. rewrite ptrs_eq in ND.
  apply NoDup_cons_iff in ND. destruct ND as [Hx _]. apply Hx.
  apply in_flat_map. exists k. split; [eapply nth_error_In; eauto|].
  now apply (get_ptrs_incl _ _ _ H).
Qed.

Lemma get_NoDup (p : path) : forall T x,
  NoDup (ptrs T) -> get T p = Some x -> NoDup (ptrs x).
Proof.
  induction p as [|i p IH]; intros T x ND H; simpl in H.
  - now inversion H; subst.
  - destruct (nth_error (kids T) i) as [k|] eqn:Hk; [|discriminate].
    destruct T as [h ks]. cbn [kids] in Hk. rewrite ptrs_eq in ND.
    apply NoDup_cons_iff in ND. destruct ND as [_ ND].
    apply (IH k x); [|exact H]. eapply NoDup_flat_map_kid; eauto.
Qed.

Lemma app_snoc_split {A : Type} (l1 r : list A) (i : A) : forall p',
  l1 ++ [i] = r ++ p' ->
  (p' = [] /\ r = l1 ++ [i]) \/ (exists p'', p' = p'' ++ [i] /\ l1 = r ++ p'').
Proof.
  intros p' E. destruct (rev p') as [|j q] eqn:Er.
  - left. assert (p' = []) by (rewrite <- (rev_involutive p'), Er; reflexivity).
    subst p'. now rewrite app_nil_r in E.
  - right. assert (Ep : p' = rev q ++ [j])
      by (rewrite <- (rev_involutive p'), Er; reflexivity).
    subst p'. rewrite app_assoc in E. apply app_inj_tail in E.
    destruct E as [E1 E2]. subst j. now exists (rev q).
Qed.

Lemma marks_ancestors_unmarked (hexdsp : hexdsp_t) (x : citem_t)
    (v : FIND_LEGIT_ITEMS_VISITOR) :
  (item_op x = cot_var -> var_is_legit v (v_idx (hdr x)) = false) ->
  marks_ancestors hexdsp x v = marks_ancestors hexdsp x fliv_init.
Proof.
  intro H. unfold marks_ancestors.
  destruct (ctype_eqb (item_op x) cot_var) eqn:E; [|reflexivity].
  apply ctype_eqb_eq in E. now rewrite (H E).
Qed.

Section FindLegitJunk.
Variable hexdsp : hexdsp_t.
Variable malloc_ok : bool.
Variable pFunction : cfunc_t.
Variable J : list nat.
Variable regions : list path.
Hypothesis body_distinct : NoDup (ptrs (body pFunction)).
Hypothesis is_junk : junk hexdsp pFunction J regions.

Let unmarked := junk_unmarked pFunction J regions.

(** The variables that a walk in MarkingDescendants mode marks are
    those of the variable expressions it runs over. *)
Lemma mark_descendants_vars (e : citem_t) (v : FIND_LEGIT_ITEMS_VISITOR) :
  fInitialized v = true ->
  forall i, var_is_legit (mark_descendants malloc_ok pFunction e v) i = true ->
    var_is_legit v i = true \/
    exists p x, get e p = Some x /\ item_op x = cot_var /\ v_idx (hdr x) = i.
Proof.
  intros F. unfold mark_descendants.
  destruct (apply_to (visit_item_marking malloc_ok pFunction) [] e v)
    as [v' b] eqn:E.
  set (P := fun v0 : FIND_LEGIT_ITEMS_VISITOR =>
              fInitialized v0 = true /\
              forall i, var_is_legit v0 i = true ->
                var_is_legit v i = true \/
                exists p x, get e p = Some x /\ item_op x = cot_var
                            /\ v_idx (hdr x) = i).
  assert (Hstep : forall w t v1 v1' r,
             item_at e w = Some t -> P v1 ->
             visit_item_marking malloc_ok pFunction w t v1 = (v1', r) ->
             match r with Stop => P v1' | _ => P v1' end).
  { intros w t v1 v1' r Hat [F1 P1] Ev.
    assert (P v1').
    { revert Ev. unfold visit_item_marking.
      rewrite (ensure_initialized_set malloc_ok pFunction v1 F1).
      destruct (has (vectorDescendantsMarkedLegit v1) t);
        [intro Ev; inversion Ev; subst; now split|].
      intro Ev. inversion Ev; subst; clear Ev.
      set (vm := if ctype_eqb (item_op t) cot_var
                 then mark_variable (v_idx (hdr t)) v1 else v1).
      assert (Fm : fInitialized vm = true)
        by (unfold vm; now destruct (ctype_eqb (item_op t) cot_var)).
      split.
      - cbn [remember_descended fInitialized].
        destruct (mark_item_spec t vm) as (Fi & _). congruence.
      - intros i Hv.
        assert (Ev : var_is_legit (remember_descended t (mark_item t vm)) i
                     = var_is_legit vm i).
        { unfold var_is_legit, remember_descended, mark_item.
          cbn [afVariableIsLegit]. now destruct (has (vectorLegitItems vm) t). }
        rewrite Ev in Hv. unfold vm in Hv.
        destruct (ctype_eqb (item_op t) cot_var) eqn:Ho; [|now apply P1].
        unfold var_is_legit, mark_variable in Hv. cbn [afVariableIsLegit] in Hv.
        destruct (afVariableIsLegit v1) as [a|] eqn:Ea; [|discriminate].
        simpl in Hv.
        destruct (nth_set_nth_set a _ _ Hv) as [->|H].
        + right. exists (rev w), t. split; [exact Hat|].
          split; [now apply ctype_eqb_eq | reflexivity].
        + apply P1. unfold var_is_legit. now rewrite Ea. }
    now destruct r. }
  assert (P0 : P v) by (split; [exact F | intros i Hi; now left]).
  pose proof (apply_to_places _ e P P Hstep e [] v v' b eq_refl P0 E) as R.
  cbn [fst]. destruct b; apply R.
Qed.

(** A walk in MarkingDescendants mode over a subtree that has no
    address in a region marks no junk. *)
Lemma mark_descendants_junk (pe : path) (e : citem_t)
    (v : FIND_LEGIT_ITEMS_VISITOR) :
  get (body pFunction) pe = Some e ->
  (forall q, In q (ptrs e) -> ~ in_region (body pFunction) regions q) ->
  fInitialized v = true -> descended_in_legit v -> unmarked v ->
  let v' := mark_descendants malloc_ok pFunction e v in
  fInitialized v' = true /\ descended_in_legit v' /\ unmarked v' /\
  incl (vectorLegitItems v) (vectorLegitItems v').
Proof.
  intros He Out F D [U1 U2].
  destruct (mark_descendants_flooded malloc_ok pFunction e v F D)
    as (F' & D' & I' & _ & O').
  split; [exact F'|]. split; [exact D'|]. split; [|exact I'].
  split.
  - intros q Hq Hin. destruct (O' q Hin) as [H|H].
    + now apply (U1 q).
    + now apply (Out q).
  - intros i Hi.
    destruct (var_is_legit (mark_descendants malloc_ok pFunction e v) i) eqn:Ev;
      [|reflexivity].
    exfalso. destruct (mark_descendants_vars e v F i Ev) as [H|(p & x & Hx & Ho & Hv)].
    + rewrite (U2 i Hi) in H. discriminate.
    + destruct is_junk as (_ & J2 & J3).
      assert (Hbx : get (body pFunction) (pe ++ p) = Some x)
        by (now rewrite get_app, He).
      subst i. destruct (J3 _ x Hbx Ho Hi) as (r & p' & Hr & Ep).
      destruct (J2 r Hr) as (s & Hs & _).
      apply (Out (item_ptr x)).
      * apply (get_ptrs_incl _ _ _ Hx), item_ptr_in_ptrs.
      * exists r, s. split; [exact Hr|]. split; [exact Hs|].
        rewrite Ep, get_app, Hs in Hbx.
        apply (get_ptrs_incl _ _ _ Hbx), item_ptr_in_ptrs.
Qed.

Lemma mark_descendants_once_junk (pe : path) (e : citem_t)
    (v : FIND_LEGIT_ITEMS_VISITOR) :
  get (body pFunction) pe = Some e ->
  (forall q, In q (ptrs e) -> ~ in_region (body pFunction) regions q) ->
  fInitialized v = true -> descended_in_legit v -> unmarked v ->
  let v' := mark_descendants_once malloc_ok pFunction e v in
  fInitialized v' = true /\ descended_in_legit v' /\ unmarked v' /\
  incl (vectorLegitItems v) (vectorLegitItems v').
Proof.
  intros He Out F D U. unfold mark_descendants_once.
  destruct (has (vectorDescendantsMarkedLegit v) e).
  - split; [exact F|]. split; [exact D|]. split; [exact U | apply incl_refl].
  - now apply (mark_descendants_junk pe).
Qed.

(** The items that a legitimate item hands to MarkingDescendants mode
    have no address in a region. *)
Lemma legit_kid_outside (w : where_t) (t e : citem_t) (i : nat)
    (v : FIND_LEGIT_ITEMS_VISITOR) :
  unmarked v ->
  item_at (body pFunction) w = Some t ->
  In (item_ptr t) (vectorLegitItems v) ->
  nth_error (kids t) i = Some e -> floods t i = true ->
  forall q, In q (ptrs e) -> ~ in_region (body pFunction) regions q.
Proof.
  intros [U1 _] Hat Ht He Fl q Hq (r & s & Hr & Hs & Hqs).
  destruct is_junk as (_ & J2 & _).
  destruct (J2 r Hr) as (s' & Hs' & Ff & _).
  rewrite Hs in Hs'. inversion Hs'; subst s'. clear Hs'.
  assert (Hpe : get (body pFunction) (rev w ++ [i]) = Some e)
    by (unfold item_at in Hat; rewrite get_app, Hat; simpl; now rewrite He).
  assert (Inside : forall p', r = rev w ++ i :: p' -> False).
  { intros p' ->. unfold item_at in Hat.
    rewrite (flood_free_app _ _ _ _ _ Ff Hat) in Fl. discriminate. }
  destruct (shared_address_nested q _ _ _ _ _ body_distinct Hpe Hs Hq Hqs)
    as [[p' Ep]|[p' Ep]].
  - apply (Inside p'). rewrite Ep. now rewrite <- app_assoc.
  - destruct (app_snoc_split _ _ _ _ Ep) as [[-> Er]|(p'' & -> & Ew)].
    + apply (Inside []). exact Er.
    + apply (U1 (item_ptr t)); [|exact Ht].
      exists r, s. split; [exact Hr|]. split; [exact Hs|].
      unfold item_at in Hat. rewrite Ew, get_app, Hs in Hat.
      apply (get_ptrs_incl _ _ _ Hat), item_ptr_in_ptrs.
Qed.

Lemma governing_expression_floods (t e : citem_t) :
  governing_expression t = Some e ->
  exists i, nth_error (kids t) i = Some e /\ floods t i = true.
Proof.
  unfold governing_expression, floods.
  destruct (item_op t); try discriminate; intro H; eauto.
Qed.

Lemma visit_legit_item_junk (w : where_t) (t : citem_t)
    (v : FIND_LEGIT_ITEMS_VISITOR) :
  item_at (body pFunction) w = Some t ->
  In (item_ptr t) (vectorLegitItems v) ->
  fInitialized v = true -> descended_in_legit v -> unmarked v ->
  let v' := visit_legit_item malloc_ok pFunction t v in
  descended_in_legit v' /\ unmarked v'.
Proof.
  intros Hat Ht F D U. unfold visit_legit_item.
  assert (Kid : forall i e v0,
             nth_error (kids t) i = Some e -> floods t i = true ->
             In (item_ptr t) (vectorLegitItems v0) ->
             fInitialized v0 = true -> descended_in_legit v0 -> unmarked v0 ->
             let v' := mark_descendants_once malloc_ok pFunction e v0 in
             fInitialized v' = true /\ descended_in_legit v' /\ unmarked v' /\
             incl (vectorLegitItems v0) (vectorLegitItems v')).
  { intros i e v0 He Fl Ht0 F0 D0 U0.
    apply (mark_descendants_once_junk (rev w ++ [i])); auto.
    - unfold item_at in Hat. rewrite get_app, Hat. simpl. now rewrite He.
    - now apply (legit_kid_outside w t e i v0). }
  destruct (governing_expression t) as [e|] eqn:Ge; [|now split].
  destruct (governing_expression_floods t e Ge) as (i & He & Fl).
  pose proof (Kid i e v He Fl Ht F D U) as M.
  unfold mark_descendants_once in M.
  destruct (has (vectorDescendantsMarkedLegit v) e); [now split|].
  destruct M as (F1 & D1 & U1 & I1).
  destruct (ctype_eqb (item_op t) cit_for) eqn:Ef; [|now split].
  apply ctype_eqb_eq in Ef.
  assert (Step : forall j v0,
             (j < 3)%nat ->
             In (item_ptr t) (vectorLegitItems v0) ->
             fInitialized v0 = true -> descended_in_legit v0 -> unmarked v0 ->
             let v' := mark_opt malloc_ok pFunction (nth_error (kids t) j) v0 in
             fInitialized v' = true /\ descended_in_legit v' /\ unmarked v' /\
             incl (vectorLegitItems v0) (vectorLegitItems v')).
  { intros j v0 Hj Ht0 F0 D0 U0.
    destruct (nth_error (kids t) j) as [e0|] eqn:E0; simpl.
    - apply (Kid j e0 v0 E0); auto.
      unfold floods. rewrite Ef. now apply Nat.ltb_lt.
    - split; [exact F0|]. split; [exact D0|].
      split; [exact U0 | apply incl_refl]. }
  destruct (Step O _ ltac:(lia) (I1 _ Ht) F1 D1 U1) as (F2 & D2 & U2 & I2).
  destruct (Step 2%nat _ ltac:(lia) (I2 _ (I1 _ Ht)) F2 D2 U2)
    as (F3 & D3 & U3 & I3).
  now split.
Qed.

(** An item at a position outside the regions has its address in no
    region, and if it floods what it owns, neither has any item below
    it. *)
Lemma outside_not_in_region (p : path) (c : citem_t) :
  get (body pFunction) p = Some c -> outside regions p ->
  ~ in_region (body pFunction) regions (item_ptr c) /\
  ((forall i, floods c i = true) ->
   forall q, In q (ptrs c) -> ~ in_region (body pFunction) regions q).
Proof.
  intros Hc Out. destruct is_junk as (_ & J2 & _). split.
  - intros (r & s & Hr & Hs & Hq).
    destruct (shared_address_nested (item_ptr c) _ _ _ _ _ body_distinct Hc Hs
                (item_ptr_in_ptrs c) Hq) as [[p' Ep]|[p' Ep]].
    + destruct p' as [|i p'].
      * apply (Out r []); [exact Hr|]. rewrite Ep. now rewrite !app_nil_r.
      * rewrite Ep, get_app, Hc in Hs.
        exact (strictly_below c s i p' (get_NoDup _ _ _ body_distinct Hc) Hs Hq).
    + exact (Out r p' Hr Ep).
  - intros Fl q Hq (r & s & Hr & Hs & Hqs).
    destruct (J2 r Hr) as (s' & Hs' & Ff & _).
    destruct (shared_address_nested q _ _ _ _ _ body_distinct Hc Hs Hq Hqs)
      as [[p' Ep]|[p' Ep]].
    + destruct p' as [|i p'].
      * apply (Out r []); [exact Hr|]. rewrite Ep. now rewrite !app_nil_r.
      * rewrite Ep in Ff. specialize (Fl i).
        rewrite (flood_free_app _ _ _ _ _ Ff Hc) in Fl. discriminate.
    + exact (Out r p' Hr Ep).
Qed.

Lemma mark_ancestor_floods (c : citem_t) :
  (ctype_eqb (item_op c) cit_expr
   || (ctype_eqb (item_op c) cot_call && IsLegitimateCall hexdsp c)
   || ctype_eqb (item_op c) cit_return) = true ->
  forall i, floods c i = true.
Proof.
  unfold floods. intros H i. destruct (item_op c); simpl in H;
    try discriminate; reflexivity.
Qed.

Lemma mark_ancestor_junk (p : path) (c : citem_t)
    (v : FIND_LEGIT_ITEMS_VISITOR) :
  get (body pFunction) p = Some c -> outside regions p ->
  fInitialized v = true -> descended_in_legit v -> unmarked v ->
  let v' := mark_ancestor hexdsp malloc_ok pFunction c v in
  fInitialized v' = true /\ descended_in_legit v' /\ unmarked v'.
Proof.
  intros Hc Out F D [U1 U2]. unfold mark_ancestor.
  destruct (outside_not_in_region p c Hc Out) as [N1 N2].
  destruct (mark_item_spec c v) as (Fi & Di & Ii & _ & Oi).
  assert (Fm : fInitialized (mark_item c v) = true) by congruence.
  assert (Dm : descended_in_legit (mark_item c v)).
  { unfold descended_in_legit. rewrite Di. eapply incl_tran; [exact D | exact Ii]. }
  assert (Um : unmarked (mark_item c v)).
  { split.
    - intros q Hq Hin. destruct (Oi q Hin) as [H| ->]; [now apply (U1 q)|].
      now apply N1.
    - intros i Hi. rewrite <- (U2 i Hi). unfold var_is_legit, mark_item.
      now destruct (has (vectorLegitItems v) c). }
  destruct (ctype_eqb (item_op c) cit_expr
            || (ctype_eqb (item_op c) cot_call && IsLegitimateCall hexdsp c)
            || ctype_eqb (item_op c) cit_return) eqn:Cond;
    [|split; [exact Fm | split; [exact Dm | exact Um]]].
  destruct (mark_descendants_once_junk p c (mark_item c v) Hc
              (N2 (mark_ancestor_floods c Cond)) Fm Dm Um) as (F' & D' & U' & _).
  split; [exact F' | split; [exact D' | exact U']].
Qed.

Lemma outside_parent (i : nat) (w : where_t) :
  outside regions (rev (i :: w)) -> outside regions (rev w).
Proof.
  intros Out r p' Hr E. apply (Out r (p' ++ [i]) Hr).
  simpl. rewrite E. now rewrite <- app_assoc.
Qed.

Lemma mark_ancestors_junk (w : where_t) : forall t v,
  item_at (body pFunction) w = Some t -> outside regions (rev w) ->
  fInitialized v = true -> descended_in_legit v -> unmarked v ->
  let v' := mark_ancestors hexdsp malloc_ok pFunction t w v in
  descended_in_legit v' /\ unmarked v'.
Proof.
  induction w as [|i w IH]; intros t v Hat Out F D U; simpl.
  - destruct (mark_ancestor_junk [] t v Hat Out F D U) as (_ & D' & U').
    now split.
  - destruct (mark_ancestor_junk (rev (i :: w)) t v Hat Out F D U)
      as (F' & D' & U').
    destruct (item_at (body pFunction) w) as [par|] eqn:Hpar; [|now split].
    apply (IH par); auto. exact (outside_parent i w Out).
Qed.

(** An item that Scanning mode takes for legitimate stands outside the
    regions. *)
Lemma candidate_outside (w : where_t) (t : citem_t)
    (v : FIND_LEGIT_ITEMS_VISITOR) :
  unmarked v -> item_at (body pFunction) w = Some t ->
  marks_ancestors hexdsp t v = true -> outside regions (rev w).
Proof.
  intros [_ U2] Hat M r p' Hr E.
  destruct is_junk as (_ & J2 & _).
  destruct (J2 r Hr) as (s & Hs & _ & As).
  unfold item_at in Hat. rewrite E, get_app, Hs in Hat.
  pose proof (all_items_get _ _ _ _ As Hat) as At.
  destruct t as [h ks]. rewrite all_items_eq in At.
  apply andb_true_iff in At. destruct At as [Jt _].
  unfold junk_item in Jt. apply andb_true_iff in Jt. destruct Jt as [Jv Jm].
  rewrite marks_ancestors_unmarked in M.
  - rewrite M in Jm. discriminate.
  - intro Ev. apply U2. rewrite Ev in Jv. simpl in Jv.
    apply existsb_exists in Jv. destruct Jv as (j & Hj & Ej).
    apply Nat.eqb_eq in Ej. cbn [hdr]. now rewrite Ej.
Qed.

Lemma ensure_initialized_junk (v v1 : FIND_LEGIT_ITEMS_VISITOR) :
  unmarked v -> ensure_initialized malloc_ok pFunction v = Some v1 ->
  unmarked v1.
Proof.
  intros [U1 U2] E. destruct (ensure_initialized_marks malloc_ok pFunction v v1 E)
    as (_ & L1 & _).
  split; [now rewrite L1|].
  intros i Hi. revert E. unfold ensure_initialized, Initialize.
  destruct (fInitialized v); [intro E; inversion E; subst; now apply U2|].
  destruct malloc_ok; [|discriminate]. intro E. inversion E; subst; clear E.
  unfold var_is_legit. cbn [afVariableIsLegit].
  destruct is_junk as (J1 & _ & _).
  destruct (nth_error (lvars pFunction) i) as [x|] eqn:Hx.
  - rewrite (nth_indep _ false (is_arg_var x)).
    + rewrite map_nth. rewrite (nth_error_nth _ _ _ Hx). now apply (J1 i x).
    + rewrite length_map. apply nth_error_Some. congruence.
  - apply nth_overflow. rewrite length_map. now apply nth_error_None.
Qed.

Lemma visit_item_scanning_junk (w : where_t) (t : citem_t)
    (v : FIND_LEGIT_ITEMS_VISITOR) :
  item_at (body pFunction) w = Some t ->
  descended_in_legit v -> unmarked v ->
  let v' := fst (visit_item_scanning hexdsp malloc_ok pFunction w t v) in
  descended_in_legit v' /\ unmarked v'.
Proof.
  intros Hat D U. unfold visit_item_scanning.
  destruct (ensure_initialized malloc_ok pFunction v) as [v1|] eqn:E;
    [|now split].
  destruct (ensure_initialized_marks malloc_ok pFunction v v1 E) as (F1 & L1 & D1).
  assert (Dv1 : descended_in_legit v1)
    by (unfold descended_in_legit; now rewrite L1, D1).
  pose proof (ensure_initialized_junk v v1 U E) as U1.
  destruct (has (vectorLegitItems v1) t) eqn:Hl; cbn [fst].
  - apply (visit_legit_item_junk w t v1); auto. now apply has_true_iff.
  - destruct (marks_ancestors hexdsp t v1) eqn:M; cbn [fst]; [|now split].
    apply (mark_ancestors_junk w t v1); auto.
    exact (candidate_outside w t v1 U1 Hat M).
Qed.

Lemma find_legit_pass_junk (v : FIND_LEGIT_ITEMS_VISITOR) :
  descended_in_legit v -> unmarked v ->
  descended_in_legit (find_legit_pass hexdsp malloc_ok pFunction v) /\
  unmarked (find_legit_pass hexdsp malloc_ok pFunction v).
Proof.
  intros D U. unfold find_legit_pass.
  destruct (apply_to (visit_item_scanning hexdsp malloc_ok pFunction) []
              (body pFunction) (set_fNewLegitItemFound false v))
    as [v' b] eqn:E.
  set (K := fun v0 => descended_in_legit v0 /\ unmarked v0).
  assert (Hstep : forall w t v1 v1' r,
             item_at (body pFunction) w = Some t -> K v1 ->
             visit_item_scanning hexdsp malloc_ok pFunction w t v1 = (v1', r) ->
             match r with Stop => K v1' | _ => K v1' end).
  { intros w t v1 v1' r Hat [D1 U1] Ev.
    assert (K v1').
    { replace v1' with
        (fst (visit_item_scanning hexdsp malloc_ok pFunction w t v1))
        by (now rewrite Ev).
      now apply visit_item_scanning_junk. }
    now destruct r. }
  pose proof (apply_to_places _ (body pFunction) K K Hstep (body pFunction) []
                (set_fNewLegitItemFound false v) v' b eq_refl
                (conj D U) E) as R.
  cbn [fst]. now destruct b.
Qed.

Lemma find_legit_loop_junk (fuel : nat) : forall v v' k,
  descended_in_legit v -> unmarked v ->
  find_legit_loop hexdsp malloc_ok pFunction fuel v = Some (v', k) ->
  unmarked v'.
Proof.
  induction fuel as [|fuel IH]; intros v v' k D U E; simpl in E; [discriminate|].
  destruct (find_legit_pass_junk v D U) as [D1 U1].
  destruct (fNewLegitItemFound (find_legit_pass hexdsp malloc_ok pFunction v)).
  - destruct (find_legit_loop hexdsp malloc_ok pFunction fuel
                (find_legit_pass hexdsp malloc_ok pFunction v))
      as [[v2 n]|] eqn:E2; [|discriminate].
    inversion E; subst. exact (IH _ _ _ D1 U1 E2).
  - inversion E; subst. exact U1.
Qed.
End FindLegitJunk.

(** X11.  Junk is never marked.  Take variables [J], none an argument,
    and subtrees of the body that stand in statement parts and are made
    of junk items only (references to variables of [J] that are not
    exception records, helper calls of the deny list, and items of the
    kinds Scanning mode does not act on), such that every reference to
    a variable of [J] lies in one of them.  If the items of the body
    have distinct addresses, then when the marking loop returns no item
    of these subtrees is in [vectorLegitItems] and no variable of [J]
    has its [afVariableIsLegit] entry set. *)
Theorem junk_is_never_marked (hexdsp : hexdsp_t) (malloc_ok : bool)
    (f : cfunc_t) (J : list nat) (regions : list path) (fuel : nat)
    (v : FIND_LEGIT_ITEMS_VISITOR) (k : nat) :
  NoDup (ptrs (body f)) ->
  junk hexdsp f J regions ->
  find_legit_loop hexdsp malloc_ok f fuel fliv_init = Some (v, k) ->
  junk_unmarked f J regions v.
Proof.
  intros ND Hj E.
  apply (find_legit_loop_junk hexdsp malloc_ok f J regions ND Hj fuel
           fliv_init v k); [intros a [] | | exact E].
  split; [intros q _ [] | reflexivity].
Qed.

(* ------------------------------------------------------------------ *)
(** ** All that pruning does to the tree *)
(* ------------------------------------------------------------------ *)

Lemma pruned_from_eq (h0 : citem_hdr) (ks0 : list citem_t) (t : citem_t) :
  pruned_from (Citem h0 ks0) t =
  ((emptied (hdr t) h0 /\ kids t = []) \/
   (same_item (hdr t) h0 /\
    kids_from pruned_from (op h0 = cit_block) ks0 (kids t))).
Proof. reflexivity. Qed.

Lemma same_item_refl (h : citem_hdr) : same_item h h.
Proof. now repeat split. Qed.

Lemma kids_from_refl (R : citem_t -> citem_t -> Prop) (blk : Prop)
    (l : list citem_t) :
  Forall (fun k => R k k) l -> kids_from R blk l l.
Proof.
  induction 1 as [|k l Hk _ IH]; simpl; [reflexivity|]. right. now split.
Qed.

Lemma pruned_from_refl (t : citem_t) : pruned_from t t.
Proof.
  induction t as [h ks IH] using citem_t_ind. rewrite pruned_from_eq.
  right. split; [apply same_item_refl|]. now apply kids_from_refl.
Qed.

Lemma kids_from_update_nth (R : citem_t -> citem_t -> Prop) (blk : Prop)
    (g : citem_t -> citem_t) :
  (forall k0 k, R k0 k -> R k0 (g k)) ->
  forall l0 l i, kids_from R blk l0 l -> kids_from R blk l0 (update_nth i g l).
Proof.
  intro Hg. induction l0 as [|k0 l0 IH]; intros l i H; simpl in *.
  - subst l. now destruct i.
  - destruct H as [[B H]|H]; [left; split; auto|].
    destruct l as [|k l]; [contradiction|]. destruct H as [Hk H].
    right. destruct i as [|i]; simpl; split; auto.
Qed.

Lemma kids_from_erase_nth (R : citem_t -> citem_t -> Prop) (blk : Prop) :
  blk ->
  forall l0 l i, kids_from R blk l0 l -> kids_from R blk l0 (erase_nth i l).
Proof.
  intro B. induction l0 as [|k0 l0 IH]; intros l i H; simpl in *.
  - subst l. now destruct i.
  - destruct H as [[_ H]|H]; [left; split; auto|].
    destruct l as [|k l]; [contradiction|]. destruct H as [Hk H].
    destruct i as [|i]; simpl.
    + left. now split.
    + right. split; auto.
Qed.

Lemma kids_from_map (R : citem_t -> citem_t -> Prop) (blk : Prop)
    (g : citem_t -> citem_t) :
  forall l, Forall (fun k => forall k0, R k0 k -> R k0 (g k)) l ->
  forall l0, kids_from R blk l0 l -> kids_from R blk l0 (map g l).
Proof.
  intros l Hl l0. revert l Hl.
  induction l0 as [|k0 l0 IH]; intros l Hl H; simpl in *.
  - now subst l.
  - destruct H as [[B H]|H]; [left; split; auto|].
    destruct l as [|k l]; [contradiction|]. destruct H as [Hk H].
    inversion Hl; subst. right. simpl. split; auto.
Qed.

Lemma kids_from_nil (R : citem_t -> citem_t -> Prop) (blk : Prop)
    (l0 l : list citem_t) :
  kids_from R blk l0 l -> l0 = [] -> l = [].
Proof. intros H ->. exact H. Qed.

(** A change of the item standing at a position keeps the relation if
    it keeps it for that item. *)
Lemma pruned_from_update (f : citem_t -> citem_t) (p : path) : forall t0 t,
  pruned_from t0 t ->
  (forall x, get t p = Some x ->
             forall x0, pruned_from x0 x -> pruned_from x0 (f x)) ->
  pruned_from t0 (update t p f).
Proof.
  induction p as [|i p IH]; intros t0 t H Hf.
  - simpl. now apply (Hf t).
  - destruct t0 as [h0 ks0], t as [h ks].
    change (update (Citem h ks) (i :: p) f)
      with (Citem h (update_nth i (fun k => update k p f) ks)).
    rewrite pruned_from_eq in *. cbn [hdr kids] in *.
    destruct H as [[E K]|[S K]].
    + left. split; [exact E|]. subst ks. now destruct i.
    + right. split; [exact S|].
      assert (G : forall l0 l j,
                 (forall x, match nth_error l j with
                            | Some k => get k p
                            | None => None
                            end = Some x ->
                            forall x0, pruned_from x0 x -> pruned_from x0 (f x)) ->
                 kids_from pruned_from (op h0 = cit_block) l0 l ->
                 kids_from pruned_from (op h0 = cit_block) l0
                   (update_nth j (fun k => update k p f) l)).
      { clear - IH. induction l0 as [|k0 l0 IHl]; intros l j Hf H; simpl in *.
        - subst l. now destruct j.
        - destruct H as [[B H]|H]; [left; split; auto|].
          destruct l as [|k l]; [contradiction|]. destruct H as [Hk H].
          right. destruct j as [|j]; simpl in *; split; auto. }
      apply G; [|exact K]. intros x Hx. apply Hf. exact Hx.
Qed.

Lemma pruned_from_hdr (t0 t : citem_t) :
  pruned_from t0 t ->
  self (hdr t) = self (hdr t0) /\ ea (hdr t) = ea (hdr t0) /\
  (item_op t = item_op t0 \/ (item_op t = cit_empty /\ kids t = [])).
Proof.
  destruct t0 as [h0 ks0]. rewrite pruned_from_eq. unfold item_op. cbn [hdr].
  intros [[(Es & Eo & Ea) K]|[(Es & Eo & Ea & _) _]]; repeat split; auto.
Qed.

Lemma pruned_from_relabel (n : Z) (x0 x : citem_t) :
  pruned_from x0 x -> pruned_from x0 (relabel n x).
Proof.
  destruct x0 as [h0 ks0], x as [h ks]. rewrite !pruned_from_eq.
  unfold relabel. cbn [hdr kids]. intros [[E K]|[S K]]; [left | right];
    (split; [|exact K]).
  - destruct E as (E1 & E2 & E3). now repeat split.
  - destruct S as (S1 & S2 & S3 & S4 & S5 & S6). now repeat split.
Qed.

Lemma pruned_from_cleanup (x0 x : citem_t) :
  pruned_from x0 x -> pruned_from x0 (cleanup x).
Proof.
  intro H. destruct (pruned_from_hdr x0 x H) as (Es & Ea & _).
  destruct x0 as [h0 ks0], x as [h ks]. rewrite pruned_from_eq.
  left. unfold cleanup. cbn [hdr kids] in *. now repeat split.
Qed.

Lemma pruned_from_erase_child (i : nat) (x0 x : citem_t) :
  item_op x = cit_block ->
  pruned_from x0 x -> pruned_from x0 (erase_child i x).
Proof.
  destruct x0 as [h0 ks0], x as [h ks]. rewrite !pruned_from_eq.
  unfold erase_child, item_op. cbn [hdr kids]. intros B [[E K]|[S K]].
  - left. split; [exact E|]. subst ks. now destruct i.
  - right. split; [exact S|]. apply kids_from_erase_nth; [|exact K].
    destruct S as (_ & So & _). congruence.
Qed.

Lemma pruned_from_change_gotos (nOld nNew : Z) (x : citem_t) : forall x0,
  pruned_from x0 x -> pruned_from x0 (change_gotos nOld nNew x).
Proof.
  induction x as [h ks IH] using citem_t_ind. intros x0 H.
  pose proof (pruned_from_hdr x0 _ H) as (Es & Ea & _).
  destruct x0 as [h0 ks0]. cbn [hdr] in *.
  assert (Keep : forall h', self h' = self h -> op h' = op h -> ea h' = ea h ->
                 v_idx h' = v_idx h -> type h' = type h -> helper h' = helper h ->
                 pruned_from (Citem h0 ks0)
                   (Citem h' (map (change_gotos nOld nNew) ks))).
  { intros h' E1 E2 E3 E4 E5 E6. rewrite pruned_from_eq in *. cbn [hdr kids] in *.
    destruct H as [[(A1 & A2 & A3) K]|[(S1 & S2 & S3 & S4 & S5 & S6) K]].
    - left. subst ks. split; [|reflexivity]. repeat split; congruence.
    - right. split; [repeat split; congruence|].
      now apply kids_from_map. }
  rewrite change_gotos_eq.
  destruct (negb (ctype_eqb (op h) cit_goto && (goto_label h =? nOld)));
    [now apply Keep|].
  destruct (negb (nNew =? -1)); [now apply Keep|].
  rewrite pruned_from_eq. left. unfold goto_to_return, cleanup, replace_by.
  cbn [hdr kids self op ea]. now repeat split.
Qed.

Lemma prune_loop_pruned_from (legit : list nat) (fuel n : nat)
    (v v' : PRUNE_ITEMS_VISITOR) (k : nat) :
  prune_loop legit fuel n v = Some (v', k) ->
  pruned_from (ctree v) (ctree v').
Proof.
  intro E.
  apply (prune_loop_keeps legit fuel (pruned_from (ctree v)))
    with (n := n) (v := v) (k := k); [| | | | |exact E].
  - intros t w x i H Hx Hb _. apply pruned_from_update; [exact H|].
    intros x1 Hx1 x0. unfold item_at in Hx. rewrite Hx in Hx1.
    inversion Hx1; subst x1. now apply pruned_from_erase_child.
  - intros t w m H _. apply pruned_from_update; [exact H|].
    intros x _ x0. apply pruned_from_relabel.
  - intros t w a b H _. apply pruned_from_update; [exact H|].
    intros x _ x0. apply pruned_from_change_gotos.
  - intros t w H _. apply pruned_from_update; [exact H|].
    intros x _ x0. apply pruned_from_cleanup.
  - apply pruned_from_refl.
Qed.

(** X12.  All that [Detox] does to the body.  Every item of the body
    it returns is an item of the body it was given, at the place where
    it was: either it has been emptied ([cit_empty], owning nothing
    any more), or it is unchanged but for its label number and goto
    target and owns what is left of the items it owned, in the same
    order.  Only blocks have lost items; nothing is added, moved or
    turned into another kind. *)
Theorem Detox_only_prunes (hexdsp : hexdsp_t) (malloc_ok : bool) (fuel : nat)
    (f f' : cfunc_t) :
  Detox hexdsp malloc_ok fuel f = Returns f' ->
  pruned_from (body f) (body f').
Proof.
  intro E. destruct (Detox_body _ _ _ _ _ E) as (fliv & k & piv & k' & _ & E2 & ->).
  exact (prune_loop_pruned_from _ _ _ _ _ _ E2).
Qed.

Lemma Detox_only_prunes_witness :
  exists f',
    Detox sample_hexdsp true 8 goto_function = Returns f' /\
    pruned_from (body goto_function) (body f').
Proof.
  assert (E : { f' | Detox sample_hexdsp true 8 goto_function = Returns f' })
    by (eexists; vm_compute; reflexivity).
  destruct E as [f' E]. exists f'. split; [exact E|].
  exact (Detox_only_prunes sample_hexdsp true 8 goto_function f' E).
Defined.

(* ------------------------------------------------------------------ *)
(** ** Junk is removed *)
(* ------------------------------------------------------------------ *)

Lemma kids_from_nth (R : citem_t -> citem_t -> Prop) (blk : Prop) :
  forall l0 l i k,
    kids_from R blk l0 l -> nth_error l i = Some k ->
    exists i0 k0, nth_error l0 i0 = Some k0 /\ R k0 k.
Proof.
  induction l0 as [|k0 l0 IH]; intros l i k H Hk; simpl in H.
  - subst l. destruct i; discriminate Hk.
  - destruct H as [[_ H]|H].
    + destruct (IH l i k H Hk) as (i0 & k1 & H1 & H2).
      now exists (S i0), k1.
    + destruct l as [|k' l]; [contradiction|]. destruct H as [Hk' H].
      destruct i as [|i]; simpl in Hk.
      * inversion Hk; subst. now exists O, k0.
      * destruct (IH l i k H Hk) as (i0 & k1 & H1 & H2).
        now exists (S i0), k1.
Qed.

(** An item of the pruned tree comes from an item of the tree it was
    pruned from, and the items that own it are of the same kinds as
    those that owned that one. *)
Lemma pruned_from_get (p : path) : forall T0 T x,
  pruned_from T0 T -> get T p = Some x ->
  exists p0 x0,
    get T0 p0 = Some x0 /\ pruned_from x0 x /\
    ops_along T p = ops_along T0 p0.
Proof.
  induction p as [|i p IH]; intros T0 T x H Hx; simpl in Hx.
  - inversion Hx; subst. now exists [], T0.
  - destruct (nth_error (kids T) i) as [k|] eqn:Hk; [|discriminate].
    destruct T0 as [h0 ks0]. rewrite pruned_from_eq in H.
    destruct H as [[_ K]|[(_ & So & _) K]]; [rewrite K in Hk; destruct i; discriminate|].
    destruct (kids_from_nth _ _ _ _ _ _ K Hk) as (i0 & k0 & Hk0 & Pk).
    destruct (IH k0 k x Pk Hx) as (p0 & x0 & Hx0 & Px & Eo).
    exists (i0 :: p0), x0. split; [simpl; now rewrite Hk0|]. split; [exact Px|].
    simpl. rewrite Hk, Hk0, Eo. unfold item_op. cbn [hdr]. now rewrite So.
Qed.

Lemma same_address_same_place (T : citem_t) (p1 p2 : path) (a b : citem_t) :
  NoDup (ptrs T) -> get T p1 = Some a -> get T p2 = Some b ->
  item_ptr a = item_ptr b -> p1 = p2.
Proof.
  intros ND Ha Hb E.
  destruct (shared_address_nested (item_ptr a) p1 p2 T a b ND Ha Hb
              (item_ptr_in_ptrs a)) as [[p' Ep]|[p' Ep]].
  - rewrite E. apply item_ptr_in_ptrs.
  - destruct p' as [|i p']; [now rewrite app_nil_r in Ep|]. exfalso.
    rewrite Ep, get_app, Ha in Hb.
    apply (strictly_below a b i p' (get_NoDup _ _ _ ND Ha) Hb).
    rewrite E. apply item_ptr_in_ptrs.
  - destruct p' as [|i p']; [now rewrite app_nil_r in Ep|]. exfalso.
    rewrite Ep, get_app, Hb in Ha.
    apply (strictly_below b a i p' (get_NoDup _ _ _ ND Hb) Ha).
    rewrite <- E. apply item_ptr_in_ptrs.
Qed.

Lemma settled_kids (legit : list nat) (h : citem_hdr) (ks : list citem_t) :
  settled legit (Citem h ks) = true -> never_cleaned (op h) = false ->
  forallb (settled legit) ks = true.
Proof.
  rewrite settled_eq. intros S N.
  destruct (ctype_eqb (op h) cit_block).
  - now destruct (first_empty ks).
  - rewrite N in S. apply andb_true_iff in S. apply S.
Qed.

Lemma settled_descend (legit : list nat) (p : path) : forall T x,
  settled legit T = true -> get T p = Some x -> walk_enters T p = true ->
  settled legit x = true.
Proof.
  induction p as [|i p IH]; intros T x S Hx W; simpl in Hx.
  - now inversion Hx; subst.
  - destruct (nth_error (kids T) i) as [k|] eqn:Hk; [|discriminate].
    unfold walk_enters in W. simpl in W. rewrite Hk in W.
    apply andb_true_iff in W. destruct W as [N W].
    destruct T as [h ks]. cbn [kids] in Hk. unfold item_op in N. cbn [hdr] in N.
    apply negb_true_iff in N.
    pose proof (settled_kids legit h ks S N) as Sk.
    rewrite forallb_forall in Sk.
    apply (IH k x); [apply Sk; eapply nth_error_In; eauto | exact Hx | exact W].
Qed.

Lemma settled_cleanable (legit : list nat) (x : citem_t) :
  settled legit x = true -> cleanable (item_op x) = true -> has legit x = true.
Proof.
  destruct x as [h ks]. rewrite settled_eq. unfold cleanable, item_op.
  cbn [hdr]. intros S C.
  apply andb_true_iff in C. destruct C as [C X].
  apply andb_true_iff in C. destruct C as [B N].
  apply negb_true_iff in B, N, X. rewrite B, N, X in S.
  rewrite orb_false_r in S. apply andb_true_iff in S. apply S.
Qed.

Lemma first_empty_none (l : list citem_t) :
  first_empty l = None ->
  forall i k, nth_error l i = Some k -> item_op k <> cit_empty.
Proof.
  induction l as [|x l IH]; intros H i k Hk; [destruct i; discriminate|].
  simpl in H.
  destruct (ctype_eqb (item_op x) cit_empty || ctype_eqb (item_op x) cot_empty)
    eqn:E; [discriminate|].
  destruct (first_empty l); [discriminate|].
  destruct i as [|i]; simpl in Hk.
  - inversion Hk; subst. intro Ek. rewrite Ek in E. discriminate.
  - now apply (IH eq_refl i).
Qed.

Lemma ops_along_snoc (p : path) : forall T b i x,
  get T p = Some b -> nth_error (kids b) i = Some x ->
  ops_along T (p ++ [i]) = ops_along T p ++ [item_op b].
Proof.
  induction p as [|j p IH]; intros T b i x Hb Hx; simpl in *.
  - inversion Hb; subst. now rewrite Hx.
  - destruct (nth_error (kids T) j) as [k|]; [|discriminate].
    now rewrite (IH k b i x Hb Hx).
Qed.

Lemma get_snoc (p : path) (i : nat) (T x : citem_t) :
  get T (p ++ [i]) = Some x ->
  exists b, get T p = Some b /\ nth_error (kids b) i = Some x.
Proof.
  rewrite get_app. destruct (get T p) as [b|]; [|discriminate].
  simpl. destruct (nth_error (kids b) i) as [k|] eqn:Hk; [|discriminate].
  intro H. inversion H; subst. now exists b.
Qed.

(** In a settled tree, an empty statement that the walk can reach is
    not owned by a block. *)
Lemma settled_empty_owner (legit : list nat) (T x : citem_t) (p : path) :
  settled legit T = true -> get T p = Some x -> walk_enters T p = true ->
  item_op x = cit_empty -> last (ops_along T p) cit_empty <> cit_block.
Proof.
  intros S Hx W Ex.
  destruct (rev p) as [|i q] eqn:Er.
  - assert (p = []) by (rewrite <- (rev_involutive p), Er; reflexivity).
    subst p. simpl. discriminate.
  - assert (Ep : p = rev q ++ [i])
      by (rewrite <- (rev_involutive p), Er; reflexivity).
    subst p. destruct (get_snoc _ _ _ _ Hx) as (b & Hb & Hk).
    rewrite (ops_along_snoc _ _ _ _ _ Hb Hk), last_last.
    intro Eb.
    assert (Wb : walk_enters T (rev q) = true).
    { unfold walk_enters in *. rewrite (ops_along_snoc _ _ _ _ _ Hb Hk) in W.
      rewrite forallb_app in W. apply andb_true_iff in W. apply W. }
    pose proof (settled_descend legit _ _ _ S Hb Wb) as Sb.
    destruct b as [hb kb]. rewrite settled_eq in Sb. unfold item_op in Eb.
    cbn [hdr kids] in *. rewrite Eb in Sb. simpl in Sb.
    destruct (first_empty kb) eqn:Fe; [discriminate|].
    exact (first_empty_none kb Fe i x Hk Ex).
Qed.

(** X13.  Junk is removed.  Take variables [J] and junk subtrees as
    [junk] describes them, in a function whose items have distinct
    addresses.  When [Detox] returns, the [CVAR_USED] flag of every
    variable of [J] is clear, and a junk
    subtree that is a statement [cleanup()] applies to, at a position
    the Pruning walk can enter, is gone: an item of the returned body
    with its address can only be the [cit_empty] left in its place,
    owning nothing, and only where the statement was not owned by a
    block. *)
Theorem Detox_removes_junk (hexdsp : hexdsp_t) (malloc_ok : bool) (fuel : nat)
    (f f' : cfunc_t) (J : list nat) (regions : list path) :
  NoDup (ptrs (body f)) ->
  junk hexdsp f J regions ->
  Detox hexdsp malloc_ok fuel f = Returns f' ->
  (forall i x', In i J -> nth_error (lvars f') i = Some x' -> used x' = false) /\
  (forall r s p' x,
     In r regions -> get (body f) r = Some s ->
     cleanable (item_op s) = true -> walk_enters (body f) r = true ->
     get (body f') p' = Some x -> item_ptr x = item_ptr s ->
     item_op x = cit_empty /\ kids x = [] /\
     last (ops_along (body f) r) cit_empty <> cit_block).
Proof.
  intros ND Hj E.
  assert (B := Detox_body _ _ _ _ _ E).
  destruct B as (fliv & k & piv & k' & E1 & E2 & Eb).
  assert (U : junk_unmarked f J regions fliv).
  { apply (find_legit_loop_junk hexdsp malloc_ok f J regions ND Hj fuel
             fliv_init fliv k); [intros a [] | | exact E1].
    split; [intros q _ [] | reflexivity]. }
  destruct U as [U1 U2]. split.
  - revert E. unfold Detox. rewrite E1, E2.
    destruct (lvars f) as [|x0 vars] eqn:EV.
    + intro E. inversion E; subst; simpl. intros i x' _ H. destruct i; discriminate H.
    + destruct (afVariableIsLegit fliv) as [af|] eqn:Ea; [|discriminate].
      intro E. injection E as E. subst f'. intros i x' Hi Hx'.
      change (nth_error (clear_unused af O (x0 :: vars)) i = Some x') in Hx'.
      destruct (nth_error (x0 :: vars) i) as [x|] eqn:Hx.
      * rewrite (clear_unused_nth af (x0 :: vars) O i x Hx) in Hx'.
        simpl in Hx'. inversion Hx'; subst x'; clear Hx'.
        specialize (U2 i Hi). unfold var_is_legit in U2. rewrite Ea in U2.
        rewrite U2. reflexivity.
      * exfalso. apply nth_error_None in Hx.
        assert (Hlen : (i < List.length (clear_unused af O (x0 :: vars)))%nat)
          by (apply nth_error_Some; congruence).
        rewrite clear_unused_length in Hlen. lia.
  - intros r s p' x Hr Hs Cs Ws Hx Ex.
    pose proof (prune_loop_pruned_from _ _ _ _ _ _ E2) as PF.
    destruct (prune_loop_settled _ _ _ _ _ _ E2) as (St & _ & _).
    rewrite <- Eb in PF, St. cbn [ctree piv_init] in PF.
    destruct (pruned_from_get p' _ _ x PF Hx) as (p0 & x0 & Hx0 & Px & Eo).
    destruct (pruned_from_hdr x0 x Px) as (Es & _ & Ek).
    assert (Ep : p0 = r).
    { apply (same_address_same_place (body f) p0 r x0 s ND Hx0 Hs).
      unfold item_ptr in *. congruence. }
    subst p0. rewrite Hs in Hx0. inversion Hx0; subst x0. clear Hx0.
    assert (Wx : walk_enters (body f') p' = true)
      by (unfold walk_enters in *; now rewrite Eo).
    assert (Emp : item_op x = cit_empty /\ kids x = []).
    { destruct Ek as [Ek|Ek]; [exfalso | exact Ek].
      pose proof (settled_descend _ _ _ _ St Hx Wx) as Sx.
      rewrite <- Ek in Cs.
      pose proof (settled_cleanable _ _ Sx Cs) as Lx.
      apply has_true_iff in Lx. apply (U1 (item_ptr x)); [|exact Lx].
      exists r, s. split; [exact Hr|]. split; [exact Hs|].
      rewrite Ex. apply item_ptr_in_ptrs. }
    destruct Emp as [Ee Ke]. split; [exact Ee|]. split; [exact Ke|].
    rewrite <- Eo. exact (settled_empty_owner _ _ _ _ St Hx Wx Ee).
Qed.

Lemma is_prefix_app (r : path) : forall p,
  is_prefix r p = true -> exists p', p = r ++ p'.
Proof.
  induction r as [|i r IH]; intros p H; [now exists p|].
  destruct p as [|j p]; [discriminate|]. simpl in H.
  apply andb_true_iff in H. destruct H as [E H]. apply Nat.eqb_eq in E. subst j.
  destruct (IH p H) as [p' ->]. now exists p'.
Qed.

Lemma refs_in_regions_eq (J : list nat) (regions : list path) (here : path)
    (h : citem_hdr) (ks : list citem_t) :
  refs_in_regions J regions here (Citem h ks) =
  (if ctype_eqb (op h) cot_var && existsb (Nat.eqb (v_idx h)) J
   then existsb (fun r => is_prefix r here) regions else true)
  && refs_in_regions_kids J regions here O ks.
Proof.
  simpl. f_equal. generalize O.
  induction ks as [|k ks IH]; intro i; simpl; [reflexivity|]. now rewrite IH.
Qed.

Lemma refs_in_regions_sound (J : list nat) (regions : list path) (t : citem_t) :
  forall here,
    refs_in_regions J regions here t = true ->
    forall p x, get t p = Some x -> item_op x = cot_var ->
                In (v_idx (hdr x)) J ->
                exists r p', In r regions /\ here ++ p = r ++ p'.
Proof.
  induction t as [h ks IH] using citem_t_ind. intros here H p x Hx Ho Hi.
  rewrite refs_in_regions_eq in H. apply andb_true_iff in H.
  destruct H as [Own Kids]. destruct p as [|i p]; simpl in Hx.
  - inversion Hx; subst x. unfold item_op in Ho. cbn [hdr] in *.
    rewrite Ho in Own. simpl in Own.
    assert (E : existsb (Nat.eqb (v_idx h)) J = true).
    { apply existsb_exists. exists (v_idx h). split; [exact Hi|].
      apply Nat.eqb_refl. }
    rewrite E in Own. apply existsb_exists in Own.
    destruct Own as (r & Hr & Hp). destruct (is_prefix_app r here Hp) as [p' Ep].
    exists r, p'. split; [exact Hr|]. now rewrite app_nil_r.
  - destruct (nth_error ks i) as [k|] eqn:Hk; [|discriminate].
    assert (G : forall l i0 j, Forall (fun k => forall here,
                   refs_in_regions J regions here k = true ->
                   forall p x, get k p = Some x -> item_op x = cot_var ->
                               In (v_idx (hdr x)) J ->
                               exists r p', In r regions /\ here ++ p = r ++ p') l ->
                 refs_in_regions_kids J regions here i0 l = true ->
                 nth_error l j = Some k ->
                 exists r p', In r regions
                              /\ (here ++ [(i0 + j)%nat]) ++ p = r ++ p').
    { clear - Hx Ho Hi. induction l as [|y l IHl]; intros i0 j Hall Hc Hj.
      - destruct j; discriminate Hj.
      - simpl in Hc. apply andb_true_iff in Hc. destruct Hc as [Hy Hl].
        inversion Hall as [|? ? Py Pl]; subst.
        destruct j as [|j]; simpl in Hj.
        + inversion Hj; subst y. rewrite Nat.add_0_r.
          exact (Py _ Hy p x Hx Ho Hi).
        + rewrite Nat.add_succ_r. exact (IHl (S i0) j Pl Hl Hj). }
    destruct (G ks O i IH Kids Hk) as (r & p' & Hr & Ep).
    exists r, p'. split; [exact Hr|]. rewrite <- Ep. simpl.
    now rewrite <- app_assoc.
Qed.

(** The test decides the conditions. *)
Lemma junk_check_sound (hexdsp : hexdsp_t) (f : cfunc_t) (J : list nat)
    (regions : list path) :
  junk_check hexdsp f J regions = true -> junk hexdsp f J regions.
Proof.
  unfold junk_check. intro H.
  apply andb_true_iff in H. destruct H as [H H3].
  apply andb_true_iff in H. destruct H as [H1 H2].
  split; [|split].
  - intros i x Hi Hx. rewrite forallb_forall in H1. specialize (H1 i Hi).
    rewrite Hx in H1. now apply negb_true_iff in H1.
  - intros r Hr. rewrite forallb_forall in H2. specialize (H2 r Hr).
    destruct (get (body f) r) as [s|]; [|discriminate].
    apply andb_true_iff in H2. destruct H2 as [A B]. now exists s.
  - intros p x Hx Ho Hi.
    exact (refs_in_regions_sound J regions (body f) [] H3 p x Hx Ho Hi).
Qed.

Lemma junk_is_never_marked_witness :
  exists v k,
    find_legit_loop sample_hexdsp true goto_function 8 fliv_init = Some (v, k) /\
    junk_unmarked goto_function [1%nat; 2%nat] [[1%nat]] v.
Proof.
  assert (E : { r | find_legit_loop sample_hexdsp true goto_function 8 fliv_init
                    = Some r }) by (eexists; vm_compute; reflexivity).
  destruct E as [[v k] E]. exists v, k. split; [exact E|].
  apply (junk_is_never_marked sample_hexdsp true goto_function
           [1%nat; 2%nat] [[1%nat]] 8 v k); [| |exact E].
  - vm_compute. repeat constructor; simpl; intuition discriminate.
  - apply junk_check_sound. vm_compute. reflexivity.
Defined.

Lemma Detox_removes_junk_witness :
  exists f',
    Detox sample_hexdsp true 8 goto_function = Returns f' /\
    forall i x', In i [1%nat; 2%nat] -> nth_error (lvars f') i = Some x' ->
                 used x' = false.
Proof.
  assert (E : { f' | Detox sample_hexdsp true 8 goto_function = Returns f' })
    by (eexists; vm_compute; reflexivity).
  destruct E as [f' E]. exists f'. split; [exact E|].
  apply (Detox_removes_junk sample_hexdsp true 8 goto_function f'
           [1%nat; 2%nat] [[1%nat]]); [| |exact E].
  - vm_compute. repeat constructor; simpl; intuition discriminate.
  - apply junk_check_sound. vm_compute. reflexivity.
Defined.

(* ------------------------------------------------------------------ *)
(** ** The plugin entry points *)
(* ------------------------------------------------------------------ *)

Lemma term_follows_init_app (tr1 tr2 : list sdk_call) : forall flag,
  term_follows_init flag (tr1 ++ tr2) =
  (fst (term_follows_init flag tr1)
   && fst (term_follows_init (snd (term_follows_init flag tr1)) tr2),
   snd (term_follows_init (snd (term_follows_init flag tr1)) tr2)).
Proof.
  induction tr1 as [|c tr1 IH]; intro flag; simpl.
  - now destruct (term_follows_init flag tr2).
  - destruct c; try apply IH. simpl. rewrite IH. simpl.
    now rewrite andb_assoc.
Qed.

Lemma callbacks_installed_app (tr1 tr2 : list sdk_call) : forall n m,
  callbacks_installed n tr1 = Some m ->
  callbacks_installed n (tr1 ++ tr2) = callbacks_installed m tr2.
Proof.
  induction tr1 as [|c tr1 IH]; intros n m H; simpl in *.
  - now inversion H.
  - destruct c; try (now apply IH).
    + destruct ok; now apply IH.
    + destruct n; [discriminate | now apply IH].
Qed.

Lemma plugin_step_keeps (s : plugin_state) (e : plugin_entry) :
  term_follows_init false (sdk_calls s) = (true, g_fInitialized s) ->
  callbacks_installed O (sdk_calls s) = Some O ->
  term_follows_init false (sdk_calls (plugin_step s e))
  = (true, g_fInitialized (plugin_step s e)) /\
  callbacks_installed O (sdk_calls (plugin_step s e)) = Some O.
Proof.
  intros T C. destruct e as [ok| |ok]; simpl.
  - unfold PLUGIN_init. destruct ok; simpl;
      rewrite term_follows_init_app, T, (callbacks_installed_app _ _ _ _ C);
      now split.
  - unfold PLUGIN_term. destruct (g_fInitialized s) eqn:G; rewrite ?G in T;
      [|rewrite G; now split].
    simpl. rewrite term_follows_init_app, T, (callbacks_installed_app _ _ _ _ C).
    simpl. now split.
  - unfold PLUGIN_run. destruct ok; simpl;
      rewrite term_follows_init_app, T, (callbacks_installed_app _ _ _ _ C);
      now split.
Qed.

(** X14.  Whatever entry points the kernel calls after loading the
    plugin, in whatever order and with whatever answers from the SDK:
    [term_hexrays_plugin] is called only while the last
    [init_hexrays_plugin] answered [true], [g_fInitialized] holds that
    answer, and every callback that [PLUGIN_run] installed has been
    removed again when it returns, none being removed that was not
    installed. *)
Theorem plugin_calls_are_paired (es : list plugin_entry) :
  term_follows_init false (sdk_calls (plugin_runs es plugin_loaded))
  = (true, g_fInitialized (plugin_runs es plugin_loaded)) /\
  callbacks_installed O (sdk_calls (plugin_runs es plugin_loaded)) = Some O.
Proof.
  unfold plugin_runs.
  assert (G : forall s,
             term_follows_init false (sdk_calls s) = (true, g_fInitialized s) ->
             callbacks_installed O (sdk_calls s) = Some O ->
             term_follows_init false (sdk_calls (fold_left plugin_step es s))
             = (true, g_fInitialized (fold_left plugin_step es s)) /\
             callbacks_installed O (sdk_calls (fold_left plugin_step es s))
             = Some O).
  { induction es as [|e es IH]; intros s T C; simpl; [now split|].
    destruct (plugin_step_keeps s e T C) as [T1 C1]. now apply IH. }
  apply G; reflexivity.
Qed.

(* ------------------------------------------------------------------ *)
(** ** Where label numbers and goto targets come from *)
(* ------------------------------------------------------------------ *)

Lemma headers_eq (h : citem_hdr) (ks : list citem_t) :
  headers (Citem h ks) = h :: flat_map headers ks.
Proof. reflexivity. Qed.

Lemma labels_headers (t : citem_t) :
  map snd (labels t) = map label_num (headers t).
Proof.
  induction t as [h ks IH] using citem_t_ind.
  rewrite labels_eq, headers_eq. simpl. f_equal.
  induction IH as [|k ks Hk _ IHks]; simpl; [reflexivity|].
  now rewrite !map_app, Hk, IHks.
Qed.

Lemma known_label_header (t : citem_t) (n : Z) :
  known_label t n ->
  n = -1 \/ exists h, In h (headers t) /\ label_num h = n.
Proof.
  intros [->|H]; [now left | right].
  rewrite labels_headers in H. apply in_map_iff in H.
  destruct H as (h & E & Hh). now exists h.
Qed.

(** The headers of a tree after a change at a position: those it had,
    and those of the changed item. *)
Lemma headers_update (f : citem_t -> citem_t) (p : path) : forall t h,
  In h (headers (update t p f)) ->
  In h (headers t) \/ exists x, get t p = Some x /\ In h (headers (f x)).
Proof.
  induction p as [|i p IH]; intros t h H.
  - right. now exists t.
  - destruct t as [h0 ks].
    change (update (Citem h0 ks) (i :: p) f)
      with (Citem h0 (update_nth i (fun k => update k p f) ks)) in H.
    rewrite headers_eq in *. destruct H as [<-|H]; [left; now left|].
    assert (G : In h (flat_map headers ks) \/
                exists k x, nth_error ks i = Some k /\ get k p = Some x
                            /\ In h (headers (f x))).
    { clear - IH H. revert i H.
      induction ks as [|k ks IHks]; intros [|i] H; simpl in *;
        try contradiction.
      - apply in_app_or in H. destruct H as [H|H].
        + destruct (IH k h H) as [H'|(x & Hx & H')].
          * left. apply in_or_app. now left.
          * right. now exists k, x.
        + left. apply in_or_app. now right.
      - apply in_app_or in H. destruct H as [H|H].
        + left. apply in_or_app. now left.
        + destruct (IHks i H) as [H'|(k' & x & Hk & Hx & H')].
          * left. apply in_or_app. now right.
          * right. now exists k', x. }
    destruct G as [G|(k & x & Hk & Hx & G)]; [left; now right | right].
    exists x. split; [simpl; now rewrite Hk | exact G].
Qed.

Lemma headers_get (p : path) : forall t x,
  get t p = Some x -> incl (headers x) (headers t).
Proof.
  induction p as [|i p IH]; intros t x H; simpl in H.
  - inversion H; subst. apply incl_refl.
  - destruct (nth_error (kids t) i) as [k|] eqn:Hk; [|discriminate].
    destruct t as [h ks]. cbn [kids] in Hk. rewrite headers_eq.
    intros a Ha. right. apply in_flat_map. exists k.
    split; [eapply nth_error_In; eauto | now apply (IH k x)].
Qed.

Lemma headers_erase_child (i : nat) (x : citem_t) :
  incl (headers (erase_child i x)) (headers x).
Proof.
  destruct x as [h ks]. unfold erase_child. cbn [hdr kids]. rewrite !headers_eq.
  intros a [Ha|Ha]; [now left | right]. revert i Ha.
  induction ks as [|k ks IH]; intros [|i] Ha; simpl in *; try contradiction.
  - apply in_or_app. now right.
  - apply in_app_or in Ha. apply in_or_app. destruct Ha; [now left | right; eauto].
Qed.

(** The headers of a tree after a walk in ChangingGotos mode: each is
    the header it was, or that of a goto with its new target, or that
    of the empty statement left of a goto. *)
Lemma headers_change_gotos (nOld nNew : Z) (t : citem_t) : forall h,
  In h (headers (change_gotos nOld nNew t)) ->
  exists h1, In h1 (headers t) /\
    (h = h1 \/
     (op h1 = cit_goto /\ nNew <> -1 /\ h = set_goto_label nNew h1) \/
     (op h = cit_empty /\ label_num h = label_num h1)).
Proof.
  induction t as [h0 ks IH] using citem_t_ind. intros h H.
  assert (G : In h (flat_map headers (map (change_gotos nOld nNew) ks)) ->
              exists h1, In h1 (flat_map headers ks) /\
                (h = h1 \/
                 (op h1 = cit_goto /\ nNew <> -1 /\ h = set_goto_label nNew h1) \/
                 (op h = cit_empty /\ label_num h = label_num h1))).
  { clear H. induction IH as [|k ks Hk _ IHks]; simpl; [contradiction|].
    intro H. apply in_app_or in H. destruct H as [H|H].
    - destruct (Hk h H) as (h1 & H1 & Ho). exists h1.
      split; [apply in_or_app; now left | exact Ho].
    - destruct (IHks H) as (h1 & H1 & Ho). exists h1.
      split; [apply in_or_app; now right | exact Ho]. }
  rewrite change_gotos_eq in H. rewrite headers_eq.
  destruct (negb (ctype_eqb (op h0) cit_goto && (goto_label h0 =? nOld))) eqn:C.
  - rewrite headers_eq in H. destruct H as [<-|H].
    + exists h0. split; [now left | now left].
    + destruct (G H) as (h1 & H1 & Ho). exists h1. split; [now right | exact Ho].
  - apply negb_false_iff in C. apply andb_true_iff in C. destruct C as [Cg _].
    apply ctype_eqb_eq in Cg.
    destruct (negb (nNew =? -1)) eqn:N.
    + rewrite headers_eq in H. destruct H as [<-|H].
      * exists h0. split; [now left|]. right. left.
        apply negb_true_iff, Z.eqb_neq in N. now repeat split.
      * destruct (G H) as (h1 & H1 & Ho). exists h1. split; [now right | exact Ho].
    + destruct H as [<-|[]]. exists h0. split; [now left|]. right. right.
      now split.
Qed.

Lemma labels_from_refl (t : citem_t) : labels_from t t.
Proof.
  intros h Hh. split; [right; now exists h|].
  intro Ho. exists h. split; [exact Hh | left; now split].
Qed.

Lemma prune_loop_labels_from (legit : list nat) (fuel n : nat)
    (v v' : PRUNE_ITEMS_VISITOR) (k : nat) :
  prune_loop legit fuel n v = Some (v', k) ->
  labels_from (ctree v) (ctree v').
Proof.
  intro E.
  assert (Upd : forall (f : citem_t -> citem_t) t w,
             labels_from (ctree v) t ->
             (forall x h, item_at t w = Some x -> In h (headers (f x)) ->
                          In h (headers x) \/
                          labels_from (ctree v) (Citem h [])) ->
             labels_from (ctree v) (update_at t w f)).
  { intros f t w Lt Hf h Hh. unfold update_at in Hh.
    destruct (headers_update f (rev w) t h Hh) as [H|(x & Hx & H)];
      [now apply Lt|].
    destruct (Hf x h Hx H) as [H'|H'].
    - apply Lt. now apply (headers_get _ _ _ Hx).
    - apply H'. now left. }
  apply (prune_loop_keeps legit fuel (labels_from (ctree v)))
    with (n := n) (v := v) (k := k); [| | | | |exact E].
  - intros t w x i Lt _ _ _. apply Upd; [exact Lt|].
    intros x0 h _ Hh. left. now apply (headers_erase_child i x0).
  - intros t w m Lt Km. apply Upd; [exact Lt|].
    intros x h Hx Hh. destruct x as [hx kx]. unfold relabel in Hh.
    cbn [hdr kids] in Hh. rewrite headers_eq in *.
    destruct Hh as [<-|Hh]; [right | left; now right].
    assert (Hhx : In hx (headers t))
      by (apply (headers_get _ _ _ Hx); now left).
    destruct (Lt hx Hhx) as [_ Lg].
    intros h' [<-|[]]. split.
    + simpl. destruct (known_label_header t m Km) as [->|(h1 & H1 & E1)];
        [now left|].
      destruct (Lt h1 H1) as [[L1|L1] _]; [left; congruence|].
      right. destruct L1 as (h0 & H0 & E0). exists h0. split; [exact H0|].
      congruence.
    + exact Lg.
  - intros t w a b Lt Kb. apply Upd; [exact Lt|].
    intros x h Hx Hh.
    destruct (headers_change_gotos a b x h Hh) as (h1 & H1 & Ho).
    destruct Ho as [->|[(Og & Nb & ->)|[Oe Le]]]; [now left | right | right].
    + assert (Hh1 : In h1 (headers t)) by now apply (headers_get _ _ _ Hx).
      destruct (Lt h1 Hh1) as [Ll _].
      intros h' [<-|[]]. split; [exact Ll|]. intros _. cbn [goto_label set_goto_label].
      destruct (known_label_header t b Kb) as [->|(h2 & H2 & E2)]; [congruence|].
      destruct (Lt h2 H2) as [[L2|L2] _]; [congruence|].
      destruct L2 as (h0 & H0 & E0). exists h0. split; [exact H0|].
      right. congruence.
    + assert (Hh1 : In h1 (headers t)) by now apply (headers_get _ _ _ Hx).
      destruct (Lt h1 Hh1) as [Ll _].
      intros h' [<-|[]]. split; [now rewrite Le|]. rewrite Oe. discriminate.
  - intros t w Lt _. apply Upd; [exact Lt|].
    intros x h Hx Hh. right. destruct x as [hx kx]. unfold cleanup in Hh.
    cbn [hdr] in Hh. rewrite headers_eq in Hh. destruct Hh as [<-|[]].
    assert (Hhx : In hx (headers t))
      by (apply (headers_get _ _ _ Hx); now left).
    destruct (Lt hx Hhx) as [Ll _].
    intros h' [<-|[]]. split; [exact Ll | discriminate].
  - apply labels_from_refl.
Qed.

(** X15.  [Detox] invents no label.  In the body it returns, every
    label number is [-1] or a label number of the body it was given,
    and the target of every goto is the target of a goto, or a label
    number, of the body it was given. *)
Theorem Detox_invents_no_label (hexdsp : hexdsp_t) (malloc_ok : bool)
    (fuel : nat) (f f' : cfunc_t) :
  Detox hexdsp malloc_ok fuel f = Returns f' ->
  labels_from (body f) (body f').
Proof.
  intro E. destruct (Detox_body _ _ _ _ _ E) as (fliv & k & piv & k' & _ & E2 & ->).
  exact (prune_loop_labels_from _ _ _ _ _ _ E2).
Qed.

Lemma Detox_invents_no_label_witness :
  exists f',
    Detox sample_hexdsp true 8 nested_label_function = Returns f' /\
    labels_from (body nested_label_function) (body f').
Proof.
  assert (E : { f' | Detox sample_hexdsp true 8 nested_label_function
                     = Returns f' }) by (eexists; vm_compute; reflexivity).
  destruct E as [f' E]. exists f'. split; [exact E|].
  exact (Detox_invents_no_label sample_hexdsp true 8 nested_label_function f' E).
Defined.

(* ------------------------------------------------------------------ *)
(** ** Legitimate statements are marked as a whole *)
(* ------------------------------------------------------------------ *)

Lemma nth_set_nth_same (i : nat) : forall a : list bool,
  (i < List.length a)%nat -> nth i (set_nth i a) false = true.
Proof.
  induction i as [|i IH]; intros [|b a] H; simpl in *; try lia; auto.
  apply IH. lia.
Qed.

(** A walk whose visits never stop and each add the address of the
    visited item to a list adds the addresses of the whole subtree. *)
Section ApplyToCollects.
Context {V : Type}.
Variable visit : where_t -> citem_t -> V -> V * visit_result.
Variable Inv : V -> Prop.
Variable seen : V -> list nat.
Hypothesis visit_collects : forall w t v, Inv v ->
  exists v1, visit w t v = (v1, Continue) /\ Inv v1 /\
    incl (seen v) (seen v1) /\ In (item_ptr t) (seen v1) /\
    (forall q, In q (seen v1) -> In q (seen v) \/ q = item_ptr t).

Lemma apply_to_collects (p : citem_t) : forall w v, Inv v ->
  snd (apply_to visit w p v) = false /\
  Inv (fst (apply_to visit w p v)) /\
  incl (seen v) (seen (fst (apply_to visit w p v))) /\
  incl (ptrs p) (seen (fst (apply_to visit w p v))) /\
  (forall q, In q (seen (fst (apply_to visit w p v))) ->
             In q (seen v) \/ In q (ptrs p)).
Proof.
  induction p as [h ks IH] using citem_t_ind. intros w v I0.
  assert (G : forall i v1, Inv v1 ->
     snd (apply_to_kids visit w i ks v1) = false /\
     Inv (fst (apply_to_kids visit w i ks v1)) /\
     incl (seen v1) (seen (fst (apply_to_kids visit w i ks v1))) /\
     incl (flat_map ptrs ks) (seen (fst (apply_to_kids visit w i ks v1))) /\
     (forall q, In q (seen (fst (apply_to_kids visit w i ks v1))) ->
                In q (seen v1) \/ In q (flat_map ptrs ks))).
  { induction IH as [|k ks Hk _ IHks]; intros i v1 I1; simpl.
    - split; [reflexivity|]. split; [exact I1|]. split; [apply incl_refl|].
      split; [intros a []|]. intros q Hq. now left.
    - destruct (Hk (i :: w) v1 I1) as (Sn & I2 & S2 & P2 & O2).
      destruct (apply_to visit (i :: w) k v1) as [v2 b].
      cbn [fst snd] in *. subst b.
      destruct (IHks (S i) v2 I2) as (Sn3 & I3 & S3 & P3 & O3).
      split; [exact Sn3|]. split; [exact I3|].
      split; [eapply incl_tran; eauto|]. split.
      + apply incl_app; [eapply incl_tran; eauto | exact P3].
      + intros q Hq. destruct (O3 q Hq) as [H|H].
        * destruct (O2 q H) as [H'|H']; [now left|].
          right. apply in_or_app. now left.
        * right. apply in_or_app. now right. }
  rewrite apply_to_eq.
  destruct (visit_collects w (Citem h ks) v I0) as (v1 & Ev & I1 & S1 & M1 & O1).
  rewrite Ev. cbn [kids].
  destruct (G O v1 I1) as (Sn & I2 & S2 & P2 & O2).
  split; [exact Sn|]. split; [exact I2|]. split; [eapply incl_tran; eauto|].
  split.
  - rewrite ptrs_eq. intros a [<-|Ha]; [now apply S2 | now apply P2].
  - intros q Hq. rewrite ptrs_eq. destruct (O2 q Hq) as [H|H].
    + destruct (O1 q H) as [H'|H']; [now left | right; left]. now rewrite H'.
    + right. now right.
Qed.
End ApplyToCollects.

(** A walk that never stops reaches every item, for visits that rely on
    the visited item standing at the position they are told. *)
Section ApplyToVisitsAll.
Context {V : Type}.
Variable visit : where_t -> citem_t -> V -> V * visit_result.
Variable root : citem_t.
Variable Inv : V -> Prop.
Variable Post : citem_t -> V -> Prop.
Hypothesis visit_goes_on : forall w t v, snd (visit w t v) = Continue.
Hypothesis visit_inv : forall w t v,
  item_at root w = Some t -> Inv v -> Inv (fst (visit w t v)).
Hypothesis visit_post : forall w t v,
  item_at root w = Some t -> Inv v -> Post t (fst (visit w t v)).
Hypothesis visit_stable : forall w t x v,
  item_at root w = Some t -> Inv v -> Post x v -> Post x (fst (visit w t v)).

Lemma walk_keeps_inv (t : citem_t) (w : where_t) (v : V) :
  item_at root w = Some t -> Inv v -> Inv (fst (apply_to visit w t v)).
Proof.
  intros Hat I0. destruct (apply_to visit w t v) as [v' b] eqn:E.
  assert (Hstep : forall w t v v' r,
             item_at root w = Some t -> Inv v -> visit w t v = (v', r) ->
             match r with Stop => Inv v' | _ => Inv v' end).
  { intros w1 t1 v1 v1' r H1 I1 Ev.
    assert (Inv v1')
      by (replace v1' with (fst (visit w1 t1 v1)) by (now rewrite Ev);
          now apply visit_inv).
    now destruct r. }
  pose proof (apply_to_places visit root Inv Inv Hstep t w v v' b Hat I0 E) as R.
  cbn [fst]. now destruct b.
Qed.

Lemma walk_keeps_post (x t : citem_t) (w : where_t) (v : V) :
  item_at root w = Some t -> Inv v -> Post x v ->
  Post x (fst (apply_to visit w t v)).
Proof.
  intros Hat I0 P0. destruct (apply_to visit w t v) as [v' b] eqn:E.
  assert (Hstep : forall w t v v' r,
             item_at root w = Some t -> Inv v /\ Post x v ->
             visit w t v = (v', r) ->
             match r with Stop => Inv v' /\ Post x v'
                        | _ => Inv v' /\ Post x v' end).
  { intros w1 t1 v1 v1' r H1 [I1 P1] Ev.
    assert (Inv v1' /\ Post x v1').
    { replace v1' with (fst (visit w1 t1 v1)) by (now rewrite Ev).
      split; [now apply visit_inv | now apply (visit_stable w1 t1)]. }
    now destruct r. }
  pose proof (apply_to_places visit root _ _ Hstep t w v v' b Hat
                (conj I0 P0) E) as R.
  cbn [fst]. destruct b; apply R.
Qed.

Lemma walk_kids_keep (x : citem_t) (w : where_t) (l : list citem_t) :
  forall i v,
    (forall j k, nth_error l j = Some k ->
                 item_at root ((i + j)%nat :: w) = Some k) ->
    Inv v -> Inv (fst (apply_to_kids visit w i l v)) /\
             (Post x v -> Post x (fst (apply_to_kids visit w i l v))).
Proof.
  induction l as [|k l IH]; intros i v Hpos I0; simpl; [now split|].
  assert (Hk : item_at root (i :: w) = Some k).
  { specialize (Hpos O k eq_refl). now rewrite Nat.add_0_r in Hpos. }
  pose proof (walk_keeps_inv k (i :: w) v Hk I0) as I1.
  pose proof (walk_keeps_post x k (i :: w) v Hk I0) as P1.
  destruct (apply_to visit (i :: w) k v) as [v2 [|]]; cbn [fst] in *;
    [now split|].
  destruct (IH (S i) v2) as [I2 P2]; [|exact I1|split; auto].
  intros j k' Hj. specialize (Hpos (S j) k' Hj).
  now rewrite Nat.add_succ_r in Hpos.
Qed.

Lemma apply_to_visits_all (t : citem_t) : forall w v,
  item_at root w = Some t -> Inv v ->
  forall p x, get t p = Some x -> Post x (fst (apply_to visit w t v)).
Proof.
  induction t as [h ks IH] using citem_t_ind. intros w v Hat I0 p x Hx.
  rewrite apply_to_eq.
  pose proof (visit_goes_on w (Citem h ks) v) as Go.
  pose proof (visit_inv w (Citem h ks) v Hat I0) as I1.
  pose proof (visit_post w (Citem h ks) v Hat I0) as P1.
  destruct (visit w (Citem h ks) v) as [v1 r]. cbn [fst snd] in *. subst r.
  cbn [kids].
  assert (Hpos : forall j k', nth_error ks j = Some k' ->
                              item_at root ((0 + j)%nat :: w) = Some k')
    by (intros j k' Hj; now rewrite item_at_cons, Hat).
  destruct p as [|i p].
  - simpl in Hx. inversion Hx; subst x.
    now apply (walk_kids_keep (Citem h ks) w ks O v1 Hpos I1).
  - simpl in Hx. destruct (nth_error ks i) as [k|] eqn:Hk; [|discriminate].
    clear Hat P1 I0. revert Hpos Hk I1. generalize O as i0. revert i v1.
    induction IH as [|k0 l Hk0 _ IHl]; intros i v1 i0 Hpos Hk I1.
    + destruct i; discriminate Hk.
    + simpl.
      assert (Hk0pos : item_at root (i0 :: w) = Some k0).
      { specialize (Hpos O k0 eq_refl). now rewrite Nat.add_0_r in Hpos. }
      assert (Hpos' : forall j k', nth_error l j = Some k' ->
                                   item_at root ((S i0 + j)%nat :: w) = Some k').
      { intros j k' Hj. specialize (Hpos (S j) k' Hj).
        now rewrite Nat.add_succ_r in Hpos. }
      pose proof (walk_keeps_inv k0 (i0 :: w) v1 Hk0pos I1) as I2.
      destruct i as [|i]; simpl in Hk.
      * inversion Hk; subst k0.
        pose proof (Hk0 (i0 :: w) v1 Hk0pos I1 p x Hx) as P2.
        destruct (apply_to visit (i0 :: w) k v1) as [v2 [|]]; cbn [fst] in *;
          [exact P2|].
        now apply (walk_kids_keep x w l (S i0) v2 Hpos' I2).
      * destruct (apply_to visit (i0 :: w) k0 v1) as [v2 b] eqn:E2.
        assert (b = false).
        { pose proof (apply_to_never_stops visit) as Ns.
          assert (Hn : forall w t v, snd (visit w t v) <> Stop)
            by (intros w0 t0 v0; rewrite visit_goes_on; discriminate).
          specialize (Ns Hn k0 (i0 :: w) v1). now rewrite E2 in Ns. }
        subst b. cbn [fst] in *.
        apply (IHl i v2 (S i0)); auto.
Qed.
End ApplyToVisitsAll.

Section FindLegitWhole.
Variable hexdsp : hexdsp_t.
Variable malloc_ok : bool.
Variable pFunction : cfunc_t.
Hypothesis body_distinct : NoDup (ptrs (body pFunction)).
Hypothesis body_vars : vars_in_range pFunction = true.

(** What holds between two visits of MarkingDescendants mode. *)
Let marking (pending : list nat) (v : FIND_LEGIT_ITEMS_VISITOR) : Prop :=
  fInitialized v = true /\ fliv_inv pFunction v /\ descended_in_legit v /\
  descended_vars (body pFunction) v /\
  whole_descended hexdsp (body pFunction) pending v.

(** What holds between two visits of the scanning walk. *)
Let scanning (v : FIND_LEGIT_ITEMS_VISITOR) : Prop :=
  fliv_inv pFunction v /\ descended_in_legit v /\
  descended_vars (body pFunction) v /\
  whole_descended hexdsp (body pFunction) [] v /\
  descended_whole (body pFunction) v.

Lemma same_address_same_item (w1 w2 : where_t) (a b : citem_t) :
  item_at (body pFunction) w1 = Some a ->
  item_at (body pFunction) w2 = Some b ->
  item_ptr a = item_ptr b -> a = b.
Proof.
  unfold item_at. intros Ha Hb E.
  pose proof (same_address_same_place _ _ _ _ _ body_distinct Ha Hb E) as Ep.
  rewrite Ep in Ha. congruence.
Qed.

Lemma var_index_in_range (w : where_t) (x : citem_t) :
  item_at (body pFunction) w = Some x -> item_op x = cot_var ->
  (v_idx (hdr x) < List.length (lvars pFunction))%nat.
Proof.
  intros Hx Ho. unfold vars_in_range in body_vars.
  pose proof (all_items_get _ _ _ _ body_vars Hx) as A.
  destruct x as [h ks]. rewrite all_items_eq in A. apply andb_true_iff in A.
  destruct A as [A _]. unfold names_a_variable in A.
  rewrite Ho, ctype_eqb_refl in A. now apply Nat.ltb_lt in A.
Qed.

(** One visit in MarkingDescendants mode puts the item into
    [vectorDescendantsMarkedLegit], and nothing else. *)
Lemma visit_item_marking_descends (w : where_t) (t : citem_t)
    (v : FIND_LEGIT_ITEMS_VISITOR) :
  fInitialized v = true ->
  exists v1,
    visit_item_marking malloc_ok pFunction w t v = (v1, Continue) /\
    fInitialized v1 = true /\
    incl (vectorDescendantsMarkedLegit v) (vectorDescendantsMarkedLegit v1) /\
    In (item_ptr t) (vectorDescendantsMarkedLegit v1) /\
    (forall q, In q (vectorDescendantsMarkedLegit v1) ->
               In q (vectorDescendantsMarkedLegit v) \/ q = item_ptr t).
Proof.
  intro F. unfold visit_item_marking.
  rewrite (ensure_initialized_set malloc_ok pFunction v F).
  destruct (has (vectorDescendantsMarkedLegit v) t) eqn:Hd.
  - exists v. split; [reflexivity|]. split; [exact F|].
    split; [apply incl_refl|]. split; [now apply has_true_iff | now left].
  - eexists. split; [reflexivity|].
    set (vm := if ctype_eqb (item_op t) cot_var
               then mark_variable (v_idx (hdr t)) v else v).
    assert (Em : fInitialized vm = fInitialized v /\
                 vectorDescendantsMarkedLegit vm = vectorDescendantsMarkedLegit v)
      by (unfold vm; destruct (ctype_eqb (item_op t) cot_var); now split).
    destruct Em as (Fm & Dm).
    destruct (mark_item_spec t vm) as (F1 & D1 & _).
    cbn [remember_descended fInitialized vectorDescendantsMarkedLegit].
    rewrite D1, Dm. split; [congruence|]. split; [apply incl_appl, incl_refl|].
    split; [apply in_or_app; right; now left|].
    intros q Hq. apply in_app_or in Hq. destruct Hq as [Hq|[<-|[]]]; auto.
Qed.

(** The visit of a [cot_var] item that is new to MarkingDescendants
    mode makes its variable legitimate. *)
Lemma visit_item_marking_var (w : where_t) (t : citem_t)
    (v : FIND_LEGIT_ITEMS_VISITOR) :
  fInitialized v = true -> fliv_inv pFunction v ->
  item_op t = cot_var ->
  (v_idx (hdr t) < List.length (lvars pFunction))%nat ->
  has (vectorDescendantsMarkedLegit v) t = false ->
  var_is_legit (fst (visit_item_marking malloc_ok pFunction w t v))
               (v_idx (hdr t)) = true.
Proof.
  intros F I Ho R Hd. unfold visit_item_marking.
  rewrite (ensure_initialized_set malloc_ok pFunction v F), Hd, Ho, ctype_eqb_refl.
  cbn [fst]. unfold var_is_legit.
  assert (Ea : forall v0, afVariableIsLegit (remember_descended t (mark_item t v0))
                          = afVariableIsLegit v0).
  { intro v0. unfold mark_item. now destruct (has (vectorLegitItems v0) t). }
  rewrite Ea. cbn [mark_variable afVariableIsLegit].
  unfold fliv_inv in I. destruct (afVariableIsLegit v) as [a|]; [|congruence].
  destruct I as (_ & La & _). cbn [option_map].
  apply nth_set_nth_same. now rewrite La.
Qed.

Lemma visit_item_marking_whole (pending : list nat) (w w0 : where_t)
    (t : citem_t) (v : FIND_LEGIT_ITEMS_VISITOR) :
  item_at (body pFunction) w = Some t -> marking pending v ->
  marking pending (fst (visit_item_marking malloc_ok pFunction w0 t v)).
Proof.
  intros Hat (F & I & D & Dv & Wd).
  destruct (visit_item_marking_after malloc_ok pFunction w0 t v I) as [[_ G] I'].
  destruct (visit_item_marking_spec malloc_ok pFunction w0 t v F D)
    as (v1 & Ev & F1 & D1 & L1 & M1 & O1).
  destruct (visit_item_marking_descends w0 t v F) as (v1' & Ev' & _ & S1 & N1 & P1).
  rewrite Ev in Ev'. inversion Ev'; subst v1'. clear Ev'.
  pose proof (visit_item_marking_var w0 t v F I) as R.
  rewrite Ev in *. cbn [fst] in *.
  split; [exact F1|]. split; [exact I'|]. split; [exact D1|]. split.
  - intros w1 x Hx Hin Ho. destruct (P1 _ Hin) as [H|H].
    + apply G. now apply (Dv w1 x).
    + assert (x = t) by (eapply same_address_same_item; eauto). subst x.
      destruct (has (vectorDescendantsMarkedLegit v) t) eqn:Hd.
      * apply G. apply (Dv w t Hat); [now apply has_true_iff | exact Ho].
      * apply R; [exact Ho| |reflexivity]. exact (var_index_in_range w t Hat Ho).
  - intros w1 x Hx Hin Hk. destruct (O1 _ Hin) as [H|H].
    + destruct (Wd w1 x Hx H Hk) as [H'|H']; [left; now apply S1 | now right].
    + left. rewrite H. exact N1.
Qed.

(** A walk in MarkingDescendants mode over the item [p]. *)
Lemma mark_descendants_whole (pending : list nat) (wp : where_t) (p : citem_t)
    (v : FIND_LEGIT_ITEMS_VISITOR) :
  item_at (body pFunction) wp = Some p ->
  (forall q, In q pending -> q = item_ptr p) ->
  marking pending v -> descended_whole (body pFunction) v ->
  marking [] (mark_descendants malloc_ok pFunction p v) /\
  descended_whole (body pFunction) (mark_descendants malloc_ok pFunction p v).
Proof.
  intros Hp HE Kv W. unfold mark_descendants.
  assert (K1 : marking pending
                 (fst (apply_to (visit_item_marking malloc_ok pFunction) [] p v))).
  { destruct (apply_to (visit_item_marking malloc_ok pFunction) [] p v)
      as [v' b] eqn:Ea.
    assert (Hstep : forall w t v0 v0' r,
               item_at p w = Some t -> marking pending v0 ->
               visit_item_marking malloc_ok pFunction w t v0 = (v0', r) ->
               match r with Stop => marking pending v0'
                          | _ => marking pending v0' end).
    { intros w t v0 v0' r Ht K0 Ev.
      assert (marking pending v0').
      { replace v0' with (fst (visit_item_marking malloc_ok pFunction w t v0))
          by (now rewrite Ev).
        apply (visit_item_marking_whole pending (w ++ wp)); [|exact K0].
        rewrite item_at_app, Hp. exact Ht. }
      now destruct r. }
    pose proof (apply_to_places _ p (marking pending) (marking pending) Hstep
                  p [] v v' b eq_refl Kv Ea) as R.
    cbn [fst]. now destruct b. }
  destruct Kv as (F & _).
  destruct (apply_to_collects (visit_item_marking malloc_ok pFunction)
              (fun v0 => fInitialized v0 = true) vectorDescendantsMarkedLegit
              (fun w t v0 F0 => visit_item_marking_descends w t v0 F0) p [] v F)
    as (_ & _ & S1 & P1 & O1).
  destruct K1 as (F' & I' & D' & Dv' & Wd').
  split.
  - split; [exact F'|]. split; [exact I'|]. split; [exact D'|].
    split; [exact Dv'|].
    intros w x Hx Hin Hk. left. destruct (Wd' w x Hx Hin Hk) as [H|H]; [exact H|].
    rewrite (HE _ H). apply P1, item_ptr_in_ptrs.
  - intros w x Hx Hin. destruct (O1 _ Hin) as [H|H].
    + eapply incl_tran; [exact (W w x Hx H) | exact S1].
    + eapply incl_tran; [|exact P1].
      unfold item_at in Hx, Hp.
      destruct (shared_address_nested (item_ptr x) (rev w) (rev wp)
                  (body pFunction) x p body_distinct Hx Hp
                  (item_ptr_in_ptrs x) H) as [[p' Ep]|[p' Ep]].
      * rewrite Ep, get_app, Hx in Hp. destruct p' as [|i p'].
        -- simpl in Hp. inversion Hp; subst. apply incl_refl.
        -- exfalso.
           apply (strictly_below x p i p' (get_NoDup _ _ _ body_distinct Hx) Hp H).
      * rewrite Ep, get_app, Hp in Hx. exact (get_ptrs_incl _ _ _ Hx).
Qed.

Lemma mark_descendants_once_whole (pending : list nat) (wp : where_t)
    (p : citem_t) (v : FIND_LEGIT_ITEMS_VISITOR) :
  item_at (body pFunction) wp = Some p ->
  (forall q, In q pending -> q = item_ptr p) ->
  marking pending v -> descended_whole (body pFunction) v ->
  marking [] (mark_descendants_once malloc_ok pFunction p v) /\
  descended_whole (body pFunction) (mark_descendants_once malloc_ok pFunction p v).
Proof.
  intros Hp HE Kv W. unfold mark_descendants_once.
  destruct (has (vectorDescendantsMarkedLegit v) p) eqn:Hd.
  - split; [|exact W]. destruct Kv as (F & I & D & Dv & Wd).
    split; [exact F|]. split; [exact I|]. split; [exact D|]. split; [exact Dv|].
    intros w x Hx Hin Hk. left. destruct (Wd w x Hx Hin Hk) as [H|H]; [exact H|].
    rewrite (HE _ H). now apply has_true_iff.
  - now apply (mark_descendants_whole pending wp).
Qed.

Lemma mark_opt_whole (o : option citem_t) (v : FIND_LEGIT_ITEMS_VISITOR) :
  (forall e, o = Some e -> exists w, item_at (body pFunction) w = Some e) ->
  marking [] v -> descended_whole (body pFunction) v ->
  marking [] (mark_opt malloc_ok pFunction o v) /\
  descended_whole (body pFunction) (mark_opt malloc_ok pFunction o v).
Proof.
  intros Ho Kv W. destruct o as [e|]; simpl; [|now split].
  destruct (Ho e eq_refl) as [w Hw].
  apply (mark_descendants_once_whole [] w); auto. intros q [].
Qed.

Lemma visit_legit_item_whole (w : where_t) (t : citem_t)
    (v : FIND_LEGIT_ITEMS_VISITOR) :
  item_at (body pFunction) w = Some t ->
  marking [] v -> descended_whole (body pFunction) v ->
  marking [] (visit_legit_item malloc_ok pFunction t v) /\
  descended_whole (body pFunction) (visit_legit_item malloc_ok pFunction t v).
Proof.
  intros Hat Kv W. unfold visit_legit_item.
  assert (Kid : forall i e, nth_error (kids t) i = Some e ->
                  item_at (body pFunction) (i :: w) = Some e)
    by (intros i e He; now rewrite item_at_cons, Hat).
  destruct (governing_expression t) as [e|] eqn:Ge; [|now split].
  assert (He : exists i, nth_error (kids t) i = Some e).
  { unfold governing_expression in Ge.
    destruct (item_op t); try discriminate; eauto. }
  destruct He as [i He].
  destruct (has (vectorDescendantsMarkedLegit v) e); [now split|].
  destruct (mark_descendants_whole [] (i :: w) e v (Kid i e He)
              (fun q (H : In q []) => match H with end) Kv W) as [K1 W1].
  destruct (ctype_eqb (item_op t) cit_for); [|now split].
  destruct (mark_opt_whole (for_init t) _
              (fun e0 H => ex_intro _ (O :: w) (Kid O e0 H)) K1 W1) as [K2 W2].
  exact (mark_opt_whole (for_step t) _
           (fun e0 H => ex_intro _ (2%nat :: w) (Kid 2%nat e0 H)) K2 W2).
Qed.

(** One round of the ancestor loop. *)
Lemma mark_ancestor_whole (w : where_t) (c : citem_t)
    (v : FIND_LEGIT_ITEMS_VISITOR) :
  item_at (body pFunction) w = Some c ->
  marking [] v -> descended_whole (body pFunction) v ->
  marking [] (mark_ancestor hexdsp malloc_ok pFunction c v) /\
  descended_whole (body pFunction) (mark_ancestor hexdsp malloc_ok pFunction c v).
Proof.
  intros Hc (F & I & D & Dv & Wd) W. unfold mark_ancestor.
  destruct (mark_item_spec c v) as (F1 & D1 & I1 & M1 & O1).
  destruct (mark_item_after pFunction c v I) as [[_ G] I'].
  assert (W1 : descended_whole (body pFunction) (mark_item c v)).
  { intros w1 x Hx Hin. rewrite D1 in *. now apply (W w1 x). }
  assert (Base : fInitialized (mark_item c v) = true /\
                 fliv_inv pFunction (mark_item c v) /\
                 descended_in_legit (mark_item c v) /\
                 descended_vars (body pFunction) (mark_item c v)).
  { split; [congruence|]. split; [exact I'|]. split.
    - unfold descended_in_legit. rewrite D1. eapply incl_tran; [exact D | exact I1].
    - intros w1 x Hx Hin Ho. rewrite D1 in Hin. apply G. now apply (Dv w1 x). }
  destruct Base as (Fb & Ib & Db & Vb).
  change (ctype_eqb (item_op c) cit_expr
          || (ctype_eqb (item_op c) cot_call && IsLegitimateCall hexdsp c)
          || ctype_eqb (item_op c) cit_return)
    with (marked_whole_kind hexdsp c).
  destruct (marked_whole_kind hexdsp c) eqn:T.
  - apply (mark_descendants_once_whole [item_ptr c] w c); auto.
    + intros q [<-|[]]. reflexivity.
    + split; [exact Fb|]. split; [exact Ib|]. split; [exact Db|].
      split; [exact Vb|].
      intros w1 x Hx Hin Hk. destruct (O1 _ Hin) as [H|H].
      * left. rewrite D1. destruct (Wd w1 x Hx H Hk) as [H'|[]]. exact H'.
      * right. left. now symmetry.
  - split; [|exact W1].
    split; [exact Fb|]. split; [exact Ib|]. split; [exact Db|].
    split; [exact Vb|].
    intros w1 x Hx Hin Hk. destruct (O1 _ Hin) as [H|H].
    + left. rewrite D1. destruct (Wd w1 x Hx H Hk) as [H'|[]]. exact H'.
    + assert (x = c) by (eapply same_address_same_item; eauto). subst x.
      congruence.
Qed.

Lemma mark_ancestors_whole (w : where_t) : forall t v,
  item_at (body pFunction) w = Some t ->
  marking [] v -> descended_whole (body pFunction) v ->
  marking [] (mark_ancestors hexdsp malloc_ok pFunction t w v) /\
  descended_whole (body pFunction)
    (mark_ancestors hexdsp malloc_ok pFunction t w v).
Proof.
  induction w as [|i w IH]; intros t v Hat Kv W; simpl.
  - now apply (mark_ancestor_whole []).
  - destruct (mark_ancestor_whole (i :: w) t v Hat Kv W) as [K1 W1].
    destruct (item_at_parent _ _ _ _ Hat) as (par & Hpar & _).
    rewrite Hpar. now apply IH.
Qed.

Lemma visit_item_scanning_whole (w : where_t) (t : citem_t)
    (v : FIND_LEGIT_ITEMS_VISITOR) :
  item_at (body pFunction) w = Some t -> scanning v ->
  scanning (fst (visit_item_scanning hexdsp malloc_ok pFunction w t v)).
Proof.
  intros Hat (I & D & Dv & Wd & W). unfold visit_item_scanning.
  destruct (ensure_initialized malloc_ok pFunction v) as [v1|] eqn:E;
    [|cbn [fst]; split; [exact I|]; split; [exact D|]; split; [exact Dv|];
      split; [exact Wd | exact W]].
  destruct (ensure_initialized_marks _ _ v v1 E) as (F1 & L1 & D1).
  destruct (ensure_initialized_after _ _ v v1 I E) as [[_ G] I1].
  assert (K1 : marking [] v1).
  { split; [exact F1|]. split; [exact I1|]. split.
    - unfold descended_in_legit. now rewrite L1, D1.
    - split.
      + intros w1 x Hx Hin Ho. rewrite D1 in Hin. apply G. now apply (Dv w1 x).
      + intros w1 x Hx Hin Hk. rewrite L1 in Hin. rewrite D1.
        now apply (Wd w1 x). }
  assert (W1 : descended_whole (body pFunction) v1).
  { intros w1 x Hx Hin. rewrite D1 in *. now apply (W w1 x). }
  assert (Fin : forall v', marking [] v' /\ descended_whole (body pFunction) v' ->
                           scanning v').
  { intros v' [(_ & I' & D' & Dv' & Wd') W'].
    split; [exact I'|]. split; [exact D'|]. split; [exact Dv'|].
    split; [exact Wd' | exact W']. }
  destruct (has (vectorLegitItems v1) t); cbn [fst].
  - apply Fin. now apply (visit_legit_item_whole w).
  - destruct (marks_ancestors hexdsp t v1); cbn [fst].
    + apply Fin. now apply mark_ancestors_whole.
    + apply Fin. now split.
Qed.

Lemma find_legit_pass_whole (v : FIND_LEGIT_ITEMS_VISITOR) :
  scanning v -> scanning (find_legit_pass hexdsp malloc_ok pFunction v).
Proof.
  intro Sv. unfold find_legit_pass.
  destruct (apply_to (visit_item_scanning hexdsp malloc_ok pFunction) []
              (body pFunction) (set_fNewLegitItemFound false v))
    as [v' b] eqn:E.
  assert (Hstep : forall w t v1 v1' r,
             item_at (body pFunction) w = Some t -> scanning v1 ->
             visit_item_scanning hexdsp malloc_ok pFunction w t v1 = (v1', r) ->
             match r with Stop => scanning v1' | _ => scanning v1' end).
  { intros w t v1 v1' r Hat S1 Ev.
    assert (scanning v1').
    { replace v1' with
        (fst (visit_item_scanning hexdsp malloc_ok pFunction w t v1))
        by (now rewrite Ev).
      now apply visit_item_scanning_whole. }
    now destruct r. }
  pose proof (apply_to_places _ (body pFunction) scanning scanning Hstep
                (body pFunction) [] (set_fNewLegitItemFound false v) v' b
                eq_refl Sv E) as R.
  cbn [fst]. now destruct b.
Qed.

Lemma find_legit_loop_whole (fuel : nat) : forall v v' k,
  scanning v ->
  find_legit_loop hexdsp malloc_ok pFunction fuel v = Some (v', k) ->
  scanning v'.
Proof.
  induction fuel as [|fuel IH]; intros v v' k Sv E; simpl in E; [discriminate|].
  pose proof (find_legit_pass_whole v Sv) as S1.
  destruct (fNewLegitItemFound (find_legit_pass hexdsp malloc_ok pFunction v)).
  - destruct (find_legit_loop hexdsp malloc_ok pFunction fuel
                (find_legit_pass hexdsp malloc_ok pFunction v))
      as [[v2 n]|] eqn:E2; [|discriminate].
    inversion E; subst. exact (IH _ _ _ S1 E2).
  - inversion E; subst. exact S1.
Qed.

Lemma scanning_marked_whole (v : FIND_LEGIT_ITEMS_VISITOR) (w : where_t)
    (t : citem_t) :
  scanning v -> item_at (body pFunction) w = Some t ->
  In (item_ptr t) (vectorDescendantsMarkedLegit v) -> marked_whole v t.
Proof.
  intros (I & D & Dv & Wd & W) Hat Hin.
  pose proof (W w t Hat Hin) as Ht. split.
  - eapply incl_tran; [exact Ht | exact D].
  - intros p x Hx Ho. apply (Dv (rev p ++ w) x); [| |exact Ho].
    + rewrite item_at_app, Hat, rev_involutive. exact Hx.
    + apply Ht. apply (get_ptrs_incl _ _ _ Hx), item_ptr_in_ptrs.
Qed.

Lemma find_legit_loop_marks_whole (fuel : nat) (v : FIND_LEGIT_ITEMS_VISITOR)
    (k : nat) (w : where_t) (t : citem_t) :
  find_legit_loop hexdsp malloc_ok pFunction fuel fliv_init = Some (v, k) ->
  item_at (body pFunction) w = Some t ->
  In (item_ptr t) (vectorLegitItems v) ->
  marked_whole_kind hexdsp t = true ->
  marked_whole v t.
Proof.
  intros E Hat Hin Hk.
  assert (S0 : scanning fliv_init).
  { split; [apply fliv_init_inv|]. split; [intros a []|].
    split; [intros w1 x _ []|]. split; [intros w1 x _ []|]. intros w1 x _ []. }
  pose proof (find_legit_loop_whole fuel _ _ _ S0 E) as Sv.
  apply (scanning_marked_whole v w t Sv Hat).
  destruct Sv as (_ & _ & _ & Wd & _).
  destruct (Wd w t Hat Hin Hk) as [H|[]]. exact H.
Qed.
(** The visit of a legitimate item leaves its expression in
    [vectorDescendantsMarkedLegit]. *)
Lemma visit_legit_item_descends (t e : citem_t) (v : FIND_LEGIT_ITEMS_VISITOR) :
  fInitialized v = true -> governing_expression t = Some e ->
  In (item_ptr e)
     (vectorDescendantsMarkedLegit (visit_legit_item malloc_ok pFunction t v)).
Proof.
  intros F Ge. unfold visit_legit_item. rewrite Ge.
  destruct (has (vectorDescendantsMarkedLegit v) e) eqn:Hd;
    [now apply has_true_iff|].
  assert (He : In (item_ptr e)
                 (vectorDescendantsMarkedLegit
                    (mark_descendants malloc_ok pFunction e v))).
  { unfold mark_descendants.
    destruct (apply_to_collects (visit_item_marking malloc_ok pFunction)
                (fun v0 => fInitialized v0 = true) vectorDescendantsMarkedLegit
                (fun w t v0 F0 => visit_item_marking_descends w t v0 F0) e [] v F)
      as (_ & _ & _ & P1 & _).
    apply P1, item_ptr_in_ptrs. }
  destruct (ctype_eqb (item_op t) cit_for); [|exact He].
  destruct (mark_opt_quiet_step malloc_ok pFunction (for_init t)
              (mark_descendants malloc_ok pFunction e v)) as [I1 _].
  destruct (mark_opt_quiet_step malloc_ok pFunction (for_step t)
              (mark_opt malloc_ok pFunction (for_init t)
                 (mark_descendants malloc_ok pFunction e v))) as [I2 _].
  apply I2, I1, He.
Qed.

(** After a round that found nothing new, the expression of every
    legitimate if/for/while/do/return is in
    [vectorDescendantsMarkedLegit]. *)
Lemma find_legit_pass_conditions (v : FIND_LEGIT_ITEMS_VISITOR) :
  malloc_ok = true -> scanning v ->
  fNewLegitItemFound (find_legit_pass hexdsp malloc_ok pFunction v) = false ->
  forall w t e,
    item_at (body pFunction) w = Some t ->
    In (item_ptr t)
       (vectorLegitItems (find_legit_pass hexdsp malloc_ok pFunction v)) ->
    governing_expression t = Some e ->
    In (item_ptr e)
       (vectorDescendantsMarkedLegit
          (find_legit_pass hexdsp malloc_ok pFunction v)).
Proof.
  intros M Sv F w t e Hat Hin Ge.
  rewrite (find_legit_pass_adds_nothing hexdsp malloc_ok pFunction v F) in Hin.
  unfold find_legit_pass.
  set (Inv := fun v0 : FIND_LEGIT_ITEMS_VISITOR =>
                scanning v0 /\ incl (vectorLegitItems v) (vectorLegitItems v0)).
  set (Post := fun (x : citem_t) (v0 : FIND_LEGIT_ITEMS_VISITOR) =>
                 In (item_ptr x) (vectorLegitItems v) ->
                 forall e0, governing_expression x = Some e0 ->
                   In (item_ptr e0) (vectorDescendantsMarkedLegit v0)).
  assert (Go : forall w t v0,
             snd (visit_item_scanning hexdsp malloc_ok pFunction w t v0) = Continue)
    by (intros; rewrite M; apply visit_item_scanning_continue).
  assert (Hinv : forall w t v0, item_at (body pFunction) w = Some t -> Inv v0 ->
             Inv (fst (visit_item_scanning hexdsp malloc_ok pFunction w t v0))).
  { intros w1 t1 v0 H1 [S0 I0]. split; [now apply visit_item_scanning_whole|].
    destruct S0 as (I & _).
    destruct (visit_item_scanning_after hexdsp malloc_ok pFunction w1 t1 v0 I)
      as [[[l El] _] _].
    rewrite El. now apply incl_appl. }
  assert (Hpost : forall w t v0, item_at (body pFunction) w = Some t -> Inv v0 ->
             Post t (fst (visit_item_scanning hexdsp malloc_ok pFunction w t v0))).
  { intros w1 t1 v0 H1 [S0 I0] Hl e0 Ge0. unfold visit_item_scanning.
    destruct (ensure_initialized malloc_ok pFunction v0) as [v1|] eqn:E.
    - destruct (ensure_initialized_marks _ _ v0 v1 E) as (F1 & L1 & _).
      assert (Hh : has (vectorLegitItems v1) t1 = true)
        by (apply has_true_iff; rewrite L1; now apply I0).
      rewrite Hh. cbn [fst]. now apply visit_legit_item_descends.
    - unfold ensure_initialized, Initialize in E. rewrite M in E.
      destruct (fInitialized v0); discriminate E. }
  assert (Hstable : forall w t x v0, item_at (body pFunction) w = Some t ->
             Inv v0 -> Post x v0 ->
             Post x (fst (visit_item_scanning hexdsp malloc_ok pFunction w t v0))).
  { intros w1 t1 x v0 _ _ P0 Hl e0 Ge0.
    destruct (visit_item_scanning_quiet_step hexdsp malloc_ok pFunction w1 t1 v0)
      as [I1 _].
    apply I1. now apply P0. }
  assert (I0 : Inv (set_fNewLegitItemFound false v))
    by (split; [exact Sv | apply incl_refl]).
  exact (apply_to_visits_all _ (body pFunction) Inv Post Go Hinv Hpost Hstable
           (body pFunction) [] _ eq_refl I0 (rev w) t Hat Hin e Ge).
Qed.

Lemma find_legit_loop_last (fuel : nat) : forall v v' k,
  scanning v ->
  find_legit_loop hexdsp malloc_ok pFunction fuel v = Some (v', k) ->
  exists vp,
    scanning vp /\
    v' = find_legit_pass hexdsp malloc_ok pFunction vp /\
    fNewLegitItemFound v' = false.
Proof.
  induction fuel as [|fuel IH]; intros v v' k Sv E; simpl in E; [discriminate|].
  pose proof (find_legit_pass_whole v Sv) as S1.
  destruct (fNewLegitItemFound (find_legit_pass hexdsp malloc_ok pFunction v))
    eqn:F.
  - destruct (find_legit_loop hexdsp malloc_ok pFunction fuel
                (find_legit_pass hexdsp malloc_ok pFunction v))
      as [[v2 n]|] eqn:E2; [|discriminate].
    inversion E; subst. exact (IH _ _ _ S1 E2).
  - inversion E; subst. exists v. split; [exact Sv|]. split; [reflexivity | exact F].
Qed.

Lemma find_legit_loop_marks_conditions (fuel : nat)
    (v : FIND_LEGIT_ITEMS_VISITOR) (k : nat) (w : where_t) (t e : citem_t) :
  find_legit_loop hexdsp malloc_ok pFunction fuel fliv_init = Some (v, k) ->
  item_at (body pFunction) w = Some t ->
  In (item_ptr t) (vectorLegitItems v) ->
  governing_expression t = Some e ->
  marked_whole v e.
Proof.
  intros E Hat Hin Ge.
  destruct (Bool.bool_dec malloc_ok true) as [M|M].
  - assert (S0 : scanning fliv_init).
    { split; [apply fliv_init_inv|]. split; [intros a []|].
      split; [intros w1 x _ []|]. split; [intros w1 x _ []|]. intros w1 x _ []. }
    destruct (find_legit_loop_last fuel _ _ _ S0 E) as (vp & Sp & Ev & F).
    subst v.
    pose proof (find_legit_pass_conditions vp M Sp F w t e Hat Hin Ge) as He.
    assert (Hi : exists i, nth_error (kids t) i = Some e).
    { unfold governing_expression in Ge.
      destruct (item_op t); try discriminate; eauto. }
    destruct Hi as [i Hi].
    apply (scanning_marked_whole _ (i :: w) e (find_legit_pass_whole vp Sp));
      [|exact He].
    now rewrite item_at_cons, Hat.
  - apply Bool.not_true_is_false in M. rewrite M in E.
    destruct fuel as [|fuel]; [discriminate E|].
    rewrite find_legit_loop_no_memory in E. inversion E; subst.
    destruct Hin.
Qed.
End FindLegitWhole.

(** X16.  In a function whose items have distinct addresses and whose
    [cot_var] items name variables of the function, the marking loop
    marks an expression statement, a legitimate call and a return as a
    whole: when such an item is in the [vectorLegitItems] the loop
    returns, so is every item below it, and [afVariableIsLegit] is set
    for every variable referred to below it. *)
Theorem legit_statements_are_marked_whole (hexdsp : hexdsp_t) (malloc_ok : bool)
    (pFunction : cfunc_t) (fuel : nat) (v : FIND_LEGIT_ITEMS_VISITOR) (k : nat)
    (w : where_t) (t : citem_t) :
  NoDup (ptrs (body pFunction)) ->
  vars_in_range pFunction = true ->
  find_legit_loop hexdsp malloc_ok pFunction fuel fliv_init = Some (v, k) ->
  item_at (body pFunction) w = Some t ->
  In (item_ptr t) (vectorLegitItems v) ->
  marked_whole_kind hexdsp t = true ->
  marked_whole v t.
Proof.
  intros ND Vr E Hat Hin Hk.
  exact (find_legit_loop_marks_whole hexdsp malloc_ok pFunction ND Vr fuel v k w t
           E Hat Hin Hk).
Qed.

Lemma legit_statements_are_marked_whole_witness :
  exists v k,
    find_legit_loop sample_hexdsp true nested_label_function 8 fliv_init
    = Some (v, k) /\
    marked_whole v (call_stmt 11 20).
Proof.
  assert (E : { r | find_legit_loop sample_hexdsp true nested_label_function 8
                      fliv_init = Some r }) by (eexists; vm_compute; reflexivity).
  destruct E as [[v k] E]. exists v, k. split; [exact E|].
  apply (legit_statements_are_marked_whole sample_hexdsp true
           nested_label_function 8 v k [1%nat] (call_stmt 11 20));
    [| |exact E| | |].
  - vm_compute. repeat constructor; simpl; intuition discriminate.
  - vm_compute. reflexivity.
  - reflexivity.
  - vm_compute in E. inversion E. simpl. intuition.
  - vm_compute. reflexivity.
Defined.

(** X17.  In a function whose items have distinct addresses and whose
    [cot_var] items name variables of the function, the marking loop
    marks the expression of a legitimate if, for, while, do or return as
    a whole:
    when such a statement is in the [vectorLegitItems] the loop returns,
    so is every item of its expression (the condition of a for), and
    [afVariableIsLegit] is set for every variable the expression refers
    to. *)
Theorem legit_conditions_are_marked_whole (hexdsp : hexdsp_t) (malloc_ok : bool)
    (pFunction : cfunc_t) (fuel : nat) (v : FIND_LEGIT_ITEMS_VISITOR) (k : nat)
    (w : where_t) (t e : citem_t) :
  NoDup (ptrs (body pFunction)) ->
  vars_in_range pFunction = true ->
  find_legit_loop hexdsp malloc_ok pFunction fuel fliv_init = Some (v, k) ->
  item_at (body pFunction) w = Some t ->
  In (item_ptr t) (vectorLegitItems v) ->
  governing_expression t = Some e ->
  marked_whole v e.
Proof.
  intros ND Vr E Hat Hin Ge.
  exact (find_legit_loop_marks_conditions hexdsp malloc_ok pFunction ND Vr fuel
           v k w t e E Hat Hin Ge).
Qed.

Lemma legit_conditions_are_marked_whole_witness :
  exists v k,
    find_legit_loop sample_hexdsp true goto_function 8 fliv_init = Some (v, k) /\
    marked_whole v (var_ref 3 0).
Proof.
  assert (E : { r | find_legit_loop sample_hexdsp true goto_function 8 fliv_init
                    = Some r }) by (eexists; vm_compute; reflexivity).
  destruct E as [[v k] E]. exists v, k. split; [exact E|].
  apply (legit_conditions_are_marked_whole sample_hexdsp true goto_function 8
           v k [O] (item 2 cit_if 10 (-1)
                      [ var_ref 3 0; item 4 cit_block 11 (-1) [ goto_stmt 5 12 5 ] ])
           (var_ref 3 0));
    [| |exact E| | |].
  - vm_compute. repeat constructor; simpl; intuition discriminate.
  - vm_compute. reflexivity.
  - reflexivity.
  - vm_compute in E. inversion E. simpl. intuition.
  - reflexivity.
Defined.

(** X18.  [Detox] leaves alone the variables of what it keeps whole.
    In a function whose items have distinct addresses and whose
    [cot_var] items name variables of the function, take an item of the
    [vectorLegitItems] the marking loop returns: if it is an expression
    statement, a legitimate call or a return, every variable referred
    to below it, and if it is an if, for, while, do or return, every
    variable its expression refers to, is in the function [Detox]
    returns what it was before, its [CVAR_USED] flag included. *)
Theorem Detox_keeps_marked_variables (hexdsp : hexdsp_t) (malloc_ok : bool)
    (fuel : nat) (f f' : cfunc_t) :
  NoDup (ptrs (body f)) ->
  vars_in_range f = true ->
  Detox hexdsp malloc_ok fuel f = Returns f' ->
  exists fliv n,
    find_legit_loop hexdsp malloc_ok f fuel fliv_init = Some (fliv, n) /\
    forall w t e p x,
      item_at (body f) w = Some t ->
      In (item_ptr t) (vectorLegitItems fliv) ->
      (marked_whole_kind hexdsp t = true /\ e = t) \/
      governing_expression t = Some e ->
      get e p = Some x -> item_op x = cot_var ->
      nth_error (lvars f') (v_idx (hdr x)) = nth_error (lvars f) (v_idx (hdr x)).
Proof.
  intros ND Vr. unfold Detox. intro E.
  destruct (find_legit_loop hexdsp malloc_ok f fuel fliv_init)
    as [[fliv n]|] eqn:EL; [|discriminate].
  exists fliv, n. split; [reflexivity|].
  intros w t e p x Hat Hin Hor Hx Ho.
  assert (MW : marked_whole fliv e).
  { destruct Hor as [[Hk ->]|Ge].
    - exact (find_legit_loop_marks_whole hexdsp malloc_ok f ND Vr fuel fliv n
               w t EL Hat Hin Hk).
    - exact (find_legit_loop_marks_conditions hexdsp malloc_ok f ND Vr fuel
               fliv n w t e EL Hat Hin Ge). }
  destruct MW as [_ Mv]. pose proof (Mv p x Hx Ho) as Hv.
  destruct (prune_loop (vectorLegitItems fliv) fuel fuel (piv_init (body f)))
    as [[piv k]|]; [|discriminate].
  destruct (lvars f) as [|x0 vars] eqn:EV.
  - inversion E; subst; simpl. reflexivity.
  - destruct (afVariableIsLegit fliv) as [af|] eqn:Ea; [|discriminate].
    injection E as E. subst f'.
    change (nth_error (clear_unused af O (x0 :: vars)) (v_idx (hdr x))
            = nth_error (x0 :: vars) (v_idx (hdr x))).
    unfold var_is_legit in Hv. rewrite Ea in Hv.
    destruct (nth_error (x0 :: vars) (v_idx (hdr x))) as [y|] eqn:Hy.
    + rewrite (clear_unused_nth af (x0 :: vars) O _ y Hy). simpl.
      now rewrite Hv.
    + apply nth_error_None. rewrite clear_unused_length.
      now apply nth_error_None.
Qed.

Lemma Detox_keeps_marked_variables_witness :
  exists f',
    Detox sample_hexdsp true 8 goto_function = Returns f' /\
    nth_error (lvars f') O = nth_error (lvars goto_function) O.
Proof.
  assert (E : { f' | Detox sample_hexdsp true 8 goto_function = Returns f' })
    by (eexists; vm_compute; reflexivity).
  destruct E as [f' E]. exists f'. split; [exact E|].
  destruct (Detox_keeps_marked_variables sample_hexdsp true 8 goto_function f')
    as (fliv & n & EL & H); [| |exact E|].
  - vm_compute. repeat constructor; simpl; intuition discriminate.
  - vm_compute. reflexivity.
  - apply (H [O] (item 2 cit_if 10 (-1)
                    [ var_ref 3 0; item 4 cit_block 11 (-1) [ goto_stmt 5 12 5 ] ])
             (var_ref 3 0) [] (var_ref 3 0)).
    + reflexivity.
    + vm_compute in EL. inversion EL. simpl. intuition.
    + right. reflexivity.
    + reflexivity.
    + reflexivity.
Defined.
